(** * AllJoyn core: the ECC math layer (common/src/CryptoECCMath.cc) and the
      message routing rule table (alljoyn_core/router/RuleTable.h)

    A shallow embedding of the big-number engine, the point arithmetic and
    the binary encodings of CryptoECCMath.cc, and of the rule table, with the
    properties the specification states about them.

    Conventions of the embedding.
    - C integers are [Z]; every C operation that can wrap is written with its
      wrap-around ([u8], [u32], [u64] for the unsigned types, [s32], [s64] for
      the signed ones); the proofs show where the wrap is the identity.
    - A C array is a [list Z]; [a[i] = x] is [upd a i x], [a[i]] is [nth i a 0].
    - [for] loops with a known trip count are [for_range] / [for_down];
      [while] loops whose trip count depends on the data take a [fuel] and
      return [None] when it runs out.
    - Functions that write through a [tgt] pointer return the new value.  Every
      word loop of the source reads index [i] of its arguments before it
      writes index [i] of the target and never reads a lower index again, so
      the calls of the source that alias [tgt] with an argument compute the
      same value as the pure function. *)

From Stdlib Require Import ZArith List Lia Bool Znumtheory Setoid Morphisms.
From Stdlib Require String.
From Bignums Require Import BigZ.BigZ.
Import ListNotations.
Local Open Scope Z_scope.

(* ===================================================================== *)
(** * Part I: the embedding                                               *)
(* ===================================================================== *)

(** ** Machine integers *)

Definition u8 (x : Z) : Z := x mod 2 ^ 8.
Definition u32 (x : Z) : Z := x mod 2 ^ 32.
Definition u64 (x : Z) : Z := x mod 2 ^ 64.
Definition s32 (x : Z) : Z := (x + 2 ^ 31) mod 2 ^ 32 - 2 ^ 31.
Definition s64 (x : Z) : Z := (x + 2 ^ 63) mod 2 ^ 64 - 2 ^ 63.

(** ** Arrays and loops *)

(** [a[i] = x]; a write outside the array (undefined in C) changes nothing. *)
Fixpoint upd (l : list Z) (i : nat) (x : Z) : list Z :=
  match l, i with
  | [], _ => []
  | _ :: t, O => x :: t
  | h :: t, S i' => h :: upd t i' x
  end.

(** [for (i = lo; i < lo + n; ++i) body] *)
Fixpoint for_range {S : Type} (lo n : nat) (body : nat -> S -> S) (s : S) : S :=
  match n with
  | O => s
  | Datatypes.S n' => for_range (Datatypes.S lo) n' body (body lo s)
  end.

(** [for (i = lo + n - 1; i >= lo; --i) body] *)
Fixpoint for_down {S : Type} (lo n : nat) (body : nat -> S -> S) (s : S) : S :=
  match n with
  | O => s
  | Datatypes.S n' => for_down lo n' body (body (lo + n')%nat s)
  end.

(** [while (cond) body], with fuel; the body may itself run out of fuel. *)
Fixpoint while_loop {S : Type} (fuel : nat) (cond : S -> bool)
    (body : S -> option S) (s : S) : option S :=
  match fuel with
  | O => None
  | Datatypes.S f =>
      if cond s then
        match body s with
        | Some s' => while_loop f cond body s'
        | None => None
        end
      else Some s
  end.

(** ** The big number type *)

(** Modelled from the spec: [BIGLEN] and [MSW] are macros of the header
    qcc/CryptoECCMath.h, which is not among the sources; the specification
    gives "a fixed-length sequence of 9 32-bit unsigned words (one word wider
    than the 256-bit modulus)". *)
Definition BIGLEN : nat := 9.
Definition MSW : nat := 8.

(** [typedef struct { uint32_t data[BIGLEN]; } bigval_t;] *)
Record bigval_t : Type := mkbig { data : list Z }.

Definition word (a : bigval_t) (i : nat) : Z := nth i (data a) 0.

(** A well-formed [bigval_t]: [BIGLEN] words, each a [uint32_t]. *)
Definition wf_bigval (a : bigval_t) : Prop :=
  length (data a) = BIGLEN /\ Forall (fun x => 0 <= x < 2 ^ 32) (data a).

(** The value of a little-endian sequence of 32-bit words. *)
Fixpoint lval (l : list Z) : Z :=
  match l with
  | [] => 0
  | x :: t => x + 2 ^ 32 * lval t
  end.

(** The words read as an unsigned number, and as the two's complement number
    the source takes a [bigval_t] to be. *)
Definition uval (a : bigval_t) : Z := lval (data a).
Definition sval (a : bigval_t) : Z :=
  if 2 ^ 31 <=? word a MSW then uval a - 2 ^ 288 else uval a.

(** Modelled from the spec: the macro [big_is_negative] of the absent header;
    the source describes the most significant word as two's complement
    ("most significant word is treated as 2's complement"). *)
Definition big_is_negative (a : bigval_t) : bool := s32 (word a MSW) <? 0.

(** Modelled from the spec: the constants [big_zero], [big_one], [modulusP]
    and [orderP] are defined outside the sources.  [modulusP] is the NIST
    P-256 prime, the one [big_adjustP] adds multiples of; [orderP] is the
    order of the curve, the number [orderDBL256] holds in redundant form. *)
Definition big_zero : bigval_t := mkbig [0; 0; 0; 0; 0; 0; 0; 0; 0].
Definition big_one : bigval_t := mkbig [1; 0; 0; 0; 0; 0; 0; 0; 0].
Definition modulusP : bigval_t :=
  mkbig [0xffffffff; 0xffffffff; 0xffffffff; 0x00000000; 0x00000000;
         0x00000000; 0x00000001; 0xffffffff; 0x00000000].
Definition orderP : bigval_t :=
  mkbig [0xfc632551; 0xf3b9cac2; 0xa7179e84; 0xbce6faad; 0xffffffff;
         0xffffffff; 0x00000000; 0xffffffff; 0x00000000].

(** The curve modulus and the curve order as numbers. *)
Definition p256 : Z := 2 ^ 256 - 2 ^ 224 + 2 ^ 192 + 2 ^ 96 - 1.
Definition n256 : Z :=
  0xffffffff00000000ffffffffffffffffbce6faada7179e84f3b9cac2fc632551.

(** ** The big number engine *)

(** The pointers to a modulus that [big_precise_reduce] and [big_divide]
    receive: the source compares such a pointer with [&modulusP], so the
    identity of the object matters and not only its value. *)
Inductive modulus_ref : Type :=
  | REF_modulusP
  | REF_orderP
  | REF_other (m : bigval_t).

Definition deref (r : modulus_ref) : bigval_t :=
  match r with
  | REF_modulusP => modulusP
  | REF_orderP => orderP
  | REF_other m => m
  end.

Definition is_modulusP (r : modulus_ref) : bool :=
  match r with
  | REF_modulusP => true
  | _ => false
  end.

(** [typedef enum { MOD_MODULUS, MOD_ORDER } modulus_val_t;] *)
Inductive modulus_val_t : Type := MOD_MODULUS | MOD_ORDER.

(** The words of a target before a loop writes them.  Every word loop below
    writes all [BIGLEN] words, so the previous content does not matter. *)
Definition fresh : list Z := repeat 0 BIGLEN.

(** [#define big_is_odd(tgt) ((tgt)->data[0] & 1)] *)
Definition big_is_odd (a : bigval_t) : bool := negb (Z.land (word a 0) 1 =? 0).

(** [for (i = lo; i < lo + n; ++i) if (a->data[i] != 0) return B_FALSE;
    return B_TRUE;] *)
Fixpoint all_zero_from (lo n : nat) (a : bigval_t) : bool :=
  match n with
  | O => true
  | S n' => if negb (word a lo =? 0) then false else all_zero_from (S lo) n' a
  end.

Definition big_is_zero (a : bigval_t) : bool := all_zero_from 0 BIGLEN a.

Definition big_is_one (a : bigval_t) : bool :=
  if negb (word a 0 =? 1) then false else all_zero_from 1 (BIGLEN - 1) a.

(** [static void big_adjustP(bigval_t* tgt, bigval_t const* a, int64_t k)] *)
Definition RDCSTEP (a : bigval_t) (i : nat) (adj : Z) (st : list Z * Z)
    : list Z * Z :=
  let '(tgt, w) := st in
  let w := s64 (w + word a i) in
  let w := s64 (w + adj) in
  (upd tgt i (u32 (s32 w)), Z.shiftr w 32).

Definition big_adjustP (a : bigval_t) (k : Z) : bigval_t :=
  if negb (k =? 0) then
    let st := (fresh, 0) in
    let st := RDCSTEP a 0 (s64 (- k)) st in
    let st := RDCSTEP a 1 0 st in
    let st := RDCSTEP a 2 0 st in
    let st := RDCSTEP a 3 k st in
    let st := RDCSTEP a 4 0 st in
    let st := RDCSTEP a 5 0 st in
    let st := RDCSTEP a 6 k st in
    let st := RDCSTEP a 7 (s64 (- k)) st in
    let st := RDCSTEP a 8 k st in
    mkbig (fst st)
  else a.

(** [#define big_approx_reduceP(tgt, src)
       big_adjustP(tgt, src, -(int64_t)(int32_t)(src)->data[MSW])] *)
Definition big_approx_reduceP (src : bigval_t) : bigval_t :=
  big_adjustP src (s64 (- s32 (word src MSW))).

(** [static void big_1wd_mpy(bigval_t* tgt, bigval_t const* a, int32_t k)] *)
Definition big_1wd_mpy (a : bigval_t) (k : Z) : bigval_t :=
  mkbig (fst (for_range 0 (MSW + 1) (fun j '(tgt, w) =>
    let prod := s64 (k * word a j) in
    let tmp := s64 (w + prod) in
    let w := tmp in
    let tj := u32 w in
    let w := s64 (w - tj) in
    (upd tgt j tj, Z.shiftr w 32)) (fresh, 0))).

(** [void big_add(bigval_t* tgt, bigval_t const* a, bigval_t const* b)] *)
Definition big_add (a b : bigval_t) : bigval_t :=
  mkbig (fst (for_range 0 BIGLEN (fun i '(tgt, v) =>
    let v := u64 (v + word a i) in
    let v := u64 (v + word b i) in
    (upd tgt i (u32 v), Z.shiftr v 32)) (fresh, 0))).

Definition big_addP (a b : bigval_t) : bigval_t :=
  big_approx_reduceP (big_add a b).

(** [static void big_sub(bigval_t* tgt, bigval_t const* a, bigval_t const* b)] *)
Definition big_sub (a b : bigval_t) : bigval_t :=
  mkbig (fst (for_range 0 BIGLEN (fun i '(tgt, v) =>
    let v := u64 (v + word a i) in
    let v := u64 (v + u64 (u32 (Z.lnot (word b i)))) in
    (upd tgt i (u32 v), Z.shiftr v 32)) (fresh, 1))).

Definition big_subP (a b : bigval_t) : bigval_t :=
  big_approx_reduceP (big_sub a b).

(** [for (i = n - 1; i >= 0; --i)] of [big_cmp], with its early returns. *)
Fixpoint big_cmp_words (n : nat) (a b : bigval_t) : Z :=
  match n with
  | O => 0
  | S i =>
      if word a i >? word b i then 1
      else if word a i <? word b i then -1
      else big_cmp_words i a b
  end.

Definition big_cmp (a b : bigval_t) : Z :=
  if s32 (word a MSW) >? s32 (word b MSW) then 1
  else if s32 (word a MSW) <? s32 (word b MSW) then -1
  else big_cmp_words MSW a b.

(** [void big_precise_reduce(bigval_t* tgt, bigval_t const* a,
                             bigval_t const* modulus)] *)
Definition precise_reduce_step (modulus : modulus_ref) (src : bigval_t)
    : bigval_t :=
  if negb (is_modulusP modulus) then
    let tmp := big_1wd_mpy (deref modulus) (s32 (word src MSW)) in
    big_sub src tmp
  else
    big_adjustP src (s64 (- s32 (word src MSW))).

Definition big_precise_reduce (fuel : nat) (a : bigval_t)
    (modulus : modulus_ref) : option bigval_t :=
  match
    while_loop fuel (fun src => negb (s32 (word src MSW) =? 0))
      (fun src => Some (precise_reduce_step modulus src)) a
  with
  | None => None
  | Some src =>
      match
        while_loop fuel (fun src => big_cmp src (deref modulus) >=? 0)
          (fun src => Some (big_sub src (deref modulus))) src
      with
      | None => None
      | Some src =>
          while_loop fuel (fun src => s32 (word src MSW) <? 0)
            (fun src => Some (big_add src (deref modulus))) src
      end
  end.

(** [static void big_halve(bigval_t* tgt, bigval_t const* a)] *)
Definition big_halve (a : bigval_t) : bigval_t :=
  let shiftval := Z.land (word a MSW) 1 in
  let tgt := upd fresh MSW (u32 (Z.shiftr (s32 (word a MSW)) 1)) in
  mkbig (fst (for_down 0 MSW (fun i '(tgt, shiftval) =>
    let new_shiftval := Z.land (word a i) 1 in
    (upd tgt i (Z.lor (Z.shiftr (word a i) 1) (u32 (Z.shiftl shiftval 31))),
     new_shiftval)) (tgt, shiftval))).

(** [static void big_halveP(bigval_t* tgt, bigval_t const* a)] *)
Definition big_halveP (a : bigval_t) : bigval_t :=
  if negb (Z.land (word a 0) 1 =? 0) then big_halve (big_adjustP a 1)
  else big_halve a.

(** [void big_divide(bigval_t* tgt, bigval_t const* num, bigval_t const* den,
                     bigval_t const* modulus)].  The state of the loop is
    [(u, v, x1, x2)]. *)
Definition divide_state : Type := (bigval_t * bigval_t * bigval_t * bigval_t)%type.

(** [while (!big_is_odd(&u)) { big_halve(&u, &u);
      if (big_is_odd(&x)) big_add(&x, &x, modulus); big_halve(&x, &x); }] *)
Definition halve_while_even (fuel : nat) (modulus : bigval_t)
    (ux : bigval_t * bigval_t) : option (bigval_t * bigval_t) :=
  while_loop fuel (fun '(u, x) => negb (big_is_odd u))
    (fun '(u, x) =>
       let u := big_halve u in
       let x := if big_is_odd x then big_add x modulus else x in
       Some (u, big_halve x)) ux.

Definition divide_body (fuel : nat) (modulus : bigval_t) (st : divide_state)
    : option divide_state :=
  let '(u, v, x1, x2) := st in
  match halve_while_even fuel modulus (u, x1) with
  | None => None
  | Some (u, x1) =>
      match halve_while_even fuel modulus (v, x2) with
      | None => None
      | Some (v, x2) =>
          if big_cmp u v >=? 0 then Some (big_sub u v, v, big_sub x1 x2, x2)
          else Some (u, big_sub v u, x1, big_sub x2 x1)
      end
  end.

(** [while (!big_is_one(&u) && !big_is_one(&v)) { ... }], from the initial
    [u = *den; v = *modulus; x1 = *num; x2 = big_zero;]. *)
Definition divide_continues (st : divide_state) : bool :=
  let '(u, v, x1, x2) := st in negb (big_is_one u) && negb (big_is_one v).

Definition divide_loop (fuel : nat) (num den : bigval_t) (modulus : modulus_ref)
    : option divide_state :=
  while_loop fuel divide_continues (divide_body fuel (deref modulus))
    (den, deref modulus, num, big_zero).

Definition big_divide (fuel : nat) (num den : bigval_t) (modulus : modulus_ref)
    : option bigval_t :=
  match divide_loop fuel num den modulus with
  | None => None
  | Some (u, v, x1, x2) =>
      if big_is_one u then big_precise_reduce fuel x1 modulus
      else big_precise_reduce fuel x2 modulus
  end.

(** [static void big_triple(bigval_t* tgt, bigval_t const* a)] *)
Definition big_triple (a : bigval_t) : bigval_t :=
  mkbig (fst (for_range 0 BIGLEN (fun i '(tgt, accum) =>
    let accum := u64 (accum + word a i) in
    let accum := u64 (accum + word a i) in
    let accum := u64 (accum + word a i) in
    (upd tgt i (u32 accum), Z.shiftr accum 32)) (fresh, 0))).

(** ** Multiplication *)

(** [static dblbigval_t const orderDBL256]: the order of the curve with
    64-bit signed words, in the redundant form the source writes. *)
Definition orderDBL : list Z :=
  [0xfc632551 - 0x100000000;
   0xf3b9cac2 - 0x100000000 + 1;
   0xa7179e84 - 0x100000000 + 1;
   0xbce6faad - 0x100000000 + 1;
   0xffffffff - 0x100000000 + 1;
   0xffffffff - 0x100000000 + 1;
   0x00000000 + 0x1;
   0xffffffff - 0x100000000;
   0x00000000 + 1].

(** [(sum, carry) += a * b]; the state is [(cumcarry, sum)], an [int] and a
    [uint64_t]. *)
Definition mpy_accum (st : Z * Z) (a b : Z) : Z * Z :=
  let '(cumcarry, sum) := st in
  let product := u64 (u64 a * u64 b) in
  let lsum := sum in
  let lsum := u64 (lsum + product) in
  let cumcarry := if lsum <? product then s32 (cumcarry + 1) else cumcarry in
  (cumcarry, lsum).

(** [(sum, carry) += 2 * a * b] *)
Definition mpy_accum_dbl (st : Z * Z) (a b : Z) : Z * Z :=
  let '(cumcarry, sum) := st in
  let product := u64 (u64 a * u64 b) in
  let lsum := sum in
  let lsum := u64 (lsum + product) in
  let cumcarry := if lsum <? product then s32 (cumcarry + 1) else cumcarry in
  let lsum := u64 (lsum + product) in
  let cumcarry := if lsum <? product then s32 (cumcarry + 1) else cumcarry in
  (cumcarry, lsum).

(** The unrolled inner loop.  [ap] and [bp] are the indices in [a->data] and
    [b->data] the two pointers of the source refer to.  [accum_from t] is the
    code from [case 8 - t] to the end of the [switch]:
    [ACC(ap - t, bp + t); ...; ACC(ap - 0, bp + 0)]. *)
Fixpoint accum_from (ACC : Z * Z -> Z -> Z -> Z * Z) (a b : bigval_t)
    (ap bp : Z) (t : nat) (st : Z * Z) : Z * Z :=
  let st :=
    ACC st (word a (Z.to_nat (ap - Z.of_nat t)))
           (word b (Z.to_nat (bp + Z.of_nat t))) in
  match t with
  | O => st
  | S t' => accum_from ACC a b ap bp t' st
  end.

(** [switch (sel) { case 0: ... case 8: ... }]: no case is taken for any
    other value of [sel]. *)
Definition switch_accum (ACC : Z * Z -> Z -> Z -> Z * Z) (a b : bigval_t)
    (ap bp : Z) (sel : Z) (st : Z * Z) : Z * Z :=
  if (0 <=? sel) && (sel <=? 8) then
    accum_from ACC a b ap bp (Z.to_nat (8 - sel)) st
  else st.

(** [a_words = n; while (a_words > 1 && a->data[a_words - 1] == 0) --a_words;] *)
Fixpoint count_words (n : nat) (a : bigval_t) : nat :=
  match n with
  | O => O
  | S n' => if (1 <? n)%nat && (word a n' =? 0) then count_words n' a else n
  end.

(** The state of the multiplication loops: the array [w] of [2 * BIGLEN]
    64-bit signed words, [u_accum] and [cum_carry]. *)
Definition mpy_state : Type := (list Z * Z * Z)%type.

(** [w[i] = u_accum & 0xffffffffULL;
     u_accum = (u_accum >> 32) + ((uint64_t)cum_carry << 32);
     cum_carry = 0;] *)
Definition mpy_store (i : nat) (st : mpy_state) : mpy_state :=
  let '(w, u_accum, cum_carry) := st in
  (upd w i (s64 (Z.land u_accum 0xffffffff)),
   u64 (Z.shiftr u_accum 32 + u64 (Z.shiftl (u64 cum_carry) 32)),
   0).

(** One output word of the normal multiplication. *)
Definition mpy_column (a b : bigval_t) (a_words b_words : Z) (i : nat)
    (st : mpy_state) : mpy_state :=
  let '(w, u_accum, cum_carry) := st in
  let maxj := Z.min (b_words - 1) (Z.of_nat i) in
  let minj := Z.max 0 (Z.of_nat i - a_words + 1) in
  let '(cum_carry, u_accum) :=
    switch_accum mpy_accum a b (Z.of_nat i - minj) minj (8 - (maxj - minj))
      (cum_carry, u_accum) in
  mpy_store i (w, u_accum, cum_carry).

(** One output word of the squaring. *)
Definition sqr_column (a : bigval_t) (a_words : Z) (i : nat) (st : mpy_state)
    : mpy_state :=
  let '(w, u_accum, cum_carry) := st in
  let maxj := Z.min (a_words - 1) (Z.of_nat i) in
  let maxj := Z.min maxj (Z.shiftr (Z.of_nat i - 1) 1) in
  let minj := Z.max 0 (Z.of_nat i - a_words + 1) in
  let acc :=
    switch_accum mpy_accum_dbl a a (Z.of_nat i - minj) minj (8 - (maxj - minj))
      (cum_carry, u_accum) in
  let '(cum_carry, u_accum) :=
    if Z.land (Z.of_nat i) 1 =? 0 then
      mpy_accum acc (word a (Z.to_nat (maxj + 1))) (word a (Z.to_nat (maxj + 1)))
    else acc in
  mpy_store i (w, u_accum, cum_carry).

(** The first part of [big_mpyP]: the product of the words of [a] and [b]
    read as unsigned numbers, in the [2 * BIGLEN] words of [w].  [same] says
    that [a] and [b] are the same object ([a == b] in the source), which
    selects the squaring loop. *)
Definition mpy_unsigned (a b : bigval_t) (same : bool) : list Z :=
  let w := repeat 0 (2 * BIGLEN) in
  let a_words := count_words BIGLEN a in
  let u_accum := 0 in
  let cum_carry := 0 in
  let '(n, st) :=
    if negb same then
      let b_words := count_words BIGLEN b in
      ((a_words + b_words - 1)%nat,
       for_range 0 (a_words + b_words - 1)
         (mpy_column a b (Z.of_nat a_words) (Z.of_nat b_words))
         (w, u_accum, cum_carry))
    else
      ((2 * a_words - 1)%nat,
       for_range 0 (2 * a_words - 1) (sqr_column a (Z.of_nat a_words))
         (w, u_accum, cum_carry)) in
  (* propagate any residual to next to end of array *)
  let '(w, u_accum, cum_carry) :=
    for_range n (2 * BIGLEN - 1 - n) (fun i '(w, u_accum, cum_carry) =>
      (upd w i (s64 (Z.land u_accum 0xffffffff)), Z.shiftr u_accum 32, cum_carry))
      st in
  upd w (2 * BIGLEN - 1) (s64 u_accum).

(** The corrections for negative arguments. *)
Definition mpy_sign_correct (a b : bigval_t) (w : list Z) : list Z :=
  let w :=
    if big_is_negative a then
      for_range 0 BIGLEN (fun i w =>
        upd w (i + BIGLEN) (s64 (nth (i + BIGLEN) w 0 - word b i))) w
    else w in
  if big_is_negative b then
    let w :=
      for_range 0 BIGLEN (fun i w =>
        upd w (i + BIGLEN) (s64 (nth (i + BIGLEN) w 0 - word a i))) w in
    if big_is_negative a then
      upd w (2 * BIGLEN - 1) (s64 (u64 (nth (2 * BIGLEN - 1) w 0 + Z.shiftl 1 32)))
    else w
  else w.

(** One iteration of the approximate reduction modulo the curve modulus:
    [v = w[i]; if (v != 0) { w[i] = 0; w[i - 1] += v; w[i - 2] -= v;
      w[i - 5] -= v; w[i - 8] += v; }] *)
Definition reduce_modulus_step (i : nat) (w : list Z) : list Z :=
  let v := nth i w 0 in
  if negb (v =? 0) then
    let w := upd w i 0 in
    let w := upd w (i - 1) (s64 (nth (i - 1) w 0 + v)) in
    let w := upd w (i - 2) (s64 (nth (i - 2) w 0 - v)) in
    let w := upd w (i - 5) (s64 (nth (i - 5) w 0 - v)) in
    let w := upd w (i - 8) (s64 (nth (i - 8) w 0 + v)) in
    w
  else w.

(** The approximate reduction modulo the curve modulus:
    [for (i = 2 * BIGLEN - 1; i >= MSW; --i)]. *)
Definition mpy_reduce_modulus (w : list Z) : list Z :=
  for_down MSW (2 * BIGLEN - MSW) reduce_modulus_step w.

(** The approximate reduction modulo the order of the curve. *)
Definition mpy_reduce_order (w : list Z) : list Z :=
  (* convert to 32 bit values, except for most signifiant word *)
  let '(w, carry) :=
    for_range 0 (2 * BIGLEN - 1) (fun i '(w, carry) =>
      let wi := s64 (nth i w 0 + carry) in
      let carry := Z.shiftr wi 32 in
      (upd w i (s64 (wi - s64 (Z.shiftl carry 32))), carry)) (w, 0) in
  let w := upd w (2 * BIGLEN - 1) (s64 (nth (2 * BIGLEN - 1) w 0 + carry)) in
  (* each iteration knocks off word i *)
  for_down MSW (2 * BIGLEN - MSW) (fun i w =>
    for_range 0 3 (fun k w =>
      if negb (nth i w 0 =? 0) then
        let v := nth i w 0 in
        fst (for_range (i - MSW) (2 * BIGLEN - (i - MSW)) (fun j '(w, carry) =>
          let tmp :=
            if (j <=? i)%nat then
              let tmp2 := s64 (- s64 (v * nth (j + MSW - i) orderDBL 0)) in
              s64 (s64 (nth j w 0 + tmp2) + carry)
            else s64 (nth j w 0 + carry) in
          let '(tmp, carry) :=
            if (j <? 2 * BIGLEN - 1)%nat then
              let carry := Z.shiftr tmp 32 in
              (s64 (tmp - s64 (Z.shiftl carry 32)), carry)
            else (tmp, 0) in
          (upd w j tmp, carry)) (w, 0))
      else w) w) w.

(** [void big_mpyP(bigval_t* tgt, bigval_t const* a, bigval_t const* b,
                   modulus_val_t modselect)] *)
Definition big_mpyP (a b : bigval_t) (same : bool) (modselect : modulus_val_t)
    : bigval_t :=
  if big_is_zero a || big_is_zero b then
    mkbig (repeat 0 BIGLEN)
  else
    let w := mpy_unsigned a b same in
    let w := mpy_sign_correct a b w in
    let w :=
      match modselect with
      | MOD_MODULUS => mpy_reduce_modulus w
      | MOD_ORDER => mpy_reduce_order w
      end in
    (* propagate carries and copy out to tgt in 32 bit chunks *)
    let tgt :=
      mkbig (fst (for_range 0 BIGLEN (fun i '(tgt, s_accum) =>
        let s_accum := s64 (s_accum + nth i w 0) in
        (upd tgt i (u32 s_accum), Z.shiftr s_accum 32)) (fresh, 0))) in
    (* final approximate reduction *)
    match modselect with
    | MOD_MODULUS => big_approx_reduceP tgt
    | MOD_ORDER =>
        if negb (word tgt MSW =? 0) then
          let tmp := big_1wd_mpy orderP (s32 (word tgt MSW)) in
          big_sub tgt tmp
        else tgt
    end.

(** [#define big_sqrP(tgt, a) big_mpyP(tgt, a, a, MOD_MODULUS)] *)
Definition big_sqrP (a : bigval_t) : bigval_t := big_mpyP a a true MOD_MODULUS.

(** ** Points *)

(** [typedef struct { bigval_t x; bigval_t y; uint32_t infinity; } affine_point_t;] *)
Record affine_point_t : Type := mkaffine {
  ax : bigval_t;
  ay : bigval_t;
  infinity : bool
}.

(** [typedef struct { bigval_t X; bigval_t Y; bigval_t Z; } jacobian_point_t;] *)
Record jacobian_point_t : Type := mkjacobian {
  JX : bigval_t;
  JY : bigval_t;
  JZ : bigval_t
}.

Definition affine_infinity : affine_point_t :=
  mkaffine big_zero big_zero true.

Definition jacobian_infinity : jacobian_point_t :=
  mkjacobian big_one big_one big_zero.

(** [#define jacobian_point_is_infinity(P) (big_is_zero(&(P)->Z))] *)
Definition jacobian_point_is_infinity (P : jacobian_point_t) : bool :=
  big_is_zero (JZ P).

Definition toJacobian (a : affine_point_t) : jacobian_point_t :=
  mkjacobian (ax a) (ay a) big_one.

(** [void toAffine(affine_point_t* tgt, jacobian_point_t const* a)] *)
Definition toAffine (fuel : nat) (a : jacobian_point_t) : option affine_point_t :=
  if big_is_zero (JZ a) then Some affine_infinity
  else
    match big_divide fuel big_one (JZ a) REF_modulusP with
    | None => None
    | Some zinv =>
        let zinvpwr := big_sqrP zinv in
        let tx := big_mpyP (JX a) zinvpwr false MOD_MODULUS in
        let zinvpwr := big_mpyP zinvpwr zinv false MOD_MODULUS in
        let ty := big_mpyP (JY a) zinvpwr false MOD_MODULUS in
        match big_precise_reduce fuel tx REF_modulusP with
        | None => None
        | Some tx =>
            match big_precise_reduce fuel ty REF_modulusP with
            | None => None
            | Some ty => Some (mkaffine tx ty false)
            end
        end
    end.

(** [static void pointDouble(jacobian_point_t* tgt, jacobian_point_t const* P)] *)
Definition pointDouble (fuel : nat) (P : jacobian_point_t)
    : option jacobian_point_t :=
  let x1 := JX P in
  let y1 := JY P in
  let z1 := JZ P in
  if jacobian_point_is_infinity P then Some jacobian_infinity
  else
    let t1 := big_sqrP z1 in
    let t2 := big_subP x1 t1 in
    let t1 := big_addP x1 t1 in
    let t2 := big_mpyP t2 t1 false MOD_MODULUS in
    let t2 := big_triple t2 in
    let y3 := big_addP y1 y1 in
    let z3 := big_mpyP y3 z1 false MOD_MODULUS in
    let y3 := big_sqrP y3 in
    let t3 := big_mpyP y3 x1 false MOD_MODULUS in
    let y3 := big_sqrP y3 in
    let y3 := big_halveP y3 in
    let x3 := big_sqrP t2 in
    let t1 := big_addP t3 t3 in
    let tgtX := big_subP x3 t1 in
    let t1 := big_subP t3 tgtX in
    let t1 := big_mpyP t1 t2 false MOD_MODULUS in
    let tgtY := big_subP t1 y3 in
    match big_precise_reduce fuel z3 REF_modulusP with
    | None => None
    | Some tgtZ => Some (mkjacobian tgtX tgtY tgtZ)
    end.

(** [void pointAdd(jacobian_point_t* tgt, jacobian_point_t const* P,
                   affine_point_t const* Q)] *)
Definition pointAdd (fuel : nat) (P : jacobian_point_t) (Q : affine_point_t)
    : option jacobian_point_t :=
  if infinity Q then Some P
  else if jacobian_point_is_infinity P then Some (toJacobian Q)
  else
    let x1 := JX P in
    let y1 := JY P in
    let z1 := JZ P in
    let x2 := ax Q in
    let y2 := ay Q in
    let t1 := big_sqrP z1 in
    let t2 := big_mpyP t1 z1 false MOD_MODULUS in
    let t1 := big_mpyP t1 x2 false MOD_MODULUS in
    let t2 := big_mpyP t2 y2 false MOD_MODULUS in
    let t1 := big_subP t1 x1 in
    let t2 := big_subP t2 y1 in
    match big_precise_reduce fuel t1 REF_modulusP with
    | None => None
    | Some t1 =>
        if big_is_zero t1 then
          match big_precise_reduce fuel t2 REF_modulusP with
          | None => None
          | Some t2 =>
              if big_is_zero t2 then pointDouble fuel (toJacobian Q)
              else Some jacobian_infinity
          end
        else
          let z3 := big_mpyP z1 t1 false MOD_MODULUS in
          match big_precise_reduce fuel z3 REF_modulusP with
          | None => None
          | Some z3 =>
              let t3 := big_sqrP t1 in
              let t4 := big_mpyP t3 t1 false MOD_MODULUS in
              let t3 := big_mpyP t3 x1 false MOD_MODULUS in
              let t1 := big_addP t3 t3 in
              let x3 := big_sqrP t2 in
              let x3 := big_subP x3 t1 in
              let tgtX := big_subP x3 t4 in
              let t3 := big_subP t3 tgtX in
              let t3 := big_mpyP t3 t2 false MOD_MODULUS in
              let t4 := big_mpyP t4 y1 false MOD_MODULUS in
              let tgtY := big_subP t3 t4 in
              Some (mkjacobian tgtX tgtY z3)
          end
    end.

(** [#define big_get_2bits(n, i) (((n)->data[(i) / 32] >> ((i) % 32)) & 3)] *)
Definition big_get_2bits (n : bigval_t) (i : nat) : Z :=
  Z.land (Z.shiftr (word n (i / 32)) (Z.of_nat (i mod 32))) 3.

(** [for (i = 2 * h - 2; i >= 0; i -= 2) if (big_get_2bits(k, i)) break;]
    The result is [h'] when the loop leaves [i = 2 * h' - 2], so [0] stands
    for the [i = -2] of a loop that ran to its end. *)
Fixpoint skip_zero_pairs (h : nat) (k : bigval_t) : nat :=
  match h with
  | O => O
  | S h' => if negb (big_get_2bits k (2 * h') =? 0) then h else skip_zero_pairs h' k
  end.

(** [void pointMpyP(affine_point_t* tgt, bigval_t const* k,
                    affine_point_t const* P)], with [MPY2BITS] defined.  The
    table [mpyset] of pointers is a list of options, [None] for the null
    pointer. *)
Definition pointMpyP (fuel : nat) (k : bigval_t) (P : affine_point_t)
    : option affine_point_t :=
  if big_is_negative k then Some affine_infinity
  else if big_is_zero k || big_is_negative k then Some affine_infinity
  else
    match pointDouble fuel (toJacobian P) with
    | None => None
    | Some Q =>
    match toAffine fuel Q with
    | None => None
    | Some twoP =>
    match pointAdd fuel Q P with
    | None => None
    | Some Q =>
    match toAffine fuel Q with
    | None => None
    | Some threeP =>
        let mpyset := [None; Some P; Some twoP; Some threeP] in
        let h := skip_zero_pairs (BIGLEN * 16) k in
        let Q :=
          for_down 0 h (fun h' Q =>
            match Q with
            | None => None
            | Some Q =>
                let mbits := big_get_2bits k (2 * h') in
                match pointDouble fuel Q with
                | None => None
                | Some Q =>
                match pointDouble fuel Q with
                | None => None
                | Some Q =>
                    match nth (Z.to_nat mbits) mpyset None with
                    | Some R => pointAdd fuel Q R
                    | None => Some Q
                    end
                end
                end
            end) (Some jacobian_infinity) in
        match Q with
        | None => None
        | Some Q => toAffine fuel Q
        end
    end
    end
    end
    end.

(** ** Conversions between [digit256_t] and [bigval_t] *)

(** [QCC_TARGET_ENDIAN] *)
Inductive endian : Type := QCC_LITTLE_ENDIAN | QCC_BIG_ENDIAN.

(** A [digit256_t] is four 64-bit digits, least significant first (the
    constants [P256_A], [P256_B] of the source are written that way). *)
Definition digit256_t : Type := list Z.

Definition wf_digit256 (d : digit256_t) : Prop :=
  length d = 4%nat /\ Forall (fun x => 0 <= x < 2 ^ 64) d.

(** The memory of a [digit256_t] read as eight [uint32_t]: what [memcpy] moves
    between the two types.  The low half of a digit comes first on a
    little-endian target, the high half on a big-endian one. *)
Definition digit_words (e : endian) (x : Z) : list Z :=
  match e with
  | QCC_LITTLE_ENDIAN => [x mod 2 ^ 32; x / 2 ^ 32]
  | QCC_BIG_ENDIAN => [x / 2 ^ 32; x mod 2 ^ 32]
  end.

Definition digit256_memory (e : endian) (d : digit256_t) : list Z :=
  flat_map (digit_words e) d.

(** The digits that a memory of eight [uint32_t] holds. *)
Fixpoint memory_digit256 (e : endian) (ws : list Z) : digit256_t :=
  match ws with
  | w0 :: w1 :: rest =>
      match e with
      | QCC_LITTLE_ENDIAN => w0 + 2 ^ 32 * w1
      | QCC_BIG_ENDIAN => w1 + 2 ^ 32 * w0
      end :: memory_digit256 e rest
  | _ => []
  end.

(** [memcpy(dst, src, 8 * sizeof(uint32_t))] on word arrays. *)
Definition memcpy_words (dst src : list Z) : list Z :=
  for_range 0 8 (fun i d => upd d i (nth i src 0)) dst.

(** [for (i = 0; i < BIGLEN - 1; i += 2) SWAP(data[i], data[i + 1]);] *)
Definition swap_adjacent_words (ws : list Z) : list Z :=
  for_range 0 4 (fun h d =>
    let i := (2 * h)%nat in
    let t := nth i d 0 in
    upd (upd d i (nth (i + 1) d 0)) (i + 1) t) ws.

Definition digit256_to_bigval (e : endian) (src : digit256_t) (dst : bigval_t)
    : bigval_t :=
  let d := memcpy_words (data dst) (digit256_memory e src) in
  let d := upd d (BIGLEN - 1) 0 in
  match e with
  | QCC_BIG_ENDIAN => mkbig (swap_adjacent_words d)
  | QCC_LITTLE_ENDIAN => mkbig d
  end.

(** Returns [None] for the [false] of the source (nothing is written then),
    [Some dst] for [true]. *)
Definition bigval_to_digit256 (e : endian) (src : bigval_t)
    : option digit256_t :=
  if big_is_negative src then None
  else
    let m := memcpy_words (repeat 0 8) (data src) in
    match e with
    | QCC_BIG_ENDIAN => Some (memory_digit256 e (swap_adjacent_words m))
    | QCC_LITTLE_ENDIAN => Some (memory_digit256 e m)
    end.

(** ** Binary encodings *)

(** [bigval_to_binary(src, tgt, tgtlen)]: [tgt] is the buffer of [tgtlen]
    bytes as it is before the call. *)
Definition bigval_to_binary (src : bigval_t) (tgt : list Z) (tgtlen : nat)
    : list Z :=
  let highbytes := if big_is_negative src then 0xff else 0 in
  let tgt :=
    for_range 0 (4 * BIGLEN) (fun i tgt =>
      if (i <? tgtlen)%nat then
        let v := u8 (Z.shiftr (word src (i / 4)) (8 * Z.of_nat (i mod 4))) in
        upd tgt (tgtlen - 1 - i) v
      else tgt) tgt in
  for_range (4 * BIGLEN) (tgtlen - 4 * BIGLEN)
    (fun i tgt => upd tgt (tgtlen - 1 - i) highbytes) tgt.

(** [binary_to_bigval(src, tgt, srclen)]: [tgt] is the [bigval_t] as it is
    before the call. *)
Definition binary_to_bigval (src : list Z) (tgt : bigval_t) (srclen : nat)
    : bigval_t :=
  let t := for_range 0 BIGLEN (fun i t => upd t i 0) (data tgt) in
  mkbig
    (for_range 0 (Nat.min srclen (4 * BIGLEN)) (fun i t =>
       let v := nth (srclen - 1 - i) src 0 in
       upd t (i / 4)
         (Z.lor (nth (i / 4) t 0) (u32 (Z.shiftl v (8 * Z.of_nat (i mod 4))))))
       t).

(** ** The rule table *)

Module RuleTable.

(** Modelled from the spec: the rule table's implementation (RuleTable.cc),
    [Rule] and [Message] are not among the sources; only the class declaration
    RuleTable.h is.  The specification gives the table as "a multi-valued
    mapping from endpoint identity to the set of rules registered for it", a
    rule as "an immutable match predicate over message attributes (interface,
    member, path, sender)", and the four operations below.  The mutex that
    every operation takes and releases is not part of this sequential model. *)
Definition BusEndpoint : Type := String.string.

Record Message : Type := mkMessage {
  msg_iface : String.string;
  msg_member : String.string;
  msg_path : String.string;
  msg_sender : String.string
}.

(** An attribute the rule does not name ([None]) matches every message. *)
Record Rule : Type := mkRule {
  rule_iface : option String.string;
  rule_member : option String.string;
  rule_path : option String.string;
  rule_sender : option String.string
}.

Definition attr_match (r : option String.string) (m : String.string) : bool :=
  match r with
  | None => true
  | Some s => String.eqb s m
  end.

Definition IsMatch (r : Rule) (m : Message) : bool :=
  attr_match (rule_iface r) (msg_iface m)
  && attr_match (rule_member r) (msg_member m)
  && attr_match (rule_path r) (msg_path m)
  && attr_match (rule_sender r) (msg_sender m).

Definition attr_eqb (a b : option String.string) : bool :=
  match a, b with
  | None, None => true
  | Some x, Some y => String.eqb x y
  | _, _ => false
  end.

Definition Rule_eqb (a b : Rule) : bool :=
  attr_eqb (rule_iface a) (rule_iface b)
  && attr_eqb (rule_member a) (rule_member b)
  && attr_eqb (rule_path a) (rule_path b)
  && attr_eqb (rule_sender a) (rule_sender b).

(** [std::multimap<BusEndpoint, Rule> rules]: an endpoint may have several
    rules, and the same rule several times. *)
Record t : Type := mk { rules : list (BusEndpoint * Rule) }.

Definition empty : t := mk [].

Inductive QStatus : Type := ER_OK | ER_NOT_FOUND.

Definition AddRule (tbl : t) (endpoint : BusEndpoint) (rule : Rule) : t * QStatus :=
  (mk (rules tbl ++ [(endpoint, rule)]), ER_OK).

Fixpoint remove_first (endpoint : BusEndpoint) (rule : Rule)
    (l : list (BusEndpoint * Rule)) : option (list (BusEndpoint * Rule)) :=
  match l with
  | [] => None
  | (e, r) :: rest =>
      if String.eqb e endpoint && Rule_eqb r rule then Some rest
      else option_map (cons (e, r)) (remove_first endpoint rule rest)
  end.

(** Removes a single matching entry. *)
Definition RemoveRule (tbl : t) (endpoint : BusEndpoint) (rule : Rule) : t * QStatus :=
  match remove_first endpoint rule (rules tbl) with
  | Some l => (mk l, ER_OK)
  | None => (tbl, ER_NOT_FOUND)
  end.

(** Removes every rule of the endpoint.  The class declaration gives the
    result as a status, [ER_OK] if successful; removing from the multimap
    cannot fail. *)
Definition RemoveAllRules (tbl : t) (endpoint : BusEndpoint) : t * QStatus :=
  (mk (filter (fun er => negb (String.eqb (fst er) endpoint)) (rules tbl)),
   ER_OK).

(** The rules registered for an endpoint (the range the query iterates). *)
Definition RulesForEndpoint (tbl : t) (endpoint : BusEndpoint) : list Rule :=
  map snd (filter (fun er => String.eqb (fst er) endpoint) (rules tbl)).

Definition OkToSend (tbl : t) (msg : Message) (endpoint : BusEndpoint) : bool :=
  existsb (fun r => IsMatch r msg) (RulesForEndpoint tbl endpoint).

End RuleTable.

(** ** Functions of the specification *)

(** [dsum n d] is the number with the (possibly out of range) base [2 ^ 32]
    digits [d 0], ..., [d (n - 1)]. *)
Fixpoint dsum (n : nat) (d : nat -> Z) : Z :=
  match n with
  | O => 0
  | S n' => dsum n' d + 2 ^ (32 * Z.of_nat n') * d n'
  end.

Definition word_ok (x : Z) : Prop := 0 <= x < 2 ^ 32.

(** The adjustments [big_adjustP] makes to the nine words: [k] times the
    words of the curve modulus in signed form. *)
Definition adjP (k : Z) (i : nat) : Z :=
  nth i [- k; 0; 0; k; 0; 0; k; - k; k] 0.

(** What the approximate reduction does to a value. *)
Definition approx (v : Z) : Z := v - (v / 2 ^ 256) * p256.

(** The range of an approximately reduced value. *)
Definition approx_range (v : Z) : Prop := - 2 ^ 255 < v < 2 ^ 256 + 2 ^ 255.

(** Congruence modulo the curve modulus. *)
Definition eqp (a b : Z) : Prop := a mod p256 = b mod p256.

(** The moduli [big_precise_reduce] works with: "moduli slightly less than
    2**(32*(BIGLEN-1))" in the words of the source.  The curve modulus and
    the order of the curve are two of them. *)
Definition modulus_ok (m : modulus_ref) : Prop :=
  wf_bigval (deref m) /\ 2 ^ 256 - 2 ^ 224 <= sval (deref m) < 2 ^ 256.

(** The moduli the engine is specialized for. *)
Definition supported (m : modulus_ref) : Prop :=
  m = REF_modulusP \/ m = REF_orderP.

(** Congruence modulo [M]. *)
Definition cong (M a b : Z) : Prop := a mod M = b mod M.


(** [nsum n f] is [f 0 + ... + f (n - 1)]. *)
Fixpoint nsum (n : nat) (f : nat -> Z) : Z :=
  match n with
  | O => 0
  | S n' => nsum n' f + f n'
  end.

(** The terms the unrolled inner loop of [big_mpyP] adds up: the products
    [a[ap - t] * b[bp + t]], ..., [a[ap] * b[bp]]. *)
Fixpoint conv_sum (a b : bigval_t) (ap bp : Z) (t : nat) : Z :=
  word a (Z.to_nat (ap - Z.of_nat t)) * word b (Z.to_nat (bp + Z.of_nat t))
  + match t with
    | O => 0
    | S t' => conv_sum a b ap bp t'
    end.

(** Column [i] of the schoolbook product of [a] and [b]:
    the sum of [a[i - j] * b[j]] for [j] from [0] to [i]. *)
Definition conv (a b : bigval_t) (i : nat) : Z :=
  nsum (S i) (fun j => word a (i - j) * word b j).

(** The invariant of the multiplication loops: no pending carry count, and
    an accumulator that leaves room for a full column. *)
Definition mpy_inv (st : mpy_state) : Prop :=
  snd st = 0 /\ 0 <= snd (fst st) < 2 ^ 37.

(** All the words of [l] lie in [-B, B]. *)
Definition bounded (B : Z) (l : list Z) : Prop :=
  Forall (fun x => - B <= x <= B) l.

(** Byte [i] (the least significant being byte 0) of the 36 bytes of a big
    number. *)
Definition bigval_byte (x : bigval_t) (i : nat) : Z :=
  u8 (Z.shiftr (word x (i / 4)) (8 * Z.of_nat (i mod 4))).

(** How many of the four bytes of word [k] lie among the first [n] bytes. *)
Definition bytes_kept (n k : nat) : Z :=
  Z.max 0 (Z.min 4 (Z.of_nat n - 4 * Z.of_nat k)).

(** [x] truncated to its [n] low-order bytes. *)
Definition truncate_bytes (x : bigval_t) (n : nat) : bigval_t :=
  mkbig (map (fun k => word x k mod 2 ^ (8 * bytes_kept n k)) (seq 0 BIGLEN)).

(** The parts of [mpy_reduce_order]: the conversion to 32-bit values, one
    pass of the loop on [j] for the word [i], and the loop on [k] that knocks
    off the word [i]. *)
Definition order_normalise (w : list Z) : list Z :=
  let '(w, carry) :=
    for_range 0 (2 * BIGLEN - 1) (fun i '(w, carry) =>
      let wi := s64 (nth i w 0 + carry) in
      let carry := Z.shiftr wi 32 in
      (upd w i (s64 (wi - s64 (Z.shiftl carry 32))), carry)) (w, 0) in
  upd w (2 * BIGLEN - 1) (s64 (nth (2 * BIGLEN - 1) w 0 + carry)).

Definition order_pass_step (i : nat) (v : Z) (j : nat) (st : list Z * Z)
    : list Z * Z :=
  let '(w, carry) := st in
  let tmp :=
    if (j <=? i)%nat then
      let tmp2 := s64 (- s64 (v * nth (j + MSW - i) orderDBL 0)) in
      s64 (s64 (nth j w 0 + tmp2) + carry)
    else s64 (nth j w 0 + carry) in
  let '(tmp, carry) :=
    if (j <? 2 * BIGLEN - 1)%nat then
      let carry := Z.shiftr tmp 32 in
      (s64 (tmp - s64 (Z.shiftl carry 32)), carry)
    else (tmp, 0) in
  (upd w j tmp, carry).

Definition order_pass (i : nat) (w : list Z) : list Z :=
  let v := nth i w 0 in
  fst (for_range (i - MSW) (2 * BIGLEN - (i - MSW)) (order_pass_step i v) (w, 0)).

Definition order_knock_off (i : nat) (w : list Z) : list Z :=
  for_range 0 3 (fun k w =>
    if negb (nth i w 0 =? 0) then order_pass i w else w) w.

(** The words of a double-length product as [order_normalise] leaves them:
    32-bit values below a signed most significant word. *)
Definition normal_words (w : list Z) : Prop :=
  length w = (2 * BIGLEN)%nat /\
  forall k, (k < 2 * BIGLEN - 1)%nat -> word_ok (nth k w 0).

(** The number four 64-bit digits stand for, least significant digit first. *)
Fixpoint digits_value (d : list Z) : Z :=
  match d with
  | [] => 0
  | x :: t => x + 2 ^ 64 * digits_value t
  end.

(** ** Sample inputs *)

(** The number [5 - 2 ^ 256], a negative value outside the range of both
    moduli. *)
Definition sample_negative : bigval_t :=
  mkbig [5; 0; 0; 0; 0; 0; 0; 0; 0xffffffff].

(** The number [2 ^ 256 + 2 ^ 32 + 7], positive and above both moduli. *)
Definition sample_large : bigval_t :=
  mkbig [7; 1; 0; 0; 0; 0; 0; 0; 1].

(** The field element [2 ^ 192 + 3 * 2 ^ 64 + 0x100000002]. *)
Definition sample_digits : digit256_t :=
  [0x100000002; 3; 0; 1].

(** ** Points *)

Definition wf_affine (Q : affine_point_t) : Prop :=
  wf_bigval (ax Q) /\ wf_bigval (ay Q).

Definition wf_jacobian (P : jacobian_point_t) : Prop :=
  wf_bigval (JX P) /\ wf_bigval (JY P) /\ wf_bigval (JZ P).

(** The Z coordinate is precisely reduced. *)
Definition precise_Z (P : jacobian_point_t) : Prop :=
  0 <= sval (JZ P) < p256.

(** A chain of point operations on one Jacobian accumulator, as the loops of
    [pointMpyP] run them. *)
Inductive point_op : Type :=
  | op_double
  | op_add (Q : affine_point_t).

Definition wf_point_op (o : point_op) : Prop :=
  match o with
  | op_double => True
  | op_add Q => wf_affine Q
  end.

Definition apply_op (fuel : nat) (P : jacobian_point_t) (o : point_op)
    : option jacobian_point_t :=
  match o with
  | op_double => pointDouble fuel P
  | op_add Q => pointAdd fuel P Q
  end.

Fixpoint apply_ops (fuel : nat) (ops : list point_op) (P : jacobian_point_t)
    : option jacobian_point_t :=
  match ops with
  | [] => Some P
  | o :: ops =>
      match apply_op fuel P o with
      | None => None
      | Some P => apply_ops fuel ops P
      end
  end.

(** Modelled from the spec: the generator [G] of the curve, the base point of
    NIST P-256, is defined outside the sources. *)
Definition base_point : affine_point_t :=
  mkaffine
    (mkbig [0xd898c296; 0xf4a13945; 0x2deb33a0; 0x77037d81;
            0x63a440f2; 0xf8bce6e5; 0xe12c4247; 0x6b17d1f2; 0])
    (mkbig [0x37bf51f5; 0xcbb64068; 0x6b315ece; 0x2bce3357;
            0x7c0f9e16; 0x8ee7eb4a; 0xfe1a7f9b; 0x4fe342e2; 0])
    false.

(** The range the X and Y coordinates of a point may take: every
    approximately reduced value is in it, and the sums and differences of the
    point formulas stay representable on it. *)
Definition coord_range (v : Z) : Prop := - 2 ^ 286 <= v < 2 ^ 286.

(** Values that [big_subP] can take off every approximately reduced value:
    the difference stays within the nine words.  [coord_range] lies
    inside. *)
Definition sub_range (v : Z) : Prop :=
  2 ^ 256 + 2 ^ 255 - 2 ^ 287 <= v <= 2 ^ 287 - 2 ^ 255.


(** The two differences the mixed addition of a Jacobian [P] and an affine
    [Q] starts from: [x2 * Z1 ^ 2 - X1] and [y2 * Z1 ^ 3 - Y1]. *)
Definition add_H (P : jacobian_point_t) (Q : affine_point_t) : Z :=
  sval (ax Q) * sval (JZ P) ^ 2 - sval (JX P).

Definition add_R (P : jacobian_point_t) (Q : affine_point_t) : Z :=
  sval (ay Q) * sval (JZ P) ^ 3 - sval (JY P).

(** The products [x2 * Z1 ^ 2] and [y2 * Z1 ^ 3] as [pointAdd] computes
    them (the values of [t1] and [t2] before the two calls of [big_subP]),
    and the condition that the differences [pointAdd] forms from them and
    the X and Y of [P] fit the nine words of a big number. *)
Definition add_U2 (P : jacobian_point_t) (Q : affine_point_t) : bigval_t :=
  big_mpyP (big_sqrP (JZ P)) (ax Q) false MOD_MODULUS.

Definition add_S2 (P : jacobian_point_t) (Q : affine_point_t) : bigval_t :=
  big_mpyP (big_mpyP (big_sqrP (JZ P)) (JZ P) false MOD_MODULUS) (ay Q)
    false MOD_MODULUS.

Definition sub_fits (a b : bigval_t) : Prop :=
  - 2 ^ 287 <= sval a - sval b < 2 ^ 287.

Definition add_fits (P : jacobian_point_t) (Q : affine_point_t) : Prop :=
  sub_fits (add_U2 P Q) (JX P) /\ sub_fits (add_S2 P Q) (JY P).


(** The Jacobian point [P] stands for the affine point [(x, y)]: "the affine
    point (x,y) corresponds to the Jacobian point (X, Y, Z), for any non-zero
    Z, with X = Z^2 * x and Y = Z^3 * y" in the words of the source. *)
Definition represents (P : jacobian_point_t) (x y : Z) : Prop :=
  eqp (sval (JX P)) (x * sval (JZ P) ^ 2) /\
  eqp (sval (JY P)) (y * sval (JZ P) ^ 3).

(** The chord rule: the sum of the affine points [(x1, y1)] and [(x2, y2)]
    with the slope [l] of the line through them. *)
Definition chord_x (l x1 x2 : Z) : Z := l ^ 2 - x1 - x2.
Definition chord_y (l x1 y1 x2 : Z) : Z := l * (x1 - chord_x l x1 x2) - y1.


(** ** Compositions of the field operations *)

(** A computation made of calls of [big_addP], [big_subP], [big_mpyP] (with
    [MOD_MODULUS]) and [big_sqrP], as the point formulas are: every node is
    one call whose target is a temporary, so the two arguments of a product
    are distinct objects and only [sqr] takes the squaring path. *)
Inductive field_expr : Type :=
  | FE_val (a : bigval_t)
  | FE_add (e1 e2 : field_expr)
  | FE_sub (e1 e2 : field_expr)
  | FE_mpy (e1 e2 : field_expr)
  | FE_sqr (e : field_expr).

(** What the calls compute. *)
Fixpoint field_run (e : field_expr) : bigval_t :=
  match e with
  | FE_val a => a
  | FE_add e1 e2 => big_addP (field_run e1) (field_run e2)
  | FE_sub e1 e2 => big_subP (field_run e1) (field_run e2)
  | FE_mpy e1 e2 => big_mpyP (field_run e1) (field_run e2) false MOD_MODULUS
  | FE_sqr e => big_sqrP (field_run e)
  end.

(** The integer the computation stands for. *)
Fixpoint field_value (e : field_expr) : Z :=
  match e with
  | FE_val a => sval a
  | FE_add e1 e2 => field_value e1 + field_value e2
  | FE_sub e1 e2 => field_value e1 - field_value e2
  | FE_mpy e1 e2 => field_value e1 * field_value e2
  | FE_sqr e => field_value e * field_value e
  end.

(** The inputs of the computation are big numbers between [- 2 ^ 286] and
    [2 ^ 286]. *)
Fixpoint field_inputs_ok (e : field_expr) : Prop :=
  match e with
  | FE_val a => wf_bigval a /\ coord_range (sval a)
  | FE_add e1 e2 | FE_sub e1 e2 | FE_mpy e1 e2 =>
      field_inputs_ok e1 /\ field_inputs_ok e2
  | FE_sqr e => field_inputs_ok e
  end.

(** The computation [n * n - (l + 1) * n] on the sample inputs. *)
Definition sample_field_expr : field_expr :=
  FE_sub (FE_sqr (FE_val sample_negative))
         (FE_mpy (FE_add (FE_val sample_large) (FE_val big_one))
                 (FE_val sample_negative)).

(** ** The binary GCD of [big_divide] *)

(** The measure of the loop of [big_divide]: an even working value is about
    to be halved, so it counts once, an odd one twice. *)
Definition potential (U : Z) : Z := if Z.even U then U else 2 * U.

(** The room a cofactor has: an even working value is about to be halved, and
    its cofactor with it. *)
Definition cofactor_bound (U X B : Z) : Prop :=
  if Z.even U then - (2 * B) <= X <= 2 * B else - B <= X <= B.

(** The invariant of the loop of [big_divide] for the modulus [M], the
    denominator [den] and the numerator [num]. *)
Definition divide_inv (M den num B : Z) (st : divide_state) : Prop :=
  let '(u, v, x1, x2) := st in
  (wf_bigval u /\ wf_bigval v /\ wf_bigval x1 /\ wf_bigval x2) /\
  (0 <= sval u /\ 0 <= sval v /\ Z.gcd (sval u) (sval v) = 1) /\
  (cofactor_bound (sval u) (sval x1) B /\ cofactor_bound (sval v) (sval x2) B) /\
  (cong M (sval x1 * den) (sval u * num) /\
   cong M (sval x2 * den) (sval v * num)).

Definition divide_potential (st : divide_state) : Z :=
  let '(u, v, x1, x2) := st in potential (sval u) * potential (sval v).


(** The odd number [2 ^ 256 + 1], as a modulus. *)
Definition modulus_above : bigval_t := mkbig [1; 0; 0; 0; 0; 0; 0; 0; 1].

(** The number [2 ^ 256]. *)
Definition sample_pow256 : bigval_t := mkbig [0; 0; 0; 0; 0; 0; 0; 0; 1].

(** The number [2 ^ 256 - 189], a modulus in the range of
    [big_precise_reduce] that is neither the curve modulus nor the order. *)
Definition modulus_below : bigval_t :=
  mkbig [0xffffff43; 0xffffffff; 0xffffffff; 0xffffffff; 0xffffffff;
         0xffffffff; 0xffffffff; 0xffffffff; 0].

(** The largest big number, [2 ^ 287 - 1]. *)
Definition sample_max : bigval_t :=
  mkbig [0xffffffff; 0xffffffff; 0xffffffff; 0xffffffff; 0xffffffff;
         0xffffffff; 0xffffffff; 0xffffffff; 0x7fffffff].

(** The odd number [2 ^ 256 - 3], as a modulus, the number 3, and the number
    [2 ^ 286 + 2 ^ 200]. *)
Definition modulus_minus3 : bigval_t :=
  mkbig [0xfffffffd; 0xffffffff; 0xffffffff; 0xffffffff; 0xffffffff;
         0xffffffff; 0xffffffff; 0xffffffff; 0].

Definition big_three : bigval_t := mkbig [3; 0; 0; 0; 0; 0; 0; 0; 0].

Definition sample_above286 : bigval_t :=
  mkbig [0; 0; 0; 0; 0; 0; 0x100; 0; 0x40000000].

(** What the loops of [big_divide] keep of a working value when [g] divides
    both the denominator and the modulus. *)
Definition shares (g : Z) (u : bigval_t) : Prop :=
  wf_bigval u /\ 0 <= sval u /\ (g | sval u).


(** The quantities of the Jacobian doubling, for the curve coefficient
    [a = -3]: [3 * (X1 - Z1 ^ 2) * (X1 + Z1 ^ 2)] and [4 * X1 * Y1 ^ 2]. *)
Definition dbl_M (P : jacobian_point_t) : Z :=
  3 * ((sval (JX P) - sval (JZ P) ^ 2) * (sval (JX P) + sval (JZ P) ^ 2)).

Definition dbl_S (P : jacobian_point_t) : Z :=
  4 * sval (JX P) * sval (JY P) ^ 2.

(** The tangent rule: the double of the affine point [(x, y)] with the slope
    [l] of the tangent in it. *)
Definition tangent_x (l x : Z) : Z := l ^ 2 - 2 * x.
Definition tangent_y (l x y : Z) : Z := l * (x - tangent_x l x) - y.


(** The invariant of the points the engine works on: representable
    coordinates, Z precisely reduced, X and Y within [coord_range]. *)
Definition point_ok (P : jacobian_point_t) : Prop :=
  wf_jacobian P /\ precise_Z P /\
  coord_range (sval (JX P)) /\ coord_range (sval (JY P)).

Definition affine_ok (Q : affine_point_t) : Prop :=
  wf_affine Q /\ coord_range (sval (ax Q)) /\ coord_range (sval (ay Q)).

Definition point_op_ok (o : point_op) : Prop :=
  match o with
  | op_double => True
  | op_add Q => affine_ok Q
  end.


(** ** Key agreement *)

(** [typedef struct { digit256_t x; digit256_t y; } ecpoint_t;] of the
    curve library. *)
Record ecpoint_t : Type := mkecpoint {
  px : digit256_t;
  py : digit256_t
}.

(** [bool ECDH_derive_pt(affine_point_t* tgt, bigval_t const* k,
                         affine_point_t const* Q)].
    The functions of the curve library it calls ([ec_getcurve],
    [ecpoint_validation], [ec_scalarmul], [ec_oncurve], [ec_is_infinity])
    are outside the sources and are parameters here; [ec_scalarmul] returns
    its status ([true] for [ER_OK]) and the point it stores.  The result is
    the status and the new contents of [tgt]. *)
Section ECDH.

Variable ec_t : Type.
Variable ec_getcurve : option ec_t.
Variable ecpoint_validation : ecpoint_t -> ec_t -> bool.
Variable ec_scalarmul : ecpoint_t -> digit256_t -> ec_t -> bool * ecpoint_t.
Variable ec_oncurve : ecpoint_t -> ec_t -> bool.
Variable ec_is_infinity : ecpoint_t -> ec_t -> bool.

Definition ECDH_derive_pt (e : endian) (tgt : affine_point_t) (k : bigval_t)
    (Q : affine_point_t) : bool * affine_point_t :=
  match ec_getcurve with
  | None => (false, tgt)
  | Some curve =>
      match bigval_to_digit256 e k, bigval_to_digit256 e (ax Q),
            bigval_to_digit256 e (ay Q) with
      | Some ourPrivate, Some qx, Some qy =>
          let theirPublic := mkecpoint qx qy in
          if negb (ecpoint_validation theirPublic curve) then (false, tgt)
          else
            let '(ajstatus, sharedSecret) :=
              ec_scalarmul theirPublic ourPrivate curve in
            let status := ec_oncurve sharedSecret curve in
            let status := status && ajstatus in
            (status,
             mkaffine (digit256_to_bigval e (px sharedSecret) (ax tgt))
                      (digit256_to_bigval e (py sharedSecret) (ay tgt))
                      (ec_is_infinity sharedSecret curve))
      | _, _, _ => (false, tgt)
      end
  end.

End ECDH.


(** ** Status codes *)

(** [QStatus]: the values this file names, and the others. *)
Inductive QStatus : Type :=
  | ER_OK
  | ER_FAIL
  | ER_CRYPTO_ERROR
  | ER_CRYPTO_ILLEGAL_PARAMETERS
  | ER_OTHER (code : nat).

Definition is_ER_OK (s : QStatus) : bool :=
  match s with
  | ER_OK => true
  | _ => false
  end.

(** ** Arrays of words as arrays of bytes *)

(** Byte [j] of a [uint32_t], byte 0 being the least significant, and the
    four bytes of a [uint32_t] in memory: the least significant byte comes
    first on a little-endian target and last on a big-endian one. *)
Definition word_byte (x : Z) (j : nat) : Z := u8 (Z.shiftr x (8 * Z.of_nat j)).

Definition word_memory (e : endian) (x : Z) : list Z :=
  match e with
  | QCC_LITTLE_ENDIAN =>
      [word_byte x 0; word_byte x 1; word_byte x 2; word_byte x 3]
  | QCC_BIG_ENDIAN =>
      [word_byte x 3; word_byte x 2; word_byte x 1; word_byte x 0]
  end.

(** The [uint32_t] that four bytes of memory hold. *)
Definition memory_word (e : endian) (m : list Z) : Z :=
  match e with
  | QCC_LITTLE_ENDIAN =>
      nth 0 m 0 + 2 ^ 8 * nth 1 m 0 + 2 ^ 16 * nth 2 m 0 + 2 ^ 24 * nth 3 m 0
  | QCC_BIG_ENDIAN =>
      nth 3 m 0 + 2 ^ 8 * nth 2 m 0 + 2 ^ 16 * nth 1 m 0 + 2 ^ 24 * nth 0 m 0
  end.

(** [p[cnt] = v] and [p[cnt]] for [uint32_t* p = (uint32_t* ) bytes]. *)
Definition store_word (e : endian) (bytes : list Z) (cnt : nat) (v : Z)
    : list Z :=
  for_range 0 4 (fun j b => upd b (4 * cnt + j) (nth j (word_memory e v) 0))
    bytes.

Definition load_word (e : endian) (bytes : list Z) (cnt : nat) : Z :=
  memory_word e (map (fun j => nth (4 * cnt + j) bytes 0) (seq 0 4)).

(** [void U32ArrayToU8BeArray(const uint32_t* src, size_t len, uint8_t* dest)]
    and [void U8BeArrayToU32Array(const uint8_t* src, size_t len,
    uint32_t* dest)].  The macros [htobe32] and [betoh32] are outside the
    sources and are parameters. *)
Section ByteArrays.

Variable htobe32 : Z -> Z.
Variable betoh32 : Z -> Z.

Definition U32ArrayToU8BeArray (e : endian) (src : list Z) (len : nat)
    (dest : list Z) : list Z :=
  for_range 0 len (fun cnt dest =>
    store_word e dest cnt (htobe32 (nth cnt src 0))) dest.

Definition U8BeArrayToU32Array (e : endian) (src : list Z) (len : nat)
    (dest : list Z) : list Z :=
  let u32Len := (len / 4)%nat in
  for_range 0 u32Len (fun cnt dest =>
    upd dest cnt (betoh32 (load_word e src cnt))) dest.

End ByteArrays.

(** ** The shared secret *)

(** The memory of an [affine_point_t] read as an array of [uint32_t]: the
    words of [x], those of [y], and [infinity]. *)
Definition affine_words (P : affine_point_t) : list Z :=
  data (ax P) ++ data (ay P) ++ [if infinity P then 1 else 0].

(** [QStatus Crypto_ECC_GenerateSharedSecret(const ECCPublicKey*
    peerPublicKey, const ECCPrivateKey* privateKey,
    ECCSecretOldEncoding* secret)].
    The key classes are outside the sources: [X], [Y] and [D] are the bytes
    that [GetX()], [GetY()] and [GetD()] point to, [coordinateSize] and
    [dSize] what [GetCoordinateSize()] and [GetDSize()] return; the macro
    [U32_AFFINEPOINT_SZ] of the absent header is a parameter.  The locals
    [localSecret], [pub] and [pk] are not initialized: what they hold at
    entry is a parameter.  The result is the status and the contents of
    [secret]. *)
Section SharedSecret.

Variable ec_t : Type.
Variable ec_getcurve : option ec_t.
Variable ecpoint_validation : ecpoint_t -> ec_t -> bool.
Variable ec_scalarmul : ecpoint_t -> digit256_t -> ec_t -> bool * ecpoint_t.
Variable ec_oncurve : ecpoint_t -> ec_t -> bool.
Variable ec_is_infinity : ecpoint_t -> ec_t -> bool.
Variable htobe32 : Z -> Z.
Variable U32_AFFINEPOINT_SZ : nat.

Definition Crypto_ECC_GenerateSharedSecret (e : endian) (X Y : list Z)
    (coordinateSize : nat) (D : list Z) (dSize : nat)
    (localSecret pub : affine_point_t) (pk : bigval_t) (secret : list Z)
    : QStatus * list Z :=
  let pub :=
    mkaffine (binary_to_bigval X (ax pub) coordinateSize)
             (binary_to_bigval Y (ay pub) coordinateSize)
             false in
  let pk := binary_to_bigval D pk dSize in
  let '(derive_rv, localSecret) :=
    ECDH_derive_pt ec_t ec_getcurve ecpoint_validation ec_scalarmul ec_oncurve
      ec_is_infinity e localSecret pk pub in
  if negb derive_rv then (ER_FAIL, secret)
  else
    (ER_OK,
     U32ArrayToU8BeArray htobe32 e (affine_words localSecret)
       U32_AFFINEPOINT_SZ secret).

End SharedSecret.

(** [htobe32] and [betoh32] on a big-endian target. *)
Definition host_order (x : Z) : Z := x.

(** ** REDP-1 *)

(** [carry = 1;
     for (i = sizeof(digest_i1) - 1; i >= 0; i--) {
         digest_i1[i] += carry;  carry = (digest_i1[i] == 0); }]
    on the array of [uint8_t]; [size] is [sizeof(digest_i1)], and the result
    is the array and [carry]. *)
Definition digest_increment (size : nat) (digest_i1 : list Z) : list Z * Z :=
  for_down 0 size (fun i '(digest_i1, carry) =>
    let digest_i1 := upd digest_i1 i (u8 (nth i digest_i1 0 + carry)) in
    (digest_i1, if nth i digest_i1 0 =? 0 then 1 else 0)) (digest_i1, 1).

(** [const digit256_tc P256_A], [P256_B] of [ec_REDP1]. *)
Definition P256_A : digit256_t :=
  [0xFFFFFFFFFFFFFFFC; 0x00000000FFFFFFFF; 0x0000000000000000;
   0xFFFFFFFF00000001].
Definition P256_B : digit256_t :=
  [0x3BCE3C3E27D2604B; 0x651D06B0CC53B0F6; 0xB3EBBD55769886BC;
   0x5AC635D8AA3A93E7].

(** [QStatus ec_REDP1(const uint8_t* pi, size_t len, ecpoint_t* Q,
                      ec_t* curve)].
    The hash and the field arithmetic are outside the sources and are
    parameters here, and so is the constant [Crypto_SHA256::DIGEST_SIZE],
    the size of the two digests.  [sha256 m] stands for [hash.Init()],
    [hash.Update(m, len)], [hash.GetDigest(digest)] in a row, each followed
    by [if (status != ER_OK) goto Exit]: it is the status of the first call
    that fails, or [ER_OK], and the digest.  The result is the status and
    the contents of [Q]; [None] when the fuel of [while (1)] runs out. *)
Section REDP.

Variable ec_t : Type.
Variable DIGEST_SIZE : nat.
Variable sha256 : list Z -> QStatus * list Z.
Variable fpimport_p256 : list Z -> digit256_t.
Variable fpmul_p256 : digit256_t -> digit256_t -> digit256_t.
Variable fpadd_p256 : digit256_t -> digit256_t -> digit256_t.
Variable fpissquare_p256 : digit256_t -> bool.
Variable fpsqrt_p256 : digit256_t -> digit256_t.
Variable fpneg_p256 : digit256_t -> digit256_t.
Variable ecpoint_validation : ecpoint_t -> ec_t -> bool.

(** [alpha = x^3 + a*x + b (mod p)], in the order of the calls. *)
Definition REDP1_alpha (x : digit256_t) : digit256_t :=
  let alpha := fpmul_p256 x x in
  let alpha := fpmul_p256 alpha x in
  let tmp := fpmul_p256 x P256_A in
  let alpha := fpadd_p256 alpha tmp in
  fpadd_p256 alpha P256_B.

(** The [while (1)] loop: [inl status] for a [goto Exit], [inr Q] for the
    [break]. *)
Fixpoint REDP1_loop (fuel : nat) (digest_i1 : list Z)
    : option (QStatus + ecpoint_t) :=
  match fuel with
  | O => None
  | S fuel' =>
      let mu := nth (DIGEST_SIZE - 1) digest_i1 0 mod 2 in
      let '(status, bytes_O3) := sha256 digest_i1 in
      if negb (is_ER_OK status) then Some (inl status)
      else
        let x := fpimport_p256 bytes_O3 in
        let alpha := REDP1_alpha x in
        if fpissquare_p256 alpha then
          let beta := fpsqrt_p256 alpha in
          let beta := if negb (mu =? 0) then fpneg_p256 beta else beta in
          Some (inr (mkecpoint x beta))
        else
          let '(digest_i1, carry) := digest_increment DIGEST_SIZE digest_i1 in
          if negb (carry =? 0) then Some (inl ER_CRYPTO_ERROR)
          else REDP1_loop fuel' digest_i1
  end.

Definition ec_REDP1 (fuel : nat) (pi : list Z) (Q : ecpoint_t) (curve : ec_t)
    : option (QStatus * ecpoint_t) :=
  let '(status, digest_i1) := sha256 pi in
  if negb (is_ER_OK status) then Some (status, Q)
  else
    match REDP1_loop fuel digest_i1 with
    | None => None
    | Some (inl status) => Some (status, Q)
    | Some (inr Q) =>
        if negb (ecpoint_validation Q curve) then Some (ER_CRYPTO_ERROR, Q)
        else Some (ER_OK, Q)
    end.

End REDP.

(** The value of a byte string in network order. *)
Definition be_value (bytes : list Z) : Z :=
  fold_left (fun acc b => 256 * acc + b) bytes 0.

Definition byte_ok (x : Z) : Prop := 0 <= x < 256.


(** A digest of 32 bytes that starts with a zero byte: the number 2 ^ 240. *)
Definition sample_digest : list Z := 0 :: 1 :: repeat 0 30.

(** Stand-ins for the hash and the field functions of [ec_REDP1]: the hash
    is always the sample digest and no candidate passes the square test. *)
Definition sample_sha256 (m : list Z) : QStatus * list Z :=
  (ER_OK, sample_digest).
Definition sample_fpimport (bytes : list Z) : digit256_t := P256_B.
Definition sample_fpop (x y : digit256_t) : digit256_t := x.
Definition sample_fpissquare (x : digit256_t) : bool := false.
Definition sample_fpmap (x : digit256_t) : digit256_t := x.
Definition sample_validation (Q : ecpoint_t) (curve : unit) : bool := true.

(** Stand-ins for the curve library, to run the key agreement on the sample
    inputs: every point is valid, the product is the point itself and is
    never the infinity point. *)
Definition sample_scalarmul (Q : ecpoint_t) (k : digit256_t) (curve : unit)
    : bool * ecpoint_t := (true, Q).
Definition sample_is_infinity (Q : ecpoint_t) (curve : unit) : bool := false.


(** ** Scalar multiplication on residues

    The algorithm of the specification, on residues modulo the curve
    modulus: a Jacobian point is a triple [(X, Y, Z)] of numbers, an affine
    point a triple [(x, y, infinity)]; doubling and mixed addition are the
    standard formulas (for the curve coefficient [a = -3]), the affine point
    of [(X, Y, Z)] is [(X / Z ^ 2, Y / Z ^ 3)], and the multiplication is the
    left-to-right double-and-add that takes two bits of the scalar per round
    with the table [{O, P, 2P, 3P}]. *)

Definition res_point : Type := (Z * Z * Z)%type.
Definition res_affine_point : Type := (Z * Z * bool)%type.

Definition res_infinity : res_point := (1, 1, 0).

Definition res_double (P : res_point) : res_point :=
  let '(X, Y, Z1) := P in
  if Z1 =? 0 then res_infinity
  else
    let M := (3 * ((X - Z1 * Z1) * (X + Z1 * Z1))) mod p256 in
    let Y2 := (Y * Y) mod p256 in
    let S := (4 * (X * Y2)) mod p256 in
    let X3 := (M * M - 2 * S) mod p256 in
    (X3, (M * (S - X3) - 8 * (Y2 * Y2)) mod p256, (2 * Y * Z1) mod p256).

Definition res_add (P : res_point) (Q : res_affine_point) : res_point :=
  let '(X, Y, Z1) := P in
  let '(x2, y2, inf) := Q in
  if inf then P
  else if Z1 =? 0 then (x2, y2, 1)
  else
    let Z2 := (Z1 * Z1) mod p256 in
    let H := (x2 * Z2 - X) mod p256 in
    let R := (y2 * (Z2 * Z1) - Y) mod p256 in
    if H =? 0 then
      if R =? 0 then res_double (x2, y2, 1) else res_infinity
    else
      let H2 := (H * H) mod p256 in
      let H3 := (H2 * H) mod p256 in
      let X3 := (R * R - H3 - 2 * (X * H2)) mod p256 in
      (X3, (R * (X * H2 - X3) - Y * H3) mod p256, (Z1 * H) mod p256).

(** [b ^ e] modulo the curve modulus, by squaring. *)
Fixpoint pow_mod (b : Z) (e : positive) : Z :=
  match e with
  | xH => b mod p256
  | xO e' => let r := pow_mod b e' in (r * r) mod p256
  | xI e' => let r := pow_mod b e' in (b * ((r * r) mod p256)) mod p256
  end.

(** The affine point of a Jacobian point; the inverse of [Z] is looked for
    as [Z ^ (p - 2)] and checked. *)
Definition res_affine (P : res_point) : option res_affine_point :=
  let '(X, Y, Z1) := P in
  if Z1 =? 0 then Some (0, 0, true)
  else
    let zi := pow_mod Z1 (Z.to_pos (p256 - 2)) in
    if (zi * Z1) mod p256 =? 1 then
      let zi2 := (zi * zi) mod p256 in
      Some ((X * zi2) mod p256, (Y * ((zi2 * zi) mod p256)) mod p256, false)
    else None.

Definition res_round (k : bigval_t) (mpyset : list (option res_affine_point))
    (h : nat) (Q : res_point) : res_point :=
  let Q := res_double (res_double Q) in
  match nth (Z.to_nat (big_get_2bits k (2 * h))) mpyset None with
  | Some R => res_add Q R
  | None => Q
  end.

Definition res_mpy (k : bigval_t) (P : res_affine_point)
    : option res_affine_point :=
  if big_is_negative k then Some (0, 0, true)
  else if big_is_zero k then Some (0, 0, true)
  else
    let '(x, y, inf) := P in
    let Q2 := res_double (x, y, 1) in
    match res_affine Q2 with
    | None => None
    | Some twoP =>
        match res_affine (res_add Q2 P) with
        | None => None
        | Some threeP =>
            let mpyset := [None; Some P; Some twoP; Some threeP] in
            res_affine
              (for_down 0 (skip_zero_pairs (BIGLEN * 16) k)
                 (res_round k mpyset) res_infinity)
        end
    end.

(** The point of the code the residues stand for. *)
Definition jac_sim (J : jacobian_point_t) (z : res_point) : Prop :=
  let '(X, Y, Z1) := z in
  point_ok J /\ eqp (sval (JX J)) X /\ eqp (sval (JY J)) Y /\ sval (JZ J) = Z1.

Definition aff_sim (A : affine_point_t) (a : res_affine_point) : Prop :=
  let '(x, y, inf) := a in
  affine_ok A /\ eqp (sval (ax A)) x /\ eqp (sval (ay A)) y /\ infinity A = inf.

(** The affine point has exactly these coordinates. *)
Definition aff_exact (A : affine_point_t) (a : res_affine_point) : Prop :=
  let '(x, y, inf) := a in
  wf_affine A /\ sval (ax A) = x /\ sval (ay A) = y /\ infinity A = inf.


(** ** The algorithm on residues, on machine integers

    The same algorithm once more on the arbitrary-precision integers of the
    Bignums library, which compute on 63-bit machine words: the concrete
    scalar multiplications are evaluated on these. *)

Definition big_point : Type := (BigZ.t * BigZ.t * BigZ.t)%type.
Definition big_affine_point : Type := (BigZ.t * BigZ.t * bool)%type.

Definition to_res_point (P : big_point) : res_point :=
  let '(X, Y, Z1) := P in (BigZ.to_Z X, BigZ.to_Z Y, BigZ.to_Z Z1).

Definition to_res_affine (P : big_affine_point) : res_affine_point :=
  let '(x, y, inf) := P in (BigZ.to_Z x, BigZ.to_Z y, inf).

Definition of_res_affine (P : res_affine_point) : big_affine_point :=
  let '(x, y, inf) := P in (BigZ.of_Z x, BigZ.of_Z y, inf).

Definition big_p256 : BigZ.t := BigZ.of_Z p256.

Definition bmod (x : BigZ.t) : BigZ.t := BigZ.modulo x big_p256.

Definition big_res_infinity : big_point := (BigZ.one, BigZ.one, BigZ.zero).

Definition big_res_double (P : big_point) : big_point :=
  let '(X, Y, Z1) := P in
  if BigZ.eqb Z1 BigZ.zero then big_res_infinity
  else
    let M := bmod (BigZ.mul (BigZ.of_Z 3)
                     (BigZ.mul (BigZ.sub X (BigZ.mul Z1 Z1))
                               (BigZ.add X (BigZ.mul Z1 Z1)))) in
    let Y2 := bmod (BigZ.mul Y Y) in
    let S := bmod (BigZ.mul (BigZ.of_Z 4) (BigZ.mul X Y2)) in
    let X3 := bmod (BigZ.sub (BigZ.mul M M) (BigZ.mul (BigZ.of_Z 2) S)) in
    (X3,
     bmod (BigZ.sub (BigZ.mul M (BigZ.sub S X3))
                    (BigZ.mul (BigZ.of_Z 8) (BigZ.mul Y2 Y2))),
     bmod (BigZ.mul (BigZ.mul (BigZ.of_Z 2) Y) Z1)).

Definition big_res_add (P : big_point) (Q : big_affine_point) : big_point :=
  let '(X, Y, Z1) := P in
  let '(x2, y2, inf) := Q in
  if inf then P
  else if BigZ.eqb Z1 BigZ.zero then (x2, y2, BigZ.one)
  else
    let Z2 := bmod (BigZ.mul Z1 Z1) in
    let H := bmod (BigZ.sub (BigZ.mul x2 Z2) X) in
    let R := bmod (BigZ.sub (BigZ.mul y2 (BigZ.mul Z2 Z1)) Y) in
    if BigZ.eqb H BigZ.zero then
      if BigZ.eqb R BigZ.zero then big_res_double (x2, y2, BigZ.one)
      else big_res_infinity
    else
      let H2 := bmod (BigZ.mul H H) in
      let H3 := bmod (BigZ.mul H2 H) in
      let X3 := bmod (BigZ.sub (BigZ.sub (BigZ.mul R R) H3)
                        (BigZ.mul (BigZ.of_Z 2) (BigZ.mul X H2))) in
      (X3,
       bmod (BigZ.sub (BigZ.mul R (BigZ.sub (BigZ.mul X H2) X3))
                      (BigZ.mul Y H3)),
       bmod (BigZ.mul Z1 H)).

Fixpoint big_pow_mod (b : BigZ.t) (e : positive) : BigZ.t :=
  match e with
  | xH => bmod b
  | xO e' => let r := big_pow_mod b e' in bmod (BigZ.mul r r)
  | xI e' => let r := big_pow_mod b e' in bmod (BigZ.mul b (bmod (BigZ.mul r r)))
  end.

Definition big_res_affine (P : big_point) : option big_affine_point :=
  let '(X, Y, Z1) := P in
  if BigZ.eqb Z1 BigZ.zero then Some (BigZ.zero, BigZ.zero, true)
  else
    let zi := big_pow_mod Z1 (Z.to_pos (p256 - 2)) in
    if BigZ.eqb (bmod (BigZ.mul zi Z1)) BigZ.one then
      let zi2 := bmod (BigZ.mul zi zi) in
      Some (bmod (BigZ.mul X zi2), bmod (BigZ.mul Y (bmod (BigZ.mul zi2 zi))),
            false)
    else None.

Definition big_res_round (k : bigval_t)
    (mpyset : list (option big_affine_point)) (h : nat) (Q : big_point)
    : big_point :=
  let Q := big_res_double (big_res_double Q) in
  match nth (Z.to_nat (big_get_2bits k (2 * h))) mpyset None with
  | Some R => big_res_add Q R
  | None => Q
  end.

Definition big_res_mpy (k : bigval_t) (P : big_affine_point)
    : option big_affine_point :=
  if big_is_negative k then Some (BigZ.zero, BigZ.zero, true)
  else if big_is_zero k then Some (BigZ.zero, BigZ.zero, true)
  else
    let '(x, y, inf) := P in
    let Q2 := big_res_double (x, y, BigZ.one) in
    match big_res_affine Q2 with
    | None => None
    | Some twoP =>
        match big_res_affine (big_res_add Q2 P) with
        | None => None
        | Some threeP =>
            let mpyset := [None; Some P; Some twoP; Some threeP] in
            big_res_affine
              (for_down 0 (skip_zero_pairs (BIGLEN * 16) k)
                 (big_res_round k mpyset) big_res_infinity)
        end
    end.

(** The scalar [n - 1], one less than the order of the curve, and the
    inverse [-G] of the base point. *)
Definition order_minus_one : bigval_t :=
  mkbig [0xfc632550; 0xf3b9cac2; 0xa7179e84; 0xbce6faad; 0xffffffff;
         0xffffffff; 0x00000000; 0xffffffff; 0x00000000].

Definition neg_base_point : affine_point_t :=
  mkaffine (ax base_point)
    (mkbig [0xc840ae0a; 0x3449bf97; 0x94cea131; 0xd431cca9;
            0x83f061e9; 0x711814b5; 0x01e58065; 0xb01cbd1c; 0])
    false.

(** Two Jacobian points with a coordinate near [- 2 ^ 287], below
    [sub_range].  The first stands for [-G]: its Y is that of [-G] less
    [2 ^ 31 + 1] times the curve modulus.  The second stands for [G] with
    [Z = 2]: its X is [4 * x] reduced, less [2 ^ 31 + 1] times the curve
    modulus, and its Y is [8 * y] reduced. *)
Definition far_point_y : jacobian_point_t :=
  mkjacobian (ax neg_base_point)
    (mkbig [0x4840ae0b; 0x3449bf98; 0x94cea131; 0x5431cca8; 0x83f061e9;
            0x711814b5; 0x81e58064; 0x301cbd1c; 0x80000000])
    big_one.

Definition far_point_x : jacobian_point_t :=
  mkjacobian
    (mkbig [0xe2630a5a; 0xd284e517; 0xb7acce83; 0x5c0df602; 0x8e9103c9;
            0xe2f39b95; 0x04b1091d; 0x2c5f47cd; 0x80000000])
    (mkbig [0xbdfa8faa; 0x5db20341; 0x598af676; 0x5e719ab9; 0xe07cf0b1;
            0x773f5a53; 0xf0d3fcda; 0x7f1a1719; 0])
    (mkbig [2; 0; 0; 0; 0; 0; 0; 0; 0]).


(** The scalar 2, and the point with the coordinates of the base point and
    the infinity flag set. *)
Definition big_two : bigval_t := mkbig [2; 0; 0; 0; 0; 0; 0; 0; 0].

Definition flagged_base_point : affine_point_t :=
  mkaffine (ax base_point) (ay base_point) true.

(** [2G], the double of the base point. *)
Definition double_base_point : affine_point_t :=
  mkaffine
    (mkbig [0x47669978; 0xa60b48fc; 0x77f21b35; 0xc08969e2;
            0x04b51ac3; 0x8a523803; 0x8d034f7e; 0x7cf27b18; 0])
    (mkbig [0x227873d1; 0x9e04b79d; 0x3ce98229; 0xba7dade6;
            0x9f7430db; 0x293d9ac6; 0xdb8ed040; 0x07775510; 0])
    false.

(* ===================================================================== *)
(** * Part II: properties                                                 *)
(* ===================================================================== *)

(** ** Arrays and loops *)

Lemma length_upd (l : list Z) (i : nat) (x : Z) : length (upd l i x) = length l.
Proof.
  revert i; induction l as [|h t IH]; intros [|i]; simpl; auto.
Qed.

Lemma nth_upd_same (l : list Z) (i : nat) (x d : Z) :
  (i < length l)%nat -> nth i (upd l i x) d = x.
Proof.
  revert i; induction l as [|h t IH]; intros [|i] H; simpl in *; try lia; auto.
  apply IH; lia.
Qed.

Lemma nth_upd_other (l : list Z) (i j : nat) (x d : Z) :
  i <> j -> nth j (upd l i x) d = nth j l d.
Proof.
  revert i j; induction l as [|h t IH]; intros [|i] [|j] H; simpl; auto; try lia.
Qed.

Lemma Forall_upd (P : Z -> Prop) (l : list Z) (i : nat) (x : Z) :
  Forall P l -> P x -> Forall P (upd l i x).
Proof.
  intros Hl Hx; revert i; induction Hl; intros [|i]; simpl; auto.
Qed.

(** The invariant rule of [for_range]. *)
Lemma for_range_ind {S : Type} (P : nat -> S -> Prop) (body : nat -> S -> S) :
  forall n lo s,
    P lo s ->
    (forall i s, (lo <= i < lo + n)%nat -> P i s -> P (Datatypes.S i) (body i s)) ->
    P (lo + n)%nat (for_range lo n body s).
Proof.
  induction n as [|n IH]; intros lo s H0 Hstep; simpl.
  - now rewrite Nat.add_0_r.
  - replace (lo + Datatypes.S n)%nat with (Datatypes.S lo + n)%nat by lia.
    apply IH.
    + apply Hstep; [lia | exact H0].
    + intros i s' Hi; apply Hstep; lia.
Qed.

(** The invariant rule of [for_down]: [P k] holds when the indices from [k]
    upwards have been processed. *)
Lemma for_down_ind {S : Type} (P : nat -> S -> Prop) (body : nat -> S -> S) :
  forall n lo s,
    P (lo + n)%nat s ->
    (forall i s, (lo <= i < lo + n)%nat -> P (Datatypes.S i) s -> P i (body i s)) ->
    P lo (for_down lo n body s).
Proof.
  induction n as [|n IH]; intros lo s H0 Hstep; simpl.
  - now rewrite Nat.add_0_r in H0.
  - apply IH.
    + apply Hstep; [lia |].
      now replace (Datatypes.S (lo + n)) with (lo + Datatypes.S n)%nat by lia.
    + intros i s' Hi; apply Hstep; lia.
Qed.

(** ** Machine integers *)

Lemma u32_small x : 0 <= x < 2 ^ 32 -> u32 x = x.
Proof. intros H; unfold u32; now apply Z.mod_small. Qed.

Lemma u64_small x : 0 <= x < 2 ^ 64 -> u64 x = x.
Proof. intros H; unfold u64; now apply Z.mod_small. Qed.

Lemma s64_small x : - 2 ^ 63 <= x < 2 ^ 63 -> s64 x = x.
Proof. intros H; unfold s64; rewrite Z.mod_small; lia. Qed.

Lemma s32_small x : - 2 ^ 31 <= x < 2 ^ 31 -> s32 x = x.
Proof. intros H; unfold s32; rewrite Z.mod_small; lia. Qed.

Lemma u32_range x : 0 <= u32 x < 2 ^ 32.
Proof. unfold u32; apply Z.mod_pos_bound; lia. Qed.

Lemma u64_range x : 0 <= u64 x < 2 ^ 64.
Proof. unfold u64; apply Z.mod_pos_bound; lia. Qed.

Lemma s32_range x : - 2 ^ 31 <= s32 x < 2 ^ 31.
Proof.
  unfold s32; pose proof (Z.mod_pos_bound (x + 2 ^ 31) (2 ^ 32)); lia.
Qed.

Lemma u32_s32 x : u32 (s32 x) = u32 x.
Proof.
  unfold u32, s32.
  rewrite Zminus_mod_idemp_l.
  f_equal; lia.
Qed.

(** The signed reading of a 32-bit word. *)
Lemma s32_word x :
  0 <= x < 2 ^ 32 -> s32 x = if 2 ^ 31 <=? x then x - 2 ^ 32 else x.
Proof.
  intros H; unfold s32.
  destruct (Z.leb_spec (2 ^ 31) x).
  - replace (x + 2 ^ 31) with (x - 2 ^ 31 + 1 * 2 ^ 32) by lia.
    rewrite Z_mod_plus_full, Z.mod_small; lia.
  - rewrite Z.mod_small; lia.
Qed.

Lemma shiftr32 x : Z.shiftr x 32 = x / 2 ^ 32.
Proof. now rewrite Z.shiftr_div_pow2 by lia. Qed.

(** ** Words and values *)

Lemma lval_app (l1 l2 : list Z) :
  lval (l1 ++ l2) = lval l1 + 2 ^ (32 * Z.of_nat (length l1)) * lval l2.
Proof.
  induction l1 as [|h t IH]; cbn [app lval length].
  - change (2 ^ (32 * Z.of_nat 0)) with 1; lia.
  - rewrite IH.
    replace (32 * Z.of_nat (S (length t))) with (32 + 32 * Z.of_nat (length t)) by lia.
    rewrite Z.pow_add_r by lia. ring.
Qed.

Lemma lval_bound (l : list Z) :
  Forall (fun x => 0 <= x < 2 ^ 32) l ->
  0 <= lval l < 2 ^ (32 * Z.of_nat (length l)).
Proof.
  induction 1 as [|h t Hh Ht IH]; cbn [lval length].
  - change (2 ^ (32 * Z.of_nat 0)) with 1; lia.
  - replace (32 * Z.of_nat (S (length t))) with (32 + 32 * Z.of_nat (length t)) by lia.
    rewrite Z.pow_add_r by lia.
    nia.
Qed.

Lemma firstn_upd_succ (l : list Z) (i : nat) (x : Z) :
  (i < length l)%nat -> firstn (S i) (upd l i x) = firstn i l ++ [x].
Proof.
  revert i; induction l as [|h t IH]; intros [|i] H; simpl in *; try lia; auto.
  f_equal. apply IH. lia.
Qed.

Lemma firstn_upd_ge (l : list Z) (i j : nat) (x : Z) :
  (j <= i)%nat -> firstn j (upd l i x) = firstn j l.
Proof.
  revert i j; induction l as [|h t IH]; intros [|i] [|j] H; simpl; auto; try lia.
  f_equal. apply IH. lia.
Qed.

Lemma firstn_succ_nth (l : list Z) (i : nat) :
  (i < length l)%nat -> firstn (S i) l = firstn i l ++ [nth i l 0].
Proof.
  revert i; induction l as [|h t IH]; intros [|i] H; simpl in *; try lia; auto.
  f_equal. apply IH. lia.
Qed.

Lemma nth_range (l : list Z) (i : nat) :
  Forall (fun x => 0 <= x < 2 ^ 32) l -> 0 <= nth i l 0 < 2 ^ 32.
Proof.
  intros H; revert i; induction H; intros [|i]; simpl; auto; lia.
Qed.

Lemma word_range (a : bigval_t) (i : nat) :
  wf_bigval a -> 0 <= word a i < 2 ^ 32.
Proof. intros [_ H]; now apply nth_range. Qed.

(** A well-formed big number is nine words. *)
Lemma wf_explode (a : bigval_t) :
  wf_bigval a ->
  exists a0 a1 a2 a3 a4 a5 a6 a7 a8,
    a = mkbig [a0; a1; a2; a3; a4; a5; a6; a7; a8] /\
    0 <= a0 < 2 ^ 32 /\ 0 <= a1 < 2 ^ 32 /\ 0 <= a2 < 2 ^ 32 /\
    0 <= a3 < 2 ^ 32 /\ 0 <= a4 < 2 ^ 32 /\ 0 <= a5 < 2 ^ 32 /\
    0 <= a6 < 2 ^ 32 /\ 0 <= a7 < 2 ^ 32 /\ 0 <= a8 < 2 ^ 32.
Proof.
  destruct a as [l]; intros [Hlen Hall]; simpl in *.
  do 9 (destruct l as [|? l]; [discriminate Hlen|]).
  destruct l; [|discriminate Hlen].
  repeat match goal with H : Forall _ (_ :: _) |- _ => inversion H; clear H; subst end.
  do 9 eexists; split; [reflexivity|]; repeat split; lia.
Qed.

Lemma wf_mkbig (l : list Z) :
  length l = BIGLEN -> Forall (fun x => 0 <= x < 2 ^ 32) l -> wf_bigval (mkbig l).
Proof. now split. Qed.

Ltac explode a :=
  let H := fresh "H" in
  match goal with
  | Hwf : wf_bigval a |- _ =>
      pose proof (wf_explode a Hwf) as H;
      destruct H as (?a0 & ?a1 & ?a2 & ?a3 & ?a4 & ?a5 & ?a6 & ?a7 & ?a8 & H
                     & ? & ? & ? & ? & ? & ? & ? & ? & ?);
      subst a
  end.

Lemma uval_range (a : bigval_t) : wf_bigval a -> 0 <= uval a < 2 ^ 288.
Proof.
  intros [Hlen Hall]; unfold uval.
  pose proof (lval_bound _ Hall) as H; rewrite Hlen in H.
  exact H.
Qed.

(** The signed value is the low 256 bits plus the signed top word. *)
Lemma sval_split (a : bigval_t) :
  wf_bigval a ->
  sval a = lval (firstn 8 (data a)) + 2 ^ 256 * s32 (word a MSW).
Proof.
  intros Hwf; explode a.
  unfold sval, uval, word, MSW; cbn [data nth firstn lval].
  rewrite s32_word by lia.
  destruct (2 ^ 31 <=? a8); lia.
Qed.

Lemma lo_range (a : bigval_t) :
  wf_bigval a -> 0 <= lval (firstn 8 (data a)) < 2 ^ 256.
Proof.
  intros Hwf; explode a; cbn [data firstn lval]; lia.
Qed.

Lemma sval_range (a : bigval_t) : wf_bigval a -> - 2 ^ 287 <= sval a < 2 ^ 287.
Proof.
  intros Hwf; rewrite sval_split by assumption.
  pose proof (lo_range a Hwf); pose proof (s32_range (word a MSW)); lia.
Qed.

(** The signed top word is the quotient of the value by [2 ^ 256]. *)
Lemma msw_sval (a : bigval_t) :
  wf_bigval a -> s32 (word a MSW) = sval a / 2 ^ 256.
Proof.
  intros Hwf; rewrite sval_split by assumption.
  pose proof (lo_range a Hwf).
  apply Z.div_unique with (r := lval (firstn 8 (data a))); lia.
Qed.

Lemma sval_uval (a : bigval_t) :
  wf_bigval a -> exists c, uval a + 2 ^ 288 * c = sval a.
Proof.
  intros _; unfold sval.
  destruct (2 ^ 31 <=? word a MSW); [exists (-1) | exists 0]; lia.
Qed.

(** A well-formed number whose words agree with [V] modulo [2 ^ 288] has the
    signed value [V] when [V] is representable. *)
Lemma sval_unique (r : bigval_t) (V c : Z) :
  wf_bigval r -> uval r + 2 ^ 288 * c = V -> - 2 ^ 287 <= V < 2 ^ 287 ->
  sval r = V.
Proof.
  intros Hwf HV Hr.
  pose proof (uval_range r Hwf) as Hu.
  assert (Hsplit : uval r = lval (firstn 8 (data r)) + 2 ^ 256 * word r MSW).
  { explode r. unfold uval, word, MSW; cbn [data nth firstn lval]. lia. }
  pose proof (lo_range r Hwf) as Hlo.
  pose proof (word_range r MSW Hwf) as Hw.
  unfold sval.
  destruct (Z.leb_spec (2 ^ 31) (word r MSW)); lia.
Qed.

Lemma big_is_negative_spec (a : bigval_t) :
  wf_bigval a -> big_is_negative a = (sval a <? 0).
Proof.
  intros Hwf; unfold big_is_negative.
  rewrite sval_split by assumption.
  pose proof (lo_range a Hwf); pose proof (s32_range (word a MSW)).
  destruct (Z.ltb_spec (s32 (word a MSW)) 0), (Z.ltb_spec
    (lval (firstn 8 (data a)) + 2 ^ 256 * s32 (word a MSW)) 0); auto; lia.
Qed.

Lemma wf_big_zero : wf_bigval big_zero.
Proof. split; [reflexivity|]; repeat constructor; lia. Qed.

Lemma wf_big_one : wf_bigval big_one.
Proof. split; [reflexivity|]; repeat constructor; lia. Qed.

Lemma wf_modulusP : wf_bigval modulusP.
Proof. split; [reflexivity|]; repeat constructor; lia. Qed.

Lemma wf_orderP : wf_bigval orderP.
Proof. split; [reflexivity|]; repeat constructor; lia. Qed.

Lemma sval_modulusP : sval modulusP = p256.
Proof. reflexivity. Qed.

Lemma sval_orderP : sval orderP = n256.
Proof. reflexivity. Qed.

Lemma sval_big_zero : sval big_zero = 0.
Proof. reflexivity. Qed.

Lemma sval_big_one : sval big_one = 1.
Proof. reflexivity. Qed.

(** ** Carry chains *)

Lemma dsum_ext (n : nat) (d d' : nat -> Z) :
  (forall i, (i < n)%nat -> d i = d' i) -> dsum n d = dsum n d'.
Proof.
  induction n as [|n IH]; intros H; cbn [dsum]; auto.
  rewrite IH, H by (auto; intros; apply H; lia). reflexivity.
Qed.

Lemma dsum_add (n : nat) (d d' : nat -> Z) :
  dsum n (fun i => d i + d' i) = dsum n d + dsum n d'.
Proof. induction n as [|n IH]; cbn [dsum]; [reflexivity|rewrite IH; ring]. Qed.

Lemma dsum_scale (n : nat) (k : Z) (d : nat -> Z) :
  dsum n (fun i => k * d i) = k * dsum n d.
Proof. induction n as [|n IH]; cbn [dsum]; [ring|rewrite IH; ring]. Qed.

Lemma dsum_nth (n : nat) (l : list Z) :
  dsum n (fun i => nth i l 0) = lval (firstn n l).
Proof.
  induction n as [|n IH]; [reflexivity|].
  cbn [dsum]. rewrite IH.
  destruct (Nat.lt_ge_cases n (length l)) as [Hlt|Hge].
  - rewrite (firstn_succ_nth l n Hlt), lval_app.
    rewrite length_firstn, Nat.min_l by lia.
    cbn [lval]. ring.
  - rewrite nth_overflow by assumption.
    rewrite !firstn_all2 by lia. ring.
Qed.

Lemma dsum_word (a : bigval_t) :
  wf_bigval a -> dsum BIGLEN (word a) = uval a.
Proof.
  intros [Hlen _]. unfold word, uval.
  rewrite dsum_nth, firstn_all2 by lia. reflexivity.
Qed.

(** A loop that writes one word per step and hands a carry [v] to the next
    step, the word and the new carry splitting [v + d i]: the words written
    and the last carry add up to the digits [d]. *)
Lemma carry_chain (R : Z -> Prop) (d : nat -> Z)
    (body : nat -> list Z * Z -> list Z * Z) (n : nat) :
  (forall i tgt v, (i < n)%nat -> R v -> length tgt = n ->
     exists x v', body i (tgt, v) = (upd tgt i x, v') /\
                  word_ok x /\ x + 2 ^ 32 * v' = v + d i /\ R v') ->
  forall tgt0 v0, length tgt0 = n -> R v0 ->
  exists tgt v,
    for_range 0 n body (tgt0, v0) = (tgt, v) /\
    length tgt = n /\ Forall word_ok tgt /\
    lval tgt + 2 ^ (32 * Z.of_nat n) * v = v0 + dsum n d /\ R v.
Proof.
  intros Hstep tgt0 v0 Hlen0 HR0.
  pose (P := fun (i : nat) (st : list Z * Z) =>
    exists tgt v, st = (tgt, v) /\ length tgt = n /\
      Forall word_ok (firstn i tgt) /\
      lval (firstn i tgt) + 2 ^ (32 * Z.of_nat i) * v = v0 + dsum i d /\ R v).
  assert (HP : P (0 + n)%nat (for_range 0 n body (tgt0, v0))).
  { apply for_range_ind.
    - exists tgt0, v0. repeat split; auto.
      cbn [firstn lval dsum]. change (2 ^ (32 * Z.of_nat 0)) with 1. lia.
    - intros i st Hi (tgt & v & -> & Hlen & Hall & Hval & HR).
      destruct (Hstep i tgt v ltac:(lia) HR Hlen) as (x & v' & Hb & Hx & Hsplit & HR').
      exists (upd tgt i x), v'. rewrite Hb.
      rewrite firstn_upd_succ by lia.
      repeat split; auto.
      + now rewrite length_upd.
      + apply Forall_app; split; auto.
      + rewrite lval_app, length_firstn, Nat.min_l by lia.
        cbn [lval dsum].
        replace (32 * Z.of_nat (S i)) with (32 * Z.of_nat i + 32) by lia.
        rewrite Z.pow_add_r by lia.
        set (K := 2 ^ (32 * Z.of_nat i)) in *.
        assert (HK : K * (x + 2 ^ 32 * v') = K * (v + d i)) by now rewrite Hsplit.
        lia. }
  destruct HP as (tgt & v & Heq & Hlen & Hall & Hval & HR).
  exists tgt, v. simpl in *.
  rewrite firstn_all2 in Hall, Hval by lia.
  repeat split; auto.
Qed.

(** ** Word loops of the big number engine *)

Lemma split32 (t : Z) : u32 t + 2 ^ 32 * Z.shiftr t 32 = t /\ word_ok (u32 t).
Proof.
  rewrite shiftr32. unfold u32, word_ok.
  pose proof (Z.div_mod t (2 ^ 32) ltac:(lia)).
  pose proof (Z.mod_pos_bound t (2 ^ 32) ltac:(lia)). lia.
Qed.

Lemma length_fresh : length fresh = BIGLEN.
Proof. reflexivity. Qed.

Lemma wf_of_chain (tgt : list Z) :
  length tgt = BIGLEN -> Forall word_ok tgt -> wf_bigval (mkbig tgt).
Proof. intros; now split. Qed.

Lemma big_add_uval (a b : bigval_t) :
  wf_bigval a -> wf_bigval b ->
  wf_bigval (big_add a b) /\
  exists c, uval (big_add a b) + 2 ^ 288 * c = uval a + uval b.
Proof.
  intros Ha Hb. unfold big_add.
  match goal with |- context [for_range 0 BIGLEN ?body ?s] =>
    destruct (carry_chain (fun v => 0 <= v <= 1) (fun i => word a i + word b i)
                body BIGLEN) with (tgt0 := fresh) (v0 := 0)
      as (tgt & v & Heq & Hlen & Hall & Hval & HR)
  end.
  - intros i tgt v Hi HR Hlen. cbv beta in HR |- *.
    pose proof (word_range a i Ha). pose proof (word_range b i Hb).
    eexists _, _; split; [reflexivity|].
    rewrite (u64_small (v + word a i)) by lia.
    rewrite (u64_small (v + word a i + word b i)) by lia.
    destruct (split32 (v + word a i + word b i)) as [Hs Hw].
    unfold word_ok in *. repeat split; lia.
  - reflexivity.
  - lia.
  - rewrite Heq; cbn [fst]. split; [now apply wf_of_chain|].
    exists v. change (uval (mkbig tgt)) with (lval tgt).
    rewrite dsum_add, !dsum_word in Hval by assumption.
    change (2 ^ (32 * Z.of_nat BIGLEN)) with (2 ^ 288) in Hval. lia.
Qed.

Lemma u32_lnot (b : Z) : 0 <= b < 2 ^ 32 -> u32 (Z.lnot b) = 2 ^ 32 - 1 - b.
Proof.
  intros H. unfold u32, Z.lnot.
  replace (Z.pred (- b)) with (2 ^ 32 - 1 - b + (-1) * 2 ^ 32) by lia.
  rewrite Z_mod_plus_full, Z.mod_small; lia.
Qed.

Lemma big_sub_uval (a b : bigval_t) :
  wf_bigval a -> wf_bigval b ->
  wf_bigval (big_sub a b) /\
  exists c, uval (big_sub a b) + 2 ^ 288 * c = uval a - uval b.
Proof.
  intros Ha Hb. unfold big_sub.
  match goal with |- context [for_range 0 BIGLEN ?body ?s] =>
    destruct (carry_chain (fun v => 0 <= v <= 1)
                (fun i => word a i + (2 ^ 32 - 1 + -1 * word b i))
                body BIGLEN) with (tgt0 := fresh) (v0 := 1)
      as (tgt & v & Heq & Hlen & Hall & Hval & HR)
  end.
  - intros i tgt v Hi HR Hlen. cbv beta in HR |- *.
    pose proof (word_range a i Ha). pose proof (word_range b i Hb).
    eexists _, _; split; [reflexivity|].
    rewrite u32_lnot by assumption.
    rewrite (u64_small (v + word a i)) by lia.
    rewrite (u64_small (2 ^ 32 - 1 - word b i)) by lia.
    rewrite (u64_small (v + word a i + _)) by lia.
    destruct (split32 (v + word a i + (2 ^ 32 - 1 - word b i))) as [Hs Hw].
    unfold word_ok in *. repeat split; lia.
  - reflexivity.
  - lia.
  - rewrite Heq; cbn [fst]. split; [now apply wf_of_chain|].
    exists (v - 1). change (uval (mkbig tgt)) with (lval tgt).
    rewrite dsum_add, (dsum_add _ (fun _ => 2 ^ 32 - 1)), dsum_scale, !dsum_word
      in Hval by assumption.
    change (2 ^ (32 * Z.of_nat BIGLEN)) with (2 ^ 288) in Hval.
    change (dsum BIGLEN (fun _ => 2 ^ 32 - 1)) with (2 ^ 288 - 1) in Hval.
    lia.
Qed.

Lemma big_triple_uval (a : bigval_t) :
  wf_bigval a ->
  wf_bigval (big_triple a) /\
  exists c, uval (big_triple a) + 2 ^ 288 * c = 3 * uval a.
Proof.
  intros Ha. unfold big_triple.
  match goal with |- context [for_range 0 BIGLEN ?body ?s] =>
    destruct (carry_chain (fun v => 0 <= v <= 2) (fun i => 3 * word a i)
                body BIGLEN) with (tgt0 := fresh) (v0 := 0)
      as (tgt & v & Heq & Hlen & Hall & Hval & HR)
  end.
  - intros i tgt v Hi HR Hlen. cbv beta in HR |- *.
    pose proof (word_range a i Ha).
    eexists _, _; split; [reflexivity|].
    rewrite (u64_small (v + word a i)) by lia.
    rewrite (u64_small (v + word a i + word a i)) by lia.
    rewrite (u64_small (v + word a i + word a i + word a i)) by lia.
    destruct (split32 (v + word a i + word a i + word a i)) as [Hs Hw].
    unfold word_ok in *. repeat split; lia.
  - reflexivity.
  - lia.
  - rewrite Heq; cbn [fst]. split; [now apply wf_of_chain|].
    exists v. change (uval (mkbig tgt)) with (lval tgt).
    rewrite dsum_scale, !dsum_word in Hval by assumption.
    change (2 ^ (32 * Z.of_nat BIGLEN)) with (2 ^ 288) in Hval. lia.
Qed.

Lemma big_1wd_mpy_uval (a : bigval_t) (k : Z) :
  wf_bigval a -> - 2 ^ 31 <= k < 2 ^ 31 ->
  wf_bigval (big_1wd_mpy a k) /\
  exists c, uval (big_1wd_mpy a k) + 2 ^ 288 * c = k * uval a.
Proof.
  intros Ha Hk. unfold big_1wd_mpy.
  match goal with |- context [for_range 0 (MSW + 1) ?body ?s] =>
    destruct (carry_chain (fun v => - 2 ^ 31 <= v < 2 ^ 31) (fun i => k * word a i)
                body BIGLEN) with (tgt0 := fresh) (v0 := 0)
      as (tgt & v & Heq & Hlen & Hall & Hval & HR)
  end.
  - intros i tgt v Hi HR Hlen. cbv beta in HR |- *.
    pose proof (word_range a i Ha) as Hw.
    eexists _, _; split; [reflexivity|].
    assert (Hp : - 2 ^ 31 * (2 ^ 32 - 1) <= k * word a i <= (2 ^ 31 - 1) * (2 ^ 32 - 1)) by nia.
    rewrite (s64_small (k * word a i)) by lia.
    rewrite (s64_small (v + k * word a i)) by lia.
    destruct (split32 (v + k * word a i)) as [Hs Hwo].
    rewrite (s64_small (v + k * word a i - _)) by (unfold word_ok in Hwo; lia).
    rewrite shiftr32 in *.
    assert (Hq : (v + k * word a i - u32 (v + k * word a i)) / 2 ^ 32
                 = (v + k * word a i) / 2 ^ 32).
    { replace (v + k * word a i - u32 (v + k * word a i))
        with ((v + k * word a i) / 2 ^ 32 * 2 ^ 32) by lia.
      now rewrite Z.div_mul by lia. }
    rewrite Hq. unfold word_ok in *.
    repeat split; lia.
  - reflexivity.
  - lia.
  - change (MSW + 1)%nat with BIGLEN.
    rewrite Heq; cbn [fst]. split; [now apply wf_of_chain|].
    exists v. change (uval (mkbig tgt)) with (lval tgt).
    rewrite dsum_scale, !dsum_word in Hval by assumption.
    change (2 ^ (32 * Z.of_nat BIGLEN)) with (2 ^ 288) in Hval. lia.
Qed.

Lemma dsum_adjP (k : Z) : dsum BIGLEN (adjP k) = k * p256.
Proof.
  unfold adjP, p256, BIGLEN; cbn [dsum nth].
  repeat match goal with
  | |- context [2 ^ (32 * Z.of_nat ?n)] =>
      let v := eval vm_compute in (2 ^ (32 * Z.of_nat n)) in
      change (2 ^ (32 * Z.of_nat n)) with v
  end.
  lia.
Qed.

Lemma adjP_bound (k : Z) (i : nat) :
  - 2 ^ 62 <= k <= 2 ^ 62 -> - 2 ^ 62 <= adjP k i <= 2 ^ 62.
Proof.
  intros Hk. unfold adjP.
  do 9 (destruct i as [|i]; [cbn [nth]; lia|]).
  destruct i; cbn [nth]; lia.
Qed.

Lemma big_adjustP_loop (a : bigval_t) (k : Z) :
  - 2 ^ 62 <= k <= 2 ^ 62 -> k <> 0 ->
  big_adjustP a k =
  mkbig (fst (for_range 0 BIGLEN (fun i st => RDCSTEP a i (adjP k i) st) (fresh, 0))).
Proof.
  intros Hk Hnz. unfold big_adjustP.
  destruct (Z.eqb_spec k 0) as [|_]; [contradiction|]. cbn [negb].
  rewrite (s64_small (- k)) by lia.
  reflexivity.
Qed.

Lemma big_adjustP_uval (a : bigval_t) (k : Z) :
  wf_bigval a -> - 2 ^ 62 <= k <= 2 ^ 62 ->
  wf_bigval (big_adjustP a k) /\
  exists c, uval (big_adjustP a k) + 2 ^ 288 * c = uval a + k * p256.
Proof.
  intros Ha Hk.
  destruct (Z.eq_dec k 0) as [->|Hnz].
  { unfold big_adjustP; cbn [Z.eqb negb]. split; [assumption|]. exists 0; lia. }
  rewrite big_adjustP_loop by assumption.
  match goal with |- context [for_range 0 BIGLEN ?body ?s] =>
    destruct (carry_chain (fun v => - 2 ^ 31 <= v <= 2 ^ 31)
                (fun i => word a i + adjP k i)
                body BIGLEN) with (tgt0 := fresh) (v0 := 0)
      as (tgt & v & Heq & Hlen & Hall & Hval & HR)
  end.
  - intros i tgt v Hi HR Hlen. cbv beta in HR |- *.
    pose proof (word_range a i Ha) as Hw.
    pose proof (adjP_bound k i Hk) as Hadj.
    unfold RDCSTEP.
    eexists _, _; split; [reflexivity|].
    rewrite (s64_small (v + word a i)) by lia.
    rewrite (s64_small (v + word a i + adjP k i)) by lia.
    rewrite u32_s32.
    destruct (split32 (v + word a i + adjP k i)) as [Hs Hwo].
    rewrite shiftr32 in *. unfold word_ok in *.
    repeat split; lia.
  - reflexivity.
  - lia.
  - rewrite Heq; cbn [fst]. split; [now apply wf_of_chain|].
    exists v. change (uval (mkbig tgt)) with (lval tgt).
    rewrite dsum_add, dsum_adjP, !dsum_word in Hval by assumption.
    change (2 ^ (32 * Z.of_nat BIGLEN)) with (2 ^ 288) in Hval. lia.
Qed.

(** ** Signed values of the word loops *)

Lemma sval_of_uval (r : bigval_t) (V : Z) :
  wf_bigval r -> (exists c, uval r + 2 ^ 288 * c = V) ->
  - 2 ^ 287 <= V < 2 ^ 287 -> sval r = V.
Proof. intros Hwf [c Hc] HV; now apply sval_unique with c. Qed.

Lemma wf_big_add (a b : bigval_t) :
  wf_bigval a -> wf_bigval b -> wf_bigval (big_add a b).
Proof. intros; now apply big_add_uval. Qed.

Lemma wf_big_sub (a b : bigval_t) :
  wf_bigval a -> wf_bigval b -> wf_bigval (big_sub a b).
Proof. intros; now apply big_sub_uval. Qed.

Lemma wf_big_triple (a : bigval_t) : wf_bigval a -> wf_bigval (big_triple a).
Proof. intros; now apply big_triple_uval. Qed.

Lemma big_add_sval (a b : bigval_t) :
  wf_bigval a -> wf_bigval b ->
  - 2 ^ 287 <= sval a + sval b < 2 ^ 287 ->
  sval (big_add a b) = sval a + sval b.
Proof.
  intros Ha Hb Hr.
  destruct (big_add_uval a b Ha Hb) as [Hwf [c Hc]].
  destruct (sval_uval a Ha) as [ca Hca], (sval_uval b Hb) as [cb Hcb].
  apply sval_unique with (c + ca + cb); auto; lia.
Qed.

Lemma big_sub_sval (a b : bigval_t) :
  wf_bigval a -> wf_bigval b ->
  - 2 ^ 287 <= sval a - sval b < 2 ^ 287 ->
  sval (big_sub a b) = sval a - sval b.
Proof.
  intros Ha Hb Hr.
  destruct (big_sub_uval a b Ha Hb) as [Hwf [c Hc]].
  destruct (sval_uval a Ha) as [ca Hca], (sval_uval b Hb) as [cb Hcb].
  apply sval_unique with (c + ca - cb); auto; lia.
Qed.

Lemma big_triple_sval (a : bigval_t) :
  wf_bigval a -> - 2 ^ 287 <= 3 * sval a < 2 ^ 287 ->
  sval (big_triple a) = 3 * sval a.
Proof.
  intros Ha Hr.
  destruct (big_triple_uval a Ha) as [Hwf [c Hc]].
  destruct (sval_uval a Ha) as [ca Hca].
  apply sval_unique with (c + 3 * ca); auto; lia.
Qed.

Lemma big_1wd_mpy_sval (a : bigval_t) (k : Z) :
  wf_bigval a -> - 2 ^ 31 <= k < 2 ^ 31 ->
  - 2 ^ 287 <= k * sval a < 2 ^ 287 ->
  wf_bigval (big_1wd_mpy a k) /\ sval (big_1wd_mpy a k) = k * sval a.
Proof.
  intros Ha Hk Hr.
  destruct (big_1wd_mpy_uval a k Ha Hk) as [Hwf [c Hc]].
  destruct (sval_uval a Ha) as [ca Hca].
  split; [assumption|].
  apply sval_unique with (c + k * ca); auto; lia.
Qed.

Lemma big_adjustP_sval (a : bigval_t) (k : Z) :
  wf_bigval a -> - 2 ^ 62 <= k <= 2 ^ 62 ->
  - 2 ^ 287 <= sval a + k * p256 < 2 ^ 287 ->
  wf_bigval (big_adjustP a k) /\ sval (big_adjustP a k) = sval a + k * p256.
Proof.
  intros Ha Hk Hr.
  destruct (big_adjustP_uval a k Ha Hk) as [Hwf [c Hc]].
  destruct (sval_uval a Ha) as [ca Hca].
  split; [assumption|].
  apply sval_unique with (c + ca); auto; lia.
Qed.

(** The approximate reduction never overflows. *)
Lemma approx_bounds (v : Z) :
  - 2 ^ 287 <= v < 2 ^ 287 -> approx_range (approx v).
Proof.
  intros Hv. unfold approx, approx_range, p256.
  pose proof (Z.div_mod v (2 ^ 256) ltac:(lia)) as Hdm.
  pose proof (Z.mod_pos_bound v (2 ^ 256) ltac:(lia)) as Hm.
  assert (- 2 ^ 31 <= v / 2 ^ 256 < 2 ^ 31).
  { split; [apply Z.div_le_lower_bound | apply Z.div_lt_upper_bound]; lia. }
  lia.
Qed.

Lemma approx_eqp (v : Z) : eqp (approx v) v.
Proof.
  unfold eqp, approx.
  assert (H : v - v / 2 ^ 256 * p256 = v + (- (v / 2 ^ 256)) * p256).
  { generalize (v / 2 ^ 256), p256; intros; ring. }
  rewrite H. apply Z_mod_plus_full.
Qed.

Lemma big_approx_reduceP_sval (a : bigval_t) :
  wf_bigval a ->
  wf_bigval (big_approx_reduceP a) /\
  sval (big_approx_reduceP a) = approx (sval a).
Proof.
  intros Ha. unfold big_approx_reduceP.
  pose proof (s32_range (word a MSW)) as Hm.
  rewrite (s64_small (- _)) by lia.
  pose proof (approx_bounds (sval a) (sval_range a Ha)) as Hb.
  unfold approx, approx_range in *.
  rewrite <- (msw_sval a Ha) in *.
  destruct (big_adjustP_sval a (- s32 (word a MSW)) Ha) as [Hwf Hs]; try lia.
  split; [assumption|]. rewrite Hs. generalize p256; intros; ring.
Qed.

Lemma approx_range_repr (v : Z) : approx_range v -> - 2 ^ 287 <= v < 2 ^ 287.
Proof. unfold approx_range; lia. Qed.

Lemma big_addP_sval (a b : bigval_t) :
  wf_bigval a -> wf_bigval b ->
  - 2 ^ 287 <= sval a + sval b < 2 ^ 287 ->
  wf_bigval (big_addP a b) /\
  eqp (sval (big_addP a b)) (sval a + sval b) /\
  approx_range (sval (big_addP a b)).
Proof.
  intros Ha Hb Hr. unfold big_addP.
  destruct (big_approx_reduceP_sval (big_add a b) (wf_big_add a b Ha Hb)) as [Hwf Hs].
  rewrite Hs, big_add_sval by assumption.
  split; [assumption|]. split; [apply approx_eqp | now apply approx_bounds].
Qed.

Lemma big_subP_sval (a b : bigval_t) :
  wf_bigval a -> wf_bigval b ->
  - 2 ^ 287 <= sval a - sval b < 2 ^ 287 ->
  wf_bigval (big_subP a b) /\
  eqp (sval (big_subP a b)) (sval a - sval b) /\
  approx_range (sval (big_subP a b)).
Proof.
  intros Ha Hb Hr. unfold big_subP.
  destruct (big_approx_reduceP_sval (big_sub a b) (wf_big_sub a b Ha Hb)) as [Hwf Hs].
  rewrite Hs, big_sub_sval by assumption.
  split; [assumption|]. split; [apply approx_eqp | now apply approx_bounds].
Qed.

(** ** Tests on big numbers *)

Lemma big_is_zero_spec (a : bigval_t) :
  wf_bigval a -> big_is_zero a = (sval a =? 0).
Proof.
  intros Ha. explode a.
  cbv [big_is_zero all_zero_from sval uval BIGLEN MSW word data nth lval].
  destruct (Z.leb_spec (2 ^ 31) a8).
  all: repeat match goal with
       | |- context [negb (?x =? 0)] => destruct (Z.eqb_spec x 0); cbn [negb]
       end;
       match goal with |- _ = (?s =? 0) => destruct (Z.eqb_spec s 0) end;
       try reflexivity; lia.
Qed.

Lemma big_is_one_spec (a : bigval_t) :
  wf_bigval a -> big_is_one a = (sval a =? 1).
Proof.
  intros Ha. explode a.
  cbv [big_is_one all_zero_from sval uval BIGLEN MSW word data nth lval Nat.sub].
  destruct (Z.leb_spec (2 ^ 31) a8).
  all: destruct (Z.eqb_spec a0 1); cbn [negb];
       repeat match goal with
       | |- context [negb (?x =? 0)] => destruct (Z.eqb_spec x 0); cbn [negb]
       end;
       match goal with |- _ = (?s =? 1) => destruct (Z.eqb_spec s 1) end;
       try reflexivity; lia.
Qed.

Lemma land1_mod2 (x : Z) : Z.land x 1 = x mod 2.
Proof. change 1 with (Z.ones 1). rewrite Z.land_ones by lia. reflexivity. Qed.

Lemma big_is_odd_spec (a : bigval_t) :
  wf_bigval a -> big_is_odd a = Z.odd (sval a).
Proof.
  intros Ha. unfold big_is_odd. rewrite land1_mod2.
  destruct (sval_uval a Ha) as [c Hc].
  assert (Hu : uval a = word a 0 + 2 * (2 ^ 31 * lval (tl (data a)))).
  { explode a. unfold uval, word; cbn [data nth tl lval]. lia. }
  assert (Hs : sval a = word a 0 + 2 * (2 ^ 31 * lval (tl (data a)) + 2 ^ 287 * c)) by lia.
  rewrite Hs, Z.odd_add_mul_2.
  rewrite Zmod_odd. destruct (Z.odd (word a 0)); reflexivity.
Qed.

Lemma Forall_firstn_Z (P : Z -> Prop) (n : nat) (l : list Z) :
  Forall P l -> Forall P (firstn n l).
Proof.
  intros H; revert n; induction H; intros [|n]; cbn [firstn]; auto.
Qed.

Lemma big_cmp_words_spec (a b : bigval_t) (n : nat) :
  wf_bigval a -> wf_bigval b -> (n <= BIGLEN)%nat ->
  big_cmp_words n a b =
  match lval (firstn n (data a)) ?= lval (firstn n (data b)) with
  | Gt => 1 | Lt => -1 | Eq => 0
  end.
Proof.
  intros Ha Hb. induction n as [|n IH]; intros Hn.
  - reflexivity.
  - cbn [big_cmp_words].
    destruct Ha as [Hla Hfa], Hb as [Hlb Hfb].
    rewrite !firstn_succ_nth by lia. rewrite !lval_app.
    rewrite !length_firstn, !Nat.min_l by lia. cbn [lval].
    fold (word a n) (word b n).
    pose proof (nth_range _ n Hfa) as Hwa. pose proof (nth_range _ n Hfb) as Hwb.
    fold (word a n) in Hwa. fold (word b n) in Hwb.
    assert (Hpa : Forall (fun x => 0 <= x < 2 ^ 32) (firstn n (data a)))
      by now apply Forall_firstn_Z.
    assert (Hpb : Forall (fun x => 0 <= x < 2 ^ 32) (firstn n (data b)))
      by now apply Forall_firstn_Z.
    apply lval_bound in Hpa, Hpb.
    rewrite length_firstn, Nat.min_l in Hpa, Hpb by lia.
    set (K := 2 ^ (32 * Z.of_nat n)) in *.
    set (la := lval (firstn n (data a))) in *. set (lb := lval (firstn n (data b))) in *.
    rewrite IH by lia. fold la lb.
    destruct (Z.gtb_spec (word a n) (word b n)) as [Hgt|Hle].
    + assert (K * (word b n + 1) <= K * word a n) by (apply Z.mul_le_mono_nonneg_l; lia).
      destruct (Z.compare_spec (la + K * (word a n + 2 ^ 32 * 0))
                               (lb + K * (word b n + 2 ^ 32 * 0))); lia.
    + destruct (Z.ltb_spec (word a n) (word b n)) as [Hlt|Hge].
      * assert (K * (word a n + 1) <= K * word b n) by (apply Z.mul_le_mono_nonneg_l; lia).
        destruct (Z.compare_spec (la + K * (word a n + 2 ^ 32 * 0))
                                 (lb + K * (word b n + 2 ^ 32 * 0))); lia.
      * assert (Heq : word a n = word b n) by lia. rewrite Heq.
        destruct (Z.compare_spec la lb),
                 (Z.compare_spec (la + K * (word b n + 2 ^ 32 * 0))
                                 (lb + K * (word b n + 2 ^ 32 * 0))); lia.
Qed.

Lemma big_cmp_spec (a b : bigval_t) :
  wf_bigval a -> wf_bigval b ->
  big_cmp a b = match sval a ?= sval b with Gt => 1 | Lt => -1 | Eq => 0 end.
Proof.
  intros Ha Hb. unfold big_cmp.
  rewrite big_cmp_words_spec by (auto; unfold MSW, BIGLEN; lia).
  rewrite (sval_split a Ha), (sval_split b Hb).
  pose proof (lo_range a Ha). pose proof (lo_range b Hb).
  change (firstn MSW) with (@firstn Z 8).
  set (la := lval (firstn 8 (data a))) in *. set (lb := lval (firstn 8 (data b))) in *.
  set (ma := s32 (word a MSW)). set (mb := s32 (word b MSW)).
  destruct (Z.gtb_spec ma mb).
  - destruct (Z.compare_spec (la + 2 ^ 256 * ma) (lb + 2 ^ 256 * mb)); lia.
  - destruct (Z.ltb_spec ma mb).
    + destruct (Z.compare_spec (la + 2 ^ 256 * ma) (lb + 2 ^ 256 * mb)); lia.
    + assert (ma = mb) as -> by lia.
      destruct (Z.compare_spec la lb),
               (Z.compare_spec (la + 2 ^ 256 * mb) (lb + 2 ^ 256 * mb)); lia.
Qed.

Lemma big_cmp_geb (a b : bigval_t) :
  wf_bigval a -> wf_bigval b -> (big_cmp a b >=? 0) = (sval b <=? sval a).
Proof.
  intros Ha Hb. rewrite big_cmp_spec by assumption.
  destruct (Z.compare_spec (sval a) (sval b)), (Z.leb_spec (sval b) (sval a));
    try reflexivity; lia.
Qed.

(** ** Halving *)

Lemma land_pow2_small (a : Z) (n : Z) :
  0 <= n -> 0 <= a < 2 ^ n -> Z.land a (2 ^ n) = 0.
Proof.
  intros Hn Ha. apply Z.bits_inj'. intros k Hk.
  rewrite Z.land_spec, Z.bits_0, Z.pow2_bits_eqb by lia.
  destruct (Z.eqb_spec n k) as [<-|]; [|apply andb_false_r].
  rewrite andb_true_r.
  destruct (Z.eq_dec a 0) as [->|Hnz]; [apply Z.bits_0|].
  apply Z.bits_above_log2; [lia|].
  apply Z.log2_lt_pow2; lia.
Qed.

Lemma halve_word (x s : Z) :
  0 <= x < 2 ^ 32 -> 0 <= s <= 1 ->
  Z.lor (Z.shiftr x 1) (u32 (Z.shiftl s 31)) = x / 2 + 2 ^ 31 * s.
Proof.
  intros Hx Hs.
  rewrite Z.shiftr_div_pow2, Z.shiftl_mul_pow2 by lia.
  change (2 ^ 1) with 2.
  rewrite u32_small by lia.
  assert (Hq : 0 <= x / 2 < 2 ^ 31).
  { split; [apply Z.div_pos; lia | apply Z.div_lt_upper_bound; lia]. }
  assert (s = 0 \/ s = 1) as [-> | ->] by lia.
  - rewrite Z.lor_0_r. lia.
  - rewrite Z.mul_1_l.
    assert (Hl : Z.land (x / 2) (2 ^ 31) = 0) by (apply land_pow2_small; lia).
    rewrite <- Z.lxor_lor, <- Z.add_nocarry_lxor by exact Hl. lia.
Qed.

Lemma s32_u32 (y : Z) : - 2 ^ 31 <= y < 2 ^ 31 -> s32 (u32 y) = y.
Proof.
  intros Hy. unfold s32, u32.
  rewrite Zplus_mod_idemp_l. rewrite Z.mod_small; lia.
Qed.

Lemma big_halve_sval (a : bigval_t) :
  wf_bigval a -> wf_bigval (big_halve a) /\ sval (big_halve a) = sval a / 2.
Proof.
  intros Ha.
  pose proof (s32_word (word a MSW) (word_range a MSW Ha)) as Hm.
  pose proof (s32_range (word a MSW)) as Hmr.
  explode a.
  cbv [big_halve for_down fresh repeat upd fst BIGLEN MSW word data nth Nat.add] in *.
  rewrite !land1_mod2.
  rewrite !halve_word
    by (try assumption; match goal with
        | |- 0 <= ?x mod 2 <= 1 => pose proof (Z.mod_pos_bound x 2); lia
        end).
  rewrite Z.shiftr_div_pow2 by lia. change (2 ^ 1) with 2.
  set (m := s32 a8) in *.
  assert (Hm2 : - 2 ^ 31 <= m / 2 < 2 ^ 31).
  { split; [apply Z.div_le_lower_bound | apply Z.div_lt_upper_bound]; lia. }
  assert (Hwf : wf_bigval (mkbig
     [a0 / 2 + 2 ^ 31 * (a1 mod 2); a1 / 2 + 2 ^ 31 * (a2 mod 2);
      a2 / 2 + 2 ^ 31 * (a3 mod 2); a3 / 2 + 2 ^ 31 * (a4 mod 2);
      a4 / 2 + 2 ^ 31 * (a5 mod 2); a5 / 2 + 2 ^ 31 * (a6 mod 2);
      a6 / 2 + 2 ^ 31 * (a7 mod 2); a7 / 2 + 2 ^ 31 * (a8 mod 2); u32 (m / 2)])).
  { split; [reflexivity|].
    pose proof (u32_range (m / 2)).
    repeat (constructor; [Z.div_mod_to_equations; lia|]). constructor. }
  split; [exact Hwf|].
  rewrite (sval_split _ Hwf), (sval_split _ Ha).
  cbv [data firstn lval word nth MSW].
  rewrite s32_u32 by assumption. fold m.
  assert (Hpar : m mod 2 = a8 mod 2).
  { destruct (2 ^ 31 <=? a8); rewrite Hm; [|reflexivity].
    replace (a8 - 2 ^ 32) with (a8 + (- 2 ^ 31) * 2) by lia.
    apply Z_mod_plus_full. }
  apply Z.div_unique with (r := a0 mod 2); Z.div_mod_to_equations; lia.
Qed.

Lemma big_halveP_sval (a : bigval_t) :
  wf_bigval a -> - 2 ^ 287 <= sval a < 2 ^ 286 ->
  wf_bigval (big_halveP a) /\
  eqp (2 * sval (big_halveP a)) (sval a) /\
  (sval a - 1) / 2 <= sval (big_halveP a) <= (sval a + p256) / 2.
Proof.
  intros Ha Hr. unfold big_halveP.
  rewrite land1_mod2.
  assert (Hpar : word a 0 mod 2 = sval a mod 2).
  { pose proof (big_is_odd_spec a Ha) as Ho. unfold big_is_odd in Ho.
    rewrite land1_mod2 in Ho. rewrite (Zmod_odd (sval a)), <- Ho.
    pose proof (Z.mod_pos_bound (word a 0) 2 ltac:(lia)).
    destruct (Z.eqb_spec (word a 0 mod 2) 0); cbn [negb]; lia. }
  rewrite Hpar.
  pose proof (Z.div_mod (sval a) 2 ltac:(lia)) as Hdm.
  pose proof (Z.mod_pos_bound (sval a) 2 ltac:(lia)) as Hmb.
  destruct (Z.eqb_spec (sval a mod 2) 0) as [He|Hne]; cbn [negb].
  - destruct (big_halve_sval a Ha) as [Hwf Hs]. rewrite Hs.
    split; [assumption|]. unfold eqp.
    assert (Hz : 0 < p256) by (unfold p256; lia).
    split; [f_equal; lia|].
    split; [apply Z.div_le_mono; lia | apply Z.div_le_mono; lia].
  - destruct (big_adjustP_sval a 1 Ha) as [Hwf1 Hs1]; [lia | unfold p256; lia |].
    destruct (big_halve_sval _ Hwf1) as [Hwf Hs]. rewrite Hs, Hs1.
    split; [assumption|].
    rewrite Z.mul_1_l.
    assert (Hodd : p256 mod 2 = 1) by reflexivity.
    assert (Hev : (sval a + p256) mod 2 = 0).
    { rewrite Z.add_mod, Hodd by lia.
      replace (sval a mod 2) with 1 by lia. reflexivity. }
    pose proof (Z.div_mod (sval a + p256) 2 ltac:(lia)) as Hdm2.
    split.
    + unfold eqp.
      replace (2 * ((sval a + p256) / 2)) with (sval a + 1 * p256) by lia.
      apply Z_mod_plus_full.
    + split; [apply Z.div_le_mono; unfold p256; lia | lia].
Qed.

(** ** Exact reduction *)

Lemma while_loop_done {S : Type} (f : nat) (cond : S -> bool)
    (body : S -> option S) (s : S) :
  cond s = false -> while_loop (Datatypes.S f) cond body s = Some s.
Proof. intros H; cbn [while_loop]; now rewrite H. Qed.

Lemma while_loop_step {S : Type} (f : nat) (cond : S -> bool)
    (body : S -> option S) (s s' : S) :
  cond s = true -> body s = Some s' ->
  while_loop (Datatypes.S f) cond body s = while_loop f cond body s'.
Proof. intros H Hb; cbn [while_loop]; now rewrite H, Hb. Qed.

(** An invariant of the rounds that are run holds when the loop ends. *)
Lemma while_loop_rounds {S : Type} (I : S -> Prop) (fuel : nat)
    (cond : S -> bool) (body : S -> option S) :
  (forall s s', I s -> cond s = true -> body s = Some s' -> I s') ->
  forall s r, I s -> while_loop fuel cond body s = Some r ->
              I r /\ cond r = false.
Proof.
  intros Hinv. induction fuel as [|f IH]; intros s r Hs; [discriminate|].
  cbn [while_loop]. destruct (cond s) eqn:Ec.
  - destruct (body s) as [s'|] eqn:E; [|discriminate].
    apply IH. now apply (Hinv s).
  - intros [= <-]. now split.
Qed.

(** A loop whose condition holds on every state it can reach never ends. *)
Lemma while_loop_never {S : Type} (I : S -> Prop) (cond : S -> bool)
    (body : S -> option S) :
  (forall s, I s -> cond s = true) ->
  (forall s s', I s -> body s = Some s' -> I s') ->
  forall fuel s, I s -> while_loop fuel cond body s = None.
Proof.
  intros Hc Hinv. induction fuel as [|f IH]; intros s Hs; [reflexivity|].
  cbn [while_loop]. rewrite (Hc s Hs).
  destruct (body s) as [s'|] eqn:E; [|reflexivity].
  apply IH. now apply (Hinv s).
Qed.

Lemma supported_ok (m : modulus_ref) : supported m -> modulus_ok m.
Proof.
  intros [-> | ->]; (split; [split; [reflexivity|repeat constructor; lia]|]);
    cbn [deref]; [rewrite sval_modulusP; unfold p256 | rewrite sval_orderP; unfold n256];
    lia.
Qed.

Lemma precise_reduce_step_sval (m : modulus_ref) (src : bigval_t) :
  modulus_ok m -> wf_bigval src ->
  wf_bigval (precise_reduce_step m src) /\
  sval (precise_reduce_step m src)
  = sval src - (sval src / 2 ^ 256) * sval (deref m).
Proof.
  intros [Hwm HM] Hs. unfold precise_reduce_step.
  destruct m as [| |m']; cbn [is_modulusP negb].
  - fold (big_approx_reduceP src).
    destruct (big_approx_reduceP_sval src Hs) as [Hwf Hv].
    split; [assumption|]. now rewrite Hv.
  - rewrite (msw_sval src Hs).
    pose proof (sval_range src Hs) as Hr.
    set (q := sval src / 2 ^ 256) in *.
    assert (Hq : - 2 ^ 31 <= q < 2 ^ 31).
    { unfold q; split; [apply Z.div_le_lower_bound | apply Z.div_lt_upper_bound]; lia. }
    set (M := sval (deref REF_orderP)) in *.
    assert (HqM : - 2 ^ 287 <= q * M < 2 ^ 287) by nia.
    destruct (big_1wd_mpy_sval (deref REF_orderP) q Hwm Hq HqM) as [Hwt Hvt].
    assert (Hrem : 0 <= sval src - 2 ^ 256 * q < 2 ^ 256).
    { unfold q. pose proof (Z.div_mod (sval src) (2 ^ 256) ltac:(lia)).
      pose proof (Z.mod_pos_bound (sval src) (2 ^ 256) ltac:(lia)). lia. }
    split; [now apply wf_big_sub|].
    assert (Hqd : - 2 ^ 255 <= q * (2 ^ 256 - M) <= 2 ^ 255) by nia.
    rewrite big_sub_sval by (auto; rewrite Hvt; lia).
    rewrite Hvt. reflexivity.
  - rewrite (msw_sval src Hs).
    pose proof (sval_range src Hs) as Hr.
    set (q := sval src / 2 ^ 256) in *.
    assert (Hq : - 2 ^ 31 <= q < 2 ^ 31).
    { unfold q; split; [apply Z.div_le_lower_bound | apply Z.div_lt_upper_bound]; lia. }
    set (M := sval (deref (REF_other m'))) in *.
    assert (HqM : - 2 ^ 287 <= q * M < 2 ^ 287) by nia.
    destruct (big_1wd_mpy_sval (deref (REF_other m')) q Hwm Hq HqM) as [Hwt Hvt].
    assert (Hrem : 0 <= sval src - 2 ^ 256 * q < 2 ^ 256).
    { unfold q. pose proof (Z.div_mod (sval src) (2 ^ 256) ltac:(lia)).
      pose proof (Z.mod_pos_bound (sval src) (2 ^ 256) ltac:(lia)). lia. }
    split; [now apply wf_big_sub|].
    assert (Hqd : - 2 ^ 255 <= q * (2 ^ 256 - M) <= 2 ^ 255) by nia.
    rewrite big_sub_sval by (auto; rewrite Hvt; lia).
    rewrite Hvt. reflexivity.
Qed.

(** One step of the first loop brings any value within a modulus of the
    range [0, 2 ^ 256), and a second step brings it inside. *)
Lemma reduce_step_bounds (M V : Z) :
  2 ^ 256 - 2 ^ 224 <= M < 2 ^ 256 -> - 2 ^ 287 <= V < 2 ^ 287 ->
  - 2 ^ 255 <= V - V / 2 ^ 256 * M < 2 ^ 256 + 2 ^ 255.
Proof.
  intros HM HV.
  pose proof (Z.div_mod V (2 ^ 256) ltac:(lia)) as Hdm.
  pose proof (Z.mod_pos_bound V (2 ^ 256) ltac:(lia)) as Hm.
  assert (Hq : - 2 ^ 31 <= V / 2 ^ 256 < 2 ^ 31).
  { split; [apply Z.div_le_lower_bound | apply Z.div_lt_upper_bound]; lia. }
  set (q := V / 2 ^ 256) in *.
  assert (Hqd : - 2 ^ 255 <= q * (2 ^ 256 - M) < 2 ^ 255) by nia.
  lia.
Qed.

Lemma reduce_step_final (M V : Z) :
  2 ^ 256 - 2 ^ 224 <= M < 2 ^ 256 -> - 2 ^ 255 <= V < 2 ^ 256 + 2 ^ 255 ->
  0 <= V - V / 2 ^ 256 * M < 2 ^ 256.
Proof.
  intros HM HV.
  assert (Hq : V / 2 ^ 256 = -1 \/ V / 2 ^ 256 = 0 \/ V / 2 ^ 256 = 1).
  { assert (-1 <= V / 2 ^ 256 < 2); [|lia].
    split; [apply Z.div_le_lower_bound | apply Z.div_lt_upper_bound]; lia. }
  pose proof (Z.div_mod V (2 ^ 256) ltac:(lia)) as Hdm.
  pose proof (Z.mod_pos_bound V (2 ^ 256) ltac:(lia)) as Hm.
  destruct Hq as [Hq | [Hq | Hq]]; rewrite Hq in *; lia.
Qed.

Lemma msw_zero_iff (a : bigval_t) :
  wf_bigval a -> (s32 (word a MSW) =? 0) = true <-> 0 <= sval a < 2 ^ 256.
Proof.
  intros Ha. rewrite (msw_sval a Ha), Z.eqb_eq.
  pose proof (Z.div_mod (sval a) (2 ^ 256) ltac:(lia)) as Hdm.
  pose proof (Z.mod_pos_bound (sval a) (2 ^ 256) ltac:(lia)) as Hm.
  split; intros H.
  - lia.
  - symmetry; apply Z.div_unique with (r := sval a); lia.
Qed.

Lemma cong_refl (M a : Z) : cong M a a.
Proof. reflexivity. Qed.

Lemma cong_trans (M a b c : Z) : cong M a b -> cong M b c -> cong M a c.
Proof. unfold cong; congruence. Qed.

Lemma cong_sym (M a b : Z) : cong M a b -> cong M b a.
Proof. unfold cong; congruence. Qed.

Lemma cong_sub_mul (M a q : Z) : cong M (a - q * M) a.
Proof.
  unfold cong. replace (a - q * M) with (a + (- q) * M) by ring.
  apply Z_mod_plus_full.
Qed.

(** The first loop of [big_precise_reduce] ends within two steps. *)
Lemma precise_reduce_loop1 (m : modulus_ref) (a : bigval_t) (fuel : nat) :
  modulus_ok m -> wf_bigval a -> (3 <= fuel)%nat ->
  exists r,
    while_loop fuel (fun src => negb (s32 (word src MSW) =? 0))
      (fun src => Some (precise_reduce_step m src)) a = Some r /\
    wf_bigval r /\ 0 <= sval r < 2 ^ 256 /\
    cong (sval (deref m)) (sval r) (sval a).
Proof.
  intros Hm Ha Hf.
  destruct fuel as [|[|[|f]]]; try lia.
  destruct (s32 (word a MSW) =? 0) eqn:E0.
  { exists a. rewrite while_loop_done by now rewrite E0.
    split; [reflexivity|]. split; [assumption|].
    split; [now apply msw_zero_iff | apply cong_refl]. }
  rewrite while_loop_step with (s' := precise_reduce_step m a)
    by (auto; now rewrite E0).
  destruct (precise_reduce_step_sval m a Hm Ha) as [Hw1 Hv1].
  pose proof (reduce_step_bounds _ _ (proj2 Hm) (sval_range a Ha)) as Hb1.
  rewrite <- Hv1 in Hb1.
  set (a1 := precise_reduce_step m a) in *.
  assert (Hc1 : cong (sval (deref m)) (sval a1) (sval a))
    by (rewrite Hv1; apply cong_sub_mul).
  destruct (s32 (word a1 MSW) =? 0) eqn:E1.
  { exists a1. rewrite while_loop_done by now rewrite E1.
    split; [reflexivity|]. split; [assumption|].
    split; [now apply msw_zero_iff | assumption]. }
  rewrite while_loop_step with (s' := precise_reduce_step m a1)
    by (auto; now rewrite E1).
  destruct (precise_reduce_step_sval m a1 Hm Hw1) as [Hw2 Hv2].
  pose proof (reduce_step_final _ _ (proj2 Hm) Hb1) as Hb2.
  rewrite <- Hv2 in Hb2.
  set (a2 := precise_reduce_step m a1) in *.
  exists a2.
  rewrite while_loop_done
    by (apply negb_false_iff; now apply msw_zero_iff).
  split; [reflexivity|]. split; [assumption|]. split; [assumption|].
  apply cong_trans with (sval a1); auto.
  rewrite Hv2; apply cong_sub_mul.
Qed.

(** Every modulus of the kind the source asks for is handled, for every
    representable input: the three loops end and leave [a mod modulus]. *)
Lemma big_precise_reduce_ok (m : modulus_ref) (a : bigval_t) (fuel : nat) :
  modulus_ok m -> wf_bigval a -> (3 <= fuel)%nat ->
  exists r,
    big_precise_reduce fuel a m = Some r /\ wf_bigval r /\
    sval r = sval a mod sval (deref m).
Proof.
  intros Hm Ha Hf. unfold big_precise_reduce.
  destruct (precise_reduce_loop1 m a fuel Hm Ha Hf) as (r1 & -> & Hw1 & Hb1 & Hc1).
  destruct Hm as [Hwm HM].
  set (M := sval (deref m)) in *.
  destruct fuel as [|[|f]]; try lia.
  assert (Hloop2 : exists r2,
    while_loop (S (S f)) (fun src => big_cmp src (deref m) >=? 0)
      (fun src => Some (big_sub src (deref m))) r1 = Some r2 /\
    wf_bigval r2 /\ 0 <= sval r2 < M /\ cong M (sval r2) (sval a)).
  { destruct (big_cmp r1 (deref m) >=? 0) eqn:E.
    - rewrite while_loop_step with (s' := big_sub r1 (deref m)) by auto.
      rewrite big_cmp_geb in E by assumption. apply Z.leb_le in E. fold M in E.
      assert (Hv : sval (big_sub r1 (deref m)) = sval r1 - M)
        by (apply big_sub_sval; auto; fold M; lia).
      assert (Hw : wf_bigval (big_sub r1 (deref m))) by now apply wf_big_sub.
      exists (big_sub r1 (deref m)).
      rewrite while_loop_done.
      + split; [reflexivity|]. split; [assumption|]. split; [lia|].
        apply cong_trans with (sval r1); auto.
        rewrite Hv. replace (sval r1 - M) with (sval r1 - 1 * M) by ring.
        apply cong_sub_mul.
      + rewrite big_cmp_geb by assumption. apply Z.leb_gt. fold M. lia.
    - exists r1. rewrite while_loop_done by assumption.
      rewrite big_cmp_geb in E by assumption. apply Z.leb_gt in E. fold M in E.
      split; [reflexivity|]. split; [assumption|]. split; [lia|assumption]. }
  destruct Hloop2 as (r2 & -> & Hw2 & Hb2 & Hc2).
  exists r2. rewrite while_loop_done.
  - split; [reflexivity|]. split; [assumption|].
    unfold cong in Hc2. rewrite <- Hc2. symmetry; apply Z.mod_small; lia.
  - rewrite (msw_sval r2 Hw2). apply Z.ltb_ge. apply Z.div_pos; lia.
Qed.

(** ** Exact reduction with any modulus below [2 ^ 256] *)

(** One step of the first loop, for every positive modulus below
    [2 ^ 256]. *)
Lemma precise_reduce_step_any (m : modulus_ref) (src : bigval_t) :
  wf_bigval (deref m) -> 0 < sval (deref m) < 2 ^ 256 -> wf_bigval src ->
  wf_bigval (precise_reduce_step m src) /\
  sval (precise_reduce_step m src)
  = sval src - (sval src / 2 ^ 256) * sval (deref m).
Proof.
  intros Hwm HM Hs.
  destruct (is_modulusP m) eqn:Em.
  { destruct m; try discriminate.
    apply precise_reduce_step_sval; [apply supported_ok; now left|assumption]. }
  unfold precise_reduce_step. rewrite Em. cbn [negb].
  rewrite (msw_sval src Hs).
  pose proof (sval_range src Hs) as Hr.
  set (q := sval src / 2 ^ 256) in *.
  assert (Hq : - 2 ^ 31 <= q < 2 ^ 31).
  { unfold q; split; [apply Z.div_le_lower_bound | apply Z.div_lt_upper_bound]; lia. }
  set (M := sval (deref m)) in *.
  assert (HqM : - 2 ^ 287 <= q * M < 2 ^ 287) by nia.
  destruct (big_1wd_mpy_sval (deref m) q Hwm Hq HqM) as [Hwt Hvt].
  assert (Hrem : 0 <= sval src - 2 ^ 256 * q < 2 ^ 256).
  { unfold q. pose proof (Z.div_mod (sval src) (2 ^ 256) ltac:(lia)).
    pose proof (Z.mod_pos_bound (sval src) (2 ^ 256) ltac:(lia)). lia. }
  split; [now apply wf_big_sub|].
  assert (Hqd : - 2 ^ 287 <= q * (2 ^ 256 - M) <= 2 ^ 287 - 2 ^ 256) by nia.
  rewrite big_sub_sval by (auto; rewrite Hvt; fold M; lia).
  rewrite Hvt. reflexivity.
Qed.

(** A step of the first loop brings the value strictly nearer to the range
    [0, 2 ^ 256). *)
Lemma reduce_step_nearer (M V n : Z) :
  0 < M < 2 ^ 256 -> - n <= V < 2 ^ 256 + n -> V / 2 ^ 256 <> 0 ->
  0 < n /\ - (n - 1) <= V - V / 2 ^ 256 * M < 2 ^ 256 + (n - 1).
Proof.
  intros HM HV Hq.
  pose proof (Z.div_mod V (2 ^ 256) ltac:(lia)) as Hdm.
  pose proof (Z.mod_pos_bound V (2 ^ 256) ltac:(lia)) as Hm.
  set (q := V / 2 ^ 256) in *. set (r := V mod 2 ^ 256) in *.
  clearbody q r.
  assert (Hc : q <= -1 \/ 1 <= q) by lia.
  destruct Hc as [Hc|Hc]; nia.
Qed.

Lemma precise_reduce_loop1_any (m : modulus_ref) :
  wf_bigval (deref m) -> 0 < sval (deref m) < 2 ^ 256 ->
  forall (n : nat) (fuel : nat) (a : bigval_t),
  wf_bigval a -> (n < fuel)%nat ->
  - Z.of_nat n <= sval a < 2 ^ 256 + Z.of_nat n ->
  exists r,
    while_loop fuel (fun src => negb (s32 (word src MSW) =? 0))
      (fun src => Some (precise_reduce_step m src)) a = Some r /\
    wf_bigval r /\ 0 <= sval r < 2 ^ 256 /\
    cong (sval (deref m)) (sval r) (sval a).
Proof.
  intros Hwm HM. induction n as [|n IH]; intros fuel a Ha Hf Hr;
    (destruct fuel as [|fuel]; [lia|]).
  - exists a. rewrite while_loop_done
      by (apply negb_false_iff, msw_zero_iff; [assumption|lia]).
    split; [reflexivity|]. split; [assumption|]. split; [lia|apply cong_refl].
  - destruct (s32 (word a MSW) =? 0) eqn:E0.
    { exists a. rewrite while_loop_done by now rewrite E0.
      split; [reflexivity|]. split; [assumption|].
      split; [now apply msw_zero_iff | apply cong_refl]. }
    rewrite while_loop_step with (s' := precise_reduce_step m a)
      by (auto; now rewrite E0).
    destruct (precise_reduce_step_any m a Hwm HM Ha) as [Hw1 Hv1].
    assert (Hq : sval a / 2 ^ 256 <> 0).
    { rewrite <- (msw_sval a Ha). now apply Z.eqb_neq. }
    destruct (reduce_step_nearer _ _ (Z.of_nat (S n)) HM Hr Hq) as [_ Hb].
    rewrite <- Hv1 in Hb.
    destruct (IH fuel (precise_reduce_step m a) Hw1) as (r & Hr1 & Hwr & Hrr & Hc);
      [lia|lia|].
    exists r. split; [exact Hr1|]. split; [exact Hwr|]. split; [exact Hrr|].
    eapply cong_trans; [exact Hc|]. rewrite Hv1. apply cong_sub_mul.
Qed.

Lemma precise_reduce_loop2_any (Mb : bigval_t) :
  wf_bigval Mb -> 0 < sval Mb ->
  forall (n : nat) (fuel : nat) (a : bigval_t),
  wf_bigval a -> (n < fuel)%nat ->
  0 <= sval a < sval Mb + Z.of_nat n ->
  exists r,
    while_loop fuel (fun src => big_cmp src Mb >=? 0)
      (fun src => Some (big_sub src Mb)) a = Some r /\
    wf_bigval r /\ 0 <= sval r < sval Mb /\
    cong (sval Mb) (sval r) (sval a).
Proof.
  intros Hwm HM. induction n as [|n IH]; intros fuel a Ha Hf Hr;
    (destruct fuel as [|fuel]; [lia|]).
  - exists a. rewrite while_loop_done
      by (rewrite big_cmp_geb by assumption; apply Z.leb_gt; lia).
    split; [reflexivity|]. split; [assumption|]. split; [lia|apply cong_refl].
  - destruct (big_cmp a Mb >=? 0) eqn:E.
    + rewrite while_loop_step with (s' := big_sub a Mb) by auto.
      rewrite big_cmp_geb in E by assumption. apply Z.leb_le in E.
      pose proof (sval_range a Ha) as Ra.
      assert (Hv : sval (big_sub a Mb) = sval a - sval Mb)
        by (apply big_sub_sval; auto; lia).
      assert (Hw : wf_bigval (big_sub a Mb)) by now apply wf_big_sub.
      destruct (IH fuel (big_sub a Mb) Hw) as (r & Hr1 & Hwr & Hrr & Hc);
        [lia|lia|].
      exists r. split; [exact Hr1|]. split; [exact Hwr|]. split; [exact Hrr|].
      eapply cong_trans; [exact Hc|]. rewrite Hv.
      replace (sval a - sval Mb) with (sval a - 1 * sval Mb) by ring.
      apply cong_sub_mul.
    + exists a. rewrite while_loop_done by assumption.
      rewrite big_cmp_geb in E by assumption. apply Z.leb_gt in E.
      split; [reflexivity|]. split; [assumption|]. split; [lia|apply cong_refl].
Qed.

(** The fuel that is enough for [big_precise_reduce] with every positive
    modulus below [2 ^ 256]: the loops take off one modulus or more at a
    time. *)
Lemma big_precise_reduce_any (m : modulus_ref) (a : bigval_t) (fuel : nat) :
  wf_bigval (deref m) -> 0 < sval (deref m) < 2 ^ 256 -> wf_bigval a ->
  (Z.to_nat (2 ^ 288) <= fuel)%nat ->
  exists r,
    big_precise_reduce fuel a m = Some r /\ wf_bigval r /\
    sval r = sval a mod sval (deref m).
Proof.
  intros Hwm HM Ha Hf. unfold big_precise_reduce.
  pose proof (sval_range a Ha) as Ra.
  assert (Hbig : Z.of_nat (Z.to_nat (2 ^ 288)) = 2 ^ 288)
    by (apply Z2Nat.id; lia).
  destruct (precise_reduce_loop1_any m Hwm HM (Z.to_nat (2 ^ 287)) fuel a Ha)
    as (r1 & -> & Hw1 & Hb1 & Hc1).
  { apply Nat2Z.inj_lt. rewrite Z2Nat.id by lia. lia. }
  { rewrite Z2Nat.id by lia. lia. }
  destruct (precise_reduce_loop2_any (deref m) Hwm (proj1 HM)
              (Z.to_nat (2 ^ 256)) fuel r1 Hw1)
    as (r2 & -> & Hw2 & Hb2 & Hc2).
  { apply Nat2Z.inj_lt. rewrite Z2Nat.id by lia. lia. }
  { rewrite Z2Nat.id by lia. lia. }
  exists r2.
  destruct fuel as [|fuel]; [lia|].
  rewrite while_loop_done.
  - split; [reflexivity|]. split; [assumption|].
    assert (Hc : cong (sval (deref m)) (sval r2) (sval a))
      by (eapply cong_trans; eassumption).
    unfold cong in Hc. rewrite <- Hc. symmetry; apply Z.mod_small; lia.
  - rewrite (msw_sval r2 Hw2). apply Z.ltb_ge. apply Z.div_pos; lia.
Qed.

(** ** Multiplication: the accumulator *)

Lemma mpy_accum_spec (cc s a b : Z) :
  0 <= s < 2 ^ 64 -> 0 <= cc < 2 ^ 31 - 1 ->
  0 <= a < 2 ^ 32 -> 0 <= b < 2 ^ 32 ->
  exists cc' s',
    mpy_accum (cc, s) a b = (cc', s') /\
    cc' * 2 ^ 64 + s' = cc * 2 ^ 64 + s + a * b /\
    0 <= s' < 2 ^ 64 /\ cc <= cc' <= cc + 1.
Proof.
  intros Hs Hcc Ha Hb. unfold mpy_accum.
  rewrite (u64_small a), (u64_small b) by lia.
  assert (Hp : 0 <= a * b < 2 ^ 64) by nia.
  rewrite (u64_small (a * b)) by lia.
  unfold u64 at 1 2.
  pose proof (Z.mod_pos_bound (s + a * b) (2 ^ 64) ltac:(lia)) as Hm.
  destruct (Z.ltb_spec ((s + a * b) mod 2 ^ 64) (a * b)) as [Hlt|Hge].
  - eexists _, _; split; [reflexivity|].
    rewrite s32_small by lia.
    assert (Hov : (s + a * b) mod 2 ^ 64 = s + a * b - 2 ^ 64).
    { destruct (Z_lt_le_dec (s + a * b) (2 ^ 64)) as [Hsm|Hbig].
      - rewrite Z.mod_small in Hlt by lia. lia.
      - symmetry. apply Z.mod_unique with 1; lia. }
    rewrite Hov. lia.
  - eexists _, _; split; [reflexivity|].
    assert (Hno : (s + a * b) mod 2 ^ 64 = s + a * b).
    { destruct (Z_lt_le_dec (s + a * b) (2 ^ 64)) as [Hsm|Hbig].
      - apply Z.mod_small; lia.
      - assert ((s + a * b) mod 2 ^ 64 = s + a * b - 2 ^ 64)
          by (symmetry; apply Z.mod_unique with 1; lia).
        lia. }
    rewrite Hno. lia.
Qed.

Lemma mpy_accum_dbl_spec (cc s a b : Z) :
  0 <= s < 2 ^ 64 -> 0 <= cc < 2 ^ 31 - 2 ->
  0 <= a < 2 ^ 32 -> 0 <= b < 2 ^ 32 ->
  exists cc' s',
    mpy_accum_dbl (cc, s) a b = (cc', s') /\
    cc' * 2 ^ 64 + s' = cc * 2 ^ 64 + s + 2 * (a * b) /\
    0 <= s' < 2 ^ 64 /\ cc <= cc' <= cc + 2.
Proof.
  intros Hs Hcc Ha Hb.
  destruct (mpy_accum_spec cc s a b) as (c1 & s1 & E1 & V1 & R1 & C1); try lia.
  destruct (mpy_accum_spec c1 s1 a b) as (c2 & s2 & E2 & V2 & R2 & C2); try lia.
  exists c2, s2.
  split; [|repeat split; lia].
  unfold mpy_accum in E1, E2. unfold mpy_accum_dbl.
  cbv zeta in *.
  injection E1 as Ec1 Es1. rewrite Ec1, Es1. exact E2.
Qed.

Lemma accum_from_spec (a b : bigval_t) (ap bp : Z) (t : nat) :
  wf_bigval a -> wf_bigval b ->
  forall cc s,
    0 <= s < 2 ^ 64 -> 0 <= cc -> cc + Z.of_nat t + 1 < 2 ^ 31 ->
    exists cc' s',
      accum_from mpy_accum a b ap bp t (cc, s) = (cc', s') /\
      cc' * 2 ^ 64 + s' = cc * 2 ^ 64 + s + conv_sum a b ap bp t /\
      0 <= s' < 2 ^ 64 /\ cc <= cc' <= cc + Z.of_nat t + 1.
Proof.
  intros Ha Hb. induction t as [|t IH]; intros cc s Hs Hc Hct.
  - cbn [accum_from conv_sum].
    destruct (mpy_accum_spec cc s (word a (Z.to_nat (ap - Z.of_nat 0)))
                (word b (Z.to_nat (bp + Z.of_nat 0))))
      as (c1 & s1 & E1 & V1 & R1 & C1);
      try lia; try now apply word_range.
    exists c1, s1. split; [exact E1|]. split; [lia|]. split; lia.
  - cbn [accum_from conv_sum].
    destruct (mpy_accum_spec cc s (word a (Z.to_nat (ap - Z.of_nat (S t))))
                (word b (Z.to_nat (bp + Z.of_nat (S t)))))
      as (c1 & s1 & E1 & V1 & R1 & C1);
      try lia; try now apply word_range.
    rewrite E1.
    destruct (IH c1 s1) as (c2 & s2 & E2 & V2 & R2 & C2); try lia.
    exists c2, s2. split; [exact E2|]. split; [lia|]. split; lia.
Qed.

Lemma accum_from_dbl_spec (a b : bigval_t) (ap bp : Z) (t : nat) :
  wf_bigval a -> wf_bigval b ->
  forall cc s,
    0 <= s < 2 ^ 64 -> 0 <= cc -> cc + 2 * Z.of_nat t + 2 < 2 ^ 31 ->
    exists cc' s',
      accum_from mpy_accum_dbl a b ap bp t (cc, s) = (cc', s') /\
      cc' * 2 ^ 64 + s' = cc * 2 ^ 64 + s + 2 * conv_sum a b ap bp t /\
      0 <= s' < 2 ^ 64 /\ cc <= cc' <= cc + 2 * Z.of_nat t + 2.
Proof.
  intros Ha Hb. induction t as [|t IH]; intros cc s Hs Hc Hct.
  - cbn [accum_from conv_sum].
    destruct (mpy_accum_dbl_spec cc s (word a (Z.to_nat (ap - Z.of_nat 0)))
                (word b (Z.to_nat (bp + Z.of_nat 0))))
      as (c1 & s1 & E1 & V1 & R1 & C1);
      try lia; try now apply word_range.
    exists c1, s1. split; [exact E1|]. split; [lia|]. split; lia.
  - cbn [accum_from conv_sum].
    destruct (mpy_accum_dbl_spec cc s (word a (Z.to_nat (ap - Z.of_nat (S t))))
                (word b (Z.to_nat (bp + Z.of_nat (S t)))))
      as (c1 & s1 & E1 & V1 & R1 & C1);
      try lia; try now apply word_range.
    rewrite E1.
    destruct (IH c1 s1) as (c2 & s2 & E2 & V2 & R2 & C2); try lia.
    exists c2, s2. split; [exact E2|]. split; [lia|]. split; lia.
Qed.

Lemma conv_sum_nonneg (a b : bigval_t) (ap bp : Z) (t : nat) :
  wf_bigval a -> wf_bigval b ->
  0 <= conv_sum a b ap bp t <= (Z.of_nat t + 1) * (2 ^ 32 - 1) * (2 ^ 32 - 1).
Proof.
  intros Ha Hb. induction t as [|t IH]; cbn [conv_sum].
  - pose proof (word_range a (Z.to_nat (ap - Z.of_nat 0)) Ha).
    pose proof (word_range b (Z.to_nat (bp + Z.of_nat 0)) Hb). nia.
  - pose proof (word_range a (Z.to_nat (ap - Z.of_nat (S t))) Ha) as Hwa.
    pose proof (word_range b (Z.to_nat (bp + Z.of_nat (S t))) Hb) as Hwb.
    set (x := word a _) in *. set (y := word b _) in *.
    assert (0 <= x * y <= (2 ^ 32 - 1) * (2 ^ 32 - 1)) by nia.
    rewrite Nat2Z.inj_succ. lia.
Qed.

(** ** Multiplication: the columns of the product *)

Lemma nsum_ext (n : nat) (f g : nat -> Z) :
  (forall k, (k < n)%nat -> f k = g k) -> nsum n f = nsum n g.
Proof.
  induction n as [|n IH]; intros H; cbn [nsum]; [reflexivity|].
  rewrite IH, H by (auto; intros; apply H; lia). reflexivity.
Qed.

Lemma nsum_zero (n : nat) (f : nat -> Z) :
  (forall k, (k < n)%nat -> f k = 0) -> nsum n f = 0.
Proof.
  induction n as [|n IH]; intros H; cbn [nsum]; [reflexivity|].
  rewrite IH, H by (auto; intros; apply H; lia). reflexivity.
Qed.

Lemma nsum_app (n1 n2 : nat) (f : nat -> Z) :
  nsum (n1 + n2) f = nsum n1 f + nsum n2 (fun k => f (n1 + k)%nat).
Proof.
  induction n2 as [|n2 IH].
  - rewrite Nat.add_0_r. cbn [nsum]. lia.
  - replace (n1 + S n2)%nat with (S (n1 + n2)) by lia.
    cbn [nsum]. rewrite IH. lia.
Qed.

(** A sum whose terms vanish outside [lo, lo + n). *)
Lemma nsum_window (N lo n : nat) (f : nat -> Z) :
  (lo + n <= N)%nat ->
  (forall k, (k < lo)%nat -> f k = 0) ->
  (forall k, (lo + n <= k < N)%nat -> f k = 0) ->
  nsum N f = nsum n (fun k => f (lo + k)%nat).
Proof.
  intros Hle Hlo Hhi.
  replace N with (lo + (n + (N - lo - n)))%nat by lia.
  rewrite nsum_app, nsum_app.
  rewrite (nsum_zero lo) by assumption.
  rewrite (nsum_zero (N - lo - n)) by (intros; apply Hhi; lia).
  lia.
Qed.

(** The terms of the unrolled loop, in the order of the indices. *)
Lemma conv_sum_nsum (a b : bigval_t) (i lo t : nat) :
  (lo + t <= i)%nat ->
  conv_sum a b (Z.of_nat i - Z.of_nat lo) (Z.of_nat lo) t
  = nsum (S t) (fun k => word a (i - (lo + k)) * word b (lo + k)).
Proof.
  induction t as [|t IH]; intros Hle.
  - cbn [conv_sum nsum].
    replace (Z.to_nat (Z.of_nat i - Z.of_nat lo - Z.of_nat 0)) with (i - (lo + 0))%nat by lia.
    replace (Z.to_nat (Z.of_nat lo + Z.of_nat 0)) with (lo + 0)%nat by lia.
    lia.
  - cbn [conv_sum]. rewrite IH by lia.
    cbn [nsum].
    replace (Z.to_nat (Z.of_nat i - Z.of_nat lo - Z.of_nat (S t)))
      with (i - (lo + S t))%nat by lia.
    replace (Z.to_nat (Z.of_nat lo + Z.of_nat (S t))) with (lo + S t)%nat by lia.
    lia.
Qed.

Lemma word_overflow (a : bigval_t) (k : nat) :
  wf_bigval a -> (BIGLEN <= k)%nat -> word a k = 0.
Proof.
  intros [Hlen _] Hk. unfold word. apply nth_overflow. lia.
Qed.

Lemma count_words_spec (a : bigval_t) (n : nat) :
  (1 <= n)%nat ->
  (1 <= count_words n a <= n)%nat /\
  forall k, (count_words n a <= k < n)%nat -> word a k = 0.
Proof.
  induction n as [|n IH]; intros Hn; [lia|].
  cbn [count_words].
  destruct (Nat.ltb_spec 1 (S n)) as [H1|H1]; cbn [andb].
  - destruct (Z.eqb_spec (word a n) 0) as [Hz|Hnz].
    + destruct (IH ltac:(lia)) as [Hr Hk].
      split; [lia|].
      intros k Hkr. destruct (Nat.eq_dec k n) as [->|Hne]; [assumption|].
      apply Hk; lia.
    + split; [lia|]. intros k Hkr; lia.
  - split; [lia|]. intros k Hkr; lia.
Qed.

(** With the words beyond [a_words] and [b_words] zero, the terms the
    multiplication loop adds up for output word [i] are the whole column. *)
Lemma mpy_column_terms (a b : bigval_t) (aw bw i : nat) :
  wf_bigval a -> wf_bigval b ->
  (1 <= aw <= BIGLEN)%nat -> (1 <= bw <= BIGLEN)%nat ->
  (forall k, (aw <= k)%nat -> word a k = 0) ->
  (forall k, (bw <= k)%nat -> word b k = 0) ->
  (i < aw + bw - 1)%nat ->
  let maxj := Z.min (Z.of_nat bw - 1) (Z.of_nat i) in
  let minj := Z.max 0 (Z.of_nat i - Z.of_nat aw + 1) in
  0 <= 8 - (maxj - minj) <= 8 /\
  conv_sum a b (Z.of_nat i - minj) minj (Z.to_nat (8 - (8 - (maxj - minj))))
  = conv a b i.
Proof.
  intros Ha Hb Haw Hbw Hza Hzb Hi maxj minj.
  unfold BIGLEN in *.
  set (lo := (i + 1 - aw)%nat).
  set (hi := Nat.min (bw - 1) i).
  assert (Hminj : minj = Z.of_nat lo) by (unfold minj, lo; lia).
  assert (Hmaxj : maxj = Z.of_nat hi) by (unfold maxj, hi; lia).
  assert (Hlh : (lo <= hi)%nat) by (unfold lo, hi; lia).
  split; [lia|].
  rewrite Hminj, Hmaxj.
  replace (Z.to_nat (8 - (8 - (Z.of_nat hi - Z.of_nat lo)))) with (hi - lo)%nat by lia.
  rewrite conv_sum_nsum by lia.
  unfold conv. symmetry.
  apply nsum_window with (lo := lo) (f := fun j => word a (i - j) * word b j).
  - lia.
  - intros k Hk. rewrite Hza by (unfold lo in Hk; lia). lia.
  - intros k Hk. rewrite (Hzb k) by (unfold hi in Hk; lia). lia.
Qed.

(** Beyond the last output word of the loop the column is empty. *)
Lemma conv_beyond (a b : bigval_t) (aw bw i : nat) :
  (forall k, (aw <= k)%nat -> word a k = 0) ->
  (forall k, (bw <= k)%nat -> word b k = 0) ->
  (aw + bw - 1 <= i)%nat -> (1 <= aw)%nat -> (1 <= bw)%nat ->
  conv a b i = 0.
Proof.
  intros Hza Hzb Hi Haw Hbw. unfold conv.
  apply nsum_zero. intros k Hk.
  destruct (Nat.lt_ge_cases k bw) as [Hlt|Hge].
  - rewrite Hza by lia. lia.
  - rewrite (Hzb k) by lia. lia.
Qed.

Lemma pow32_nat (k : nat) : 2 ^ (32 * Z.of_nat k) = (2 ^ 32) ^ Z.of_nat k.
Proof. rewrite Z.pow_mul_r by lia. reflexivity. Qed.

Ltac of_nat_literals :=
  repeat match goal with
  | |- context [Z.of_nat ?n] =>
      let v := eval vm_compute in (Z.of_nat n) in
      change (Z.of_nat n) with v
  end.

(** The columns of the schoolbook product add up to the product. *)
Lemma dsum_conv (a b : bigval_t) :
  wf_bigval a -> wf_bigval b ->
  dsum (2 * BIGLEN - 1) (conv a b) = uval a * uval b.
Proof.
  intros Ha Hb. explode a. explode b.
  cbv [BIGLEN Nat.mul Nat.add Nat.sub dsum conv nsum word data nth uval lval].
  rewrite !pow32_nat. of_nat_literals.
  generalize (2 ^ 32). intros X. ring.
Qed.

(** A carry chain over any loop state: [arr] is the array written, [car]
    the carry, [I] what else the loop keeps invariant. *)
Lemma carry_chain_st {S : Type} (arr : S -> list Z) (car : S -> Z)
    (I : S -> Prop) (d : nat -> Z) (body : nat -> S -> S) (n len : nat) :
  (n <= len)%nat ->
  (forall i s, (i < n)%nat -> I s -> length (arr s) = len ->
     exists x, arr (body i s) = upd (arr s) i x /\ word_ok x /\
               x + 2 ^ 32 * car (body i s) = car s + d i /\ I (body i s)) ->
  forall s0, length (arr s0) = len -> I s0 ->
  let s := for_range 0 n body s0 in
  length (arr s) = len /\ Forall word_ok (firstn n (arr s)) /\
  lval (firstn n (arr s)) + 2 ^ (32 * Z.of_nat n) * car s = car s0 + dsum n d /\
  I s.
Proof.
  intros Hn Hstep s0 Hlen0 HI0.
  pose (P := fun (i : nat) (s : S) =>
    length (arr s) = len /\ Forall word_ok (firstn i (arr s)) /\
    lval (firstn i (arr s)) + 2 ^ (32 * Z.of_nat i) * car s = car s0 + dsum i d /\
    I s).
  change (P (0 + n)%nat (for_range 0 n body s0)).
  apply for_range_ind.
  - unfold P. cbn [firstn lval dsum]. change (2 ^ (32 * Z.of_nat 0)) with 1.
    repeat split; auto; lia.
  - intros i s Hi (Hlen & Hall & Hval & HI).
    destruct (Hstep i s ltac:(lia) HI Hlen) as (x & Harr & Hx & Hsplit & HI').
    unfold P. rewrite Harr, length_upd, firstn_upd_succ by lia.
    split; [assumption|]. split; [apply Forall_app; auto|].
    split; [|assumption].
    rewrite lval_app, length_firstn, Nat.min_l by lia.
    cbn [lval dsum].
    replace (32 * Z.of_nat (Datatypes.S i)) with (32 * Z.of_nat i + 32) by lia.
    rewrite Z.pow_add_r by lia.
    set (K := 2 ^ (32 * Z.of_nat i)) in *.
    assert (HK : K * (x + 2 ^ 32 * car (body i s)) = K * (car s + d i))
      by now rewrite Hsplit.
    lia.
Qed.

Lemma land_mask32 (u : Z) : Z.land u 0xffffffff = u mod 2 ^ 32.
Proof. change 0xffffffff with (Z.ones 32). now rewrite Z.land_ones by lia. Qed.

(** Storing one output word: the word and the new accumulator split the
    total [cc * 2 ^ 64 + u]. *)
Lemma mpy_store_spec (i : nat) (w : list Z) (u cc : Z) :
  0 <= u < 2 ^ 64 -> 0 <= cc < 2 ^ 31 ->
  exists x v,
    mpy_store i (w, u, cc) = (upd w i x, v, 0) /\ word_ok x /\
    x + 2 ^ 32 * v = cc * 2 ^ 64 + u /\ 0 <= v < 2 ^ 32 + cc * 2 ^ 32.
Proof.
  intros Hu Hc. unfold mpy_store.
  rewrite land_mask32, shiftr32, Z.shiftl_mul_pow2 by lia.
  pose proof (Z.div_mod u (2 ^ 32) ltac:(lia)) as Hdm.
  pose proof (Z.mod_pos_bound u (2 ^ 32) ltac:(lia)) as Hmb.
  assert (Hq : 0 <= u / 2 ^ 32 < 2 ^ 32).
  { split; [apply Z.div_pos | apply Z.div_lt_upper_bound]; lia. }
  rewrite (s64_small (u mod 2 ^ 32)) by lia.
  rewrite (u64_small cc) by lia.
  rewrite (u64_small (cc * 2 ^ 32)) by lia.
  rewrite (u64_small (u / 2 ^ 32 + cc * 2 ^ 32)) by lia.
  eexists _, _. split; [reflexivity|].
  unfold word_ok. repeat split; lia.
Qed.

(** The value the loop adds into output word [i] of the normal
    multiplication. *)
Lemma mpy_column_spec (a b : bigval_t) (aw bw i : nat) (w : list Z) (u : Z) :
  wf_bigval a -> wf_bigval b ->
  (1 <= aw <= BIGLEN)%nat -> (1 <= bw <= BIGLEN)%nat ->
  (forall k, (aw <= k)%nat -> word a k = 0) ->
  (forall k, (bw <= k)%nat -> word b k = 0) ->
  (i < aw + bw - 1)%nat -> 0 <= u < 2 ^ 37 ->
  exists x v,
    mpy_column a b (Z.of_nat aw) (Z.of_nat bw) i (w, u, 0) = (upd w i x, v, 0) /\
    word_ok x /\ x + 2 ^ 32 * v = u + conv a b i /\ 0 <= v < 2 ^ 37.
Proof.
  intros Ha Hb Haw Hbw Hza Hzb Hi Hu.
  destruct (mpy_column_terms a b aw bw i Ha Hb Haw Hbw Hza Hzb Hi) as [Hsel Hterms].
  unfold mpy_column.
  set (maxj := Z.min (Z.of_nat bw - 1) (Z.of_nat i)) in *.
  set (minj := Z.max 0 (Z.of_nat i - Z.of_nat aw + 1)) in *.
  unfold switch_accum.
  destruct (Z.leb_spec 0 (8 - (maxj - minj))); [|lia].
  destruct (Z.leb_spec (8 - (maxj - minj)) 8); [|lia].
  cbn [andb].
  set (t := Z.to_nat (8 - (8 - (maxj - minj)))) in *.
  assert (Ht : (t <= 8)%nat) by (unfold t; lia).
  destruct (accum_from_spec a b (Z.of_nat i - minj) minj t Ha Hb 0 u)
    as (cc' & u' & E & V & R & C); try lia.
  rewrite E.
  destruct (mpy_store_spec i w u' cc') as (x & v & Es & Hx & Hv & Hvr); try lia.
  exists x, v. split; [exact Es|]. split; [exact Hx|].
  rewrite Hterms in V.
  pose proof (conv_sum_nonneg a b (Z.of_nat i - minj) minj t Ha Hb) as Hcs.
  split; [lia|]. lia.
Qed.

(** ** Multiplication: the columns of a square *)

Lemma nsum_shift (n : nat) (g : nat -> Z) :
  nsum (S n) g = g O + nsum n (fun k => g (S k)).
Proof.
  induction n as [|n IH].
  - cbn [nsum]. lia.
  - cbn [nsum] in *. rewrite IH. lia.
Qed.

(** A sum of terms symmetric about the middle is twice its first half, plus
    the middle term when there is one. *)
Lemma nsum_sym_aux (m : nat) :
  forall L g, (L <= m)%nat ->
    (forall k, (k < L)%nat -> g k = g (L - 1 - k)%nat) ->
    nsum L g = 2 * nsum (L / 2) g + (if Nat.odd L then g (L / 2)%nat else 0).
Proof.
  induction m as [|m IH]; intros L g HL Hsym.
  - replace L with O by lia. reflexivity.
  - destruct L as [|[|L]].
    + reflexivity.
    + cbn. lia.
    + assert (Hhalf : (S (S L) / 2 = S (L / 2))%nat).
      { change (S (S L)) with (1 * 2 + L)%nat.
        rewrite Nat.div_add_l by lia. reflexivity. }
      rewrite Hhalf.
      assert (Hodd : Nat.odd (S (S L)) = Nat.odd L).
      { rewrite !Nat.odd_succ, Nat.even_succ. reflexivity. }
      rewrite Hodd.
      change (nsum (S (S L)) g) with (nsum (S L) g + g (S L)).
      rewrite (nsum_shift L g), (nsum_shift (L / 2) g).
      rewrite (IH L (fun k => g (S k))); [| lia |].
      * rewrite (Hsym (S L)) by lia.
        replace (S (S L) - 1 - S L)%nat with O by lia.
        destruct (Nat.odd L); lia.
      * intros k Hk. rewrite (Hsym (S k)) by lia.
        f_equal. lia.
Qed.

Lemma nsum_sym (L : nat) (g : nat -> Z) :
  (forall k, (k < L)%nat -> g k = g (L - 1 - k)%nat) ->
  nsum L g = 2 * nsum (L / 2) g + (if Nat.odd L then g (L / 2)%nat else 0).
Proof. intros; now apply nsum_sym_aux with L. Qed.

Lemma land1_even (i : nat) : (Z.land (Z.of_nat i) 1 =? 0) = Nat.even i.
Proof.
  rewrite land1_mod2.
  destruct (Nat.even i) eqn:E.
  - apply Nat.even_spec in E. destruct E as [k ->].
    rewrite Nat2Z.inj_mul, Z.mul_comm, Z_mod_mult. reflexivity.
  - assert (Ho : Nat.odd i = true) by (unfold Nat.odd; now rewrite E).
    apply Nat.odd_spec in Ho. destruct Ho as [k ->].
    rewrite Nat2Z.inj_add, Nat2Z.inj_mul.
    rewrite Z.add_comm, Z.mul_comm, Z_mod_plus_full. reflexivity.
Qed.

(** The terms the squaring loop adds up for output word [i]. *)
Lemma sqr_column_terms (a : bigval_t) (aw i : nat) :
  wf_bigval a -> (1 <= aw <= BIGLEN)%nat ->
  (forall k, (aw <= k)%nat -> word a k = 0) ->
  (i < 2 * aw - 1)%nat ->
  let maxj := Z.min (Z.min (Z.of_nat aw - 1) (Z.of_nat i))
                    (Z.shiftr (Z.of_nat i - 1) 1) in
  let minj := Z.max 0 (Z.of_nat i - Z.of_nat aw + 1) in
  let sel := 8 - (maxj - minj) in
  0 <= sel <= 9 /\
  2 * (if (0 <=? sel) && (sel <=? 8)
       then conv_sum a a (Z.of_nat i - minj) minj (Z.to_nat (8 - sel)) else 0)
  + (if Z.land (Z.of_nat i) 1 =? 0
     then word a (Z.to_nat (maxj + 1)) * word a (Z.to_nat (maxj + 1)) else 0)
  = conv a a i.
Proof.
  intros Ha Haw Hza Hi maxj minj sel.
  unfold BIGLEN in *.
  set (lo := (i + 1 - aw)%nat).
  set (h := ((i + 1) / 2 - lo)%nat).
  set (L := (i + 1 - 2 * lo)%nat).
  assert (Hdiv : (i + 1 = 2 * ((i + 1) / 2) + (i + 1) mod 2)%nat)
    by (apply Nat.div_mod; lia).
  assert (Hmod : ((i + 1) mod 2 < 2)%nat) by (apply Nat.mod_upper_bound; lia).
  assert (Hsh : Z.shiftr (Z.of_nat i - 1) 1 = Z.of_nat ((i + 1) / 2) - 1).
  { rewrite Z.shiftr_div_pow2 by lia. change (2 ^ 1) with 2.
    symmetry. apply Z.div_unique with (r := Z.of_nat ((i + 1) mod 2)); lia. }
  assert (Hminj : minj = Z.of_nat lo) by (unfold minj, lo; lia).
  assert (Hmaxj : maxj = Z.of_nat ((i + 1) / 2) - 1)
    by (unfold maxj; rewrite Hsh; lia).
  assert (Hlo : (lo <= (i + 1) / 2)%nat) by (unfold lo; lia).
  assert (Hsel : sel = 9 - Z.of_nat h) by (unfold sel, h; lia).
  assert (HLh : (L / 2 = h)%nat).
  { unfold L, h. symmetry.
    apply Nat.div_unique with (r := ((i + 1) mod 2)%nat); lia. }
  assert (HLodd : Nat.odd L = Nat.even i).
  { unfold L. replace (i + 1 - 2 * lo)%nat with (S i - 2 * lo)%nat by lia.
    rewrite Nat.odd_sub by lia.
    rewrite Nat.odd_succ, Nat.odd_mul. cbn [Nat.odd Nat.even negb andb].
    now rewrite xorb_false_r. }
  split; [lia|].
  (* the whole column, as a symmetric window *)
  assert (Hconv : conv a a i
                  = nsum L (fun k => word a (i - (lo + k)) * word a (lo + k))).
  { unfold conv.
    apply nsum_window with (lo := lo) (f := fun j => word a (i - j) * word a j).
    - unfold L; lia.
    - intros k Hk. rewrite Hza by (unfold lo in Hk; lia). lia.
    - intros k Hk. rewrite (Hza k) by (unfold L, lo in Hk; lia). lia. }
  rewrite Hconv, nsum_sym, HLh, HLodd.
  2:{ intros k Hk. unfold L in *.
      replace (i - (lo + (i + 1 - 2 * lo - 1 - k)))%nat with (lo + k)%nat by lia.
      replace (lo + (i + 1 - 2 * lo - 1 - k))%nat with (i - (lo + k))%nat by lia.
      lia. }
  rewrite land1_even.
  f_equal.
  - f_equal. rewrite Hsel.
    destruct h as [|h'] eqn:Eh.
    + destruct (Z.leb_spec 0 (9 - Z.of_nat 0)), (Z.leb_spec (9 - Z.of_nat 0) 8);
        cbn [andb nsum]; lia.
    + destruct (Z.leb_spec 0 (9 - Z.of_nat (S h'))),
               (Z.leb_spec (9 - Z.of_nat (S h')) 8); cbn [andb]; try lia.
      rewrite Hminj.
      replace (Z.to_nat (8 - (9 - Z.of_nat (S h')))) with h' by lia.
      apply conv_sum_nsum. lia.
  - destruct (Nat.even i) eqn:Ee; [|reflexivity].
    apply Nat.even_spec in Ee. destruct Ee as [c Hc].
    rewrite Hmaxj.
    replace (Z.to_nat (Z.of_nat ((i + 1) / 2) - 1 + 1)) with (lo + h)%nat by lia.
    replace (i - (lo + h))%nat with (lo + h)%nat by lia.
    reflexivity.
Qed.

Lemma sqr_column_spec (a : bigval_t) (aw i : nat) (w : list Z) (u : Z) :
  wf_bigval a -> (1 <= aw <= BIGLEN)%nat ->
  (forall k, (aw <= k)%nat -> word a k = 0) ->
  (i < 2 * aw - 1)%nat -> 0 <= u < 2 ^ 37 ->
  exists x v,
    sqr_column a (Z.of_nat aw) i (w, u, 0) = (upd w i x, v, 0) /\
    word_ok x /\ x + 2 ^ 32 * v = u + conv a a i /\ 0 <= v < 2 ^ 37.
Proof.
  intros Ha Haw Hza Hi Hu.
  destruct (sqr_column_terms a aw i Ha Haw Hza Hi) as [Hsel Hterms].
  unfold sqr_column.
  set (maxj := Z.min (Z.min (Z.of_nat aw - 1) (Z.of_nat i))
                     (Z.shiftr (Z.of_nat i - 1) 1)) in *.
  set (minj := Z.max 0 (Z.of_nat i - Z.of_nat aw + 1)) in *.
  set (sel := 8 - (maxj - minj)) in *.
  cbv zeta in Hterms.
  (* the doubled terms *)
  assert (Hdbl : exists cc1 u1,
    switch_accum mpy_accum_dbl a a (Z.of_nat i - minj) minj sel (0, u) = (cc1, u1) /\
    cc1 * 2 ^ 64 + u1
    = u + 2 * (if (0 <=? sel) && (sel <=? 8)
               then conv_sum a a (Z.of_nat i - minj) minj (Z.to_nat (8 - sel))
               else 0) /\
    0 <= u1 < 2 ^ 64 /\ 0 <= cc1 <= 18).
  { unfold switch_accum.
    destruct ((0 <=? sel) && (sel <=? 8)) eqn:E.
    - apply andb_true_iff in E. destruct E as [E1 E2].
      apply Z.leb_le in E1, E2.
      destruct (accum_from_dbl_spec a a (Z.of_nat i - minj) minj
                  (Z.to_nat (8 - sel)) Ha Ha 0 u)
        as (cc' & u' & E & V & R & C); try lia.
      exists cc', u'. split; [exact E|]. split; [lia|]. split; lia.
    - exists 0, u. split; [reflexivity|]. split; [lia|]. split; lia. }
  destruct Hdbl as (cc1 & u1 & -> & V1 & R1 & C1).
  (* the middle term *)
  set (mid := word a (Z.to_nat (maxj + 1))) in *.
  assert (Hmid : exists cc2 u2,
    (if Z.land (Z.of_nat i) 1 =? 0 then mpy_accum (cc1, u1) mid mid else (cc1, u1))
    = (cc2, u2) /\
    cc2 * 2 ^ 64 + u2 = u + conv a a i /\ 0 <= u2 < 2 ^ 64 /\ 0 <= cc2 <= 19).
  { pose proof (word_range a (Z.to_nat (maxj + 1)) Ha) as Hw. fold mid in Hw.
    destruct (Z.land (Z.of_nat i) 1 =? 0).
    - destruct (mpy_accum_spec cc1 u1 mid mid) as (cc' & u' & E & V & R & C); try lia.
      exists cc', u'. split; [exact E|]. split; [lia|]. split; lia.
    - exists cc1, u1. split; [reflexivity|]. split; [lia|]. split; lia. }
  destruct Hmid as (cc2 & u2 & -> & V2 & R2 & C2).
  destruct (mpy_store_spec i w u2 cc2) as (x & v & Es & Hx & Hv & Hvr); try lia.
  exists x, v. split; [exact Es|]. split; [exact Hx|]. split; lia.
Qed.

(** ** Multiplication: the unsigned product *)

(** The carry chain of a loop that starts at word [lo]. *)
Lemma carry_chain_from {S : Type} (arr : S -> list Z) (car : S -> Z)
    (I : S -> Prop) (d : nat -> Z) (body : nat -> S -> S) (lo n len : nat) :
  (lo + n <= len)%nat ->
  (forall i s, (lo <= i < lo + n)%nat -> I s -> length (arr s) = len ->
     exists x, arr (body i s) = upd (arr s) i x /\ word_ok x /\
               x + 2 ^ 32 * car (body i s) = car s + d i /\ I (body i s)) ->
  forall s0 T, length (arr s0) = len -> I s0 ->
  Forall word_ok (firstn lo (arr s0)) ->
  lval (firstn lo (arr s0)) + 2 ^ (32 * Z.of_nat lo) * car s0 = T + dsum lo d ->
  let s := for_range lo n body s0 in
  length (arr s) = len /\ Forall word_ok (firstn (lo + n) (arr s)) /\
  lval (firstn (lo + n) (arr s)) + 2 ^ (32 * Z.of_nat (lo + n)) * car s
  = T + dsum (lo + n) d /\
  I s.
Proof.
  intros Hn Hstep s0 T Hlen0 HI0 Hall0 Hval0.
  pose (P := fun (i : nat) (s : S) =>
    length (arr s) = len /\ Forall word_ok (firstn i (arr s)) /\
    lval (firstn i (arr s)) + 2 ^ (32 * Z.of_nat i) * car s = T + dsum i d /\
    I s).
  change (P (lo + n)%nat (for_range lo n body s0)).
  apply for_range_ind.
  - unfold P. repeat split; auto.
  - intros i s Hi (Hlen & Hall & Hval & HI).
    destruct (Hstep i s ltac:(lia) HI Hlen) as (x & Harr & Hx & Hsplit & HI').
    unfold P. rewrite Harr, length_upd, firstn_upd_succ by lia.
    split; [assumption|]. split; [apply Forall_app; auto|].
    split; [|assumption].
    rewrite lval_app, length_firstn, Nat.min_l by lia.
    cbn [lval dsum].
    replace (32 * Z.of_nat (Datatypes.S i)) with (32 * Z.of_nat i + 32) by lia.
    rewrite Z.pow_add_r by lia.
    set (K := 2 ^ (32 * Z.of_nat i)) in *.
    assert (HK : K * (x + 2 ^ 32 * car (body i s)) = K * (car s + d i))
      by now rewrite Hsplit.
    lia.
Qed.

Lemma dsum_tail_zero (n k : nat) (d : nat -> Z) :
  (forall i, (n <= i < n + k)%nat -> d i = 0) -> dsum (n + k) d = dsum n d.
Proof.
  induction k as [|k IH]; intros H.
  - now rewrite Nat.add_0_r.
  - replace (n + S k)%nat with (S (n + k)) by lia. cbn [dsum].
    rewrite IH, H by (try lia; intros; apply H; lia). lia.
Qed.

Lemma mpy_residual_step (i : nat) (st : mpy_state) :
  mpy_inv st ->
  exists x,
    fst (fst ((fun (i : nat) '(w, u_accum, cum_carry) =>
       (upd w i (s64 (Z.land u_accum 0xffffffff)), Z.shiftr u_accum 32,
        cum_carry)) i st)) = upd (fst (fst st)) i x /\
    word_ok x /\
    x + 2 ^ 32 * snd (fst ((fun (i : nat) '(w, u_accum, cum_carry) =>
       (upd w i (s64 (Z.land u_accum 0xffffffff)), Z.shiftr u_accum 32,
        cum_carry)) i st)) = snd (fst st) + 0 /\
    mpy_inv ((fun (i : nat) '(w, u_accum, cum_carry) =>
       (upd w i (s64 (Z.land u_accum 0xffffffff)), Z.shiftr u_accum 32,
        cum_carry)) i st).
Proof.
  destruct st as [[w u] cc]. unfold mpy_inv; cbn [fst snd].
  intros [-> Hu].
  rewrite land_mask32, shiftr32.
  pose proof (Z.div_mod u (2 ^ 32) ltac:(lia)) as Hdm.
  pose proof (Z.mod_pos_bound u (2 ^ 32) ltac:(lia)) as Hmb.
  assert (Hq : 0 <= u / 2 ^ 32 < 2 ^ 5).
  { split; [apply Z.div_pos | apply Z.div_lt_upper_bound]; lia. }
  rewrite s64_small by lia.
  eexists. split; [reflexivity|]. unfold word_ok.
  repeat split; lia.
Qed.

Lemma firstn_whole_upd_last (w : list Z) (n : nat) (x : Z) :
  length w = S n -> upd w n x = firstn n w ++ [x].
Proof.
  intros Hlen.
  rewrite <- (firstn_all (upd w n x)), length_upd, Hlen.
  apply firstn_upd_succ. lia.
Qed.

Lemma mpy_unsigned_spec (a b : bigval_t) (same : bool) :
  wf_bigval a -> wf_bigval b -> (same = true -> a = b) ->
  length (mpy_unsigned a b same) = (2 * BIGLEN)%nat /\
  Forall word_ok (mpy_unsigned a b same) /\
  lval (mpy_unsigned a b same) = uval a * uval b.
Proof.
  intros Ha Hb Hsame. unfold mpy_unsigned.
  destruct (count_words_spec a BIGLEN ltac:(unfold BIGLEN; lia)) as [Haw Hza'].
  destruct (count_words_spec b BIGLEN ltac:(unfold BIGLEN; lia)) as [Hbw Hzb'].
  set (aw := count_words BIGLEN a) in *. set (bw := count_words BIGLEN b) in *.
  assert (Hza : forall k, (aw <= k)%nat -> word a k = 0).
  { intros k Hk. destruct (Nat.lt_ge_cases k BIGLEN); [apply Hza'; lia|].
    now apply word_overflow. }
  assert (Hzb : forall k, (bw <= k)%nat -> word b k = 0).
  { intros k Hk. destruct (Nat.lt_ge_cases k BIGLEN); [apply Hzb'; lia|].
    now apply word_overflow. }
  set (w0 := repeat 0 (2 * BIGLEN)).
  (* the main loop, either way *)
  assert (Hmain : exists n st,
    (if negb same
     then ((aw + bw - 1)%nat,
           for_range 0 (aw + bw - 1) (mpy_column a b (Z.of_nat aw) (Z.of_nat bw))
             (w0, 0, 0))
     else ((2 * aw - 1)%nat,
           for_range 0 (2 * aw - 1) (sqr_column a (Z.of_nat aw)) (w0, 0, 0)))
    = (n, st) /\ (n <= 2 * BIGLEN - 1)%nat /\
    length (fst (fst st)) = (2 * BIGLEN)%nat /\
    Forall word_ok (firstn n (fst (fst st))) /\
    lval (firstn n (fst (fst st))) + 2 ^ (32 * Z.of_nat n) * snd (fst st)
    = 0 + dsum n (conv a b) /\
    mpy_inv st /\
    (forall i, (n <= i)%nat -> conv a b i = 0)).
  { destruct same; cbn [negb].
    - specialize (Hsame eq_refl). subst b. fold aw in bw. subst bw.
      eexists _, _. split; [reflexivity|].
      split; [unfold BIGLEN in *; lia|].
      pose proof (carry_chain_from (fun st : mpy_state => fst (fst st))
                    (fun st => snd (fst st)) mpy_inv (conv a a)
                    (sqr_column a (Z.of_nat aw)) 0 (2 * aw - 1) (2 * BIGLEN)) as Hc.
      cbv zeta in Hc. cbn [Nat.add] in Hc.
      assert (Hstep : forall (i : nat) (s : mpy_state),
        (0 <= i < 2 * aw - 1)%nat -> mpy_inv s ->
        length (fst (fst s)) = (2 * BIGLEN)%nat ->
        exists x, fst (fst (sqr_column a (Z.of_nat aw) i s)) = upd (fst (fst s)) i x /\
          word_ok x /\
          x + 2 ^ 32 * snd (fst (sqr_column a (Z.of_nat aw) i s))
          = snd (fst s) + conv a a i /\
          mpy_inv (sqr_column a (Z.of_nat aw) i s)).
      { intros i [[w u] cc] Hi [Hcc Hu] Hlen. cbn [fst snd] in *. subst cc.
        destruct (sqr_column_spec a aw i w u Ha Haw Hza ltac:(lia) Hu)
          as (x & v & E & Hx & Hxv & Hvr).
        exists x. rewrite E. cbn [fst snd]. unfold mpy_inv; cbn [fst snd].
        split; [reflexivity|]. split; [assumption|]. split; [assumption|].
        split; [reflexivity|assumption]. }
      assert (Hi0 : mpy_inv (w0, 0, 0)) by (unfold mpy_inv; cbn [fst snd]; lia).
      destruct (Hc ltac:(unfold BIGLEN in *; lia) Hstep (w0, 0, 0) 0 eq_refl Hi0
                  (Forall_nil _) eq_refl) as (Hl & Hall & Hv & HI).
      split; [exact Hl|]. split; [exact Hall|]. split; [exact Hv|].
      split; [exact HI|].
      intros i Hi. apply conv_beyond with aw aw; auto; lia.
    - eexists _, _. split; [reflexivity|].
      split; [unfold BIGLEN in *; lia|].
      pose proof (carry_chain_from (fun st : mpy_state => fst (fst st))
                    (fun st => snd (fst st)) mpy_inv (conv a b)
                    (mpy_column a b (Z.of_nat aw) (Z.of_nat bw))
                    0 (aw + bw - 1) (2 * BIGLEN)) as Hc.
      cbv zeta in Hc. cbn [Nat.add] in Hc.
      assert (Hstep : forall (i : nat) (s : mpy_state),
        (0 <= i < aw + bw - 1)%nat -> mpy_inv s ->
        length (fst (fst s)) = (2 * BIGLEN)%nat ->
        exists x,
          fst (fst (mpy_column a b (Z.of_nat aw) (Z.of_nat bw) i s))
          = upd (fst (fst s)) i x /\
          word_ok x /\
          x + 2 ^ 32 * snd (fst (mpy_column a b (Z.of_nat aw) (Z.of_nat bw) i s))
          = snd (fst s) + conv a b i /\
          mpy_inv (mpy_column a b (Z.of_nat aw) (Z.of_nat bw) i s)).
      { intros i [[w u] cc] Hi [Hcc Hu] Hlen. cbn [fst snd] in *. subst cc.
        destruct (mpy_column_spec a b aw bw i w u Ha Hb Haw Hbw Hza Hzb ltac:(lia) Hu)
          as (x & v & E & Hx & Hxv & Hvr).
        exists x. rewrite E. cbn [fst snd]. unfold mpy_inv; cbn [fst snd].
        split; [reflexivity|]. split; [assumption|]. split; [assumption|].
        split; [reflexivity|assumption]. }
      assert (Hi0 : mpy_inv (w0, 0, 0)) by (unfold mpy_inv; cbn [fst snd]; lia).
      destruct (Hc ltac:(unfold BIGLEN in *; lia) Hstep (w0, 0, 0) 0 eq_refl Hi0
                  (Forall_nil _) eq_refl) as (Hl & Hall & Hv & HI).
      split; [exact Hl|]. split; [exact Hall|]. split; [exact Hv|].
      split; [exact HI|].
      intros i Hi. apply conv_beyond with aw bw; auto; lia. }
  destruct Hmain as (n & st & -> & Hn & Hl & Hall & Hv & HI & Hz).
  (* the residual loop *)
  match goal with |- context [for_range n ?k ?body st] =>
    pose proof (carry_chain_from (fun st : mpy_state => fst (fst st))
                  (fun st => snd (fst st)) mpy_inv (fun _ => 0)
                  body n k (2 * BIGLEN)) as Hc
  end.
  cbv zeta in Hc.
  destruct (Hc ltac:(lia) (fun i s _ Hinv _ => mpy_residual_step i s Hinv) st
              (dsum n (conv a b) - dsum n (fun _ => 0)) Hl HI Hall ltac:(lia))
    as (Hl' & Hall' & Hv' & HI').
  clear Hc.
  replace (n + (2 * BIGLEN - 1 - n))%nat with (2 * BIGLEN - 1)%nat in * by lia.
  unfold mpy_state in *.
  match goal with |- context [for_range n ?k ?body st] =>
    remember (for_range n k body st) as st' eqn:Est' in *
  end.
  clear Est'.
  destruct st' as [[w u] cc]. cbn [fst snd] in *.
  destruct HI' as [_ Hu]. cbn [fst snd] in Hu.
  assert (Hd0 : dsum (2 * BIGLEN - 1) (fun _ => 0) = dsum n (fun _ => 0)).
  { replace (2 * BIGLEN - 1)%nat with (n + (2 * BIGLEN - 1 - n))%nat by lia.
    apply dsum_tail_zero. reflexivity. }
  assert (Hdc : dsum (2 * BIGLEN - 1) (conv a b) = dsum n (conv a b)).
  { replace (2 * BIGLEN - 1)%nat with (n + (2 * BIGLEN - 1 - n))%nat by lia.
    apply dsum_tail_zero. intros i Hi. apply Hz. lia. }
  rewrite Hd0 in Hv'.
  assert (Htot : lval (firstn (2 * BIGLEN - 1) w)
                 + 2 ^ (32 * Z.of_nat (2 * BIGLEN - 1)) * u = uval a * uval b).
  { rewrite <- dsum_conv, Hdc by assumption. lia. }
  pose proof (lval_bound _ Hall') as Hlb.
  rewrite length_firstn, Nat.min_l in Hlb by lia.
  pose proof (uval_range a Ha) as Hua. pose proof (uval_range b Hb) as Hub.
  assert (Hprod : 0 <= uval a * uval b < 2 ^ 288 * 2 ^ 288) by nia.
  change (2 ^ (32 * Z.of_nat (2 * BIGLEN - 1))) with (2 ^ 544) in *.
  assert (Hu32 : 0 <= u < 2 ^ 32) by lia.
  rewrite s64_small by lia.
  rewrite (firstn_whole_upd_last w (2 * BIGLEN - 1) u) by (rewrite Hl'; reflexivity).
  split; [rewrite length_app, length_firstn, Nat.min_l by lia; reflexivity|].
  split; [apply Forall_app; split;
            [assumption | constructor; [exact Hu32 | constructor]]|].
  rewrite lval_app, length_firstn, Nat.min_l by lia.
  cbn [lval].
  change (2 ^ (32 * Z.of_nat (2 * BIGLEN - 1))) with (2 ^ 544).
  lia.
Qed.

(** ** Multiplication: signs and reduction *)

Ltac explode18 w H :=
  do 18 (destruct w as [|? w]; [discriminate H|]);
  destruct w; [|discriminate H].

Ltac invert_Forall :=
  repeat match goal with
  | H : Forall _ (_ :: _) |- _ => inversion H; clear H; subst
  | H : Forall _ [] |- _ => clear H
  end.

Lemma s64_u64 (x : Z) : s64 (u64 x) = s64 x.
Proof. unfold s64, u64. now rewrite Zplus_mod_idemp_l. Qed.

Lemma sign_loop_spec (b : bigval_t) (w : list Z) (B : Z) :
  wf_bigval b -> length w = (2 * BIGLEN)%nat -> bounded B w -> 0 <= B <= 2 ^ 62 ->
  let w' := for_range 0 BIGLEN (fun i w =>
              upd w (i + BIGLEN) (s64 (nth (i + BIGLEN) w 0 - word b i))) w in
  length w' = (2 * BIGLEN)%nat /\
  bounded (B + 2 ^ 32) w' /\
  lval w' = lval w - 2 ^ 288 * uval b.
Proof.
  intros Hb Hlen Hbd HB. explode b. explode18 w Hlen.
  unfold bounded in Hbd. invert_Forall.
  cbv [for_range BIGLEN Nat.add upd nth word data].
  rewrite !s64_small by lia.
  split; [reflexivity|].
  split; [unfold bounded; repeat (constructor; [lia|]); constructor|].
  cbv [lval uval data]. lia.
Qed.

Lemma big_is_negative_uval (a : bigval_t) :
  wf_bigval a ->
  sval a = uval a - (if big_is_negative a then 2 ^ 288 else 0).
Proof.
  intros Ha. unfold big_is_negative, sval.
  rewrite s32_word by now apply word_range.
  pose proof (word_range a MSW Ha).
  destruct (Z.leb_spec (2 ^ 31) (word a MSW));
    [destruct (Z.ltb_spec (word a MSW - 2 ^ 32) 0)
    |destruct (Z.ltb_spec (word a MSW) 0)]; lia.
Qed.

Lemma bounded_weaken (B B' : Z) (l : list Z) :
  B <= B' -> bounded B l -> bounded B' l.
Proof.
  intros HB H. unfold bounded in *.
  eapply Forall_impl; [|exact H]. cbv beta. intros; lia.
Qed.

Lemma word_ok_bounded (l : list Z) : Forall word_ok l -> bounded (2 ^ 33) l.
Proof.
  intros H. unfold bounded. eapply Forall_impl; [|exact H].
  unfold word_ok; cbv beta; intros; lia.
Qed.

Lemma sign_both_spec (w : list Z) (B : Z) :
  length w = (2 * BIGLEN)%nat -> bounded B w -> 0 <= B <= 2 ^ 62 ->
  let w' := upd w (2 * BIGLEN - 1)
              (s64 (u64 (nth (2 * BIGLEN - 1) w 0 + Z.shiftl 1 32))) in
  length w' = (2 * BIGLEN)%nat /\
  bounded (B + 2 ^ 32) w' /\
  lval w' = lval w + 2 ^ 576.
Proof.
  intros Hlen Hbd HB. explode18 w Hlen.
  unfold bounded in Hbd. invert_Forall.
  cbv [BIGLEN Nat.mul Nat.add Nat.sub upd nth].
  rewrite Z.shiftl_mul_pow2, s64_u64 by lia.
  rewrite s64_small by lia.
  split; [reflexivity|].
  split; [unfold bounded; repeat (constructor; [lia|]); constructor|].
  cbv [lval]. lia.
Qed.

Lemma mpy_sign_correct_spec (a b : bigval_t) (w : list Z) :
  wf_bigval a -> wf_bigval b ->
  length w = (2 * BIGLEN)%nat -> Forall word_ok w ->
  lval w = uval a * uval b ->
  length (mpy_sign_correct a b w) = (2 * BIGLEN)%nat /\
  bounded (2 ^ 35) (mpy_sign_correct a b w) /\
  lval (mpy_sign_correct a b w) = sval a * sval b.
Proof.
  intros Ha Hb Hlen Hok Hval.
  rewrite (big_is_negative_uval a Ha), (big_is_negative_uval b Hb).
  unfold mpy_sign_correct.
  pose proof (word_ok_bounded w Hok) as Hbd.
  destruct (big_is_negative a) eqn:Na, (big_is_negative b) eqn:Nb.
  - destruct (sign_loop_spec b w (2 ^ 33) Hb Hlen Hbd ltac:(lia)) as (L1 & B1 & V1).
    cbv zeta in *.
    set (w1 := for_range 0 BIGLEN _ w) in *.
    destruct (sign_loop_spec a w1 (2 ^ 33 + 2 ^ 32) Ha L1 B1 ltac:(lia))
      as (L2 & B2 & V2).
    cbv zeta in *.
    set (w2 := for_range 0 BIGLEN _ w1) in *.
    destruct (sign_both_spec w2 (2 ^ 33 + 2 ^ 32 + 2 ^ 32) L2 B2 ltac:(lia))
      as (L3 & B3 & V3).
    cbv zeta in *.
    split; [exact L3|]. split; [eapply bounded_weaken; [|exact B3]; lia|].
    rewrite V3, V2, V1, Hval.
    generalize (uval a), (uval b); intros ua ub.
    change (2 ^ 576) with (2 ^ 288 * 2 ^ 288). generalize (2 ^ 288); intros K.
    ring.
  - destruct (sign_loop_spec b w (2 ^ 33) Hb Hlen Hbd ltac:(lia)) as (L1 & B1 & V1).
    cbv zeta in *.
    split; [exact L1|]. split; [eapply bounded_weaken; [|exact B1]; lia|].
    rewrite V1, Hval.
    generalize (uval a), (uval b); intros ua ub. generalize (2 ^ 288); intros K.
    ring.
  - destruct (sign_loop_spec a w (2 ^ 33) Ha Hlen Hbd ltac:(lia)) as (L1 & B1 & V1).
    cbv zeta in *.
    split; [exact L1|]. split; [eapply bounded_weaken; [|exact B1]; lia|].
    rewrite V1, Hval.
    generalize (uval a), (uval b); intros ua ub. generalize (2 ^ 288); intros K.
    ring.
  - split; [exact Hlen|]. split; [eapply bounded_weaken; [|exact Hbd]; lia|].
    rewrite Hval. ring.
Qed.

(** One step of the reduction modulo the curve modulus: word [i] is folded
    into the words below it, all the words at most doubling. *)
Lemma reduce_modulus_step_spec (i : nat) (w : list Z) (B : Z) :
  (8 <= i <= 17)%nat -> length w = (2 * BIGLEN)%nat ->
  bounded B w -> 0 <= B <= 2 ^ 61 ->
  skipn (S i) w = repeat 0 (17 - i) ->
  length (reduce_modulus_step i w) = (2 * BIGLEN)%nat /\
  bounded (2 * B) (reduce_modulus_step i w) /\
  cong p256 (lval (reduce_modulus_step i w)) (lval w) /\
  skipn i (reduce_modulus_step i w) = repeat 0 (18 - i).
Proof.
  intros Hi Hlen Hbd HB Hz. explode18 w Hlen.
  unfold bounded in Hbd. invert_Forall.
  do 8 (destruct i as [|i]; [lia|]).
  do 10 (destruct i as [|i];
    [ cbv [skipn repeat Nat.sub] in Hz; inversion Hz; subst;
      cbv [reduce_modulus_step nth Nat.sub];
      match goal with |- context [negb (?v =? 0)] =>
        destruct (Z.eqb_spec v 0) as [Hv0|Hv0]; cbv [negb];
        [ subst;
          split; [reflexivity|];
          split; [unfold bounded; repeat (constructor; [lia|]); constructor|];
          split; [apply cong_refl | reflexivity]
        | cbv [upd nth];
          rewrite !s64_small by lia;
          split; [reflexivity|];
          split; [unfold bounded; repeat (constructor; [lia|]); constructor|];
          split; [|reflexivity];
          match goal with Hi' : (8 <= ?n <= 17)%nat |- _ =>
            let K := eval vm_compute in (2 ^ (32 * (Z.of_nat n - 8))) in
            unfold cong;
            match goal with |- ?L mod _ = ?R mod _ =>
              replace L with (R + (- (v * K)) * p256)
                by (unfold p256; cbv [lval]; lia)
            end;
            apply Z_mod_plus_full
          end ]
      end
    |]).
  lia.
Qed.

Lemma pow2_succ_nat (n : nat) : 2 * 2 ^ Z.of_nat n = 2 ^ Z.of_nat (S n).
Proof. rewrite Nat2Z.inj_succ, Z.pow_succ_r by lia. reflexivity. Qed.

Lemma mpy_reduce_modulus_spec (w : list Z) :
  length w = (2 * BIGLEN)%nat -> bounded (2 ^ 35) w ->
  length (mpy_reduce_modulus w) = (2 * BIGLEN)%nat /\
  bounded (2 ^ 45) (mpy_reduce_modulus w) /\
  cong p256 (lval (mpy_reduce_modulus w)) (lval w) /\
  skipn MSW (mpy_reduce_modulus w) = repeat 0 (2 * BIGLEN - MSW).
Proof.
  intros Hlen Hbd. unfold mpy_reduce_modulus.
  pose (P := fun (k : nat) (w' : list Z) =>
    length w' = (2 * BIGLEN)%nat /\
    bounded (2 ^ 35 * 2 ^ Z.of_nat (18 - k)) w' /\
    cong p256 (lval w') (lval w) /\
    skipn k w' = repeat 0 (18 - k)).
  assert (HP : P MSW (for_down MSW (2 * BIGLEN - MSW) reduce_modulus_step w)).
  { apply for_down_ind.
    - unfold P. split; [assumption|]. split; [exact Hbd|].
      split; [apply cong_refl|].
      change (MSW + (2 * BIGLEN - MSW))%nat with 18%nat.
      cbn [Nat.sub repeat]. apply skipn_all2. rewrite Hlen. unfold BIGLEN; lia.
    - intros i w' Hi (Hl & Hb & Hc & Hz).
      unfold MSW, BIGLEN in Hi.
      assert (HB : 0 <= 2 ^ 35 * 2 ^ Z.of_nat (18 - S i) <= 2 ^ 61).
      { assert (1 <= 2 ^ Z.of_nat (18 - S i) <= 2 ^ 9); [|lia].
        split; [pose proof (Z.pow_pos_nonneg 2 (Z.of_nat (18 - S i))); lia|].
        apply Z.pow_le_mono_r; lia. }
      replace (18 - S i)%nat with (17 - i)%nat in Hz by lia.
      destruct (reduce_modulus_step_spec i w' _ ltac:(lia) Hl Hb HB Hz)
        as (Hl' & Hb' & Hc' & Hz').
      unfold P. split; [assumption|].
      split.
      + replace (18 - i)%nat with (S (18 - S i)) by lia.
        rewrite <- pow2_succ_nat.
        eapply bounded_weaken; [|exact Hb']. lia.
      + split; [eapply cong_trans; eassumption | assumption]. }
  destruct HP as (Hl & Hb & Hc & Hz).
  split; [assumption|]. split; [|split; assumption].
  eapply bounded_weaken; [|exact Hb]. unfold MSW. cbn. lia.
Qed.

(** The product of [big_mpyP] before the final approximate reduction. *)
Lemma mpy_copy_out_spec (w : list Z) :
  length w = (2 * BIGLEN)%nat -> bounded (2 ^ 45) w ->
  skipn MSW w = repeat 0 (2 * BIGLEN - MSW) ->
  let tgt := mkbig (fst (for_range 0 BIGLEN (fun i '(tgt, s_accum) =>
               let s_accum := s64 (s_accum + nth i w 0) in
               (upd tgt i (u32 s_accum), Z.shiftr s_accum 32)) (fresh, 0))) in
  wf_bigval tgt /\ sval tgt = lval w.
Proof.
  intros Hlen Hbd Hz tgt. subst tgt.
  match goal with |- context [for_range 0 BIGLEN ?body ?s] =>
    destruct (carry_chain (fun v => - 2 ^ 46 <= v <= 2 ^ 46) (fun i => nth i w 0)
                body BIGLEN) with (tgt0 := fresh) (v0 := 0)
      as (tgt & v & Heq & Hl & Hall & Hval & HR)
  end.
  - intros i tgt v Hi HR Hl. cbv beta in HR |- *.
    assert (Hw : - 2 ^ 45 <= nth i w 0 <= 2 ^ 45).
    { unfold bounded in Hbd. rewrite Forall_forall in Hbd.
      apply Hbd. apply nth_In. rewrite Hlen. unfold BIGLEN in *. lia. }
    eexists _, _; split; [reflexivity|].
    rewrite (s64_small (v + nth i w 0)) by lia.
    destruct (split32 (v + nth i w 0)) as [Hs Hwo].
    rewrite shiftr32 in *. unfold word_ok in *.
    pose proof (Z.div_mod (v + nth i w 0) (2 ^ 32) ltac:(lia)).
    repeat split; lia.
  - reflexivity.
  - lia.
  - rewrite Heq; cbn [fst].
    assert (Hwf : wf_bigval (mkbig tgt)) by now apply wf_of_chain.
    split; [assumption|].
    rewrite dsum_nth in Hval.
    change (2 ^ (32 * Z.of_nat BIGLEN)) with (2 ^ 288) in Hval.
    explode18 w Hlen. unfold bounded in Hbd. invert_Forall.
    cbv [MSW BIGLEN skipn repeat Nat.mul Nat.add Nat.sub] in Hz. inversion Hz; subst.
    cbv [BIGLEN firstn lval] in Hval.
    apply sval_unique with v; [assumption| |].
    + unfold uval; cbn [data]. cbv [lval]. lia.
    + cbv [lval]. lia.
Qed.

Lemma big_is_zero_sval (a : bigval_t) :
  wf_bigval a -> big_is_zero a = true -> sval a = 0.
Proof.
  intros Ha H. rewrite big_is_zero_spec in H by assumption. now apply Z.eqb_eq.
Qed.

(** [big_mpyP] modulo the curve modulus: for all representable [a] and [b]
    the result is congruent to the product and approximately reduced. *)
Lemma big_mpyP_sval (a b : bigval_t) (same : bool) :
  wf_bigval a -> wf_bigval b -> (same = true -> a = b) ->
  wf_bigval (big_mpyP a b same MOD_MODULUS) /\
  eqp (sval (big_mpyP a b same MOD_MODULUS)) (sval a * sval b) /\
  approx_range (sval (big_mpyP a b same MOD_MODULUS)).
Proof.
  intros Ha Hb Hsame. unfold big_mpyP.
  destruct (big_is_zero a || big_is_zero b) eqn:Ez.
  - change (mkbig (repeat 0 BIGLEN)) with big_zero.
    split; [apply wf_big_zero|]. rewrite sval_big_zero.
    split; [|unfold approx_range; lia].
    apply orb_true_iff in Ez. destruct Ez as [Ez|Ez];
      apply big_is_zero_sval in Ez; auto; rewrite Ez.
    + now rewrite Z.mul_0_l.
    + now rewrite Z.mul_0_r.
  - destruct (mpy_unsigned_spec a b same Ha Hb Hsame) as (L0 & F0 & V0).
    destruct (mpy_sign_correct_spec a b _ Ha Hb L0 F0 V0) as (L1 & B1 & V1).
    destruct (mpy_reduce_modulus_spec _ L1 B1) as (L2 & B2 & C2 & Z2).
    destruct (mpy_copy_out_spec _ L2 B2 Z2) as (Hwf & Hv).
    cbv zeta in Hwf, Hv.
    match type of Hwf with wf_bigval ?t => set (tgt := t) in * end.
    destruct (big_approx_reduceP_sval tgt Hwf) as (Hwf' & Hv').
    split; [assumption|]. rewrite Hv'.
    split; [|apply approx_bounds; now apply sval_range].
    unfold eqp. rewrite (approx_eqp (sval tgt)), Hv.
    rewrite <- V1. exact C2.
Qed.

(** ** The conversions between [digit256_t] and [bigval_t] *)

Lemma digit256_to_bigval_top (e : endian) (d : digit256_t) (dst : bigval_t) :
  wf_digit256 d -> length (data dst) = BIGLEN ->
  word (digit256_to_bigval e d dst) MSW = 0.
Proof.
  intros [Hlen _] Hdst. destruct dst as [l]. cbn [data] in Hdst.
  do 4 (destruct d as [|? d]; [discriminate Hlen|]).
  destruct d; [|discriminate Hlen].
  do 9 (destruct l as [|? l]; [discriminate Hdst|]).
  destruct l; [|discriminate Hdst].
  destruct e; reflexivity.
Qed.

Lemma digit_halves (x : Z) : x mod 2 ^ 32 + 2 ^ 32 * (x / 2 ^ 32) = x.
Proof. pose proof (Z.div_mod x (2 ^ 32)); lia. Qed.

Lemma digit256_roundtrip (e : endian) (d : digit256_t) (dst : bigval_t) :
  wf_digit256 d -> length (data dst) = BIGLEN ->
  bigval_to_digit256 e (digit256_to_bigval e d dst) = Some d.
Proof.
  intros Hd Hdst.
  unfold bigval_to_digit256.
  assert (Hneg : big_is_negative (digit256_to_bigval e d dst) = false).
  { unfold big_is_negative. now rewrite digit256_to_bigval_top. }
  rewrite Hneg.
  destruct Hd as [Hlen _]. destruct dst as [l]. cbn [data] in Hdst.
  do 4 (destruct d as [|? d]; [discriminate Hlen|]).
  destruct d; [|discriminate Hlen].
  do 9 (destruct l as [|? l]; [discriminate Hdst|]).
  destruct l; [|discriminate Hdst].
  destruct e;
    cbv [digit256_to_bigval memcpy_words swap_adjacent_words digit256_memory
         digit_words flat_map app for_range upd nth data BIGLEN Nat.sub Nat.mul
         Nat.add repeat memory_digit256];
    rewrite !digit_halves; reflexivity.
Qed.

(** ** The binary encodings *)

Lemma bigval_to_binary_bytes (src : bigval_t) (tgt : list Z) (n : nat) :
  length tgt = n ->
  length (bigval_to_binary src tgt n) = n /\
  forall i, (i < n)%nat ->
    nth (n - 1 - i) (bigval_to_binary src tgt n) 0
    = if (i <? 4 * BIGLEN)%nat then bigval_byte src i
      else if big_is_negative src then 0xff else 0.
Proof.
  intros Hlen. unfold bigval_to_binary.
  set (high := if big_is_negative src then 0xff else 0).
  (* the bytes of the number *)
  match goal with |- context [for_range 0 (4 * BIGLEN) ?body tgt] =>
    set (body1 := body);
    assert (H1 : length (for_range 0 (4 * BIGLEN) body1 tgt) = n /\
                 forall i, (i < 4 * BIGLEN)%nat -> (i < n)%nat ->
                   nth (n - 1 - i) (for_range 0 (4 * BIGLEN) body1 tgt) 0
                   = bigval_byte src i)
  end.
  { change (4 * BIGLEN)%nat with (0 + 4 * BIGLEN)%nat at 2.
    apply (for_range_ind (fun k t => length t = n /\
             forall i, (i < k)%nat -> (i < n)%nat ->
               nth (n - 1 - i) t 0 = bigval_byte src i)).
    - split; [assumption|]. intros; lia.
    - intros k t Hk [Hl Hb]. unfold body1.
      destruct (Nat.ltb_spec k n) as [Hkn|Hkn].
      + split; [now rewrite length_upd|].
        intros i Hi Hin.
        destruct (Nat.eq_dec i k) as [->|Hne].
        * rewrite nth_upd_same by lia. reflexivity.
        * rewrite nth_upd_other by lia. apply Hb; lia.
      + split; [assumption|].
        intros i Hi Hin. apply Hb; lia. }
  destruct H1 as [Hl1 Hb1].
  set (t1 := for_range 0 (4 * BIGLEN) body1 tgt) in *. clearbody t1.
  (* the sign extension *)
  match goal with |- context [for_range (4 * BIGLEN) ?c ?body t1] =>
    set (body2 := body);
    assert (H2 : length (for_range (4 * BIGLEN) c body2 t1) = n /\
                 (forall i, (i < 4 * BIGLEN)%nat -> (i < n)%nat ->
                    nth (n - 1 - i) (for_range (4 * BIGLEN) c body2 t1) 0
                    = bigval_byte src i) /\
                 (forall i, (4 * BIGLEN <= i < 4 * BIGLEN + c)%nat ->
                    nth (n - 1 - i) (for_range (4 * BIGLEN) c body2 t1) 0 = high))
  end.
  { apply (for_range_ind (fun k t => length t = n /\
             (forall i, (i < 4 * BIGLEN)%nat -> (i < n)%nat ->
                nth (n - 1 - i) t 0 = bigval_byte src i) /\
             (forall i, (4 * BIGLEN <= i < k)%nat -> nth (n - 1 - i) t 0 = high))).
    - split; [assumption|]. split; [assumption|]. intros; lia.
    - intros k t Hk (Hl & Hb & Hh). unfold body2.
      split; [now rewrite length_upd|]. split.
      + intros i Hi Hin. rewrite nth_upd_other by lia. now apply Hb.
      + intros i Hi.
        destruct (Nat.eq_dec i k) as [->|Hne].
        * rewrite nth_upd_same by lia. reflexivity.
        * rewrite nth_upd_other by lia. apply Hh; lia. }
  destruct H2 as (Hl2 & Hb2 & Hh2).
  split; [assumption|].
  intros i Hi.
  destruct (Nat.ltb_spec i (4 * BIGLEN)) as [Hlt|Hge].
  - now apply Hb2.
  - apply Hh2. lia.
Qed.

Lemma land_low_high (a b k : Z) :
  0 <= k -> 0 <= a < 2 ^ k -> 0 <= b -> Z.land a (b * 2 ^ k) = 0.
Proof.
  intros Hk Ha Hb. apply Z.bits_inj'. intros i Hi.
  rewrite Z.land_spec, Z.bits_0.
  destruct (Z_lt_le_dec i k) as [Hlt|Hge].
  - rewrite Z.mul_pow2_bits_low by lia. apply andb_false_r.
  - destruct (Z.eq_dec a 0) as [->|Hnz]; [now rewrite Z.bits_0|].
    rewrite (Z.bits_above_log2 a i); [reflexivity|lia|].
    apply Z.lt_le_trans with k; [|assumption].
    apply Z.log2_lt_pow2; lia.
Qed.

(** Putting byte [r] of a word on top of its [r] low bytes. *)
Lemma word_add_byte (x : Z) (r : Z) :
  0 <= x < 2 ^ 32 -> 0 <= r <= 3 ->
  Z.lor (x mod 2 ^ (8 * r)) (u32 (Z.shiftl (u8 (Z.shiftr x (8 * r))) (8 * r)))
  = x mod 2 ^ (8 * (r + 1)).
Proof.
  intros Hx Hr.
  rewrite Z.shiftl_mul_pow2, Z.shiftr_div_pow2 by lia.
  unfold u8.
  assert (Hp : 0 < 2 ^ (8 * r)) by (apply Z.pow_pos_nonneg; lia).
  pose proof (Z.mod_pos_bound x (2 ^ (8 * r)) Hp) as Hlow.
  pose proof (Z.mod_pos_bound (x / 2 ^ (8 * r)) (2 ^ 8) ltac:(lia)) as Hbyte.
  assert (Hle : 2 ^ (8 * r) <= 2 ^ 24) by (apply Z.pow_le_mono_r; lia).
  rewrite u32_small by nia.
  rewrite <- Z.lxor_lor, <- Z.add_nocarry_lxor
    by (apply land_low_high; lia).
  replace (8 * (r + 1)) with (8 * r + 8) by lia.
  rewrite Z.pow_add_r by lia.
  rewrite Z.rem_mul_r by lia. lia.
Qed.

Lemma bytes_kept_step (i k : nat) :
  bytes_kept (S i) k
  = if Nat.eqb k (i / 4) then bytes_kept i k + 1 else bytes_kept i k.
Proof.
  unfold bytes_kept.
  pose proof (Nat.div_mod i 4 ltac:(lia)) as Hdm.
  pose proof (Nat.mod_upper_bound i 4 ltac:(lia)) as Hmb.
  destruct (Nat.eqb_spec k (i / 4)) as [->|Hne]; lia.
Qed.

Lemma bytes_kept_at (i : nat) : bytes_kept i (i / 4) = Z.of_nat (i mod 4).
Proof.
  unfold bytes_kept.
  pose proof (Nat.div_mod i 4 ltac:(lia)) as Hdm.
  pose proof (Nat.mod_upper_bound i 4 ltac:(lia)) as Hmb.
  lia.
Qed.

(** What [binary_to_bigval] builds from bytes that are the low bytes of [x]. *)
Lemma binary_to_bigval_words (x : bigval_t) (src : list Z) (tgt : bigval_t)
    (n : nat) :
  wf_bigval x -> length (data tgt) = BIGLEN ->
  (forall i, (i < n)%nat -> (i < 4 * BIGLEN)%nat ->
     nth (n - 1 - i) src 0 = bigval_byte x i) ->
  length (data (binary_to_bigval src tgt n)) = BIGLEN /\
  forall k, (k < BIGLEN)%nat ->
    word (binary_to_bigval src tgt n) k
    = word x k mod 2 ^ (8 * bytes_kept (Nat.min n (4 * BIGLEN)) k).
Proof.
  intros Hx Htgt Hsrc. unfold binary_to_bigval, word at 1. cbn [data].
  (* zeroing *)
  assert (H0 : length (for_range 0 BIGLEN (fun i t => upd t i 0) (data tgt)) = BIGLEN /\
               forall k, (k < BIGLEN)%nat ->
                 nth k (for_range 0 BIGLEN (fun i t => upd t i 0) (data tgt)) 0 = 0).
  { change BIGLEN with (0 + BIGLEN)%nat at 2 4.
    apply (for_range_ind (fun j t => length t = BIGLEN /\
             forall k, (k < j)%nat -> nth k t 0 = 0)).
    - split; [assumption|]. intros; lia.
    - intros j t Hj [Hl Hz]. split; [now rewrite length_upd|].
      intros k Hk. destruct (Nat.eq_dec k j) as [->|Hne].
      + apply nth_upd_same. lia.
      + rewrite nth_upd_other by lia. apply Hz. lia. }
  destruct H0 as [Hl0 Hz0].
  set (t0 := for_range 0 BIGLEN (fun i t => upd t i 0) (data tgt)) in *.
  clearbody t0.
  set (m := Nat.min n (4 * BIGLEN)).
  change m with (0 + m)%nat at 1 2.
  apply (for_range_ind (fun i t => length t = BIGLEN /\
           forall k, (k < BIGLEN)%nat ->
             nth k t 0 = word x k mod 2 ^ (8 * bytes_kept i k))).
  - split; [assumption|]. intros k Hk.
    rewrite Hz0 by assumption.
    replace (bytes_kept 0 k) with 0 by (unfold bytes_kept; lia).
    change (2 ^ (8 * 0)) with 1. now rewrite Z.mod_1_r.
  - intros i t Hi [Hl Hw].
    assert (Him : (i < n)%nat /\ (i < 4 * BIGLEN)%nat) by (unfold m in Hi; lia).
    assert (Hk0 : (i / 4 < BIGLEN)%nat).
    { apply Nat.Div0.div_lt_upper_bound. unfold BIGLEN in *. lia. }
    split; [now rewrite length_upd|].
    intros k Hk. rewrite bytes_kept_step.
    destruct (Nat.eqb_spec k (i / 4)) as [->|Hne].
    + rewrite nth_upd_same by lia.
      rewrite Hw by assumption. rewrite Hsrc by lia.
      rewrite bytes_kept_at. unfold bigval_byte.
      apply word_add_byte; [now apply word_range|].
      pose proof (Nat.mod_upper_bound i 4 ltac:(lia)). lia.
    + rewrite nth_upd_other by lia. now apply Hw.
Qed.

(** ** The rule table *)

Lemma RulesForEndpoint_In (tbl : RuleTable.t) (endpoint : RuleTable.BusEndpoint)
    (r : RuleTable.Rule) :
  In r (RuleTable.RulesForEndpoint tbl endpoint)
  <-> In (endpoint, r) (RuleTable.rules tbl).
Proof.
  unfold RuleTable.RulesForEndpoint. rewrite in_map_iff. split.
  - intros [[e r'] [Hr Hin]]. cbn [snd] in Hr. subst r'.
    apply filter_In in Hin. destruct Hin as [Hin He]. cbn [fst] in He.
    apply String.eqb_eq in He. now subst e.
  - intros Hin. exists (endpoint, r). split; [reflexivity|].
    apply filter_In. split; [assumption|]. cbn [fst]. apply String.eqb_refl.
Qed.

Lemma RemoveAllRules_none (tbl : RuleTable.t) (endpoint : RuleTable.BusEndpoint) :
  RuleTable.RulesForEndpoint (fst (RuleTable.RemoveAllRules tbl endpoint)) endpoint
  = [].
Proof.
  unfold RuleTable.RemoveAllRules, RuleTable.RulesForEndpoint. cbn [fst RuleTable.rules].
  induction (RuleTable.rules tbl) as [|[e r] l IH]; [reflexivity|].
  cbn [filter fst]. destruct (String.eqb e endpoint) eqn:E; cbn [negb].
  - exact IH.
  - cbn [filter fst]. rewrite E. exact IH.
Qed.

(* ===================================================================== *)
(** * Part III: the properties the specification states                    *)
(* ===================================================================== *)

Lemma wf_sample_negative : wf_bigval sample_negative.
Proof. split; [reflexivity|]. repeat constructor; cbv; intuition discriminate. Qed.

Lemma wf_sample_large : wf_bigval sample_large.
Proof. split; [reflexivity|]. repeat constructor; cbv; intuition discriminate. Qed.

(** Claim C4.  For every representable input [a] and each supported modulus
    (the curve modulus and the order of the curve), [big_precise_reduce]
    terminates, its three loops ending within any fuel of at least 3, and
    returns a value that is congruent to [a] modulo the modulus and lies in
    the canonical range from 0 up to the modulus. *)
Theorem big_precise_reduce_canonical (a : bigval_t) (m : modulus_ref)
    (fuel : nat) :
  wf_bigval a -> supported m -> (3 <= fuel)%nat ->
  exists r,
    big_precise_reduce fuel a m = Some r /\ wf_bigval r /\
    0 <= sval r < sval (deref m) /\
    cong (sval (deref m)) (sval r) (sval a).
Proof.
  intros Ha Hm Hf.
  pose proof (supported_ok m Hm) as Hok.
  destruct (big_precise_reduce_ok m a fuel Hok Ha Hf) as (r & Hr & Hwf & Hv).
  exists r. split; [assumption|]. split; [assumption|].
  destruct Hok as [_ HM].
  rewrite Hv. split.
  - apply Z.mod_pos_bound. lia.
  - unfold cong. apply Z.mod_mod. lia.
Qed.

Lemma big_precise_reduce_canonical_witness :
  wf_bigval sample_negative /\ supported REF_orderP /\ (3 <= 3)%nat /\
  exists r,
    big_precise_reduce 3 sample_negative REF_orderP = Some r /\ wf_bigval r /\
    0 <= sval r < sval (deref REF_orderP) /\
    cong (sval (deref REF_orderP)) (sval r) (sval sample_negative).
Proof.
  split; [exact wf_sample_negative|].
  split; [right; reflexivity|].
  split; [apply Nat.le_refl|].
  apply (big_precise_reduce_canonical sample_negative REF_orderP 3).
  - exact wf_sample_negative.
  - right; reflexivity.
  - apply Nat.le_refl.
Defined.

(** Claim C1.  For every pair of representable nine-word values [a] and [b],
    [big_mpyP] in the curve-modulus mode followed by [big_precise_reduce] with
    the curve modulus returns exactly the product of the two numbers, taken
    over the integers, reduced modulo the curve modulus; this holds for the
    general loop and for the squaring loop the source takes when [a] and [b]
    are the same object.  When [a] or [b] is zero the product [big_mpyP]
    returns is zero. *)
Theorem big_mpyP_precise_reduce (a b : bigval_t) (same : bool) (fuel : nat) :
  wf_bigval a -> wf_bigval b -> (same = true -> a = b) -> (3 <= fuel)%nat ->
  exists r,
    big_precise_reduce fuel (big_mpyP a b same MOD_MODULUS) REF_modulusP = Some r /\
    wf_bigval r /\
    sval r = (sval a * sval b) mod p256 /\
    (sval a = 0 \/ sval b = 0 -> big_mpyP a b same MOD_MODULUS = big_zero).
Proof.
  intros Ha Hb Hsame Hf.
  destruct (big_mpyP_sval a b same Ha Hb Hsame) as (Hwf & Heq & _).
  assert (Hok : modulus_ok REF_modulusP) by (apply supported_ok; now left).
  destruct (big_precise_reduce_ok REF_modulusP _ fuel Hok Hwf Hf)
    as (r & Hr & Hwr & Hv).
  exists r. split; [assumption|]. split; [assumption|].
  split.
  - rewrite Hv. cbn [deref]. rewrite sval_modulusP. exact Heq.
  - intros Hz. unfold big_mpyP.
    rewrite !big_is_zero_spec by assumption.
    destruct Hz as [-> | ->]; cbn [Z.eqb orb]; [reflexivity|].
    now rewrite orb_true_r.
Qed.

Lemma big_mpyP_precise_reduce_witness :
  wf_bigval sample_negative /\ wf_bigval sample_large /\
  exists r,
    big_precise_reduce 3 (big_mpyP sample_negative sample_large false MOD_MODULUS)
      REF_modulusP = Some r /\
    wf_bigval r /\
    sval r = (sval sample_negative * sval sample_large) mod p256 /\
    (sval sample_negative = 0 \/ sval sample_large = 0 ->
     big_mpyP sample_negative sample_large false MOD_MODULUS = big_zero).
Proof.
  split; [exact wf_sample_negative|].
  split; [exact wf_sample_large|].
  apply (big_mpyP_precise_reduce sample_negative sample_large false 3).
  - exact wf_sample_negative.
  - exact wf_sample_large.
  - discriminate.
  - apply Nat.le_refl.
Defined.

Lemma bytes_kept_min (n k : nat) :
  (k < BIGLEN)%nat -> bytes_kept (Nat.min n (4 * BIGLEN)) k = bytes_kept n k.
Proof. unfold bytes_kept, BIGLEN. lia. Qed.

Lemma bigval_ext (a b : bigval_t) :
  length (data a) = BIGLEN -> length (data b) = BIGLEN ->
  (forall k, (k < BIGLEN)%nat -> word a k = word b k) -> a = b.
Proof.
  destruct a as [la], b as [lb]. unfold word. cbn [data]. intros Ha Hb H.
  f_equal. apply nth_ext with 0 0; [congruence|].
  intros k Hk. apply H. lia.
Qed.

Lemma truncate_bytes_word (x : bigval_t) (n k : nat) :
  (k < BIGLEN)%nat ->
  word (truncate_bytes x n) k = word x k mod 2 ^ (8 * bytes_kept n k).
Proof.
  intros Hk. unfold truncate_bytes, word at 1. cbn [data].
  unfold BIGLEN in *.
  do 9 (destruct k as [|k]; [reflexivity|]). lia.
Qed.

Lemma truncate_bytes_all (x : bigval_t) (n : nat) :
  wf_bigval x -> (4 * BIGLEN <= n)%nat -> truncate_bytes x n = x.
Proof.
  intros Hx Hn. apply bigval_ext.
  - reflexivity.
  - apply Hx.
  - intros k Hk. rewrite truncate_bytes_word by assumption.
    replace (bytes_kept n k) with 4 by (unfold bytes_kept, BIGLEN in *; lia).
    apply Z.mod_small. now apply word_range.
Qed.

(** Claim C9.  For every representable big number [x] and every byte length
    [n], writing [x] with [bigval_to_binary] into a buffer of [n] bytes and
    reading those [n] bytes back with [binary_to_bigval] gives exactly [x]
    truncated to [n] bytes: word by word, the low [n] bytes of [x], the rest
    zero.  When [n] is at least the 36 bytes of a big number the result is
    [x] itself, the bytes written beyond the 36th being the sign extension
    ([0xff] for a negative [x], [0] otherwise). *)
Theorem binary_roundtrip (x : bigval_t) (buf : list Z) (tgt : bigval_t) (n : nat) :
  wf_bigval x -> length buf = n -> length (data tgt) = BIGLEN ->
  binary_to_bigval (bigval_to_binary x buf n) tgt n = truncate_bytes x n /\
  ((4 * BIGLEN <= n)%nat ->
   binary_to_bigval (bigval_to_binary x buf n) tgt n = x) /\
  (forall i, (4 * BIGLEN <= i < n)%nat ->
     nth (n - 1 - i) (bigval_to_binary x buf n) 0
     = if big_is_negative x then 0xff else 0).
Proof.
  intros Hx Hbuf Htgt.
  destruct (bigval_to_binary_bytes x buf n Hbuf) as [Hlen Hbytes].
  assert (Hlow : forall i, (i < n)%nat -> (i < 4 * BIGLEN)%nat ->
            nth (n - 1 - i) (bigval_to_binary x buf n) 0 = bigval_byte x i).
  { intros i Hi Hi'. rewrite Hbytes by assumption.
    destruct (Nat.ltb_spec i (4 * BIGLEN)); [reflexivity|lia]. }
  destruct (binary_to_bigval_words x _ tgt n Hx Htgt Hlow) as [Hl Hw].
  assert (Heq : binary_to_bigval (bigval_to_binary x buf n) tgt n
                = truncate_bytes x n).
  { apply bigval_ext; [assumption|reflexivity|].
    intros k Hk. rewrite Hw, truncate_bytes_word, bytes_kept_min by assumption.
    reflexivity. }
  split; [exact Heq|]. split.
  - intros Hn. rewrite Heq. now apply truncate_bytes_all.
  - intros i Hi. rewrite Hbytes by lia.
    destruct (Nat.ltb_spec i (4 * BIGLEN)); [lia|reflexivity].
Qed.

Lemma binary_roundtrip_witness :
  wf_bigval sample_negative /\
  binary_to_bigval (bigval_to_binary sample_negative (repeat 0 5) 5) big_zero 5
  = truncate_bytes sample_negative 5.
Proof.
  split; [exact wf_sample_negative|].
  apply (binary_roundtrip sample_negative (repeat 0 5) big_zero 5).
  - exact wf_sample_negative.
  - reflexivity.
  - reflexivity.
Defined.

(** Claim C10.  For every 256-bit field element [d] in the [digit256_t]
    representation, on either kind of target, converting with
    [digit256_to_bigval] and back with [bigval_to_digit256] succeeds and gives
    [d] again; [digit256_to_bigval] zeroes the ninth word, so its result is
    not negative.  [bigval_to_digit256] returns [false] (here [None]) for
    every negative [bigval_t]. *)
Theorem digit256_bigval_roundtrip (e : endian) (d : digit256_t)
    (dst src : bigval_t) :
  wf_digit256 d -> length (data dst) = BIGLEN ->
  bigval_to_digit256 e (digit256_to_bigval e d dst) = Some d /\
  word (digit256_to_bigval e d dst) MSW = 0 /\
  big_is_negative (digit256_to_bigval e d dst) = false /\
  (big_is_negative src = true -> bigval_to_digit256 e src = None).
Proof.
  intros Hd Hdst.
  split; [now apply digit256_roundtrip|].
  pose proof (digit256_to_bigval_top e d dst Hd Hdst) as Htop.
  split; [exact Htop|]. split.
  - unfold big_is_negative. now rewrite Htop.
  - intros Hneg. unfold bigval_to_digit256. now rewrite Hneg.
Qed.

Lemma digit256_bigval_roundtrip_witness :
  wf_digit256 sample_digits /\
  bigval_to_digit256 QCC_BIG_ENDIAN
    (digit256_to_bigval QCC_BIG_ENDIAN sample_digits sample_large)
  = Some sample_digits /\
  bigval_to_digit256 QCC_BIG_ENDIAN sample_negative = None.
Proof.
  assert (Hwf : wf_digit256 sample_digits).
  { split; [reflexivity|]. repeat constructor; cbv; intuition discriminate. }
  split; [exact Hwf|].
  destruct (digit256_bigval_roundtrip QCC_BIG_ENDIAN sample_digits sample_large
              sample_negative Hwf eq_refl) as (H1 & _ & _ & H4).
  split; [exact H1|]. apply H4. reflexivity.
Defined.

(** Claim C8.  For every state of the rule table, every message and every
    endpoint, [OkToSend] returns [true] if and only if at least one rule
    registered for that endpoint matches the message.  It returns [false]
    when no rule is registered for the endpoint, and after
    [RemoveAllRules] for the endpoint it returns [false] for every message. *)
Theorem OkToSend_iff_some_rule_matches (tbl : RuleTable.t)
    (msg : RuleTable.Message) (endpoint : RuleTable.BusEndpoint) :
  (RuleTable.OkToSend tbl msg endpoint = true <->
   exists r, In (endpoint, r) (RuleTable.rules tbl) /\
             RuleTable.IsMatch r msg = true) /\
  (RuleTable.RulesForEndpoint tbl endpoint = [] ->
   RuleTable.OkToSend tbl msg endpoint = false) /\
  RuleTable.OkToSend (fst (RuleTable.RemoveAllRules tbl endpoint)) msg endpoint
  = false.
Proof.
  split; [|split].
  - unfold RuleTable.OkToSend. rewrite existsb_exists. split.
    + intros [r [Hin Hm]]. exists r. split; [|assumption].
      now apply RulesForEndpoint_In.
    + intros [r [Hin Hm]]. exists r. split; [|assumption].
      now apply RulesForEndpoint_In.
  - intros Hnone. unfold RuleTable.OkToSend. now rewrite Hnone.
  - unfold RuleTable.OkToSend. now rewrite RemoveAllRules_none.
Qed.

(** ** Point operations keep the Z coordinate precisely reduced *)

Lemma wf_big_addP (a b : bigval_t) :
  wf_bigval a -> wf_bigval b -> wf_bigval (big_addP a b).
Proof.
  intros Ha Hb. unfold big_addP.
  apply big_approx_reduceP_sval. now apply wf_big_add.
Qed.

Lemma wf_big_subP (a b : bigval_t) :
  wf_bigval a -> wf_bigval b -> wf_bigval (big_subP a b).
Proof.
  intros Ha Hb. unfold big_subP.
  apply big_approx_reduceP_sval. now apply wf_big_sub.
Qed.

Lemma wf_big_mpyP (a b : bigval_t) :
  wf_bigval a -> wf_bigval b -> wf_bigval (big_mpyP a b false MOD_MODULUS).
Proof.
  intros Ha Hb. apply big_mpyP_sval; [assumption|assumption|discriminate].
Qed.

Lemma wf_big_sqrP (a : bigval_t) : wf_bigval a -> wf_bigval (big_sqrP a).
Proof.
  intros Ha. unfold big_sqrP. apply big_mpyP_sval; [assumption|assumption|reflexivity].
Qed.

Lemma wf_big_adjustP (a : bigval_t) (k : Z) :
  wf_bigval a -> - 2 ^ 62 <= k <= 2 ^ 62 -> wf_bigval (big_adjustP a k).
Proof. intros Ha Hk. now apply big_adjustP_uval. Qed.

Lemma wf_big_halveP (a : bigval_t) : wf_bigval a -> wf_bigval (big_halveP a).
Proof.
  intros Ha. unfold big_halveP.
  destruct (negb _).
  - apply big_halve_sval. apply wf_big_adjustP; [assumption|lia].
  - now apply big_halve_sval.
Qed.

Lemma wf_jacobian_infinity : wf_jacobian jacobian_infinity.
Proof.
  split; [exact wf_big_one|]. split; [exact wf_big_one|exact wf_big_zero].
Qed.

Lemma precise_Z_infinity : precise_Z jacobian_infinity.
Proof.
  unfold precise_Z, jacobian_infinity. cbn [JZ]. rewrite sval_big_zero.
  unfold p256. lia.
Qed.

Lemma wf_toJacobian (Q : affine_point_t) :
  wf_affine Q -> wf_jacobian (toJacobian Q).
Proof.
  intros [Hx Hy]. split; [exact Hx|]. split; [exact Hy|exact wf_big_one].
Qed.

Lemma precise_Z_toJacobian (Q : affine_point_t) : precise_Z (toJacobian Q).
Proof.
  unfold precise_Z, toJacobian. cbn [JZ]. rewrite sval_big_one.
  unfold p256. lia.
Qed.

Lemma precise_reduce_modulusP (a : bigval_t) (fuel : nat) :
  wf_bigval a -> (3 <= fuel)%nat ->
  exists r, big_precise_reduce fuel a REF_modulusP = Some r /\
            wf_bigval r /\ sval r = sval a mod p256 /\ 0 <= sval r < p256.
Proof.
  intros Ha Hf.
  assert (Hok : modulus_ok REF_modulusP) by (apply supported_ok; now left).
  destruct (big_precise_reduce_ok REF_modulusP a fuel Hok Ha Hf)
    as (r & Hr & Hwf & Hv).
  cbn [deref] in Hv. rewrite sval_modulusP in Hv.
  exists r. repeat (split; [assumption|]).
  rewrite Hv. apply Z.mod_pos_bound. unfold p256. lia.
Qed.

Ltac wf_arith :=
  repeat lazymatch goal with
    | |- wf_bigval big_one => exact wf_big_one
    | |- wf_bigval big_zero => exact wf_big_zero
    | |- wf_bigval (big_subP _ _) => apply wf_big_subP
    | |- wf_bigval (big_addP _ _) => apply wf_big_addP
    | |- wf_bigval (big_mpyP _ _ false MOD_MODULUS) => apply wf_big_mpyP
    | |- wf_bigval (big_sqrP _) => apply wf_big_sqrP
    | |- wf_bigval (big_triple _) => apply wf_big_triple
    | |- wf_bigval (big_halveP _) => apply wf_big_halveP
    | |- wf_bigval _ => assumption
    end.

Lemma pointDouble_precise_Z (fuel : nat) (P : jacobian_point_t) :
  (3 <= fuel)%nat -> wf_jacobian P ->
  exists R, pointDouble fuel P = Some R /\ wf_jacobian R /\ precise_Z R.
Proof.
  intros Hf (HX & HY & HZ). unfold pointDouble.
  destruct (jacobian_point_is_infinity P).
  - exists jacobian_infinity.
    split; [reflexivity|]. split; [exact wf_jacobian_infinity|exact precise_Z_infinity].
  - cbv zeta.
    set (z3 := big_mpyP (big_addP (JY P) (JY P)) (JZ P) false MOD_MODULUS).
    assert (Hz3 : wf_bigval z3) by (subst z3; wf_arith).
    destruct (precise_reduce_modulusP z3 fuel Hz3 Hf) as (r & -> & Hwr & _ & Hr).
    eexists. split; [reflexivity|]. split; [|exact Hr].
    split; [|split]; cbn [JX JY JZ]; wf_arith.
Qed.

Lemma pointAdd_precise_Z (fuel : nat) (P : jacobian_point_t)
    (Q : affine_point_t) :
  (3 <= fuel)%nat -> wf_jacobian P -> wf_affine Q ->
  exists R, pointAdd fuel P Q = Some R /\ wf_jacobian R /\
            (infinity Q = false \/ precise_Z P -> precise_Z R).
Proof.
  intros Hf HP HQ. pose proof HP as (HX & HY & HZ). pose proof HQ as (Hx & Hy).
  unfold pointAdd.
  destruct (infinity Q) eqn:Hinf.
  { exists P. split; [reflexivity|]. split; [assumption|].
    intros [H|H]; [discriminate|assumption]. }
  destruct (jacobian_point_is_infinity P).
  { exists (toJacobian Q). split; [reflexivity|].
    split; [now apply wf_toJacobian|]. intros _. apply precise_Z_toJacobian. }
  cbv zeta.
  match goal with
  | |- context [big_precise_reduce fuel ?t REF_modulusP] =>
      let H := fresh in
      assert (H : wf_bigval t) by wf_arith;
      destruct (precise_reduce_modulusP t fuel H Hf) as (t1 & -> & Ht1 & _ & _)
  end.
  destruct (big_is_zero t1).
  - match goal with
    | |- context [big_precise_reduce fuel ?t REF_modulusP] =>
        let H := fresh in
        assert (H : wf_bigval t) by wf_arith;
        destruct (precise_reduce_modulusP t fuel H Hf) as (t2 & -> & Ht2 & _ & _)
    end.
    destruct (big_is_zero t2).
    + destruct (pointDouble_precise_Z fuel (toJacobian Q) Hf (wf_toJacobian Q HQ))
        as (R & HR & Hwf & Hpz).
      exists R. split; [assumption|]. split; [assumption|]. intros _. assumption.
    + exists jacobian_infinity. split; [reflexivity|].
      split; [exact wf_jacobian_infinity|]. intros _. exact precise_Z_infinity.
  - match goal with
    | |- context [big_precise_reduce fuel ?t REF_modulusP] =>
        let H := fresh in
        assert (H : wf_bigval t) by wf_arith;
        destruct (precise_reduce_modulusP t fuel H Hf) as (z3 & -> & Hz3 & _ & Hr)
    end.
    eexists. split; [reflexivity|]. split; [|intros _; exact Hr].
    split; [|split]; cbn [JX JY JZ]; wf_arith.
Qed.

Lemma apply_ops_precise_Z (fuel : nat) (ops : list point_op) :
  (3 <= fuel)%nat -> Forall wf_point_op ops ->
  forall P, wf_jacobian P -> precise_Z P ->
  exists R, apply_ops fuel ops P = Some R /\ wf_jacobian R /\ precise_Z R.
Proof.
  intros Hf Hops. induction Hops as [|o ops Ho _ IH]; intros P HP HZ.
  - exists P. split; [reflexivity|]. split; assumption.
  - cbn [apply_ops].
    assert (Hstep : exists P', apply_op fuel P o = Some P' /\ wf_jacobian P' /\
                               precise_Z P').
    { destruct o as [|Q]; cbn [apply_op].
      - now apply pointDouble_precise_Z.
      - destruct (pointAdd_precise_Z fuel P Q Hf HP Ho) as (R & HR & Hwf & Hpz).
        exists R. split; [assumption|]. split; [assumption|].
        apply Hpz. now right. }
    destruct Hstep as (P' & -> & HP' & HZ'). now apply IH.
Qed.

Lemma wf_base_point : wf_affine base_point.
Proof.
  split; (split; [reflexivity|]); repeat constructor; cbv; intuition discriminate.
Qed.

(** Claim C6.  [pointDouble] always returns a Jacobian point whose Z
    coordinate is precisely reduced (at least 0, below the curve modulus),
    and so does [pointAdd] in its general branch, its doubling branch and
    every other branch that computes a point; in the one branch that returns
    [P] unchanged (Q the infinity point) the Z coordinate is as precise as
    that of [P].  Hence along any chain of doublings and additions that
    starts from a point with a precisely reduced Z every operation finds the
    precondition on its input Z established and the chain ends with a
    precisely reduced Z.  Each of the operations returns: the loops of the
    precise reductions end within any fuel of at least 3. *)
Theorem point_operations_keep_Z_precise (fuel : nat) (P : jacobian_point_t)
    (Q : affine_point_t) (ops : list point_op) :
  (3 <= fuel)%nat -> wf_jacobian P -> wf_affine Q -> Forall wf_point_op ops ->
  (exists R, pointDouble fuel P = Some R /\ wf_jacobian R /\ precise_Z R) /\
  (exists R, pointAdd fuel P Q = Some R /\ wf_jacobian R /\
             (infinity Q = false \/ precise_Z P -> precise_Z R)) /\
  (precise_Z P ->
   exists R, apply_ops fuel ops P = Some R /\ wf_jacobian R /\ precise_Z R).
Proof.
  intros Hf HP HQ Hops.
  split; [now apply pointDouble_precise_Z|].
  split; [now apply pointAdd_precise_Z|].
  intros HZ. now apply apply_ops_precise_Z.
Qed.

Lemma point_operations_keep_Z_precise_witness :
  wf_jacobian (toJacobian base_point) /\ wf_affine base_point /\
  Forall wf_point_op [op_double; op_double; op_add base_point] /\
  exists R,
    apply_ops 3 [op_double; op_double; op_add base_point]
      (toJacobian base_point) = Some R /\
    wf_jacobian R /\ precise_Z R.
Proof.
  assert (Hops : Forall wf_point_op [op_double; op_double; op_add base_point]).
  { constructor; [exact I|]. constructor; [exact I|].
    constructor; [exact wf_base_point|constructor]. }
  split; [apply wf_toJacobian, wf_base_point|].
  split; [exact wf_base_point|].
  split; [exact Hops|].
  apply (point_operations_keep_Z_precise 3 (toJacobian base_point) base_point
           [op_double; op_double; op_add base_point]).
  - apply Nat.le_refl.
  - apply wf_toJacobian, wf_base_point.
  - exact wf_base_point.
  - exact Hops.
  - apply precise_Z_toJacobian.
Defined.

(** ** Arithmetic modulo the curve modulus *)

Lemma p256_pos : 0 < p256.
Proof. unfold p256. lia. Qed.

Lemma p256_neq0 : p256 <> 0.
Proof. pose proof p256_pos. lia. Qed.

#[global] Instance eqp_Equivalence : Equivalence eqp.
Proof.
  unfold eqp. split.
  - intros a. reflexivity.
  - intros a b H. now symmetry.
  - intros a b c H1 H2. now rewrite H1.
Qed.

#[global] Instance eqp_add : Proper (eqp ==> eqp ==> eqp) Z.add.
Proof.
  intros a a' Ha b b' Hb. unfold eqp in *.
  rewrite (Z.add_mod a b), (Z.add_mod a' b') by exact p256_neq0.
  now rewrite Ha, Hb.
Qed.

#[global] Instance eqp_mul : Proper (eqp ==> eqp ==> eqp) Z.mul.
Proof.
  intros a a' Ha b b' Hb. unfold eqp in *.
  rewrite (Z.mul_mod a b), (Z.mul_mod a' b') by exact p256_neq0.
  now rewrite Ha, Hb.
Qed.

#[global] Instance eqp_opp : Proper (eqp ==> eqp) Z.opp.
Proof.
  intros a a' Ha.
  replace (- a) with (-1 * a) by lia. replace (- a') with (-1 * a') by lia.
  now apply eqp_mul.
Qed.

#[global] Instance eqp_sub : Proper (eqp ==> eqp ==> eqp) Z.sub.
Proof.
  intros a a' Ha b b' Hb. unfold Z.sub.
  apply eqp_add; [assumption|]. now apply eqp_opp.
Qed.

Lemma eqp_of_eq (a b : Z) : a = b -> eqp a b.
Proof. intros ->. reflexivity. Qed.

Lemma eqp_mod (a : Z) : eqp (a mod p256) a.
Proof. unfold eqp. apply Z.mod_mod. exact p256_neq0. Qed.

Lemma eqp_zero_iff (a b : Z) : eqp a b <-> (a - b) mod p256 = 0.
Proof.
  unfold eqp. pose proof p256_pos as Hp. split; intros H.
  - rewrite Zminus_mod, H, Z.sub_diag. apply Z.mod_0_l. lia.
  - replace a with ((a - b) + b) by lia.
    rewrite Z.add_mod, H by lia. cbn [Z.add].
    apply Z.mod_mod. lia.
Qed.

(** The operations of the field layer, on values. *)
Lemma big_mpyP_eqp (a b : bigval_t) :
  wf_bigval a -> wf_bigval b ->
  wf_bigval (big_mpyP a b false MOD_MODULUS) /\
  eqp (sval (big_mpyP a b false MOD_MODULUS)) (sval a * sval b) /\
  approx_range (sval (big_mpyP a b false MOD_MODULUS)).
Proof. intros Ha Hb. apply big_mpyP_sval; [assumption|assumption|discriminate]. Qed.

Lemma big_sqrP_eqp (a : bigval_t) :
  wf_bigval a ->
  wf_bigval (big_sqrP a) /\
  eqp (sval (big_sqrP a)) (sval a * sval a) /\
  approx_range (sval (big_sqrP a)).
Proof. intros Ha. unfold big_sqrP. apply big_mpyP_sval; [assumption|assumption|reflexivity]. Qed.

Lemma approx_coord_range (v : Z) : approx_range v -> coord_range v.
Proof. unfold approx_range, coord_range. lia. Qed.

Lemma coord_sub_range (v : Z) : coord_range v -> sub_range v.
Proof. unfold coord_range, sub_range. lia. Qed.

(** With X and Y of [P] in [sub_range] the differences of [pointAdd] fit. *)
Lemma sub_range_add_fits (P : jacobian_point_t) (Q : affine_point_t) :
  wf_jacobian P -> wf_affine Q ->
  sub_range (sval (JX P)) -> sub_range (sval (JY P)) -> add_fits P Q.
Proof.
  intros (HX & HY & HZ) (Hx & Hy) RX RY.
  pose proof (big_sqrP_eqp (JZ P) HZ) as (Wa & _ & _).
  pose proof (big_mpyP_eqp (big_sqrP (JZ P)) (JZ P) Wa HZ) as (Wb & _ & _).
  pose proof (big_mpyP_eqp (big_sqrP (JZ P)) (ax Q) Wa Hx) as (_ & _ & Rc).
  pose proof (big_mpyP_eqp _ (ay Q) Wb Hy) as (_ & _ & Rd).
  unfold add_fits, sub_fits, add_U2, add_S2.
  unfold approx_range, sub_range in *. lia.
Qed.

Lemma big_subP_eqp (a b : bigval_t) :
  wf_bigval a -> wf_bigval b -> coord_range (sval a) -> coord_range (sval b) ->
  wf_bigval (big_subP a b) /\
  eqp (sval (big_subP a b)) (sval a - sval b) /\
  approx_range (sval (big_subP a b)).
Proof.
  intros Ha Hb Ra Rb. apply big_subP_sval; [assumption|assumption|].
  unfold coord_range in *. lia.
Qed.

Lemma big_addP_eqp (a b : bigval_t) :
  wf_bigval a -> wf_bigval b -> coord_range (sval a) -> coord_range (sval b) ->
  wf_bigval (big_addP a b) /\
  eqp (sval (big_addP a b)) (sval a + sval b) /\
  approx_range (sval (big_addP a b)).
Proof.
  intros Ha Hb Ra Rb. apply big_addP_sval; [assumption|assumption|].
  unfold coord_range in *. lia.
Qed.

Lemma precise_reduce_eqp (a : bigval_t) (fuel : nat) :
  wf_bigval a -> (3 <= fuel)%nat ->
  exists r, big_precise_reduce fuel a REF_modulusP = Some r /\
            wf_bigval r /\ eqp (sval r) (sval a) /\ 0 <= sval r < p256 /\
            big_is_zero r = (sval a mod p256 =? 0).
Proof.
  intros Ha Hf.
  destruct (precise_reduce_modulusP a fuel Ha Hf) as (r & Hr & Hwf & Hv & Hrange).
  exists r. repeat (split; [assumption|]).
  split; [rewrite Hv; apply eqp_mod|]. split; [assumption|].
  rewrite big_is_zero_spec by assumption. now rewrite Hv.
Qed.

(** ** The cases of [pointAdd] *)

Lemma eqp_mod_zero (a b : Z) : eqp a b -> (a mod p256 =? 0) = (b mod p256 =? 0).
Proof. unfold eqp. now intros ->. Qed.

Lemma pointAdd_cases (fuel : nat) (P : jacobian_point_t) (Q : affine_point_t) :
  (3 <= fuel)%nat -> wf_jacobian P -> wf_affine Q -> add_fits P Q ->
  infinity Q = false -> sval (JZ P) <> 0 ->
  (eqp (add_H P Q) 0 -> eqp (add_R P Q) 0 ->
   pointAdd fuel P Q = pointDouble fuel (toJacobian Q)) /\
  (eqp (add_H P Q) 0 -> ~ eqp (add_R P Q) 0 ->
   pointAdd fuel P Q = Some jacobian_infinity) /\
  (~ eqp (add_H P Q) 0 ->
   exists R, pointAdd fuel P Q = Some R /\ wf_jacobian R /\
     sval (JZ R) = (sval (JZ P) * add_H P Q) mod p256 /\
     eqp (sval (JX R))
         (add_R P Q ^ 2 - add_H P Q ^ 3 - 2 * sval (JX P) * add_H P Q ^ 2) /\
     eqp (sval (JY R))
         (add_R P Q * (sval (JX P) * add_H P Q ^ 2 - sval (JX R))
          - sval (JY P) * add_H P Q ^ 3) /\
     approx_range (sval (JX R)) /\ approx_range (sval (JY R))).
Proof.
  intros Hf (HX & HY & HZ) (Hx & Hy) [RX RY] Hinf Hnz.
  unfold add_U2, add_S2, sub_fits in RX, RY.
  unfold pointAdd, jacobian_point_is_infinity. rewrite Hinf.
  rewrite (big_is_zero_spec (JZ P) HZ).
  destruct (Z.eqb_spec (sval (JZ P)) 0) as [|_]; [contradiction|].
  cbv zeta.
  pose proof (big_sqrP_eqp (JZ P) HZ) as (Wa & Ea & Ra).
  set (ta := big_sqrP (JZ P)) in *.
  pose proof (big_mpyP_eqp ta (JZ P) Wa HZ) as (Wb & Eb & Rb).
  set (tb := big_mpyP ta (JZ P) false MOD_MODULUS) in *.
  pose proof (big_mpyP_eqp ta (ax Q) Wa Hx) as (Wc & Ec & Rc).
  set (tc := big_mpyP ta (ax Q) false MOD_MODULUS) in *.
  pose proof (big_mpyP_eqp tb (ay Q) Wb Hy) as (Wd & Ed & Rd).
  set (td := big_mpyP tb (ay Q) false MOD_MODULUS) in *.
  pose proof (big_subP_sval tc (JX P) Wc HX RX) as (We & Ee & Re).
  set (te := big_subP tc (JX P)) in *.
  pose proof (big_subP_sval td (JY P) Wd HY RY) as (Wf & Ef & Rf).
  set (tf := big_subP td (JY P)) in *.
  assert (EH : eqp (sval te) (add_H P Q)).
  { rewrite Ee, Ec, Ea. apply eqp_of_eq. unfold add_H. ring. }
  assert (ER : eqp (sval tf) (add_R P Q)).
  { rewrite Ef, Ed, Eb, Ea. apply eqp_of_eq. unfold add_R. ring. }
  destruct (precise_reduce_eqp te fuel We Hf) as (t1 & -> & W1 & E1 & P1 & Z1).
  rewrite (eqp_mod_zero _ _ EH) in Z1.
  destruct (precise_reduce_eqp tf fuel Wf Hf) as (t2 & Ht2 & W2 & E2 & P2 & Z2).
  rewrite (eqp_mod_zero _ _ ER) in Z2.
  assert (HH : eqp (add_H P Q) 0 <-> add_H P Q mod p256 = 0).
  { rewrite eqp_zero_iff. now rewrite Z.sub_0_r. }
  assert (HR : eqp (add_R P Q) 0 <-> add_R P Q mod p256 = 0).
  { rewrite eqp_zero_iff. now rewrite Z.sub_0_r. }
  split; [|split].
  - intros H0 R0. apply HH in H0. apply HR in R0.
    rewrite Z1, H0, Ht2, Z2, R0. reflexivity.
  - intros H0 R0. apply HH in H0. rewrite HR in R0.
    rewrite Z1, H0, Ht2, Z2.
    destruct (Z.eqb_spec (add_R P Q mod p256) 0); [contradiction|reflexivity].
  - intros H0. rewrite HH in H0. rewrite Z1.
    destruct (Z.eqb_spec (add_H P Q mod p256) 0) as [|_]; [contradiction|].
    clear Z1 Z2 Ht2 W2 E2 P2 t2.
    rewrite EH in E1.
    pose proof (big_mpyP_eqp (JZ P) t1 HZ W1) as (Wg & Eg & Rg).
    set (tg := big_mpyP (JZ P) t1 false MOD_MODULUS) in *.
    destruct (precise_reduce_modulusP tg fuel Wg Hf) as (z3 & -> & Wz & Ez & Pz).
    pose proof (big_sqrP_eqp t1 W1) as (Wh & Eh & Rh).
    set (th := big_sqrP t1) in *.
    pose proof (big_mpyP_eqp th t1 Wh W1) as (Wi & Ei & Ri).
    set (t4 := big_mpyP th t1 false MOD_MODULUS) in *.
    pose proof (big_mpyP_eqp th (JX P) Wh HX) as (Wj & Ej & Rj).
    set (t3 := big_mpyP th (JX P) false MOD_MODULUS) in *.
    pose proof (big_addP_eqp t3 t3 Wj Wj (approx_coord_range _ Rj)
                  (approx_coord_range _ Rj)) as (Wk & Ek & Rk).
    set (tk := big_addP t3 t3) in *.
    pose proof (big_sqrP_eqp tf Wf) as (Wl & El & Rl).
    set (tl := big_sqrP tf) in *.
    pose proof (big_subP_eqp tl tk Wl Wk (approx_coord_range _ Rl)
                  (approx_coord_range _ Rk)) as (Wm & Em & Rm).
    set (tm := big_subP tl tk) in *.
    pose proof (big_subP_eqp tm t4 Wm Wi (approx_coord_range _ Rm)
                  (approx_coord_range _ Ri)) as (Wx & Ex & Rx).
    set (tgtX := big_subP tm t4) in *.
    pose proof (big_subP_eqp t3 tgtX Wj Wx (approx_coord_range _ Rj)
                  (approx_coord_range _ Rx)) as (Wn & En & Rn).
    set (tn := big_subP t3 tgtX) in *.
    pose proof (big_mpyP_eqp tn tf Wn Wf) as (Wo & Eo & Ro).
    set (to := big_mpyP tn tf false MOD_MODULUS) in *.
    pose proof (big_mpyP_eqp t4 (JY P) Wi HY) as (Wp & Ep & Rp).
    set (tp := big_mpyP t4 (JY P) false MOD_MODULUS) in *.
    pose proof (big_subP_eqp to tp Wo Wp (approx_coord_range _ Ro)
                  (approx_coord_range _ Rp)) as (Wy & Ey & Ry).
    set (tgtY := big_subP to tp) in *.
    eexists. split; [reflexivity|]. cbn [JX JY JZ].
    split; [split; [exact Wx|split; [exact Wy|exact Wz]]|].
    split.
    { rewrite Ez. rewrite E1 in Eg. exact Eg. }
    split.
    { rewrite Ex, Em, El, Ek, Ej, Ei, Eh, ER, E1. apply eqp_of_eq.
      generalize (add_R P Q) (add_H P Q) (sval (JX P)). intros; ring. }
    split.
    { rewrite Ey, Eo, Ep, En, Ej, Ei, Eh, ER, E1. apply eqp_of_eq.
      generalize (add_R P Q) (add_H P Q) (sval (JX P)) (sval (JY P))
                 (sval tgtX).
      intros; ring. }
    split; [exact Rx|exact Ry].
Qed.

#[global] Instance eqp_pow : Proper (eqp ==> eq ==> eqp) Z.pow.
Proof.
  intros a a' Ha n n' <-.
  destruct (Z.lt_ge_cases n 0) as [Hn|Hn].
  - rewrite !Z.pow_neg_r by assumption. reflexivity.
  - pattern n. apply natlike_ind; [reflexivity| |lia].
    intros k Hk IH. rewrite !Z.pow_succ_r by assumption. now rewrite IH, Ha.
Qed.

Lemma eqp_mul_p256 (a : Z) : eqp (a * p256) 0.
Proof. unfold eqp. rewrite Z.mod_mul by exact p256_neq0. reflexivity. Qed.

Lemma eqp_double_zero (a : Z) : eqp (2 * a) 0 -> eqp a 0.
Proof.
  intros H.
  assert (Hm : exists m, p256 = 2 * m + 1).
  { exists ((p256 - 1) / 2). vm_compute. reflexivity. }
  destruct Hm as [m Hm].
  assert (Ha : forall p, p = 2 * m + 1 -> a = a * p - m * (2 * a))
    by (intros p ->; ring).
  rewrite (Ha p256 Hm) at 1.
  rewrite H, eqp_mul_p256. apply eqp_of_eq. ring.
Qed.

Lemma represents_add_H (P : jacobian_point_t) (Q : affine_point_t) (x y : Z) :
  represents P x y ->
  eqp (add_H P Q) ((sval (ax Q) - x) * sval (JZ P) ^ 2) /\
  eqp (add_R P Q) ((sval (ay Q) - y) * sval (JZ P) ^ 3).
Proof.
  intros [HX HY]. unfold add_H, add_R. rewrite HX, HY.
  split; apply eqp_of_eq; ring.
Qed.

Lemma pointAdd_chord (P R : jacobian_point_t) (Q : affine_point_t)
    (x1 y1 l : Z) :
  eqp (sval (JZ R)) (sval (JZ P) * add_H P Q) ->
  eqp (sval (JX R))
      (add_R P Q ^ 2 - add_H P Q ^ 3 - 2 * sval (JX P) * add_H P Q ^ 2) ->
  eqp (sval (JY R))
      (add_R P Q * (sval (JX P) * add_H P Q ^ 2 - sval (JX R))
       - sval (JY P) * add_H P Q ^ 3) ->
  represents P x1 y1 ->
  eqp (l * (sval (ax Q) - x1)) (sval (ay Q) - y1) ->
  represents R (chord_x l x1 (sval (ax Q))) (chord_y l x1 y1 (sval (ax Q))).
Proof.
  intros HZ HX HY Hrep Hl.
  destruct (represents_add_H P Q x1 y1 Hrep) as [EH ER].
  destruct Hrep as [EX1 EY1].
  assert (ER' : eqp (add_R P Q) (l * (sval (ax Q) - x1) * sval (JZ P) ^ 3)).
  { rewrite ER, <- Hl. reflexivity. }
  assert (EX3 : eqp (sval (JX R))
                  (chord_x l x1 (sval (ax Q)) * sval (JZ R) ^ 2)).
  { rewrite HX, HZ, ER', EH, EX1. apply eqp_of_eq. unfold chord_x.
    generalize (sval (ax Q)) (sval (JZ P)). intros; ring. }
  split; [exact EX3|].
  rewrite HY, EX3, HZ, ER', EH, EX1, EY1. apply eqp_of_eq.
  unfold chord_y, chord_x.
  generalize (sval (ax Q)) (sval (JZ P)). intros; ring.
Qed.

Lemma coord_range_base_point :
  coord_range (sval (ax base_point)) /\ coord_range (sval (ay base_point)).
Proof.
  assert (Hx : sval (ax base_point)
               = 0x6b17d1f2e12c4247f8bce6e563a440f277037d812deb33a0f4a13945d898c296)
    by (vm_compute; reflexivity).
  assert (Hy : sval (ay base_point)
               = 0x4fe342e2fe1a7f9b8ee7eb4a7c0f9e162bce33576b315ececbb6406837bf51f5)
    by (vm_compute; reflexivity).
  unfold coord_range. rewrite Hx, Hy. lia.
Qed.

(** Claim C3, amended.  For every Jacobian point [P] with a precisely
    reduced Z and every affine point [Q], [pointAdd] handles its cases as
    follows.  If [Q] is the infinity point the result is [P] unchanged.  If
    [P] is the infinity point (Z is zero) the result is the Jacobian lift of
    [Q].  The other cases hold when the two differences that [pointAdd]
    forms first, [x2 * Z1 ^ 2 - X1] and [y2 * Z1 ^ 3 - Y1], fit the nine
    words ([add_fits]); they do whenever X and Y of [P] lie in [sub_range],
    as every coordinate the engine computes does.  If [P] stands for the
    point [Q] the result is that of [pointDouble] on the lift of [Q]; in
    particular adding [Q] to its own lift is doubling it.  For the infinity
    point ([P] with Z zero, [Q] with the flag set) [pointAdd] returns [P]
    and [pointDouble] returns [jacobian_infinity], the same when [P] is
    [jacobian_infinity].  If [P] stands for the inverse of [Q] (and not for
    [Q] itself, its Y being non-zero) the result is the infinity point.
    Otherwise, [P] and [Q] having different x coordinates, the result is
    given by the formulas of the mixed addition, with a precisely reduced Z,
    and it stands for the sum of the two points by the chord rule. *)
Theorem pointAdd_cases_as_specified (fuel : nat) (P : jacobian_point_t)
    (Q : affine_point_t) :
  (3 <= fuel)%nat -> wf_jacobian P -> wf_affine Q -> precise_Z P ->
  (infinity Q = true -> pointAdd fuel P Q = Some P) /\
  (infinity Q = false -> sval (JZ P) = 0 ->
   pointAdd fuel P Q = Some (toJacobian Q)) /\
  (sub_range (sval (JX P)) -> sub_range (sval (JY P)) -> add_fits P Q) /\
  (sub_range (sval (ax Q)) -> sub_range (sval (ay Q)) ->
   add_fits (toJacobian Q) Q) /\
  (infinity Q = false -> sval (JZ P) <> 0 -> add_fits P Q ->
   represents P (sval (ax Q)) (sval (ay Q)) ->
   pointAdd fuel P Q = pointDouble fuel (toJacobian Q)) /\
  (infinity Q = false -> add_fits (toJacobian Q) Q ->
   pointAdd fuel (toJacobian Q) Q = pointDouble fuel (toJacobian Q)) /\
  pointAdd fuel jacobian_infinity affine_infinity
  = pointDouble fuel jacobian_infinity /\
  (infinity Q = true -> sval (JZ P) = 0 ->
   pointAdd fuel P Q = Some P /\
   pointDouble fuel P = Some jacobian_infinity) /\
  (infinity Q = false -> sval (JZ P) <> 0 -> add_fits P Q ->
   represents P (sval (ax Q)) (- sval (ay Q)) -> ~ eqp (sval (JY P)) 0 ->
   pointAdd fuel P Q = Some jacobian_infinity) /\
  (infinity Q = false -> sval (JZ P) <> 0 -> add_fits P Q ->
   ~ eqp (add_H P Q) 0 ->
   exists R, pointAdd fuel P Q = Some R /\ wf_jacobian R /\ precise_Z R /\
     sval (JZ R) = (sval (JZ P) * add_H P Q) mod p256 /\
     eqp (sval (JX R))
         (add_R P Q ^ 2 - add_H P Q ^ 3 - 2 * sval (JX P) * add_H P Q ^ 2) /\
     eqp (sval (JY R))
         (add_R P Q * (sval (JX P) * add_H P Q ^ 2 - sval (JX R))
          - sval (JY P) * add_H P Q ^ 3) /\
     forall x1 y1 l,
       represents P x1 y1 ->
       eqp (l * (sval (ax Q) - x1)) (sval (ay Q) - y1) ->
       represents R (chord_x l x1 (sval (ax Q)))
                    (chord_y l x1 y1 (sval (ax Q)))).
Proof.
  intros Hf HP HQ HPZ.
  assert (Hsame : forall P', wf_jacobian P' -> add_fits P' Q ->
            infinity Q = false -> sval (JZ P') <> 0 ->
            represents P' (sval (ax Q)) (sval (ay Q)) ->
            pointAdd fuel P' Q = pointDouble fuel (toJacobian Q)).
  { intros P' HP' Hfit Hinf Hnz Hrep.
    destruct (pointAdd_cases fuel P' Q Hf HP' HQ Hfit Hinf Hnz) as (Hc & _).
    destruct (represents_add_H P' Q _ _ Hrep) as [EH ER].
    apply Hc.
    - rewrite EH. apply eqp_of_eq. ring.
    - rewrite ER. apply eqp_of_eq. ring. }
  split; [|split; [|split; [|split; [|split; [|split; [|split; [|split;
    [|split]]]]]]]].
  - intros Hinf. unfold pointAdd. now rewrite Hinf.
  - intros Hinf Hz. unfold pointAdd, jacobian_point_is_infinity.
    rewrite Hinf, (big_is_zero_spec (JZ P)) by apply HP.
    now rewrite Hz.
  - now apply sub_range_add_fits.
  - intros Rx Ry.
    apply sub_range_add_fits; [now apply wf_toJacobian|assumption|exact Rx|exact Ry].
  - intros Hinf Hnz Hfit Hrep. now apply Hsame.
  - intros Hinf Hfit. apply Hsame; try assumption.
    + now apply wf_toJacobian.
    + cbn [toJacobian JZ]. rewrite sval_big_one. lia.
    + split; cbn [toJacobian JX JY JZ]; rewrite sval_big_one;
        apply eqp_of_eq; ring.
  - reflexivity.
  - intros Hinf Hz. split.
    + unfold pointAdd. now rewrite Hinf.
    + unfold pointDouble, jacobian_point_is_infinity.
      rewrite (big_is_zero_spec (JZ P)) by apply HP. now rewrite Hz.
  - intros Hinf Hnz Hfit Hrep HY.
    destruct (pointAdd_cases fuel P Q Hf HP HQ Hfit Hinf Hnz) as (_ & Hc & _).
    destruct (represents_add_H P Q _ _ Hrep) as [EH ER].
    apply Hc.
    + rewrite EH. apply eqp_of_eq. ring.
    + intros HR. apply HY. apply eqp_double_zero.
      destruct Hrep as [_ EY]. rewrite EY.
      assert (E : eqp (add_R P Q) (- (2 * (- sval (ay Q) * sval (JZ P) ^ 3)))).
      { rewrite ER. apply eqp_of_eq. ring. }
      rewrite HR in E.
      assert (E' : eqp (- 0) (- - (2 * (- sval (ay Q) * sval (JZ P) ^ 3))))
        by now rewrite E.
      rewrite Z.opp_involutive in E'. now symmetry.
  - intros Hinf Hnz Hfit HH.
    destruct (pointAdd_cases fuel P Q Hf HP HQ Hfit Hinf Hnz) as (_ & _ & Hc).
    destruct (Hc HH) as (R & HR & Hwf & HZ & HX & HY & _).
    exists R. split; [assumption|]. split; [assumption|].
    split; [unfold precise_Z; rewrite HZ; apply Z.mod_pos_bound, p256_pos|].
    split; [assumption|]. split; [assumption|]. split; [assumption|].
    intros x1 y1 l Hrep Hl.
    apply (pointAdd_chord P R Q x1 y1 l); try assumption.
    rewrite HZ. apply eqp_mod.
Qed.

Lemma pointAdd_cases_as_specified_witness :
  wf_jacobian (toJacobian base_point) /\ wf_affine base_point /\
  precise_Z (toJacobian base_point) /\
  sub_range (sval (ax base_point)) /\ sub_range (sval (ay base_point)) /\
  pointAdd 3 (toJacobian base_point) base_point
  = pointDouble 3 (toJacobian base_point).
Proof.
  pose proof coord_range_base_point as [Rx Ry].
  apply coord_sub_range in Rx. apply coord_sub_range in Ry.
  pose proof (pointAdd_cases_as_specified 3 (toJacobian base_point) base_point
                (Nat.le_refl 3) (wf_toJacobian _ wf_base_point) wf_base_point
                (precise_Z_toJacobian _)) as (_ & _ & _ & Hfit & _ & H & _).
  split; [apply wf_toJacobian, wf_base_point|].
  split; [exact wf_base_point|].
  split; [apply precise_Z_toJacobian|].
  split; [exact Rx|]. split; [exact Ry|].
  apply H; [reflexivity|exact (Hfit Rx Ry)].
Defined.

(** Claim C3, as stated, fails.  [far_point_y] has a precisely reduced Z and
    stands for the point [-G], yet adding [-G] to it gives the infinity point
    and not the double: its Y is so near [- 2 ^ 287] that the difference
    [y2 * Z1 ^ 3 - Y1] leaves the nine words.  [far_point_x] stands for [G],
    and adding [G] to it gives a point that does not stand for the double of
    [G], as the result of [pointDouble] on the lift of [G] does: here the
    difference [x2 * Z1 ^ 2 - X1] leaves the nine words.  And for the lift of the
    affine infinity point, which is [(0, 0, 1)], [pointAdd] returns the lift
    and [pointDouble] a point with Z zero. *)
Lemma pointAdd_limits :
  (wf_jacobian far_point_y /\ precise_Z far_point_y /\
   wf_affine neg_base_point /\ infinity neg_base_point = false /\
   represents far_point_y (sval (ax neg_base_point)) (sval (ay neg_base_point)) /\
   ~ add_fits far_point_y neg_base_point /\
   pointAdd 3 far_point_y neg_base_point = Some jacobian_infinity /\
   pointDouble 3 (toJacobian neg_base_point) <> Some jacobian_infinity /\
   pointDouble 3 far_point_y <> Some jacobian_infinity) /\
  (wf_jacobian far_point_x /\ precise_Z far_point_x /\
   wf_affine base_point /\ infinity base_point = false /\
   represents far_point_x (sval (ax base_point)) (sval (ay base_point)) /\
   ~ add_fits far_point_x base_point /\
   (exists R, pointAdd 3 far_point_x base_point = Some R /\
      ~ represents R (sval (ax double_base_point))
                     (sval (ay double_base_point))) /\
   (exists D, pointDouble 3 (toJacobian base_point) = Some D /\
      represents D (sval (ax double_base_point))
                   (sval (ay double_base_point)))) /\
  (infinity affine_infinity = true /\
   pointAdd 3 (toJacobian affine_infinity) affine_infinity
   = Some (toJacobian affine_infinity) /\
   (exists R, pointDouble 3 (toJacobian affine_infinity) = Some R /\
              sval (JZ R) = 0) /\
   pointAdd 3 (toJacobian affine_infinity) affine_infinity
   <> pointDouble 3 (toJacobian affine_infinity)).
Proof.
  assert (Wy : wf_jacobian far_point_y).
  { split; [|split]; (split; [reflexivity|repeat constructor; lia]). }
  assert (Wx : wf_jacobian far_point_x).
  { split; [|split]; (split; [reflexivity|repeat constructor; lia]). }
  assert (Wn : wf_affine neg_base_point).
  { split; (split; [reflexivity|repeat constructor; lia]). }
  split; [|split].
  - split; [exact Wy|]. split; [vm_compute; split; [discriminate|reflexivity]|].
    split; [exact Wn|]. split; [reflexivity|].
    split; [split; vm_compute; reflexivity|].
    split; [intros [_ [_ H]]; vm_compute in H; discriminate H|].
    split; [vm_compute; reflexivity|].
    split; intros H; vm_compute in H; discriminate H.
  - split; [exact Wx|]. split; [vm_compute; split; [discriminate|reflexivity]|].
    split; [exact wf_base_point|]. split; [reflexivity|].
    split; [split; vm_compute; reflexivity|].
    split; [intros [[_ H] _]; vm_compute in H; discriminate H|].
    split.
    + eexists. split; [vm_compute; reflexivity|].
      intros [H _]. vm_compute in H. discriminate H.
    + eexists. split; [vm_compute; reflexivity|].
      split; vm_compute; reflexivity.
  - split; [reflexivity|]. split; [reflexivity|].
    split; [eexists; split; [vm_compute; reflexivity|vm_compute; reflexivity]|].
    intros H; vm_compute in H; discriminate H.
Qed.

(** ** Division: the extended binary GCD *)

Lemma cong_divide (M a b : Z) : M <> 0 -> (cong M a b <-> (M | a - b)).
Proof.
  intros HM. unfold cong. rewrite <- Z.mod_divide by assumption. split; intros H.
  - rewrite Zminus_mod, H, Z.sub_diag. now apply Z.mod_0_l.
  - replace a with ((a - b) + b) by lia.
    rewrite Z.add_mod, H by assumption. cbn [Z.add].
    now apply Z.mod_mod.
Qed.

Lemma odd_half (M : Z) : Z.odd M = true -> exists m, M = 2 * m + 1.
Proof.
  intros H. exists (M / 2). rewrite (Z.div_mod M 2) at 1 by lia.
  rewrite Zmod_odd, H. reflexivity.
Qed.

Lemma even_half (U : Z) : Z.even U = true -> U = 2 * (U / 2).
Proof.
  intros H. rewrite (Z.div_mod U 2) at 1 by lia.
  rewrite Zmod_even, H. lia.
Qed.

(** Halving modulo an odd modulus: if [2 * X' = X + e * M] and
    [2 * U' = U], the congruence [X * den = U * num] carries over. *)
Lemma cong_halve (M den num X U X' U' e : Z) :
  Z.odd M = true -> 0 < M ->
  2 * X' = X + e * M -> 2 * U' = U ->
  cong M (X * den) (U * num) -> cong M (X' * den) (U' * num).
Proof.
  intros Hodd HM HX HU. rewrite !cong_divide by lia.
  intros [q Hq]. destruct (odd_half M Hodd) as [m Hm].
  exists ((X' * den - U' * num) - m * (q + e * den)).
  assert (H2 : 2 * (X' * den - U' * num) = (q + e * den) * M).
  { replace (2 * (X' * den - U' * num))
      with ((2 * X') * den - (2 * U') * num) by ring.
    rewrite HX, HU.
    replace ((X + e * M) * den - U * num)
      with ((X * den - U * num) + e * den * M) by ring.
    rewrite Hq. ring. }
  remember (X' * den - U' * num) as c eqn:Hc. clear Hc Hq HX HU.
  remember (q + e * den) as t eqn:Ht. clear Ht.
  assert (c * M = c + m * (t * M)).
  { rewrite <- H2. rewrite Hm. ring. }
  rewrite Z.mul_sub_distr_r. rewrite <- Z.mul_assoc. lia.
Qed.

Lemma cong_sub (M a b c d : Z) :
  cong M a b -> cong M c d -> cong M (a - c) (b - d).
Proof.
  unfold cong. intros H1 H2.
  rewrite (Zminus_mod a c), (Zminus_mod b d). now rewrite H1, H2.
Qed.

Lemma gcd_divide_l (a a' b : Z) :
  (a' | a) -> Z.gcd a b = 1 -> Z.gcd a' b = 1.
Proof.
  intros Hd Hg.
  pose proof (Z.gcd_nonneg a' b) as Hn.
  assert (H : (Z.gcd a' b | 1)).
  { rewrite <- Hg. apply Z.gcd_greatest.
    - eapply Z.divide_trans; [apply Z.gcd_divide_l|exact Hd].
    - apply Z.gcd_divide_r. }
  apply Z.divide_1_r_nonneg in H; assumption.
Qed.

Lemma gcd_sub_l (a b : Z) : Z.gcd a b = 1 -> Z.gcd (a - b) b = 1.
Proof.
  intros H. rewrite Z.gcd_comm.
  replace (a - b) with (a + (-1) * b) by ring.
  rewrite Z.gcd_add_mult_diag_r. now rewrite Z.gcd_comm.
Qed.

Section Divide.

Variables (Mb : bigval_t) (M den num : Z).
Hypothesis HMwf : wf_bigval Mb.
Hypothesis HMv : sval Mb = M.
Hypothesis HModd : Z.odd M = true.
Hypothesis HMpos : 0 < M.

(** One round of [while (!big_is_odd(&u))]. *)
Lemma halve_step (u x : bigval_t) (C : Z) :
  wf_bigval u -> wf_bigval x ->
  Z.even (sval u) = true -> 0 < sval u ->
  - C <= sval x <= C -> C + M < 2 ^ 287 ->
  cong M (sval x * den) (sval u * num) ->
  let x' := big_halve (if big_is_odd x then big_add x Mb else x) in
  wf_bigval (big_halve u) /\ wf_bigval x' /\
  2 * sval (big_halve u) = sval u /\ 0 < sval (big_halve u) /\
  - C <= 2 * sval x' <= C + M /\
  cong M (sval x' * den) (sval (big_halve u) * num).
Proof.
  intros Hu Hx Heven Hpos HC HCM Hcong x'.
  destruct (big_halve_sval u Hu) as [Hwu Hvu].
  assert (HU2 : 2 * sval (big_halve u) = sval u).
  { rewrite Hvu. symmetry. now apply even_half. }
  assert (Hx' : wf_bigval x' /\ exists e, 2 * sval x' = sval x + e * M /\ 0 <= e <= 1).
  { subst x'. rewrite (big_is_odd_spec x Hx).
    destruct (Z.odd (sval x)) eqn:Hodd.
    - assert (Hadd : sval (big_add x Mb) = sval x + M).
      { rewrite big_add_sval; [now rewrite HMv|assumption|assumption|].
        rewrite HMv. lia. }
      destruct (big_halve_sval (big_add x Mb) (wf_big_add x Mb Hx HMwf))
        as [Hw Hv].
      split; [assumption|]. exists 1. split; [|lia].
      rewrite Hv, Hadd, Z.mul_1_l. symmetry. apply even_half.
      rewrite Z.even_add, <- !Z.negb_odd, Hodd, HModd. reflexivity.
    - destruct (big_halve_sval x Hx) as [Hw Hv].
      split; [assumption|]. exists 0. split; [|lia].
      rewrite Hv, Z.mul_0_l, Z.add_0_r. symmetry. apply even_half.
      now rewrite <- Z.negb_odd, Hodd. }
  destruct Hx' as (Hwx & e & He & Hrange).
  split; [assumption|]. split; [assumption|]. split; [assumption|].
  split; [lia|]. split; [nia|].
  now apply (cong_halve M den num (sval x) (sval u) _ _ e).
Qed.

Lemma halve_iter (k : nat) :
  forall (fuel : nat) (u x : bigval_t) (C : Z),
  (k < fuel)%nat -> wf_bigval u -> wf_bigval x ->
  0 < sval u < 2 ^ Z.of_nat k ->
  M <= C -> C + M < 2 ^ 287 -> - C <= sval x <= C ->
  cong M (sval x * den) (sval u * num) ->
  exists u' x',
    halve_while_even fuel Mb (u, x) = Some (u', x') /\
    wf_bigval u' /\ wf_bigval x' /\
    Z.odd (sval u') = true /\ 0 < sval u' <= sval u /\ (sval u' | sval u) /\
    - C <= sval x' <= C /\
    cong M (sval x' * den) (sval u' * num).
Proof.
  induction k as [|k IH]; intros fuel u x C Hk Hu Hx HU HMC HC HX Hcong.
  - change (2 ^ Z.of_nat 0) with 1 in HU. lia.
  - destruct fuel as [|fuel]; [lia|].
    unfold halve_while_even.
    destruct (Z.odd (sval u)) eqn:Hodd.
    + rewrite while_loop_done by (now rewrite big_is_odd_spec, Hodd).
      exists u, x. split; [reflexivity|].
      repeat (split; [assumption|]).
      split; [lia|]. split; [apply Z.divide_refl|]. split; assumption.
    + assert (Heven : Z.even (sval u) = true) by now rewrite <- Z.negb_odd, Hodd.
      destruct (halve_step u x C Hu Hx Heven (proj1 HU) HX HC Hcong)
        as (Hwu & Hwx & HU2 & HUpos & HX2 & Hcong').
      rewrite (while_loop_step fuel _ _ (u, x)
                 (big_halve u,
                  big_halve (if big_is_odd x then big_add x Mb else x)));
        [|now rewrite big_is_odd_spec, Hodd|reflexivity].
      assert (Hk' : (k < fuel)%nat) by lia.
      assert (HU' : 0 < sval (big_halve u) < 2 ^ Z.of_nat k).
      { rewrite Nat2Z.inj_succ, Z.pow_succ_r in HU by lia. lia. }
      assert (HX' : - C <=
                    sval (big_halve (if big_is_odd x then big_add x Mb else x))
                    <= C) by lia.
      destruct (IH fuel _ _ C Hk' Hwu Hwx HU' HMC HC HX' Hcong')
        as (u' & x' & Hres & Hwu' & Hwx' & Hodd' & Hrange & Hdiv & HXr & Hc).
      exists u', x'. split; [exact Hres|].
      repeat (split; [assumption|]).
      split; [lia|]. split; [|split; assumption].
      eapply Z.divide_trans; [exact Hdiv|].
      exists 2. lia.
Qed.

(** The whole of [while (!big_is_odd(&u))], from a state of the loop of
    [big_divide]. *)
Lemma halve_loop (fuel : nat) (u x : bigval_t) (B : Z) :
  (288 <= fuel)%nat -> wf_bigval u -> wf_bigval x ->
  0 < sval u -> M <= B -> 2 * B + 2 * M < 2 ^ 287 ->
  cofactor_bound (sval u) (sval x) B ->
  cong M (sval x * den) (sval u * num) ->
  exists u' x',
    halve_while_even fuel Mb (u, x) = Some (u', x') /\
    wf_bigval u' /\ wf_bigval x' /\
    Z.odd (sval u') = true /\ 0 < sval u' /\ 2 * sval u' <= potential (sval u) /\
    (sval u' | sval u) /\
    - (B + M) <= sval x' <= B + M /\
    cong M (sval x' * den) (sval u' * num).
Proof.
  intros Hf Hu Hx HU HMB HB Hcb Hcong.
  pose proof (sval_range u Hu) as HUr.
  unfold cofactor_bound in Hcb. unfold potential.
  destruct (Z.even (sval u)) eqn:Heven.
  - destruct fuel as [|fuel]; [lia|].
    assert (H2B : 2 * B + M < 2 ^ 287) by lia.
    destruct (halve_step u x (2 * B) Hu Hx Heven HU Hcb H2B Hcong)
      as (Hwu & Hwx & HU2 & HUpos & HX2 & Hcong').
    unfold halve_while_even.
    rewrite (while_loop_step fuel _ _ (u, x)
               (big_halve u,
                big_halve (if big_is_odd x then big_add x Mb else x)));
      [|now rewrite big_is_odd_spec, <- Z.negb_even, Heven|reflexivity].
    assert (Hk : (286 < fuel)%nat) by lia.
    assert (HU' : 0 < sval (big_halve u) < 2 ^ Z.of_nat 286).
    { change (Z.of_nat 286) with 286. lia. }
    assert (HX' : - (B + M) <=
                  sval (big_halve (if big_is_odd x then big_add x Mb else x))
                  <= B + M) by lia.
    assert (HMC : M <= B + M) by lia.
    assert (HC : B + M + M < 2 ^ 287) by lia.
    destruct (halve_iter 286 fuel _ _ (B + M) Hk Hwu Hwx HU' HMC HC HX' Hcong')
      as (u' & x' & Hres & Hwu' & Hwx' & Hodd' & Hrange & Hdiv & HXr & Hc).
    exists u', x'. split; [exact Hres|].
    repeat (split; [assumption|]).
    split; [lia|]. split; [lia|]. split; [|split; assumption].
    eapply Z.divide_trans; [exact Hdiv|]. exists 2. lia.
  - destruct fuel as [|fuel]; [lia|].
    assert (Hodd : Z.odd (sval u) = true) by now rewrite <- Z.negb_even, Heven.
    unfold halve_while_even.
    rewrite while_loop_done by (now rewrite big_is_odd_spec, Hodd).
    exists u, x. split; [reflexivity|].
    repeat (split; [assumption|]).
    split; [lia|]. split; [apply Z.divide_refl|]. split; [lia|assumption].
Qed.


Lemma potential_pos (U : Z) : 0 < U -> 1 <= potential U <= 2 * U.
Proof. intros H. unfold potential. destruct (Z.even U); lia. Qed.

Lemma divide_continues_spec (u v x1 x2 : bigval_t) :
  wf_bigval u -> wf_bigval v ->
  divide_continues (u, v, x1, x2) = negb (sval u =? 1) && negb (sval v =? 1).
Proof.
  intros Hu Hv. unfold divide_continues.
  now rewrite !big_is_one_spec by assumption.
Qed.

(** One round of the loop of [big_divide]: the invariant is kept, with one
    more [M] of room for the cofactors, and the measure at least halves. *)
Lemma divide_body_ok (fuel : nat) (st : divide_state) (B : Z) :
  (288 <= fuel)%nat -> divide_inv M den num B st ->
  divide_continues st = true ->
  M <= B -> 2 * B + 2 * M < 2 ^ 287 ->
  exists st',
    divide_body fuel Mb st = Some st' /\
    divide_inv M den num (B + M) st' /\
    2 * divide_potential st' <= divide_potential st.
Proof.
  intros Hf Hinv Hcont HMB HB.
  destruct st as [[[u v] x1] x2].
  destruct Hinv as ((Hu & Hv & Hx1 & Hx2) & (HU0 & HV0 & Hgcd) & (Hb1 & Hb2)
                    & (Hc1 & Hc2)).
  rewrite divide_continues_spec in Hcont by assumption.
  apply andb_true_iff in Hcont. destruct Hcont as [HU1 HV1].
  apply negb_true_iff, Z.eqb_neq in HU1. apply negb_true_iff, Z.eqb_neq in HV1.
  assert (HUpos : 0 < sval u).
  { destruct (Z.eq_dec (sval u) 0) as [E|E]; [|lia].
    rewrite E, Z.gcd_0_l, Z.abs_eq in Hgcd by assumption. contradiction. }
  assert (HVpos : 0 < sval v).
  { destruct (Z.eq_dec (sval v) 0) as [E|E]; [|lia].
    rewrite E, Z.gcd_0_r, Z.abs_eq in Hgcd by assumption. contradiction. }
  destruct (halve_loop fuel u x1 B Hf Hu Hx1 HUpos HMB HB Hb1 Hc1)
    as (uo & x1o & Hres1 & Huo & Hx1o & Hoddu & Huopos & Hpu & Hdivu & HX1 & Hc1').
  destruct (halve_loop fuel v x2 B Hf Hv Hx2 HVpos HMB HB Hb2 Hc2)
    as (vo & x2o & Hres2 & Hvo & Hx2o & Hoddv & Hvopos & Hpv & Hdivv & HX2 & Hc2').
  assert (Hgcd' : Z.gcd (sval uo) (sval vo) = 1).
  { apply (gcd_divide_l (sval u)); [assumption|].
    rewrite Z.gcd_comm. apply (gcd_divide_l (sval v)); [assumption|].
    now rewrite Z.gcd_comm. }
  pose proof (sval_range uo Huo) as Ruo. pose proof (sval_range vo Hvo) as Rvo.
  pose proof (potential_pos _ HUpos) as PU.
  pose proof (potential_pos _ HVpos) as PV.
  assert (Hprod : 4 * (sval uo * sval vo) <= potential (sval u) * potential (sval v)).
  { replace (4 * (sval uo * sval vo)) with ((2 * sval uo) * (2 * sval vo)) by ring.
    apply Z.mul_le_mono_nonneg; lia. }
  unfold divide_body. rewrite Hres1, Hres2.
  rewrite big_cmp_geb by assumption.
  destruct (Z.leb_spec (sval vo) (sval uo)) as [Hle|Hlt].
  - eexists. split; [reflexivity|].
    assert (EU : sval (big_sub uo vo) = sval uo - sval vo)
      by (apply big_sub_sval; [assumption|assumption|lia]).
    assert (EX : sval (big_sub x1o x2o) = sval x1o - sval x2o)
      by (apply big_sub_sval; [assumption|assumption|lia]).
    assert (Heven : Z.even (sval uo - sval vo) = true).
    { rewrite Z.even_sub, <- !Z.negb_odd, Hoddu, Hoddv. reflexivity. }
    split.
    + unfold divide_inv. rewrite EU, EX.
      split; [split; [now apply wf_big_sub|split; [assumption|split;
        [now apply wf_big_sub|assumption]]]|].
      split; [split; [lia|split; [lia|now apply gcd_sub_l]]|].
      split.
      * split.
        -- unfold cofactor_bound. rewrite Heven. lia.
        -- unfold cofactor_bound. rewrite <- Z.negb_odd, Hoddv. cbn [negb]. lia.
      * split; [|assumption].
        rewrite !Z.mul_sub_distr_r. now apply cong_sub.
    + unfold divide_potential. rewrite EU.
      unfold potential at 1 2. rewrite Heven, <- Z.negb_odd, Hoddv. cbn [negb].
      nia.
  - eexists. split; [reflexivity|].
    assert (EV : sval (big_sub vo uo) = sval vo - sval uo)
      by (apply big_sub_sval; [assumption|assumption|lia]).
    assert (EX : sval (big_sub x2o x1o) = sval x2o - sval x1o)
      by (apply big_sub_sval; [assumption|assumption|lia]).
    assert (Heven : Z.even (sval vo - sval uo) = true).
    { rewrite Z.even_sub, <- !Z.negb_odd, Hoddu, Hoddv. reflexivity. }
    split.
    + unfold divide_inv. rewrite EV, EX.
      split; [split; [assumption|split; [now apply wf_big_sub|split;
        [assumption|now apply wf_big_sub]]]|].
      split; [split; [lia|split; [lia|]]|].
      { rewrite Z.gcd_comm. apply gcd_sub_l. now rewrite Z.gcd_comm. }
      split.
      * split.
        -- unfold cofactor_bound. rewrite <- Z.negb_odd, Hoddu. cbn [negb]. lia.
        -- unfold cofactor_bound. rewrite Heven. lia.
      * split; [assumption|].
        rewrite !Z.mul_sub_distr_r. now apply cong_sub.
    + unfold divide_potential. rewrite EV.
      unfold potential at 1 2. rewrite Heven, <- Z.negb_odd, Hoddu. cbn [negb].
      nia.
Qed.

Lemma cofactor_bound_mono (U X B B' : Z) :
  0 <= B <= B' -> cofactor_bound U X B -> cofactor_bound U X B'.
Proof. unfold cofactor_bound. destruct (Z.even U); lia. Qed.

Lemma divide_inv_mono (B B' : Z) (st : divide_state) :
  0 <= B <= B' -> divide_inv M den num B st -> divide_inv M den num B' st.
Proof.
  intros HB. destruct st as [[[u v] x1] x2]. unfold divide_inv.
  intros (H1 & H2 & (H3 & H4) & H5).
  split; [assumption|]. split; [assumption|]. split; [|assumption].
  split; eapply cofactor_bound_mono; eassumption.
Qed.

(** The loop of [big_divide] ends: a measure below [2 ^ K] leaves at most
    [K] rounds. *)
Lemma divide_loop_ends (K : nat) :
  forall (fo fi : nat) (st : divide_state) (B : Z),
  (K < fo)%nat -> (288 <= fi)%nat ->
  divide_inv M den num B st -> divide_potential st < 2 ^ Z.of_nat K ->
  M <= B -> 2 * (B + Z.of_nat K * M) + 2 * M < 2 ^ 287 ->
  exists st',
    while_loop fo divide_continues (divide_body fi Mb) st = Some st' /\
    divide_continues st' = false /\
    divide_inv M den num (B + Z.of_nat K * M) st'.
Proof.
  induction K as [|K IH]; intros fo fi st B Hfo Hfi Hinv Hpot HMB HB;
    (destruct fo as [|fo]; [lia|]);
    destruct (divide_continues st) eqn:Hcont.
  - exfalso.
    destruct st as [[[u v] x1] x2].
    pose proof Hinv as ((Hu & Hv & _) & (HU0 & HV0 & Hgcd) & _).
    rewrite divide_continues_spec in Hcont by assumption.
    apply andb_true_iff in Hcont. destruct Hcont as [HU1 HV1].
    apply negb_true_iff, Z.eqb_neq in HU1. apply negb_true_iff, Z.eqb_neq in HV1.
    assert (HUpos : 0 < sval u).
    { destruct (Z.eq_dec (sval u) 0) as [E|E]; [|lia].
      rewrite E, Z.gcd_0_l, Z.abs_eq in Hgcd by assumption. contradiction. }
    assert (HVpos : 0 < sval v).
    { destruct (Z.eq_dec (sval v) 0) as [E|E]; [|lia].
      rewrite E, Z.gcd_0_r, Z.abs_eq in Hgcd by assumption. contradiction. }
    pose proof (potential_pos _ HUpos). pose proof (potential_pos _ HVpos).
    unfold divide_potential in Hpot. change (2 ^ Z.of_nat 0) with 1 in Hpot. nia.
  - exists st. split; [now apply while_loop_done|]. split; [assumption|].
    eapply divide_inv_mono; [|eassumption]. lia.
  - destruct (divide_body_ok fi st B Hfi Hinv Hcont HMB) as (st' & Hbody & Hinv' & Hpot');
      [nia|].
    rewrite (while_loop_step fo _ _ st st' Hcont Hbody).
    rewrite Nat2Z.inj_succ, Z.pow_succ_r in Hpot by lia.
    destruct (IH fo fi st' (B + M)) as (st'' & Hres & Hdone & Hinv'');
      [lia|assumption|assumption|lia|lia|nia|].
    exists st''. split; [assumption|]. split; [assumption|].
    replace (B + Z.of_nat (S K) * M) with (B + M + Z.of_nat K * M) by nia.
    assumption.
  - exists st. split; [now apply while_loop_done|]. split; [assumption|].
    eapply divide_inv_mono; [|eassumption]. nia.
Qed.

End Divide.

Lemma divide_exit (u v x1 x2 : bigval_t) :
  wf_bigval u -> wf_bigval v ->
  divide_continues (u, v, x1, x2) = false ->
  (big_is_one u = true /\ sval u = 1) \/ (big_is_one u = false /\ sval v = 1).
Proof.
  intros Hu Hv H. rewrite divide_continues_spec in H by assumption.
  rewrite (big_is_one_spec u Hu).
  destruct (Z.eqb_spec (sval u) 1) as [E|E]; [now left|right].
  split; [reflexivity|].
  cbn [negb andb] in H. apply negb_false_iff, Z.eqb_eq in H. exact H.
Qed.

(** The loop of [big_divide] ends, with one of the working values equal to
    1 and its cofactor the quotient modulo the modulus. *)
Lemma big_divide_loop_any (fuel : nat) (num den : bigval_t) (m : modulus_ref) :
  wf_bigval (deref m) -> Z.odd (sval (deref m)) = true ->
  0 < sval (deref m) < 2 ^ 256 ->
  wf_bigval num -> wf_bigval den ->
  0 < sval den -> Z.gcd (sval den) (sval (deref m)) = 1 ->
  cofactor_bound (sval den) (sval num) (2 ^ 286 - 2 ^ 266) ->
  (546 <= fuel)%nat ->
  exists u v x1 x2,
    divide_loop fuel num den m = Some (u, v, x1, x2) /\
    wf_bigval x1 /\ wf_bigval x2 /\
    ((big_is_one u = true /\ sval u = 1 /\
      cong (sval (deref m)) (sval x1 * sval den) (sval num)) \/
     (big_is_one u = false /\ sval v = 1 /\
      cong (sval (deref m)) (sval x2 * sval den) (sval num))).
Proof.
  intros HMwf Hodd HMr Hnum Hden Hpos Hgcd Hrange Hf.
  set (M := sval (deref m)) in *.
  assert (HMpos : 0 < M) by lia.
  assert (Hinv : divide_inv M (sval den) (sval num) (2 ^ 286 - 2 ^ 266)
                   (den, deref m, num, big_zero)).
  { unfold divide_inv. fold M. rewrite sval_big_zero.
    split; [split; [assumption|split; [assumption|split;
      [assumption|exact wf_big_zero]]]|].
    split; [split; [lia|split; [lia|assumption]]|].
    split; [split; [exact Hrange|unfold cofactor_bound]|split; unfold cong].
    - destruct (Z.even M); lia.
    - now rewrite Z.mul_comm.
    - rewrite Z.mul_0_l, Z.mul_comm, Z.mod_mul by lia. now rewrite Z.mod_0_l by lia. }
  assert (Hpot : divide_potential (den, deref m, num, big_zero) < 2 ^ Z.of_nat 545).
  { unfold divide_potential. fold M.
    pose proof (potential_pos _ Hpos). pose proof (potential_pos _ HMpos).
    pose proof (sval_range den Hden).
    change (Z.of_nat 545) with 545.
    replace (2 ^ 545) with (2 ^ 288 * 2 ^ 257) by (rewrite <- Z.pow_add_r; [reflexivity|lia|lia]).
    apply Z.mul_lt_mono_nonneg; lia. }
  destruct (divide_loop_ends (deref m) M (sval den) (sval num) HMwf eq_refl
              Hodd HMpos 545 fuel fuel
              (den, deref m, num, big_zero) (2 ^ 286 - 2 ^ 266))
    as (st' & Hloop & Hdone & Hinv'); [lia|lia|exact Hinv|exact Hpot|lia| |].
  { change (Z.of_nat 545) with 545. lia. }
  destruct st' as [[[u v] x1] x2].
  destruct Hinv' as ((Hu & Hv & Hx1 & Hx2) & _ & _ & (Hc1 & Hc2)).
  exists u, v, x1, x2. split; [exact Hloop|].
  split; [assumption|]. split; [assumption|].
  destruct (divide_exit u v x1 x2 Hu Hv Hdone) as [[E1 EU]|[E1 EV]].
  - left. rewrite EU, Z.mul_1_l in Hc1. now repeat split.
  - right. rewrite EV, Z.mul_1_l in Hc2. now repeat split.
Qed.

(** [big_divide] returns a quotient modulo the modulus, precisely reduced:
    with the fuel 546 for a modulus slightly less than [2 ^ 256], and with a
    fuel of [2 ^ 288] for every modulus, as the final reduction takes off one
    modulus at a time. *)
Lemma big_divide_result_any (fuel : nat) (num den : bigval_t) (m : modulus_ref) :
  wf_bigval (deref m) -> Z.odd (sval (deref m)) = true ->
  0 < sval (deref m) < 2 ^ 256 ->
  wf_bigval num -> wf_bigval den ->
  0 < sval den -> Z.gcd (sval den) (sval (deref m)) = 1 ->
  cofactor_bound (sval den) (sval num) (2 ^ 286 - 2 ^ 266) ->
  (546 <= fuel)%nat ->
  modulus_ok m \/ (Z.to_nat (2 ^ 288) <= fuel)%nat ->
  exists r,
    big_divide fuel num den m = Some r /\ wf_bigval r /\
    0 <= sval r < sval (deref m) /\
    cong (sval (deref m)) (sval r * sval den) (sval num).
Proof.
  intros HMwf Hodd HMr Hnum Hden Hpos Hgcd Hrange Hf Hfuel.
  destruct (big_divide_loop_any fuel num den m HMwf Hodd HMr Hnum Hden Hpos
              Hgcd Hrange Hf) as (u & v & x1 & x2 & Hloop & Hx1 & Hx2 & Hexit).
  set (M := sval (deref m)) in *.
  assert (Hred : forall x, wf_bigval x ->
            exists r, big_precise_reduce fuel x m = Some r /\ wf_bigval r /\
                      sval r = sval x mod M).
  { intros x Hx. destruct Hfuel as [Hok|Hbig].
    - apply big_precise_reduce_ok; [assumption|assumption|lia].
    - now apply big_precise_reduce_any. }
  assert (Hfin : forall x, wf_bigval x -> cong M (sval x * sval den) (sval num) ->
            exists r, big_precise_reduce fuel x m = Some r /\ wf_bigval r /\
              0 <= sval r < M /\ cong M (sval r * sval den) (sval num)).
  { intros x Hx Hc.
    destruct (Hred x Hx) as (r & Hr & Hwr & Hvr).
    exists r. split; [assumption|]. split; [assumption|].
    split; [rewrite Hvr; apply Z.mod_pos_bound; lia|].
    eapply cong_trans; [|exact Hc]. unfold cong.
    rewrite Hvr, Z.mul_mod_idemp_l by lia. reflexivity. }
  unfold big_divide. rewrite Hloop.
  destruct Hexit as [(E1 & _ & Hc)|(E1 & _ & Hc)]; rewrite E1.
  - now apply Hfin.
  - now apply Hfin.
Qed.

(** The same for the moduli the engine is written for and a numerator of
    magnitude at most [2 ^ 285]. *)
Lemma big_divide_result (fuel : nat) (num den : bigval_t) (m : modulus_ref) :
  modulus_ok m -> Z.odd (sval (deref m)) = true ->
  wf_bigval num -> wf_bigval den ->
  0 < sval den -> Z.gcd (sval den) (sval (deref m)) = 1 ->
  - 2 ^ 285 <= sval num <= 2 ^ 285 ->
  (546 <= fuel)%nat ->
  exists r,
    big_divide fuel num den m = Some r /\ wf_bigval r /\
    0 <= sval r < sval (deref m) /\
    cong (sval (deref m)) (sval r * sval den) (sval num).
Proof.
  intros Hok Hodd Hnum Hden Hpos Hgcd Hrange Hf.
  pose proof Hok as [HMwf HMr].
  apply big_divide_result_any; try assumption.
  - lia.
  - unfold cofactor_bound. destruct (Z.even (sval den)); lia.
  - now left.
Qed.

(** A quotient modulo [M] by a number coprime to [M] is unique. *)
Lemma cong_quotient_unique (M den num r q : Z) :
  0 < M -> Z.gcd den M = 1 -> 0 <= r < M ->
  cong M (r * den) num -> cong M (q * den) num -> r = q mod M.
Proof.
  intros HM Hgcd Hr Hcr Hcq.
  assert (Hd : (M | (r - q) * den)).
  { rewrite Z.mul_sub_distr_r. apply cong_divide; [lia|].
    eapply cong_trans; [exact Hcr|]. now apply cong_sym. }
  assert (Hd' : (M | r - q)).
  { apply Z.gauss with den; [now rewrite Z.mul_comm|].
    now rewrite Z.gcd_comm. }
  apply cong_divide in Hd'; [|lia]. unfold cong in Hd'.
  rewrite <- Hd'. symmetry. now apply Z.mod_small.
Qed.

(** ** Division by a number that shares a factor with the modulus *)

(** An odd number that divides the double of a number divides that number. *)
Lemma odd_divide_half (g a : Z) :
  Z.odd g = true -> (g | 2 * a) -> (g | a).
Proof.
  intros Hg [c Hc].
  assert (Hev : Z.even c = true).
  { assert (H : Z.even (c * g) = true) by (rewrite <- Hc, Z.even_mul; reflexivity).
    rewrite Z.even_mul, <- (Z.negb_odd g), Hg, orb_false_r in H. exact H. }
  exists (c / 2). rewrite (even_half c Hev) in Hc. lia.
Qed.

Lemma halve_while_even_shares (g : Z) (Mb : bigval_t) (fuel : nat)
    (u x u' x' : bigval_t) :
  Z.odd g = true -> shares g u ->
  halve_while_even fuel Mb (u, x) = Some (u', x') ->
  shares g u' /\ Z.odd (sval u') = true.
Proof.
  intros Hg Hu Hres. unfold halve_while_even in Hres.
  apply (while_loop_rounds (fun s : bigval_t * bigval_t => shares g (fst s))
           fuel _ _) with (s := (u, x)) (r := (u', x')) in Hres;
    [| |exact Hu].
  - destruct Hres as [HI Hc]. cbn [fst] in HI. split; [exact HI|].
    apply negb_false_iff in Hc.
    rewrite <- (big_is_odd_spec u') by apply HI. exact Hc.
  - intros [u0 x0] [u1 x1] HI Hc Hb. cbn [fst] in *.
    destruct HI as (Hw & Hpos & Hd).
    injection Hb as <- _.
    apply negb_true_iff in Hc. rewrite (big_is_odd_spec u0 Hw) in Hc.
    assert (Hev : Z.even (sval u0) = true) by now rewrite <- Z.negb_odd, Hc.
    destruct (big_halve_sval u0 Hw) as [Hw' Hv'].
    split; [exact Hw'|]. rewrite Hv'.
    split; [apply Z.div_pos; lia|].
    apply odd_divide_half; [exact Hg|]. now rewrite <- (even_half _ Hev).
Qed.

Lemma big_divide_common_factor (fuel : nat) (num den : bigval_t)
    (m : modulus_ref) :
  wf_bigval (deref m) -> Z.odd (sval (deref m)) = true ->
  0 < sval (deref m) -> wf_bigval den -> 0 < sval den ->
  Z.gcd (sval den) (sval (deref m)) <> 1 ->
  big_divide fuel num den m = None.
Proof.
  intros Hwm Hodd HM Hden Hpos Hgcd.
  set (g := Z.gcd (sval den) (sval (deref m))) in *.
  assert (Hgd : (g | sval den)) by apply Z.gcd_divide_l.
  assert (Hgm : (g | sval (deref m))) by apply Z.gcd_divide_r.
  assert (Hg0 : 0 <= g) by apply Z.gcd_nonneg.
  assert (Hg1 : ~ (g | 1)).
  { intros H. apply Z.divide_1_r_nonneg in H; [contradiction|assumption]. }
  assert (Hgodd : Z.odd g = true).
  { destruct Hgm as [c Hc]. rewrite Hc, Z.odd_mul in Hodd.
    now apply andb_true_iff in Hodd. }
  unfold big_divide, divide_loop.
  rewrite (while_loop_never
             (fun st : divide_state =>
                let '(u, v, x1, x2) := st in shares g u /\ shares g v)
             divide_continues (divide_body fuel (deref m))); [reflexivity| | |].
  - intros [[[u v] x1] x2] [(Hu & _ & Hdu) (Hv & _ & Hdv)].
    rewrite divide_continues_spec by assumption.
    destruct (Z.eqb_spec (sval u) 1) as [E|_]; [now rewrite E in Hdu|].
    destruct (Z.eqb_spec (sval v) 1) as [E|_]; [now rewrite E in Hdv|].
    reflexivity.
  - intros [[[u v] x1] x2] [[[u' v'] x1'] x2'] [Hu Hv] Hb.
    unfold divide_body in Hb.
    destruct (halve_while_even fuel (deref m) (u, x1)) as [[uo x1o]|] eqn:E1;
      [|discriminate].
    destruct (halve_while_even fuel (deref m) (v, x2)) as [[vo x2o]|] eqn:E2;
      [|discriminate].
    destruct (halve_while_even_shares g _ _ _ _ _ _ Hgodd Hu E1)
      as [(Hwu & Hpu & Hdu) _].
    destruct (halve_while_even_shares g _ _ _ _ _ _ Hgodd Hv E2)
      as [(Hwv & Hpv & Hdv) _].
    pose proof (sval_range uo Hwu) as Ru. pose proof (sval_range vo Hwv) as Rv.
    rewrite big_cmp_geb in Hb by assumption.
    destruct (Z.leb_spec (sval vo) (sval uo)) as [Hle|Hlt];
      injection Hb as <- <- _ _.
    + split; [|now split].
      assert (E : sval (big_sub uo vo) = sval uo - sval vo)
        by (apply big_sub_sval; [assumption|assumption|lia]).
      split; [now apply wf_big_sub|]. rewrite E.
      split; [lia|now apply Z.divide_sub_r].
    + split; [now split|].
      assert (E : sval (big_sub vo uo) = sval vo - sval uo)
        by (apply big_sub_sval; [assumption|assumption|lia]).
      split; [now apply wf_big_sub|]. rewrite E.
      split; [lia|now apply Z.divide_sub_r].
  - split; (split; [assumption|split; [lia|assumption]]).
Qed.

(** Claim C5, amended.  For every odd modulus below [2 ^ 256], every
    positive denominator [den] that is coprime to the modulus and every
    numerator [num] of magnitude at most [2 ^ 286 - 2 ^ 266] (twice that
    when [den] is even, which is what [cofactor_bound] says), the loop of
    the binary GCD ends with one of the working values [u], [v] equal to 1
    (a fuel of 546 is enough for it and for the loops inside it), and
    [big_divide] terminates and returns the number [r] with
    [0 <= r < modulus] and [r * den = num] modulo the modulus, the only such
    number.  The final reduction takes three rounds for a modulus slightly
    less than [2 ^ 256], such as the curve modulus and the order of the
    curve, so that the fuel 546 is enough for the whole; with a smaller
    modulus it may take off as little as one modulus in a round, and a fuel
    of [2 ^ 288] is enough.  For a positive [den] that shares a factor with the modulus
    [big_divide] never returns, whatever the fuel. *)
Theorem big_divide_coprime (fuel : nat) (num den : bigval_t) (m : modulus_ref) :
  wf_bigval (deref m) -> Z.odd (sval (deref m)) = true ->
  0 < sval (deref m) < 2 ^ 256 ->
  wf_bigval num -> wf_bigval den -> 0 < sval den ->
  (Z.gcd (sval den) (sval (deref m)) <> 1 ->
   big_divide fuel num den m = None) /\
  (Z.gcd (sval den) (sval (deref m)) = 1 ->
   cofactor_bound (sval den) (sval num) (2 ^ 286 - 2 ^ 266) ->
   (546 <= fuel)%nat ->
   (exists u v x1 x2,
      divide_loop fuel num den m = Some (u, v, x1, x2) /\
      (sval u = 1 \/ sval v = 1)) /\
   (modulus_ok m \/ (Z.to_nat (2 ^ 288) <= fuel)%nat ->
    exists r,
      big_divide fuel num den m = Some r /\ wf_bigval r /\
      0 <= sval r < sval (deref m) /\
      cong (sval (deref m)) (sval r * sval den) (sval num) /\
      (forall q, cong (sval (deref m)) (q * sval den) (sval num) ->
                 sval r = q mod sval (deref m)))).
Proof.
  intros HMwf Hodd HMr Hnum Hden Hpos. split.
  - intros Hgcd. apply big_divide_common_factor; try assumption. lia.
  - intros Hgcd Hrange Hf. split.
    + destruct (big_divide_loop_any fuel num den m HMwf Hodd HMr Hnum Hden Hpos
                  Hgcd Hrange Hf) as (u & v & x1 & x2 & Hloop & _ & _ & Hexit).
      exists u, v, x1, x2. split; [exact Hloop|].
      destruct Hexit as [(_ & EU & _)|(_ & EV & _)]; [now left|now right].
    + intros Hfuel.
      destruct (big_divide_result_any fuel num den m HMwf Hodd HMr Hnum Hden
                  Hpos Hgcd Hrange Hf Hfuel) as (r & Hr & Hwf & Hrr & Hc).
      exists r. split; [exact Hr|]. split; [exact Hwf|].
      split; [exact Hrr|]. split; [exact Hc|].
      intros q Hq.
      apply (cong_quotient_unique (sval (deref m)) (sval den) (sval num));
        [lia|assumption|assumption|assumption|assumption].
Qed.

(** ** Where the division does not end *)

Lemma while_loop_stuck {S : Type} (f : nat) (cond : S -> bool)
    (body : S -> option S) (s : S) :
  cond s = true -> body s = None -> while_loop f cond body s = None.
Proof.
  intros Hc Hb. destruct f as [|f]; [reflexivity|].
  cbn [while_loop]. now rewrite Hc, Hb.
Qed.

(** A working value that has reached zero is halved for ever. *)
Lemma halve_zero_diverges (Mb : bigval_t) (fuel : nat) :
  forall x, halve_while_even fuel Mb (big_zero, x) = None.
Proof.
  unfold halve_while_even.
  induction fuel as [|fuel IH]; intros x; [reflexivity|].
  rewrite (while_loop_step fuel _ _ (big_zero, x)
             (big_zero, big_halve (if big_is_odd x then big_add x Mb else x)));
    [apply IH|reflexivity|reflexivity].
Qed.

Lemma divide_body_zero (Mb v x1 x2 : bigval_t) (fuel : nat) :
  divide_body fuel Mb (big_zero, v, x1, x2) = None.
Proof. unfold divide_body. now rewrite halve_zero_diverges. Qed.

Lemma big_divide_by_modulus_diverges (fuel : nat) :
  big_divide fuel big_one modulusP REF_modulusP = None.
Proof.
  unfold big_divide, divide_loop. cbn [deref].
  destruct fuel as [|fuel]; [reflexivity|].
  assert (Hodd : forall x,
            halve_while_even (S fuel) modulusP (modulusP, x) = Some (modulusP, x)).
  { intros x. unfold halve_while_even. now apply while_loop_done. }
  rewrite (while_loop_step fuel _ _ (modulusP, modulusP, big_one, big_zero)
             (big_zero, modulusP, big_sub big_one big_zero, big_zero));
    [|reflexivity|].
  - rewrite while_loop_stuck; [reflexivity|reflexivity|apply divide_body_zero].
  - unfold divide_body. rewrite !Hodd. reflexivity.
Qed.

(** With a modulus above [2 ^ 256] the first loop of [big_precise_reduce]
    can go round in a circle. *)
Lemma precise_reduce_above_diverges (fuel : nat) :
  big_precise_reduce fuel sample_pow256 (REF_other modulus_above) = None.
Proof.
  unfold big_precise_reduce.
  set (cond := fun src : bigval_t => negb (s32 (word src MSW) =? 0)).
  set (body := fun src : bigval_t =>
                 Some (precise_reduce_step (REF_other modulus_above) src)).
  set (other := precise_reduce_step (REF_other modulus_above) sample_pow256).
  assert (Hback : precise_reduce_step (REF_other modulus_above) other
                  = sample_pow256) by (vm_compute; reflexivity).
  assert (Hc1 : cond sample_pow256 = true) by (vm_compute; reflexivity).
  assert (Hc2 : cond other = true) by (vm_compute; reflexivity).
  assert (H : while_loop fuel cond body sample_pow256 = None /\
              while_loop fuel cond body other = None).
  { induction fuel as [|fuel [IH1 IH2]]; [split; reflexivity|]. split.
    - rewrite (while_loop_step fuel cond body sample_pow256 other Hc1 eq_refl).
      exact IH2.
    - rewrite (while_loop_step fuel cond body other sample_pow256 Hc2);
        [exact IH1|].
      unfold body. now rewrite Hback. }
  now rewrite (proj1 H).
Qed.

Lemma big_divide_above_diverges (fuel : nat) :
  big_divide fuel sample_pow256 big_one (REF_other modulus_above) = None.
Proof.
  unfold big_divide, divide_loop. cbn [deref].
  destruct fuel as [|fuel]; [reflexivity|].
  rewrite while_loop_done by reflexivity.
  change (big_is_one big_one) with true. cbv iota.
  apply precise_reduce_above_diverges.
Qed.

(** ** Where the quotient is wrong *)

(** A numerator above the range: the cofactor [x1] leaves the nine words
    when the modulus is added to it, or when the other cofactor is taken
    off it, and the number returned is not the quotient. *)
Lemma big_divide_wrong_even :
  exists r,
    big_divide 546 sample_max big_two REF_modulusP = Some r /\
    ~ cong (sval modulusP) (sval r * sval big_two) (sval sample_max).
Proof.
  eexists. split; [vm_compute; reflexivity|].
  intros H. vm_compute in H. discriminate H.
Qed.

Lemma big_divide_wrong_odd :
  exists r,
    big_divide 546 sample_above286 big_three (REF_other modulus_minus3)
    = Some r /\
    ~ cong (sval modulus_minus3) (sval r * sval big_three)
           (sval sample_above286).
Proof.
  eexists. split; [vm_compute; reflexivity|].
  intros H. vm_compute in H. discriminate H.
Qed.

(** Claim C5, as stated, fails.  The curve modulus is odd, and as a
    denominator it is positive and not zero, yet dividing 1 by it never ends:
    after one round the working value [u] is zero and is halved for ever.
    With the odd modulus [2 ^ 256 + 1] dividing [2 ^ 256] by 1 never ends
    either: the final precise reduction goes round in a circle.  And two
    divisions of a positive numerator end with a number that is not the
    quotient: [2 ^ 287 - 1] by 2 modulo the curve modulus, and
    [2 ^ 286 + 2 ^ 200] by 3 modulo [2 ^ 256 - 3]. *)
Lemma big_divide_limits :
  (Z.odd (sval modulusP) = true /\ 0 < sval modulusP /\ 0 < sval big_one /\
   ~ exists fuel r, big_divide fuel big_one modulusP REF_modulusP = Some r) /\
  (Z.odd (sval modulus_above) = true /\ 0 < sval big_one /\
   0 < sval sample_pow256 /\ Z.gcd (sval big_one) (sval modulus_above) = 1 /\
   ~ exists fuel r,
       big_divide fuel sample_pow256 big_one (REF_other modulus_above) = Some r) /\
  (Z.odd (sval modulusP) = true /\ 0 < sval big_two /\ 0 < sval sample_max /\
   Z.gcd (sval big_two) (sval modulusP) = 1 /\
   exists r,
     big_divide 546 sample_max big_two REF_modulusP = Some r /\
     ~ cong (sval modulusP) (sval r * sval big_two) (sval sample_max)) /\
  (Z.odd (sval modulus_minus3) = true /\ 0 < sval modulus_minus3 < 2 ^ 256 /\
   0 < sval big_three /\ 0 < sval sample_above286 /\
   Z.gcd (sval big_three) (sval modulus_minus3) = 1 /\
   exists r,
     big_divide 546 sample_above286 big_three (REF_other modulus_minus3)
     = Some r /\
     ~ cong (sval modulus_minus3) (sval r * sval big_three)
            (sval sample_above286)).
Proof.
  split; [|split; [|split]].
  - split; [vm_compute; reflexivity|]. split; [vm_compute; reflexivity|].
    split; [vm_compute; reflexivity|].
    intros (fuel & r & H). now rewrite big_divide_by_modulus_diverges in H.
  - split; [vm_compute; reflexivity|]. split; [vm_compute; reflexivity|].
    split; [vm_compute; reflexivity|]. split; [vm_compute; reflexivity|].
    intros (fuel & r & H). now rewrite big_divide_above_diverges in H.
  - split; [vm_compute; reflexivity|]. split; [vm_compute; reflexivity|].
    split; [vm_compute; reflexivity|]. split; [vm_compute; reflexivity|].
    exact big_divide_wrong_even.
  - split; [vm_compute; reflexivity|].
    split; [split; vm_compute; reflexivity|].
    split; [vm_compute; reflexivity|]. split; [vm_compute; reflexivity|].
    split; [vm_compute; reflexivity|].
    exact big_divide_wrong_odd.
Qed.

Lemma big_divide_coprime_witness :
  wf_bigval (deref REF_modulusP) /\
  Z.odd (sval (deref REF_modulusP)) = true /\
  0 < sval (deref REF_modulusP) < 2 ^ 256 /\
  wf_bigval sample_large /\ wf_bigval (ay base_point) /\
  0 < sval (ay base_point) /\
  Z.gcd (sval (ay base_point)) (sval (deref REF_modulusP)) = 1 /\
  cofactor_bound (sval (ay base_point)) (sval sample_large)
    (2 ^ 286 - 2 ^ 266) /\
  exists r,
    big_divide 546 sample_large (ay base_point) REF_modulusP = Some r /\
    0 <= sval r < sval (deref REF_modulusP) /\
    cong (sval (deref REF_modulusP)) (sval r * sval (ay base_point))
         (sval sample_large).
Proof.
  assert (Hok : modulus_ok REF_modulusP) by (apply supported_ok; now left).
  assert (Hodd : Z.odd (sval (deref REF_modulusP)) = true)
    by (vm_compute; reflexivity).
  assert (HMr : 0 < sval (deref REF_modulusP) < 2 ^ 256)
    by (split; vm_compute; reflexivity).
  assert (Hpos : 0 < sval (ay base_point)) by (vm_compute; reflexivity).
  assert (Hgcd : Z.gcd (sval (ay base_point)) (sval (deref REF_modulusP)) = 1)
    by (vm_compute; reflexivity).
  assert (Hnum : cofactor_bound (sval (ay base_point)) (sval sample_large)
                   (2 ^ 286 - 2 ^ 266))
    by (vm_compute; split; discriminate).
  assert (Hf : (546 <= 546)%nat) by apply Nat.le_refl.
  destruct (big_divide_coprime 546 sample_large (ay base_point) REF_modulusP
              (proj1 Hok) Hodd HMr wf_sample_large (proj2 wf_base_point) Hpos)
    as [_ H].
  destruct (H Hgcd Hnum Hf) as [_ H'].
  destruct (H' (or_introl Hok)) as (r & Hr & _ & Hrange & Hc & _).
  split; [exact (proj1 Hok)|]. split; [exact Hodd|]. split; [exact HMr|].
  split; [exact wf_sample_large|]. split; [exact (proj2 wf_base_point)|].
  split; [exact Hpos|]. split; [exact Hgcd|]. split; [exact Hnum|].
  exists r. split; [exact Hr|]. split; [exact Hrange|exact Hc].
Defined.

(** ** The formulas of [pointDouble] *)

Lemma big_triple_eqp (a : bigval_t) :
  wf_bigval a -> approx_range (sval a) ->
  wf_bigval (big_triple a) /\ sval (big_triple a) = 3 * sval a /\
  coord_range (sval (big_triple a)).
Proof.
  intros Ha Ra. unfold approx_range in Ra.
  assert (E : sval (big_triple a) = 3 * sval a)
    by (apply big_triple_sval; [assumption|lia]).
  split; [now apply wf_big_triple|]. split; [assumption|].
  unfold coord_range. rewrite E. lia.
Qed.

Lemma big_halveP_eqp (a : bigval_t) :
  wf_bigval a -> approx_range (sval a) ->
  wf_bigval (big_halveP a) /\ eqp (2 * sval (big_halveP a)) (sval a) /\
  coord_range (sval (big_halveP a)).
Proof.
  intros Ha Ra. unfold approx_range in Ra.
  destruct (big_halveP_sval a Ha) as (Hw & He & Hr); [lia|].
  split; [assumption|]. split; [assumption|].
  assert (Hp : 0 < p256 < 2 ^ 256) by (unfold p256; lia).
  unfold coord_range.
  pose proof (Z.div_mod (sval a - 1) 2). pose proof (Z.mod_pos_bound (sval a - 1) 2).
  pose proof (Z.div_mod (sval a + p256) 2).
  pose proof (Z.mod_pos_bound (sval a + p256) 2).
  lia.
Qed.

Lemma eqp_halve (a b : Z) : eqp (2 * a) (2 * b) -> eqp a b.
Proof.
  intros H. apply eqp_zero_iff. rewrite <- eqp_zero_iff.
  assert (H0 : eqp (2 * (a - b)) 0).
  { replace (2 * (a - b)) with (2 * a - 2 * b) by ring. rewrite H.
    apply eqp_of_eq. ring. }
  apply eqp_double_zero in H0.
  assert (E : eqp a (a - b + b)) by (apply eqp_of_eq; ring).
  rewrite E, H0. reflexivity.
Qed.

Lemma pointDouble_formulas (fuel : nat) (P : jacobian_point_t) :
  (3 <= fuel)%nat -> wf_jacobian P ->
  coord_range (sval (JX P)) -> coord_range (sval (JY P)) ->
  sval (JZ P) <> 0 ->
  exists R, pointDouble fuel P = Some R /\ wf_jacobian R /\
    sval (JZ R) = (2 * sval (JY P) * sval (JZ P)) mod p256 /\
    eqp (sval (JX R)) (dbl_M P ^ 2 - 2 * dbl_S P) /\
    eqp (sval (JY R))
        (dbl_M P * (dbl_S P - sval (JX R)) - 8 * sval (JY P) ^ 4) /\
    approx_range (sval (JX R)) /\ approx_range (sval (JY R)).
Proof.
  intros Hf (HX & HY & HZ) RX RY Hnz.
  unfold pointDouble, jacobian_point_is_infinity.
  rewrite (big_is_zero_spec (JZ P) HZ).
  destruct (Z.eqb_spec (sval (JZ P)) 0) as [|_]; [contradiction|].
  cbv zeta.
  pose proof (big_sqrP_eqp (JZ P) HZ) as (Wa & Ea & Ra).
  set (ta := big_sqrP (JZ P)) in *.
  pose proof (big_subP_eqp (JX P) ta HX Wa RX (approx_coord_range _ Ra))
    as (Wb & Eb & Rb).
  set (tb := big_subP (JX P) ta) in *.
  pose proof (big_addP_eqp (JX P) ta HX Wa RX (approx_coord_range _ Ra))
    as (Wc & Ec & Rc).
  set (tc := big_addP (JX P) ta) in *.
  pose proof (big_mpyP_eqp tb tc Wb Wc) as (Wd & Ed & Rd).
  set (td := big_mpyP tb tc false MOD_MODULUS) in *.
  pose proof (big_triple_eqp td Wd Rd) as (We & Ee & Re).
  set (t2 := big_triple td) in *.
  pose proof (big_addP_eqp (JY P) (JY P) HY HY RY RY) as (Wf & Ef & Rf).
  set (tf := big_addP (JY P) (JY P)) in *.
  pose proof (big_mpyP_eqp tf (JZ P) Wf HZ) as (Wg & Eg & Rg).
  set (tg := big_mpyP tf (JZ P) false MOD_MODULUS) in *.
  pose proof (big_sqrP_eqp tf Wf) as (Wh & Eh & Rh).
  set (th := big_sqrP tf) in *.
  pose proof (big_mpyP_eqp th (JX P) Wh HX) as (Wi & Ei & Ri).
  set (t3 := big_mpyP th (JX P) false MOD_MODULUS) in *.
  pose proof (big_sqrP_eqp th Wh) as (Wj & Ej & Rj).
  set (tj := big_sqrP th) in *.
  pose proof (big_halveP_eqp tj Wj Rj) as (Wk & Ek & Rk).
  set (y3 := big_halveP tj) in *.
  pose proof (big_sqrP_eqp t2 We) as (Wl & El & Rl).
  set (tl := big_sqrP t2) in *.
  pose proof (big_addP_eqp t3 t3 Wi Wi (approx_coord_range _ Ri)
                (approx_coord_range _ Ri)) as (Wm & Em & Rm).
  set (tm := big_addP t3 t3) in *.
  pose proof (big_subP_eqp tl tm Wl Wm (approx_coord_range _ Rl)
                (approx_coord_range _ Rm)) as (Wx & Ex & Rx).
  set (tgtX := big_subP tl tm) in *.
  pose proof (big_subP_eqp t3 tgtX Wi Wx (approx_coord_range _ Ri)
                (approx_coord_range _ Rx)) as (Wn & En & Rn).
  set (tn := big_subP t3 tgtX) in *.
  pose proof (big_mpyP_eqp tn t2 Wn We) as (Wo & Eo & Ro).
  set (to := big_mpyP tn t2 false MOD_MODULUS) in *.
  pose proof (big_subP_eqp to y3 Wo Wk (approx_coord_range _ Ro) Rk)
    as (Wy & Ey & Ry).
  set (tgtY := big_subP to y3) in *.
  destruct (precise_reduce_modulusP tg fuel Wg Hf) as (z3 & -> & Wz & Ez & Pz).
  assert (EM : eqp (sval t2) (dbl_M P)).
  { rewrite Ee, Ed, Eb, Ec, Ea. apply eqp_of_eq. unfold dbl_M.
    generalize (sval (JX P)) (sval (JZ P)). intros; ring. }
  assert (ES : eqp (sval t3) (dbl_S P)).
  { rewrite Ei, Eh, Ef. apply eqp_of_eq. unfold dbl_S.
    generalize (sval (JX P)) (sval (JY P)). intros; ring. }
  assert (EY : eqp (sval y3) (8 * sval (JY P) ^ 4)).
  { apply eqp_halve. rewrite Ek, Ej, Eh, Ef. apply eqp_of_eq.
    generalize (sval (JY P)). intros; ring. }
  eexists. split; [reflexivity|]. cbn [JX JY JZ].
  split; [split; [exact Wx|split; [exact Wy|exact Wz]]|].
  split.
  { rewrite Ez. rewrite Ef in Eg.
    replace (2 * sval (JY P) * sval (JZ P))
      with ((sval (JY P) + sval (JY P)) * sval (JZ P)) by ring.
    exact Eg. }
  split.
  { rewrite Ex, El, Em, EM, ES. apply eqp_of_eq.
    generalize (dbl_M P) (dbl_S P). intros; ring. }
  split.
  { rewrite Ey, Eo, En, EM, ES, EY. apply eqp_of_eq.
    generalize (dbl_M P) (dbl_S P) (sval tgtX) (sval (JY P)). intros; ring. }
  split; [exact Rx|exact Ry].
Qed.

(** [pointDouble] follows the tangent rule.  For every Jacobian point [P]
    that is not the infinity point and stands for the affine point [(x, y)],
    and every slope [l] of the tangent in it on a curve with coefficient
    [a = -3] ([l * 2 * y = 3 * x ^ 2 - 3] modulo the curve modulus),
    the result stands for the point the tangent rule gives, and its Z is
    [2 * Y1 * Z1] precisely reduced. *)
Theorem pointDouble_tangent_rule (fuel : nat) (P : jacobian_point_t)
    (x y l : Z) :
  (3 <= fuel)%nat -> wf_jacobian P ->
  coord_range (sval (JX P)) -> coord_range (sval (JY P)) ->
  sval (JZ P) <> 0 -> represents P x y ->
  eqp (l * (2 * y)) (3 * x ^ 2 - 3) ->
  exists R, pointDouble fuel P = Some R /\ wf_jacobian R /\ precise_Z R /\
    sval (JZ R) = (2 * sval (JY P) * sval (JZ P)) mod p256 /\
    represents R (tangent_x l x) (tangent_y l x y).
Proof.
  intros Hf HP RX RY Hnz [EX EY] Hl.
  destruct (pointDouble_formulas fuel P Hf HP RX RY Hnz)
    as (R & HR & Hwf & HZ & HX & HY & _).
  exists R. split; [assumption|]. split; [assumption|].
  split; [unfold precise_Z; rewrite HZ; apply Z.mod_pos_bound, p256_pos|].
  split; [assumption|].
  assert (EZ : eqp (sval (JZ R)) (2 * y * sval (JZ P) ^ 4)).
  { rewrite HZ, eqp_mod, EY. apply eqp_of_eq. ring. }
  assert (EM : eqp (dbl_M P) (l * (2 * y * sval (JZ P) ^ 4))).
  { unfold dbl_M. rewrite EX.
    replace (l * (2 * y * sval (JZ P) ^ 4))
      with (l * (2 * y) * sval (JZ P) ^ 4) by ring.
    rewrite Hl. apply eqp_of_eq. ring. }
  assert (ES : eqp (dbl_S P) (x * (2 * y * sval (JZ P) ^ 4) ^ 2)).
  { unfold dbl_S. rewrite EX, EY. apply eqp_of_eq. ring. }
  assert (EX3 : eqp (sval (JX R)) (tangent_x l x * sval (JZ R) ^ 2)).
  { rewrite HX, EZ, EM, ES. apply eqp_of_eq. unfold tangent_x.
    generalize (sval (JZ P)). intros; ring. }
  split; [exact EX3|].
  rewrite HY, EX3, EZ, EM, ES, EY. apply eqp_of_eq.
  unfold tangent_y, tangent_x. generalize (sval (JZ P)). intros; ring.
Qed.

Lemma pointDouble_tangent_rule_witness :
  wf_jacobian (mkjacobian big_one big_one big_one) /\
  represents (mkjacobian big_one big_one big_one) 1 1 /\
  eqp (0 * (2 * 1)) (3 * 1 ^ 2 - 3) /\
  exists R, pointDouble 3 (mkjacobian big_one big_one big_one) = Some R /\
            represents R (tangent_x 0 1) (tangent_y 0 1 1).
Proof.
  assert (Hwf : wf_jacobian (mkjacobian big_one big_one big_one)).
  { split; [exact wf_big_one|]. split; exact wf_big_one. }
  assert (Hr : coord_range (sval big_one))
    by (rewrite sval_big_one; unfold coord_range; lia).
  assert (Hrep : represents (mkjacobian big_one big_one big_one) 1 1).
  { split; cbn [JX JY JZ]; rewrite sval_big_one; apply eqp_of_eq; reflexivity. }
  assert (Hnz : sval (JZ (mkjacobian big_one big_one big_one)) <> 0)
    by (cbn [JZ]; rewrite sval_big_one; lia).
  destruct (pointDouble_tangent_rule 3 (mkjacobian big_one big_one big_one)
              1 1 0 (Nat.le_refl 3) Hwf Hr Hr Hnz Hrep (eqp_of_eq _ _ eq_refl))
    as (R & HR & _ & _ & _ & Hrep').
  split; [exact Hwf|]. split; [exact Hrep|].
  split; [apply eqp_of_eq; reflexivity|].
  exists R. split; [exact HR|exact Hrep'].
Defined.

Lemma point_ok_infinity : point_ok jacobian_infinity.
Proof.
  split; [exact wf_jacobian_infinity|]. split; [exact precise_Z_infinity|].
  cbn [jacobian_infinity JX JY]. rewrite sval_big_one. unfold coord_range. lia.
Qed.

Lemma point_ok_toJacobian (Q : affine_point_t) :
  affine_ok Q -> point_ok (toJacobian Q).
Proof.
  intros (Hwf & Rx & Ry). split; [now apply wf_toJacobian|].
  split; [apply precise_Z_toJacobian|]. split; assumption.
Qed.

Lemma pointDouble_point_ok (fuel : nat) (P : jacobian_point_t) :
  (3 <= fuel)%nat -> point_ok P ->
  exists R, pointDouble fuel P = Some R /\ point_ok R.
Proof.
  intros Hf (HP & HZ & RX & RY).
  destruct (Z.eq_dec (sval (JZ P)) 0) as [E|E].
  - exists jacobian_infinity. split; [|exact point_ok_infinity].
    unfold pointDouble, jacobian_point_is_infinity.
    rewrite big_is_zero_spec by apply HP. now rewrite E.
  - destruct (pointDouble_formulas fuel P Hf HP RX RY E)
      as (R & HR & Hwf & HZR & _ & _ & RX' & RY').
    exists R. split; [assumption|]. split; [assumption|].
    split; [unfold precise_Z; rewrite HZR; apply Z.mod_pos_bound, p256_pos|].
    split; now apply approx_coord_range.
Qed.

Lemma pointAdd_point_ok (fuel : nat) (P : jacobian_point_t)
    (Q : affine_point_t) :
  (3 <= fuel)%nat -> point_ok P -> affine_ok Q ->
  exists R, pointAdd fuel P Q = Some R /\ point_ok R.
Proof.
  intros Hf HPok HQok.
  pose proof HPok as (HP & HZ & RX & RY). pose proof HQok as (HQ & Rx & Ry).
  destruct (infinity Q) eqn:Hinf.
  { exists P. split; [|assumption]. unfold pointAdd. now rewrite Hinf. }
  destruct (Z.eq_dec (sval (JZ P)) 0) as [E|E].
  { exists (toJacobian Q). split; [|now apply point_ok_toJacobian].
    unfold pointAdd, jacobian_point_is_infinity.
    rewrite Hinf, big_is_zero_spec by apply HP. now rewrite E. }
  destruct (pointAdd_cases fuel P Q Hf HP HQ
              (sub_range_add_fits P Q HP HQ (coord_sub_range _ RX)
                 (coord_sub_range _ RY)) Hinf E) as (H1 & H2 & H3).
  destruct (Z.eq_dec (add_H P Q mod p256) 0) as [EH|EH].
  - assert (EH' : eqp (add_H P Q) 0) by (unfold eqp; now rewrite EH).
    destruct (Z.eq_dec (add_R P Q mod p256) 0) as [ER|ER].
    + assert (ER' : eqp (add_R P Q) 0) by (unfold eqp; now rewrite ER).
      rewrite (H1 EH' ER').
      apply pointDouble_point_ok; [assumption|now apply point_ok_toJacobian].
    + exists jacobian_infinity. split; [|exact point_ok_infinity].
      apply H2; [assumption|]. unfold eqp. now rewrite Z.mod_0_l by apply p256_neq0.
  - destruct H3 as (R & HR & Hwf & HZR & _ & _ & RX' & RY').
    { unfold eqp. now rewrite Z.mod_0_l by apply p256_neq0. }
    exists R. split; [assumption|]. split; [assumption|].
    split; [unfold precise_Z; rewrite HZR; apply Z.mod_pos_bound, p256_pos|].
    split; now apply approx_coord_range.
Qed.

(** Every chain of doublings and additions that starts from a point within
    the invariant of the engine (representable coordinates, Z precisely
    reduced, X and Y within the coordinate range) and adds affine points
    whose coordinates are representable and within the coordinate range
    returns, and ends within the invariant: the ranges the point formulas
    rely on are kept by them.  The condition on the added points is needed,
    as [pointAdd] copies the coordinates of [Q] when [P] is the infinity
    point. *)
Theorem point_operations_keep_ranges (fuel : nat) (ops : list point_op)
    (P : jacobian_point_t) :
  (3 <= fuel)%nat -> Forall point_op_ok ops -> point_ok P ->
  exists R, apply_ops fuel ops P = Some R /\ point_ok R.
Proof.
  intros Hf Hops. revert P.
  induction Hops as [|o ops Ho _ IH]; intros P HP.
  - exists P. split; [reflexivity|assumption].
  - cbn [apply_ops].
    assert (Hstep : exists P', apply_op fuel P o = Some P' /\ point_ok P').
    { destruct o as [|Q]; cbn [apply_op].
      - now apply pointDouble_point_ok.
      - now apply pointAdd_point_ok. }
    destruct Hstep as (P' & -> & HP'). now apply IH.
Qed.

Lemma point_operations_keep_ranges_witness :
  Forall point_op_ok [op_double; op_add base_point] /\
  point_ok (toJacobian base_point) /\
  exists R, apply_ops 3 [op_double; op_add base_point] (toJacobian base_point)
            = Some R /\ point_ok R.
Proof.
  assert (HG : affine_ok base_point).
  { split; [exact wf_base_point|exact coord_range_base_point]. }
  assert (Hops : Forall point_op_ok [op_double; op_add base_point]).
  { constructor; [exact I|]. constructor; [exact HG|constructor]. }
  split; [exact Hops|]. split; [now apply point_ok_toJacobian|].
  apply (point_operations_keep_ranges 3 [op_double; op_add base_point]
           (toJacobian base_point) (Nat.le_refl 3) Hops).
  now apply point_ok_toJacobian.
Defined.

(** ** Key agreement *)

(** The status [ECDH_derive_pt] returns is decided by the curve library's
    [ec_oncurve] and [ec_scalarmul] alone: it is the same whatever
    [ec_is_infinity] answers, and when the scalar and the peer's point
    convert and the point validates, it is the conjunction of [ec_oncurve] on
    the shared point and the success of [ec_scalarmul], while the answer of
    [ec_is_infinity] is stored in the [infinity] field of the target. *)
Theorem ECDH_derive_pt_status (ec_t : Type) (ec_getcurve : option ec_t)
    (ecpoint_validation : ecpoint_t -> ec_t -> bool)
    (ec_scalarmul : ecpoint_t -> digit256_t -> ec_t -> bool * ecpoint_t)
    (ec_oncurve : ecpoint_t -> ec_t -> bool)
    (ec_is_infinity ec_is_infinity' : ecpoint_t -> ec_t -> bool)
    (e : endian) (tgt : affine_point_t) (k : bigval_t) (Q : affine_point_t) :
  fst (ECDH_derive_pt ec_t ec_getcurve ecpoint_validation ec_scalarmul
         ec_oncurve ec_is_infinity e tgt k Q)
  = fst (ECDH_derive_pt ec_t ec_getcurve ecpoint_validation ec_scalarmul
           ec_oncurve ec_is_infinity' e tgt k Q) /\
  forall curve ourPrivate qx qy,
    ec_getcurve = Some curve ->
    bigval_to_digit256 e k = Some ourPrivate ->
    bigval_to_digit256 e (ax Q) = Some qx ->
    bigval_to_digit256 e (ay Q) = Some qy ->
    ecpoint_validation (mkecpoint qx qy) curve = true ->
    let shared := snd (ec_scalarmul (mkecpoint qx qy) ourPrivate curve) in
    let result := ECDH_derive_pt ec_t ec_getcurve ecpoint_validation
                    ec_scalarmul ec_oncurve ec_is_infinity e tgt k Q in
    fst result
    = ec_oncurve shared curve
      && fst (ec_scalarmul (mkecpoint qx qy) ourPrivate curve) /\
    infinity (snd result) = ec_is_infinity shared curve.
Proof.
  split.
  - unfold ECDH_derive_pt.
    destruct ec_getcurve as [curve|]; [|reflexivity].
    destruct (bigval_to_digit256 e k) as [ourPrivate|]; [|reflexivity].
    destruct (bigval_to_digit256 e (ax Q)) as [qx|]; [|reflexivity].
    destruct (bigval_to_digit256 e (ay Q)) as [qy|]; [|reflexivity].
    destruct (negb (ecpoint_validation (mkecpoint qx qy) curve)); [reflexivity|].
    destruct (ec_scalarmul (mkecpoint qx qy) ourPrivate curve) as [ok shared].
    reflexivity.
  - intros curve ourPrivate qx qy Hc Hk Hx Hy Hv shared result.
    subst shared result. unfold ECDH_derive_pt.
    rewrite Hc, Hk, Hx, Hy, Hv. cbn [negb].
    destruct (ec_scalarmul (mkecpoint qx qy) ourPrivate curve) as [ok sh].
    split; reflexivity.
Qed.

(** ** Scalar multiplication: the scalars that are rejected *)

(** For every scalar that is negative or zero [pointMpyP] returns the
    infinity point, whatever the point. *)
Theorem pointMpyP_rejects (fuel : nat) (k : bigval_t) (P : affine_point_t) :
  wf_bigval k -> sval k <= 0 -> pointMpyP fuel k P = Some affine_infinity.
Proof.
  intros Hk Hle. unfold pointMpyP.
  rewrite (big_is_negative_spec k Hk), (big_is_zero_spec k Hk).
  destruct (Z.ltb_spec (sval k) 0) as [|Hge]; [reflexivity|].
  replace (sval k) with 0 by lia. reflexivity.
Qed.

Lemma pointMpyP_rejects_witness :
  wf_bigval sample_negative /\ sval sample_negative <= 0 /\
  pointMpyP 3 sample_negative base_point = Some affine_infinity.
Proof.
  assert (Hle : sval sample_negative <= 0) by (vm_compute; discriminate).
  split; [exact wf_sample_negative|]. split; [exact Hle|].
  exact (pointMpyP_rejects 3 sample_negative base_point wf_sample_negative Hle).
Defined.


(** ** Scalar multiplication: the code against the algorithm on residues *)

Lemma eqp_mod_eq (a b : Z) : eqp a b -> a mod p256 = b mod p256.
Proof. intros H. exact H. Qed.

Lemma jac_sim_infinity : jac_sim jacobian_infinity res_infinity.
Proof.
  unfold jac_sim, res_infinity. split; [exact point_ok_infinity|].
  cbn [jacobian_infinity JX JY JZ]. rewrite sval_big_one, sval_big_zero.
  split; [reflexivity|]. split; reflexivity.
Qed.

Lemma res_double_sim (fuel : nat) (J : jacobian_point_t) (z : res_point) :
  (3 <= fuel)%nat -> jac_sim J z ->
  exists J', pointDouble fuel J = Some J' /\ jac_sim J' (res_double z).
Proof.
  intros Hf. destruct z as [[X Y] Z1].
  intros ((HP & HZ & RX & RY) & EX & EY & EZ).
  unfold res_double.
  destruct (Z.eqb_spec Z1 0) as [E|E].
  - exists jacobian_infinity. split; [|exact jac_sim_infinity].
    unfold pointDouble, jacobian_point_is_infinity.
    rewrite big_is_zero_spec by apply HP. now rewrite EZ, E.
  - destruct (pointDouble_formulas fuel J Hf HP RX RY)
      as (R & HR & Hwf & HZR & HXR & HYR & RX' & RY'); [now rewrite EZ|].
    exists R. split; [assumption|].
    assert (EM : eqp (dbl_M J) ((3 * ((X - Z1 * Z1) * (X + Z1 * Z1))) mod p256)).
    { rewrite eqp_mod. unfold dbl_M. rewrite EX, EZ. apply eqp_of_eq. ring. }
    assert (ES : eqp (dbl_S J) ((4 * (X * ((Y * Y) mod p256))) mod p256)).
    { rewrite !eqp_mod. unfold dbl_S. rewrite EX, EY. apply eqp_of_eq. ring. }
    set (M := (3 * ((X - Z1 * Z1) * (X + Z1 * Z1))) mod p256) in *.
    set (S := (4 * (X * ((Y * Y) mod p256))) mod p256) in *.
    assert (EX3 : eqp (sval (JX R)) ((M * M - 2 * S) mod p256)).
    { rewrite eqp_mod, HXR, EM, ES. apply eqp_of_eq. ring. }
    unfold jac_sim.
    split.
    { split; [assumption|].
      split; [unfold precise_Z; rewrite HZR; apply Z.mod_pos_bound, p256_pos|].
      split; now apply approx_coord_range. }
    split; [exact EX3|]. split.
    + rewrite eqp_mod, HYR, EM, ES, EX3, !eqp_mod, EY. apply eqp_of_eq.
      generalize (M * M - 2 * S). intros; ring.
    + rewrite HZR. apply eqp_mod_eq. rewrite EY, EZ. reflexivity.
Qed.

Lemma jac_sim_toJacobian (Q : affine_point_t) (x y : Z) (inf : bool) :
  aff_sim Q (x, y, inf) -> jac_sim (toJacobian Q) (x, y, 1).
Proof.
  intros (HQ & Ex & Ey & _). split; [now apply point_ok_toJacobian|].
  cbn [toJacobian JX JY JZ]. rewrite sval_big_one.
  split; [assumption|]. split; [assumption|reflexivity].
Qed.

Lemma eqp_zero_mod (a : Z) : eqp a 0 <-> a mod p256 = 0.
Proof. unfold eqp. now rewrite (Z.mod_0_l p256) by apply p256_neq0. Qed.

Lemma res_add_sim (fuel : nat) (J : jacobian_point_t) (z : res_point)
    (Q : affine_point_t) (a : res_affine_point) :
  (3 <= fuel)%nat -> jac_sim J z -> aff_sim Q a ->
  exists J', pointAdd fuel J Q = Some J' /\ jac_sim J' (res_add z a).
Proof.
  intros Hf HJ HQ. pose proof HJ as HJ'. pose proof HQ as HQ'.
  destruct z as [[X Y] Z1]. destruct a as [[x2 y2] inf].
  destruct HJ' as ((HP & HZ & RX & RY) & EX & EY & EZ).
  destruct HQ' as ((HQwf & Rx & Ry) & Ex & Ey & Einf).
  unfold res_add.
  destruct inf.
  { exists J. split; [|assumption]. unfold pointAdd. now rewrite Einf. }
  destruct (Z.eqb_spec Z1 0) as [E|E].
  { exists (toJacobian Q). split; [|now apply jac_sim_toJacobian with false].
    unfold pointAdd, jacobian_point_is_infinity.
    rewrite Einf, big_is_zero_spec by apply HP. now rewrite EZ, E. }
  assert (Hnz : sval (JZ J) <> 0) by now rewrite EZ.
  destruct (pointAdd_cases fuel J Q Hf HP HQwf
              (sub_range_add_fits J Q HP HQwf (coord_sub_range _ RX)
                 (coord_sub_range _ RY)) Einf Hnz) as (H1 & H2 & H3).
  assert (EH : eqp (add_H J Q) ((x2 * ((Z1 * Z1) mod p256) - X) mod p256)).
  { rewrite !eqp_mod. unfold add_H. rewrite EX, Ex, EZ. apply eqp_of_eq. ring. }
  assert (ER : eqp (add_R J Q)
                 ((y2 * ((Z1 * Z1) mod p256 * Z1) - Y) mod p256)).
  { rewrite !eqp_mod. unfold add_R. rewrite EY, Ey, EZ. apply eqp_of_eq. ring. }
  set (Hz := (x2 * ((Z1 * Z1) mod p256) - X) mod p256) in *.
  set (Rz := (y2 * ((Z1 * Z1) mod p256 * Z1) - Y) mod p256) in *.
  assert (HHz : Hz = add_H J Q mod p256).
  { symmetry. rewrite (eqp_mod_eq _ _ EH). subst Hz. apply Z.mod_mod, p256_neq0. }
  assert (HRz : Rz = add_R J Q mod p256).
  { symmetry. rewrite (eqp_mod_eq _ _ ER). subst Rz. apply Z.mod_mod, p256_neq0. }
  destruct (Z.eqb_spec Hz 0) as [EH0|EH0].
  - assert (EH' : eqp (add_H J Q) 0) by (apply eqp_zero_mod; congruence).
    destruct (Z.eqb_spec Rz 0) as [ER0|ER0].
    + assert (ER' : eqp (add_R J Q) 0) by (apply eqp_zero_mod; congruence).
      rewrite (H1 EH' ER').
      apply res_double_sim; [assumption|now apply jac_sim_toJacobian with false].
    + exists jacobian_infinity. split; [|exact jac_sim_infinity].
      apply H2; [assumption|]. rewrite eqp_zero_mod. congruence.
  - destruct H3 as (R & HR & Hwf & HZR & HXR & HYR & RX' & RY').
    { rewrite eqp_zero_mod. congruence. }
    exists R. split; [assumption|].
    set (H2z := (Hz * Hz) mod p256).
    set (H3z := (H2z * Hz) mod p256).
    assert (EX3 : eqp (sval (JX R)) ((Rz * Rz - H3z - 2 * (X * H2z)) mod p256)).
    { rewrite eqp_mod, HXR, EH, ER, EX. subst H3z H2z. rewrite !eqp_mod.
      apply eqp_of_eq. ring. }
    unfold jac_sim. split.
    { split; [assumption|].
      split; [unfold precise_Z; rewrite HZR; apply Z.mod_pos_bound, p256_pos|].
      split; now apply approx_coord_range. }
    split; [exact EX3|]. split.
    + rewrite eqp_mod, HYR, EH, ER, EX, EX3, EY. subst H3z H2z.
      rewrite !eqp_mod. apply eqp_of_eq.
      generalize (Rz * Rz - (Hz * Hz) mod p256 * Hz - 2 * (X * (Hz * Hz))).
      intros; ring.
    + rewrite HZR. apply eqp_mod_eq. rewrite EH, EZ. reflexivity.
Qed.

Lemma gcd_of_inverse (z zi : Z) :
  (zi * z) mod p256 = 1 -> Z.gcd z p256 = 1.
Proof.
  intros H.
  pose proof (Z.gcd_nonneg z p256) as Hn.
  assert (Hd : (Z.gcd z p256 | 1)).
  { replace 1 with (zi * z - p256 * ((zi * z) / p256)).
    - apply Z.divide_sub_r.
      + apply Z.divide_mul_r, Z.gcd_divide_l.
      + apply Z.divide_mul_l, Z.gcd_divide_r.
    - pose proof (Z.div_mod (zi * z) p256 p256_neq0). lia. }
  apply Z.divide_1_r_nonneg in Hd; assumption.
Qed.

Lemma aff_exact_infinity : aff_exact affine_infinity (0, 0, true).
Proof.
  unfold aff_exact, affine_infinity. cbn [ax ay infinity].
  rewrite sval_big_zero.
  split; [split; exact wf_big_zero|]. split; [reflexivity|]. split; reflexivity.
Qed.

Lemma res_affine_sim (fuel : nat) (J : jacobian_point_t) (z : res_point)
    (a : res_affine_point) :
  (546 <= fuel)%nat -> jac_sim J z -> res_affine z = Some a ->
  exists A, toAffine fuel J = Some A /\ aff_exact A a.
Proof.
  intros Hf. destruct z as [[X Y] Z1].
  intros (((HX & HY & HZ) & HPZ & RX & RY) & EX & EY & EZ).
  unfold res_affine, toAffine.
  rewrite (big_is_zero_spec (JZ J) HZ), EZ.
  destruct (Z.eqb_spec Z1 0) as [E|E].
  { intros Ha. injection Ha as <-. exists affine_infinity.
    split; [reflexivity|exact aff_exact_infinity]. }
  set (zi := pow_mod Z1 (Z.to_pos (p256 - 2))).
  destruct (Z.eqb_spec ((zi * Z1) mod p256) 1) as [Hinv|]; [|discriminate].
  intros Ha. injection Ha as <-.
  assert (Hok : modulus_ok REF_modulusP) by (apply supported_ok; now left).
  assert (HM : sval (deref REF_modulusP) = p256) by (cbn [deref]; apply sval_modulusP).
  unfold precise_Z in HPZ. rewrite EZ in HPZ.
  assert (Hgcd : Z.gcd (sval (JZ J)) p256 = 1)
    by (rewrite EZ; now apply gcd_of_inverse with zi).
  destruct (big_divide_result fuel big_one (JZ J) REF_modulusP)
    as (r & Hr & Wr & Hrr & Hcr);
    [exact Hok|rewrite HM; vm_compute; reflexivity|exact wf_big_one|exact HZ
    |rewrite EZ; lia|now rewrite HM
    |rewrite sval_big_one; lia|exact Hf|].
  rewrite HM in Hrr, Hcr.
  assert (Er : eqp (sval r) zi).
  { rewrite (cong_quotient_unique p256 (sval (JZ J)) (sval big_one) (sval r) zi
               p256_pos Hgcd Hrr Hcr).
    - apply eqp_mod.
    - unfold cong. rewrite EZ, sval_big_one, Hinv.
      symmetry. apply Z.mod_small. pose proof p256_pos. unfold p256 in *. lia. }
  rewrite Hr.
  pose proof (big_sqrP_eqp r Wr) as (Wa & Ea & Ra).
  set (ta := big_sqrP r) in *.
  pose proof (big_mpyP_eqp (JX J) ta HX Wa) as (Wb & Eb & Rb).
  set (tx := big_mpyP (JX J) ta false MOD_MODULUS) in *.
  pose proof (big_mpyP_eqp ta r Wa Wr) as (Wc & Ec & Rc).
  set (tc := big_mpyP ta r false MOD_MODULUS) in *.
  pose proof (big_mpyP_eqp (JY J) tc HY Wc) as (Wd & Ed & Rd).
  set (ty := big_mpyP (JY J) tc false MOD_MODULUS) in *.
  assert (Hf3 : (3 <= fuel)%nat) by lia.
  destruct (precise_reduce_modulusP tx fuel Wb Hf3) as (rx & -> & Wrx & Erx & _).
  destruct (precise_reduce_modulusP ty fuel Wd Hf3) as (ry & -> & Wry & Ery & _).
  eexists. split; [reflexivity|].
  unfold aff_exact. cbn [ax ay infinity].
  split; [split; assumption|]. split; [|split; [|reflexivity]].
  - rewrite Erx. apply eqp_mod_eq.
    rewrite Eb, Ea, Er, EX, eqp_mod. reflexivity.
  - rewrite Ery. apply eqp_mod_eq.
    rewrite Ed, Ec, Ea, Er, EY, !eqp_mod. reflexivity.
Qed.

Lemma res_affine_range (z : res_point) (x y : Z) (inf : bool) :
  res_affine z = Some (x, y, inf) -> 0 <= x < p256 /\ 0 <= y < p256.
Proof.
  destruct z as [[X Y] Z1]. unfold res_affine.
  pose proof p256_pos as Hp.
  destruct (Z1 =? 0).
  - intros H. injection H as <- <- <-. lia.
  - destruct (_ =? 1); [|discriminate].
    match goal with
    | |- Some (?u mod p256, ?v mod p256, false) = _ -> _ =>
        generalize (Z.mod_pos_bound u p256 Hp) (Z.mod_pos_bound v p256 Hp);
        generalize (u mod p256) (v mod p256)
    end.
    intros x' y' Hx Hy H. injection H as <- <- <-. split; assumption.
Qed.

Lemma aff_exact_sim (A : affine_point_t) (z : res_point)
    (a : res_affine_point) :
  res_affine z = Some a -> aff_exact A a -> aff_sim A a.
Proof.
  destruct a as [[x y] inf]. intros Hz (Hwf & Ex & Ey & Einf).
  destruct (res_affine_range z x y inf Hz) as [Hx Hy].
  assert (Hp : p256 < 2 ^ 256) by (unfold p256; lia).
  unfold aff_sim, affine_ok, coord_range. rewrite Ex, Ey.
  split; [split; [assumption|lia]|].
  split; [reflexivity|]. split; [reflexivity|assumption].
Qed.

Lemma for_down_sim {S T : Type} (R : S -> T -> Prop)
    (f : nat -> S -> S) (g : nat -> T -> T) :
  (forall i s t, R s t -> R (f i s) (g i t)) ->
  forall n lo s t, R s t -> R (for_down lo n f s) (for_down lo n g t).
Proof.
  intros Hstep. induction n as [|n IH]; intros lo s t H; cbn [for_down].
  - assumption.
  - apply IH. now apply Hstep.
Qed.

Lemma pointMpyP_res_mpy (fuel : nat) (k : bigval_t) (P : affine_point_t)
    (a : res_affine_point) :
  (546 <= fuel)%nat -> wf_bigval k -> affine_ok P ->
  res_mpy k (sval (ax P), sval (ay P), infinity P) = Some a ->
  exists A, pointMpyP fuel k P = Some A /\ aff_exact A a.
Proof.
  intros Hf Hk HP. unfold res_mpy, pointMpyP.
  destruct (big_is_negative k).
  { intros H. injection H as <-. exists affine_infinity.
    split; [reflexivity|exact aff_exact_infinity]. }
  rewrite orb_false_r.
  destruct (big_is_zero k).
  { intros H. injection H as <-. exists affine_infinity.
    split; [reflexivity|exact aff_exact_infinity]. }
  assert (Hf3 : (3 <= fuel)%nat) by lia.
  assert (HPs : aff_sim P (sval (ax P), sval (ay P), infinity P)).
  { split; [assumption|]. split; [reflexivity|]. split; reflexivity. }
  destruct (res_double_sim fuel (toJacobian P) _ Hf3
              (jac_sim_toJacobian P _ _ _ HPs)) as (Q2 & -> & HQ2).
  set (z2 := res_double (sval (ax P), sval (ay P), 1)) in *.
  destruct (res_affine z2) as [two|] eqn:Htwo; [|discriminate].
  destruct (res_affine_sim fuel Q2 z2 two Hf HQ2 Htwo) as (twoP & -> & HtwoP).
  apply (aff_exact_sim twoP z2 two Htwo) in HtwoP.
  destruct (res_add_sim fuel Q2 z2 P _ Hf3 HQ2 HPs) as (Q3 & -> & HQ3).
  set (z3 := res_add z2 (sval (ax P), sval (ay P), infinity P)) in *.
  destruct (res_affine z3) as [three|] eqn:Hthree; [|discriminate].
  destruct (res_affine_sim fuel Q3 z3 three Hf HQ3 Hthree)
    as (threeP & -> & HthreeP).
  apply (aff_exact_sim threeP z3 three Hthree) in HthreeP.
  cbv zeta.
  set (body := fun (h' : nat) (Q : option jacobian_point_t) => _).
  set (mz := [None; Some (sval (ax P), sval (ay P), infinity P); Some two;
              Some three]).
  assert (Hloop : exists J,
            for_down 0 (skip_zero_pairs (BIGLEN * 16) k) body
              (Some jacobian_infinity) = Some J /\
            jac_sim J (for_down 0 (skip_zero_pairs (BIGLEN * 16) k)
                         (res_round k mz) res_infinity)).
  { apply (for_down_sim (fun s t => exists J, s = Some J /\ jac_sim J t)).
    - intros i s t (J & -> & HJ). unfold body, res_round.
      destruct (res_double_sim fuel J t Hf3 HJ) as (J1 & -> & HJ1).
      destruct (res_double_sim fuel J1 _ Hf3 HJ1) as (J2 & -> & HJ2).
      destruct (Z.to_nat (big_get_2bits k (2 * i))) as [|[|[|[|n]]]];
        cbn [nth mz].
      + exists J2. split; [reflexivity|assumption].
      + now apply res_add_sim.
      + now apply res_add_sim.
      + now apply res_add_sim.
      + destruct n; exists J2; (split; [reflexivity|assumption]).
    - exists jacobian_infinity. split; [reflexivity|exact jac_sim_infinity]. }
  destruct Hloop as (J & -> & HJ).
  intros Ha. exact (res_affine_sim fuel J _ a Hf HJ Ha).
Qed.

(** ** The algorithm on residues: machine integers against [Z] *)

Lemma bmod_spec (x : BigZ.t) : BigZ.to_Z (bmod x) = BigZ.to_Z x mod p256.
Proof. unfold bmod, big_p256. now rewrite BigZ.spec_modulo, BigZ.spec_of_Z. Qed.

Ltac bigz_push :=
  repeat first
    [ rewrite bmod_spec | rewrite BigZ.spec_mul | rewrite BigZ.spec_add
    | rewrite BigZ.spec_sub | rewrite BigZ.spec_of_Z | rewrite BigZ.spec_eqb
    | rewrite BigZ.spec_0 | rewrite BigZ.spec_1 ].

Lemma big_res_double_sound (P : big_point) :
  to_res_point (big_res_double P) = res_double (to_res_point P).
Proof.
  destruct P as [[X Y] Z1].
  unfold big_res_double, res_double, to_res_point at 2.
  rewrite BigZ.spec_eqb, BigZ.spec_0.
  destruct (BigZ.to_Z Z1 =? 0).
  - unfold big_res_infinity, res_infinity, to_res_point. now bigz_push.
  - cbv zeta. unfold to_res_point. bigz_push. reflexivity.
Qed.

Lemma big_res_add_sound (P : big_point) (Q : big_affine_point) :
  to_res_point (big_res_add P Q) = res_add (to_res_point P) (to_res_affine Q).
Proof.
  destruct P as [[X Y] Z1]. destruct Q as [[x2 y2] inf].
  unfold big_res_add, res_add, to_res_point at 2, to_res_affine.
  destruct inf; [reflexivity|].
  rewrite BigZ.spec_eqb, BigZ.spec_0.
  destruct (BigZ.to_Z Z1 =? 0).
  { unfold to_res_point. now bigz_push. }
  cbv zeta. rewrite !BigZ.spec_eqb, BigZ.spec_0.
  bigz_push.
  destruct (_ =? 0).
  - destruct (_ =? 0).
    + rewrite big_res_double_sound. unfold to_res_point. now bigz_push.
    + unfold big_res_infinity, res_infinity, to_res_point. now bigz_push.
  - unfold to_res_point. bigz_push. reflexivity.
Qed.

Lemma big_pow_mod_sound (b : BigZ.t) (e : positive) :
  BigZ.to_Z (big_pow_mod b e) = pow_mod (BigZ.to_Z b) e.
Proof.
  induction e as [e IH|e IH|]; cbn [big_pow_mod pow_mod]; cbv zeta;
    bigz_push; rewrite ?IH; reflexivity.
Qed.

Lemma big_res_affine_sound (P : big_point) :
  option_map to_res_affine (big_res_affine P) = res_affine (to_res_point P).
Proof.
  destruct P as [[X Y] Z1].
  unfold big_res_affine, res_affine, to_res_point.
  rewrite BigZ.spec_eqb, BigZ.spec_0.
  destruct (BigZ.to_Z Z1 =? 0).
  { cbn [option_map to_res_affine]. now bigz_push. }
  cbv zeta. rewrite BigZ.spec_eqb. bigz_push. rewrite big_pow_mod_sound.
  destruct (_ =? 1); [|reflexivity].
  cbn [option_map to_res_affine]. bigz_push. rewrite big_pow_mod_sound.
  reflexivity.
Qed.

Lemma big_res_round_sound (k : bigval_t)
    (mpyset : list (option big_affine_point)) (h : nat) (Q : big_point) :
  to_res_point (big_res_round k mpyset h Q)
  = res_round k (map (option_map to_res_affine) mpyset) h (to_res_point Q).
Proof.
  unfold big_res_round, res_round.
  change (@None res_affine_point) with (option_map to_res_affine None).
  rewrite map_nth.
  destruct (nth _ mpyset None) as [R|]; cbn [option_map].
  - now rewrite big_res_add_sound, !big_res_double_sound.
  - now rewrite !big_res_double_sound.
Qed.

Lemma big_res_mpy_sound (k : bigval_t) (P : big_affine_point) :
  option_map to_res_affine (big_res_mpy k P) = res_mpy k (to_res_affine P).
Proof.
  unfold big_res_mpy, res_mpy.
  destruct (big_is_negative k).
  { cbn [option_map to_res_affine]. now rewrite BigZ.spec_0. }
  destruct (big_is_zero k).
  { cbn [option_map to_res_affine]. now rewrite BigZ.spec_0. }
  destruct P as [[x y] inf]. cbn [to_res_affine]. cbv zeta.
  assert (E2 : to_res_point (big_res_double (x, y, BigZ.one))
               = res_double (BigZ.to_Z x, BigZ.to_Z y, 1)).
  { rewrite big_res_double_sound. unfold to_res_point. now rewrite BigZ.spec_1. }
  rewrite <- E2, <- big_res_affine_sound.
  destruct (big_res_affine (big_res_double (x, y, BigZ.one))) as [twoP|];
    [|reflexivity].
  cbn [option_map].
  change (BigZ.to_Z x, BigZ.to_Z y, inf) with (to_res_affine (x, y, inf)).
  rewrite <- big_res_add_sound, <- big_res_affine_sound.
  destruct (big_res_affine (big_res_add _ _)) as [threeP|]; [|reflexivity].
  cbn [option_map].
  rewrite big_res_affine_sound. f_equal.
  apply (for_down_sim (fun s t => to_res_point s = t)).
  - intros i s t <-.
    apply (big_res_round_sound k [None; Some (x, y, inf); Some twoP; Some threeP]).
  - unfold big_res_infinity, res_infinity, to_res_point.
    now rewrite BigZ.spec_1, BigZ.spec_0.
Qed.

(** ** Values determine big numbers *)

Lemma lval_inj (l l' : list Z) :
  length l = length l' ->
  Forall (fun x => 0 <= x < 2 ^ 32) l -> Forall (fun x => 0 <= x < 2 ^ 32) l' ->
  lval l = lval l' -> l = l'.
Proof.
  revert l'. induction l as [|x l IH]; intros [|x' l'] Hlen Hl Hl' Hv;
    try discriminate; [reflexivity|].
  inversion Hl as [|? ? Hx Hl0]; subst.
  inversion Hl' as [|? ? Hx' Hl0']; subst.
  cbn [lval] in Hv.
  assert (x = x' /\ lval l = lval l') as [-> Hv'] by lia.
  f_equal. apply IH; [now injection Hlen|assumption|assumption|assumption].
Qed.

Lemma sval_inj (a b : bigval_t) :
  wf_bigval a -> wf_bigval b -> sval a = sval b -> a = b.
Proof.
  intros Ha Hb Hv.
  destruct (sval_uval a Ha) as [ca Hca]. destruct (sval_uval b Hb) as [cb Hcb].
  pose proof (uval_range a Ha). pose proof (uval_range b Hb).
  assert (Hu : uval a = uval b) by lia.
  destruct a as [la], b as [lb]. f_equal.
  destruct Ha as [Hla Hwa], Hb as [Hlb Hwb]. cbn [data] in *.
  apply lval_inj; [congruence|assumption|assumption|exact Hu].
Qed.

Lemma aff_exact_inj (A A' : affine_point_t) (a : res_affine_point) :
  aff_exact A a -> aff_exact A' a -> A = A'.
Proof.
  destruct a as [[x y] inf].
  intros ((Hx & Hy) & Ex & Ey & Ei) ((Hx' & Hy') & Ex' & Ey' & Ei').
  destruct A as [ax0 ay0 i0], A' as [ax1 ay1 i1]. cbn [ax ay infinity] in *.
  f_equal; [apply sval_inj|apply sval_inj|]; congruence.
Qed.

(** ** Scalar multiplication: the base point *)

Lemma res_mpy_by_machine (k : bigval_t) (P a : res_affine_point) :
  option_map to_res_affine (big_res_mpy k (of_res_affine P)) = Some a ->
  res_mpy k P = Some a.
Proof.
  intros H. rewrite big_res_mpy_sound in H.
  destruct P as [[x y] inf]. unfold of_res_affine, to_res_affine in H.
  now rewrite !BigZ.spec_of_Z in H.
Qed.

Lemma affine_ok_base_point : affine_ok base_point.
Proof. split; [exact wf_base_point|exact coord_range_base_point]. Qed.

Lemma wf_order_minus_one : wf_bigval order_minus_one.
Proof. split; [reflexivity|]. repeat constructor; cbv; intuition discriminate. Qed.

Lemma pointMpyP_by_machine (k : bigval_t) (P A : affine_point_t) :
  wf_bigval k -> affine_ok P -> wf_affine A ->
  option_map to_res_affine
    (big_res_mpy k (of_res_affine (sval (ax P), sval (ay P), infinity P)))
  = Some (sval (ax A), sval (ay A), infinity A) ->
  pointMpyP 546 k P = Some A.
Proof.
  intros Hk HP HA H. apply res_mpy_by_machine in H.
  destruct (pointMpyP_res_mpy 546 k P _ (Nat.le_refl 546) Hk HP H)
    as (A' & -> & Hex).
  f_equal. apply (aff_exact_inj _ _ _ Hex).
  split; [assumption|]. split; [reflexivity|]. split; reflexivity.
Qed.

(** With the scalar [n - 1], one less than the order of the curve,
    [pointMpyP] takes the base point to its inverse:
    [pointMpyP(n - 1, G) = -G]. *)
Theorem pointMpyP_order_minus_one :
  pointMpyP 546 order_minus_one base_point = Some neg_base_point.
Proof.
  apply pointMpyP_by_machine.
  - exact wf_order_minus_one.
  - exact affine_ok_base_point.
  - split; [apply wf_base_point|].
    split; [reflexivity|]. repeat constructor; cbv; intuition discriminate.
  - vm_compute. reflexivity.
Qed.

(** With the scalar one [pointMpyP] gives the base point back:
    [pointMpyP(1, G) = G]. *)
Theorem pointMpyP_one_base_point :
  pointMpyP 546 big_one base_point = Some base_point.
Proof.
  apply pointMpyP_by_machine.
  - exact wf_big_one.
  - exact affine_ok_base_point.
  - exact wf_base_point.
  - vm_compute. reflexivity.
Qed.

(** With the order of the curve as the scalar [pointMpyP] takes the base
    point to the infinity point: [pointMpyP(n, G) = O]. *)
Theorem pointMpyP_order :
  pointMpyP 546 orderP base_point = Some affine_infinity.
Proof.
  apply pointMpyP_by_machine.
  - exact wf_orderP.
  - exact affine_ok_base_point.
  - split; exact wf_big_zero.
  - vm_compute. reflexivity.
Qed.

(** [pointMpyP] computes what the algorithm of the specification computes on
    residues (the left-to-right double-and-add over two bits of the scalar
    per round with the table of [P], [2P] and [3P], the standard doubling and
    mixed addition formulas, the affine point as [(X / Z ^ 2, Y / Z ^ 3)]):
    for every representable scalar and every affine point with coordinates
    in range, whenever that algorithm finds the inverses it needs, the code
    returns, and it returns the affine point with exactly the coordinates
    the algorithm gives, precisely reduced. *)
Theorem pointMpyP_refines (fuel : nat) (k : bigval_t) (P : affine_point_t)
    (a : res_affine_point) :
  (546 <= fuel)%nat -> wf_bigval k -> affine_ok P ->
  res_mpy k (sval (ax P), sval (ay P), infinity P) = Some a ->
  exists A, pointMpyP fuel k P = Some A /\ aff_exact A a /\
            0 <= sval (ax A) < p256 /\ 0 <= sval (ay A) < p256.
Proof.
  intros Hf Hk HP Ha.
  destruct (pointMpyP_res_mpy fuel k P a Hf Hk HP Ha) as (A & HA & Hex).
  exists A. split; [exact HA|]. split; [exact Hex|].
  destruct a as [[x y] inf]. destruct Hex as (_ & -> & -> & _).
  pose proof p256_pos as Hp.
  revert Ha. unfold res_mpy.
  destruct (big_is_negative k); [intros H; injection H as <- <- <-; lia|].
  destruct (big_is_zero k); [intros H; injection H as <- <- <-; lia|].
  destruct (res_affine _) as [twoP|]; [|discriminate].
  destruct (res_affine _) as [threeP|]; [|discriminate].
  cbv zeta. apply res_affine_range.
Qed.

Lemma pointMpyP_refines_witness :
  wf_bigval order_minus_one /\ affine_ok base_point /\
  res_mpy order_minus_one
    (sval (ax base_point), sval (ay base_point), infinity base_point)
  = Some (sval (ax neg_base_point), sval (ay neg_base_point), false) /\
  exists A, pointMpyP 546 order_minus_one base_point = Some A /\
            aff_exact A (sval (ax neg_base_point), sval (ay neg_base_point),
                         false).
Proof.
  assert (H : res_mpy order_minus_one
                (sval (ax base_point), sval (ay base_point), infinity base_point)
              = Some (sval (ax neg_base_point), sval (ay neg_base_point), false)).
  { apply res_mpy_by_machine. vm_compute. reflexivity. }
  split; [exact wf_order_minus_one|]. split; [exact affine_ok_base_point|].
  split; [exact H|].
  destruct (pointMpyP_refines 546 order_minus_one base_point _ (Nat.le_refl 546)
              wf_order_minus_one affine_ok_base_point H) as (A & HA & Hex & _).
  exists A. split; [exact HA|exact Hex].
Defined.

(** ** The rule table: adding rules *)

(** After [AddRule] for an endpoint with a rule, [OkToSend] accepts what it
    accepted before and, for that endpoint, the messages the new rule
    matches; the other endpoints are not affected. *)
Theorem OkToSend_AddRule (tbl : RuleTable.t)
    (endpoint endpoint' : RuleTable.BusEndpoint) (rule : RuleTable.Rule)
    (msg : RuleTable.Message) :
  RuleTable.OkToSend (fst (RuleTable.AddRule tbl endpoint rule)) msg endpoint'
  = RuleTable.OkToSend tbl msg endpoint'
    || (String.eqb endpoint endpoint' && RuleTable.IsMatch rule msg).
Proof.
  unfold RuleTable.OkToSend, RuleTable.RulesForEndpoint, RuleTable.AddRule.
  cbn [fst RuleTable.rules].
  rewrite filter_app, map_app, existsb_app. f_equal.
  cbn [filter fst]. destruct (String.eqb endpoint endpoint'); cbn [map existsb snd andb].
  - apply orb_false_r.
  - reflexivity.
Qed.

(** ** The affine point of a Jacobian point *)



(** ** Scalar multiplication: the infinity point *)

Lemma res_mpy_infinity (k : bigval_t) :
  res_mpy k (0, 0, true) = Some (0, 0, true).
Proof.
  unfold res_mpy.
  destruct (big_is_negative k); [reflexivity|].
  destruct (big_is_zero k); [reflexivity|].
  assert (E2 : res_affine (res_double (0, 0, 1)) = Some (0, 0, true))
    by (vm_compute; reflexivity).
  assert (E3 : res_affine (res_add (res_double (0, 0, 1)) (0, 0, true))
               = Some (0, 0, true)) by (vm_compute; reflexivity).
  rewrite E2, E3. cbv beta iota zeta.
  match goal with
  | |- res_affine ?t = _ => assert (Hloop : t = res_infinity)
  end.
  { apply (for_down_ind (fun _ s => s = res_infinity)); [reflexivity|].
    intros i s _ ->. unfold res_round.
    change (res_double (res_double res_infinity)) with res_infinity.
    destruct (Z.to_nat (big_get_2bits k (2 * i))) as [|[|[|[|n]]]];
      try reflexivity.
    destruct n; reflexivity. }
  rewrite Hloop. reflexivity.
Qed.

Lemma affine_ok_infinity : affine_ok affine_infinity.
Proof.
  split; [split; exact wf_big_zero|].
  cbn [affine_infinity ax ay]. rewrite sval_big_zero. unfold coord_range. lia.
Qed.

(** For every representable scalar, [pointMpyP] takes the infinity point
    [affine_infinity] to itself. *)
Theorem pointMpyP_infinity (fuel : nat) (k : bigval_t) :
  (546 <= fuel)%nat -> wf_bigval k ->
  pointMpyP fuel k affine_infinity = Some affine_infinity.
Proof.
  intros Hf Hk.
  destruct (pointMpyP_res_mpy fuel k affine_infinity (0, 0, true) Hf Hk
              affine_ok_infinity) as (A & -> & Hex).
  - cbn [affine_infinity ax ay infinity]. rewrite sval_big_zero.
    apply res_mpy_infinity.
  - f_equal. apply (aff_exact_inj _ _ _ Hex). exact aff_exact_infinity.
Qed.

Lemma pointMpyP_infinity_witness :
  wf_bigval order_minus_one /\
  pointMpyP 546 order_minus_one affine_infinity = Some affine_infinity.
Proof.
  split; [exact wf_order_minus_one|].
  exact (pointMpyP_infinity 546 order_minus_one (Nat.le_refl 546)
           wf_order_minus_one).
Defined.

Lemma wf_big_two : wf_bigval big_two.
Proof. split; [reflexivity|]. repeat constructor; cbv; intuition discriminate. Qed.

Lemma wf_double_base_point : wf_affine double_base_point.
Proof.
  split; (split; [reflexivity|]); repeat constructor; cbv; intuition discriminate.
Qed.

(** [pointMpyP] takes the coordinates of its point as they are, without
    looking at the infinity flag, when it computes the table entry [2P]:
    with the coordinates of the base point [G] and the infinity flag set,
    [pointMpyP(2, P)] is the finite point [2G], the same as
    [pointMpyP(2, G)]. *)
Theorem pointMpyP_two_flagged :
  pointMpyP 546 big_two flagged_base_point = Some double_base_point /\
  pointMpyP 546 big_two base_point = Some double_base_point /\
  infinity flagged_base_point = true /\ infinity double_base_point = false.
Proof.
  split; [|split; [|split; reflexivity]].
  - apply pointMpyP_by_machine.
    + exact wf_big_two.
    + split; [exact wf_base_point|exact coord_range_base_point].
    + exact wf_double_base_point.
    + vm_compute. reflexivity.
  - apply pointMpyP_by_machine.
    + exact wf_big_two.
    + exact affine_ok_base_point.
    + exact wf_double_base_point.
    + vm_compute. reflexivity.
Qed.

(** ** The lift of the infinity point *)

(** [toJacobian] copies the coordinates and sets Z to one whatever the
    infinity flag says: the lift of [affine_infinity] is the point
    [(0, 0, 1)], which [jacobian_point_is_infinity] does not take for the
    infinity point.  [pointAdd] of it and [affine_infinity] returns it
    unchanged, while [pointDouble] of it returns a point with Z zero. *)
Theorem toJacobian_ignores_infinity (fuel : nat) :
  (3 <= fuel)%nat ->
  toJacobian affine_infinity = mkjacobian big_zero big_zero big_one /\
  jacobian_point_is_infinity (toJacobian affine_infinity) = false /\
  pointAdd fuel (toJacobian affine_infinity) affine_infinity
  = Some (toJacobian affine_infinity) /\
  exists R, pointDouble fuel (toJacobian affine_infinity) = Some R /\
            jacobian_point_is_infinity R = true.
Proof.
  intros Hf.
  split; [reflexivity|]. split; [reflexivity|]. split; [reflexivity|].
  assert (HJ : point_ok (toJacobian affine_infinity))
    by (apply point_ok_toJacobian, affine_ok_infinity).
  destruct HJ as (HP & _ & RX & RY).
  destruct (pointDouble_formulas fuel (toJacobian affine_infinity) Hf HP RX RY)
    as (R & HR & (_ & _ & HZ) & EZ & _).
  { cbn [toJacobian JZ]. rewrite sval_big_one. lia. }
  exists R. split; [exact HR|].
  unfold jacobian_point_is_infinity. rewrite (big_is_zero_spec _ HZ), EZ.
  cbn [toJacobian affine_infinity JY JZ ay]. rewrite sval_big_zero.
  reflexivity.
Qed.

Lemma toJacobian_ignores_infinity_witness :
  (3 <= 3)%nat /\
  exists R, pointDouble 3 (toJacobian affine_infinity) = Some R /\
            jacobian_point_is_infinity R = true.
Proof.
  split; [apply Nat.le_refl|].
  exact (proj2 (proj2 (proj2 (toJacobian_ignores_infinity 3 (Nat.le_refl 3))))).
Defined.

(* ===================================================================== *)
(** * Part IV: further properties of the code                             *)
(* ===================================================================== *)

(** ** The engine as arithmetic modulo [2 ^ 288] *)

(** Two big numbers whose words differ by a multiple of [2 ^ 288] are the
    same. *)
Lemma uval_wrap_inj (a b : bigval_t) (c : Z) :
  wf_bigval a -> wf_bigval b -> uval a + 2 ^ 288 * c = uval b -> a = b.
Proof.
  intros Ha Hb H.
  pose proof (uval_range a Ha). pose proof (uval_range b Hb).
  assert (c = 0) by lia. subst c.
  destruct a as [la], b as [lb]. f_equal.
  destruct Ha as [Hla Hwa], Hb as [Hlb Hwb]. cbn [data] in *.
  apply lval_inj; [congruence|assumption|assumption|].
  unfold uval in H. cbn [data] in H. lia.
Qed.

(** [big_add] and [big_sub] work modulo [2 ^ 288], and so each undoes the
    other on all inputs, also where the sum or the difference leaves the
    range of a big number. *)
Theorem big_add_sub_inverse (a b : bigval_t) :
  wf_bigval a -> wf_bigval b ->
  big_add (big_sub a b) b = a /\ big_sub (big_add a b) b = a /\
  big_add a b = big_add b a /\
  (sval (big_add a b) - (sval a + sval b)) mod 2 ^ 288 = 0 /\
  (sval (big_sub a b) - (sval a - sval b)) mod 2 ^ 288 = 0.
Proof.
  intros Ha Hb.
  destruct (big_sub_uval a b Ha Hb) as [Ws [cs Hs]].
  destruct (big_add_uval a b Ha Hb) as [Wa [ca Hadd]].
  destruct (big_add_uval b a Hb Ha) as [Wa' [ca' Hadd']].
  destruct (big_add_uval (big_sub a b) b Ws Hb) as [W1 [c1 H1]].
  destruct (big_sub_uval (big_add a b) b Wa Hb) as [W2 [c2 H2]].
  destruct (sval_uval a Ha) as [ka Hka].
  destruct (sval_uval b Hb) as [kb Hkb].
  destruct (sval_uval _ Wa) as [k1 Hk1].
  destruct (sval_uval _ Ws) as [k2 Hk2].
  split; [apply (uval_wrap_inj _ _ (c1 + cs)); [assumption|assumption|lia]|].
  split; [apply (uval_wrap_inj _ _ (c2 + ca)); [assumption|assumption|lia]|].
  split; [apply (uval_wrap_inj _ _ (ca - ca')); [assumption|assumption|lia]|].
  split.
  - replace (sval (big_add a b) - (sval a + sval b))
      with ((k1 - ca - ka - kb) * 2 ^ 288) by lia.
    apply Z.mod_mul. lia.
  - replace (sval (big_sub a b) - (sval a - sval b))
      with ((k2 - cs - ka + kb) * 2 ^ 288) by lia.
    apply Z.mod_mul. lia.
Qed.

Lemma big_add_sub_inverse_witness :
  wf_bigval sample_negative /\ wf_bigval sample_large /\
  big_add (big_sub sample_negative sample_large) sample_large = sample_negative /\
  big_sub (big_add sample_negative sample_large) sample_large = sample_negative.
Proof.
  split; [exact wf_sample_negative|]. split; [exact wf_sample_large|].
  destruct (big_add_sub_inverse sample_negative sample_large
              wf_sample_negative wf_sample_large) as (H1 & H2 & _).
  split; [exact H1|exact H2].
Defined.

(** [big_cmp] is the three-way comparison of the signed values: it returns 0
    exactly on equal big numbers, 1 and -1 exactly on a greater and on a
    smaller signed value, and swapping the arguments negates the result. *)
Theorem big_cmp_total_order (a b : bigval_t) :
  wf_bigval a -> wf_bigval b ->
  (big_cmp a b = 0 <-> a = b) /\
  (big_cmp a b = 1 <-> sval b < sval a) /\
  (big_cmp a b = -1 <-> sval a < sval b) /\
  big_cmp b a = - big_cmp a b.
Proof.
  intros Ha Hb.
  rewrite (big_cmp_spec a b Ha Hb), (big_cmp_spec b a Hb Ha).
  rewrite (Z.compare_antisym (sval a) (sval b)).
  destruct (Z.compare_spec (sval a) (sval b)) as [E|L|G]; cbn [CompOpp].
  - repeat split; try lia; try discriminate.
    intros _. now apply sval_inj.
  - repeat split; try lia; try discriminate.
    intros ->. lia.
  - repeat split; try lia; try discriminate.
    intros ->. lia.
Qed.

Lemma big_cmp_total_order_witness :
  wf_bigval sample_negative /\ wf_bigval sample_large /\
  (big_cmp sample_negative sample_large = -1
   <-> sval sample_negative < sval sample_large) /\
  big_cmp sample_large sample_negative = - big_cmp sample_negative sample_large.
Proof.
  split; [exact wf_sample_negative|]. split; [exact wf_sample_large|].
  destruct (big_cmp_total_order sample_negative sample_large
              wf_sample_negative wf_sample_large) as (_ & _ & H1 & H2).
  split; [exact H1|exact H2].
Defined.

(** ** Halving *)

(** [big_halve] is the arithmetic shift of the signed value: twice the
    result plus the low bit is the number, for negative numbers too.  On a
    precisely reduced number [big_halveP], which adds the curve modulus to
    an odd number first, is the division by two of the field: the result is
    precisely reduced again and is the product with the inverse
    [(p256 + 1) / 2] of two. *)
Theorem big_halveP_divides_by_two (a : bigval_t) :
  wf_bigval a ->
  2 * sval (big_halve a) + (if big_is_odd a then 1 else 0) = sval a /\
  (0 <= sval a < p256 ->
   sval (big_halveP a)
   = (if big_is_odd a then (sval a + p256) / 2 else sval a / 2) /\
   0 <= sval (big_halveP a) < p256 /\
   sval (big_halveP a) = (sval a * ((p256 + 1) / 2)) mod p256).
Proof.
  intros Ha.
  pose proof (big_is_odd_spec a Ha) as Hodd.
  destruct (big_halve_sval a Ha) as [_ Hh].
  split.
  { rewrite Hh, Hodd.
    pose proof (Z.div_mod (sval a) 2 ltac:(lia)) as Hd.
    rewrite <- Z.bit0_mod, Z.bit0_odd in Hd.
    destruct (Z.odd (sval a)); cbn [Z.b2z] in Hd; lia. }
  intros Hr.
  assert (Hp : p256 = 2 * ((p256 + 1) / 2) - 1) by reflexivity.
  assert (Hp0 : 0 < p256) by reflexivity.
  assert (Hp1 : p256 < 2 ^ 256) by reflexivity.
  assert (Hform : sval (big_halveP a)
                  = if big_is_odd a then (sval a + p256) / 2 else sval a / 2).
  { unfold big_halveP. fold (big_is_odd a).
    destruct (big_is_odd a).
    - destruct (big_adjustP_sval a 1 Ha ltac:(lia) ltac:(lia)) as [W E].
      destruct (big_halve_sval _ W) as [_ E']. rewrite E', E.
      now rewrite Z.mul_1_l.
    - assumption. }
  set (h := (p256 + 1) / 2) in *.
  assert (Hval : 2 * sval (big_halveP a)
                 = sval a + (if big_is_odd a then p256 else 0)).
  { rewrite Hform. rewrite Hodd.
    pose proof (Z.div_mod (sval a) 2 ltac:(lia)) as Hd.
    pose proof (Z.div_mod (sval a + p256) 2 ltac:(lia)) as Hd'.
    rewrite <- Z.bit0_mod, Z.bit0_odd in Hd.
    rewrite <- Z.bit0_mod, Z.bit0_odd in Hd'.
    rewrite Z.odd_add, Hp in Hd'.
    rewrite Z.odd_sub, Z.odd_mul in Hd'. cbn [Z.odd andb] in Hd'.
    rewrite <- Hp in Hd'.
    destruct (Z.odd (sval a)); cbn [xorb negb Z.b2z] in *; lia. }
  split; [exact Hform|].
  assert (Hrange : 0 <= sval (big_halveP a) < p256)
    by (destruct (big_is_odd a); lia).
  split; [exact Hrange|].
  assert (H2h : 2 * h = p256 + 1) by reflexivity.
  assert (Hq : sval a = 2 * (sval a / 2) + (if big_is_odd a then 1 else 0)).
  { rewrite Hodd. pose proof (Z.div_mod (sval a) 2 ltac:(lia)) as Hd.
    rewrite <- Z.bit0_mod, Z.bit0_odd in Hd.
    destruct (Z.odd (sval a)); cbn [Z.b2z] in Hd; lia. }
  apply Z.mod_unique with (q := sval a / 2); [left; exact Hrange|].
  set (q := sval a / 2) in *. set (r := sval (big_halveP a)) in *.
  set (va := sval a) in *. clearbody h q r va. clear - H2h Hval Hq.
  destruct (big_is_odd a); nia.
Qed.

Lemma big_halveP_divides_by_two_witness :
  wf_bigval big_one /\ 0 <= sval big_one < p256 /\
  sval (big_halveP big_one) = (sval big_one * ((p256 + 1) / 2)) mod p256.
Proof.
  assert (Hr : 0 <= sval big_one < p256)
    by (rewrite sval_big_one; split; [lia|reflexivity]).
  split; [exact wf_big_one|]. split; [exact Hr|].
  destruct (big_halveP_divides_by_two big_one wf_big_one) as [_ H].
  apply (H Hr).
Defined.

Lemma wf_modulus_below : wf_bigval modulus_below.
Proof. split; [reflexivity|]. repeat constructor; discriminate. Qed.

(** ** Tests after exact reduction *)

(** [big_is_zero] and [big_is_one] compare words, so they recognise only the
    canonical representatives: the modulus itself, which is zero as a
    residue, is not zero for [big_is_zero].  After [big_precise_reduce] the
    two tests decide the residue: the result is zero exactly when the modulus
    divides the number, and one exactly when the remainder is one. *)
Theorem zero_test_after_reduce (m : modulus_ref) (a : bigval_t) (fuel : nat) :
  modulus_ok m -> wf_bigval a -> (3 <= fuel)%nat ->
  big_is_zero (deref m) = false /\
  (big_is_zero a = true <-> a = big_zero) /\
  (big_is_one a = true <-> a = big_one) /\
  exists r,
    big_precise_reduce fuel a m = Some r /\
    (big_is_zero r = true <-> (sval (deref m) | sval a)) /\
    (big_is_one r = true <-> sval a mod sval (deref m) = 1).
Proof.
  intros Hm Ha Hf.
  destruct Hm as [Wm Rm].
  assert (HM : 0 < sval (deref m)) by lia.
  split.
  { rewrite (big_is_zero_spec _ Wm). apply Z.eqb_neq. lia. }
  split.
  { rewrite (big_is_zero_spec _ Ha), Z.eqb_eq. split.
    - intros H. apply sval_inj; [assumption|exact wf_big_zero|].
      now rewrite sval_big_zero.
    - intros ->. exact sval_big_zero. }
  split.
  { rewrite (big_is_one_spec _ Ha), Z.eqb_eq. split.
    - intros H. apply sval_inj; [assumption|exact wf_big_one|].
      now rewrite sval_big_one.
    - intros ->. exact sval_big_one. }
  destruct (big_precise_reduce_ok m a fuel (conj Wm Rm) Ha Hf)
    as (r & Hr & Wr & Er).
  exists r. split; [exact Hr|].
  rewrite (big_is_zero_spec _ Wr), (big_is_one_spec _ Wr), Er, !Z.eqb_eq.
  split; [|reflexivity].
  rewrite Z.mod_divide by lia. reflexivity.
Qed.

Lemma zero_test_after_reduce_witness :
  modulus_ok REF_orderP /\ wf_bigval modulusP /\ (3 <= 3)%nat /\
  exists r,
    big_precise_reduce 3 modulusP REF_orderP = Some r /\
    (big_is_zero r = true <-> (sval (deref REF_orderP) | sval modulusP)).
Proof.
  assert (Hm : modulus_ok REF_orderP).
  { split; [exact wf_orderP|]. cbn [deref]. rewrite sval_orderP.
    split; [discriminate|reflexivity]. }
  split; [exact Hm|]. split; [exact wf_modulusP|].
  split; [apply Nat.le_refl|].
  destruct (zero_test_after_reduce REF_orderP modulusP 3 Hm wf_modulusP
              (Nat.le_refl 3)) as (_ & _ & _ & r & Hr & Hz & _).
  exists r. split; [exact Hr|exact Hz].
Defined.

(** ** Canonical representatives *)

(** For every modulus between [2 ^ 256 - 2 ^ 224] and [2 ^ 256], also one
    that is neither the curve modulus nor the order, [big_precise_reduce]
    maps two numbers to the same words exactly when they are congruent, and
    leaves its own results unchanged. *)
Theorem precise_reduce_decides_congruence (m : modulus_ref) (a b : bigval_t)
    (fuel : nat) :
  modulus_ok m -> wf_bigval a -> wf_bigval b -> (3 <= fuel)%nat ->
  exists ra rb,
    big_precise_reduce fuel a m = Some ra /\
    big_precise_reduce fuel b m = Some rb /\
    (ra = rb <-> cong (sval (deref m)) (sval a) (sval b)) /\
    big_precise_reduce fuel ra m = Some ra /\
    (0 <= sval a < sval (deref m) -> ra = a).
Proof.
  intros Hm Ha Hb Hf.
  destruct (big_precise_reduce_ok m a fuel Hm Ha Hf) as (ra & Hra & Wa & Ea).
  destruct (big_precise_reduce_ok m b fuel Hm Hb Hf) as (rb & Hrb & Wb & Eb).
  destruct (big_precise_reduce_ok m ra fuel Hm Wa Hf) as (rr & Hrr & Wr & Er).
  exists ra, rb. split; [exact Hra|]. split; [exact Hrb|].
  assert (HM : 0 < sval (deref m)) by (destruct Hm; lia).
  split; [|split].
  - unfold cong. rewrite <- Ea, <- Eb. split.
    + now intros ->.
    + now apply sval_inj.
  - rewrite Hrr. f_equal. apply sval_inj; [assumption|assumption|].
    rewrite Er, Ea. apply Z.mod_mod. lia.
  - intros Hr. apply sval_inj; [assumption|assumption|].
    rewrite Ea. now apply Z.mod_small.
Qed.

Lemma precise_reduce_decides_congruence_witness :
  modulus_ok (REF_other modulus_below) /\ wf_bigval sample_negative /\
  wf_bigval sample_large /\ (3 <= 3)%nat /\
  exists ra rb,
    big_precise_reduce 3 sample_negative (REF_other modulus_below) = Some ra /\
    big_precise_reduce 3 sample_large (REF_other modulus_below) = Some rb /\
    (ra = rb <->
     cong (sval modulus_below) (sval sample_negative) (sval sample_large)).
Proof.
  assert (Hm : modulus_ok (REF_other modulus_below)).
  { split; [exact wf_modulus_below|]. cbn [deref].
    split; [discriminate|reflexivity]. }
  split; [exact Hm|]. split; [exact wf_sample_negative|].
  split; [exact wf_sample_large|]. split; [apply Nat.le_refl|].
  destruct (precise_reduce_decides_congruence (REF_other modulus_below)
              sample_negative sample_large 3 Hm wf_sample_negative
              wf_sample_large (Nat.le_refl 3))
    as (ra & rb & Ha & Hb & Hc & _).
  exists ra, rb. split; [exact Ha|]. split; [exact Hb|exact Hc].
Defined.

(** ** Compositions of the field operations *)

Lemma field_run_ok (e : field_expr) :
  field_inputs_ok e ->
  wf_bigval (field_run e) /\ coord_range (sval (field_run e)) /\
  eqp (sval (field_run e)) (field_value e).
Proof.
  induction e as [a|e1 IH1 e2 IH2|e1 IH1 e2 IH2|e1 IH1 e2 IH2|e IH];
    cbn [field_inputs_ok field_run field_value].
  - intros [Ha Hr]. split; [assumption|]. split; [assumption|reflexivity].
  - intros [H1 H2].
    destruct (IH1 H1) as (W1 & R1 & E1). destruct (IH2 H2) as (W2 & R2 & E2).
    destruct (big_addP_eqp _ _ W1 W2 R1 R2) as (W & E & R).
    split; [exact W|]. split; [now apply approx_coord_range|].
    now rewrite E, E1, E2.
  - intros [H1 H2].
    destruct (IH1 H1) as (W1 & R1 & E1). destruct (IH2 H2) as (W2 & R2 & E2).
    destruct (big_subP_eqp _ _ W1 W2 R1 R2) as (W & E & R).
    split; [exact W|]. split; [now apply approx_coord_range|].
    now rewrite E, E1, E2.
  - intros [H1 H2].
    destruct (IH1 H1) as (W1 & R1 & E1). destruct (IH2 H2) as (W2 & R2 & E2).
    destruct (big_mpyP_eqp _ _ W1 W2) as (W & E & R).
    split; [exact W|]. split; [now apply approx_coord_range|].
    now rewrite E, E1, E2.
  - intros H1.
    destruct (IH H1) as (W1 & R1 & E1).
    destruct (big_sqrP_eqp _ W1) as (W & E & R).
    split; [exact W|]. split; [now apply approx_coord_range|].
    now rewrite E, E1.
Qed.

(** Any composition of [big_addP], [big_subP], [big_mpyP] and [big_sqrP] on
    inputs between [- 2 ^ 286] and [2 ^ 286] never leaves that range, and
    [big_precise_reduce] of its result is the remainder modulo the curve
    modulus of the integer the same additions, subtractions and products
    give. *)
Theorem field_operations_compose (e : field_expr) (fuel : nat) :
  field_inputs_ok e -> (3 <= fuel)%nat ->
  wf_bigval (field_run e) /\
  - 2 ^ 286 <= sval (field_run e) < 2 ^ 286 /\
  exists r,
    big_precise_reduce fuel (field_run e) REF_modulusP = Some r /\
    sval r = field_value e mod p256.
Proof.
  intros He Hf.
  destruct (field_run_ok e He) as (W & R & E).
  split; [exact W|]. split; [exact R|].
  destruct (precise_reduce_modulusP _ fuel W Hf) as (r & Hr & _ & Er & _).
  exists r. split; [exact Hr|]. rewrite Er. exact E.
Qed.

Lemma field_operations_compose_witness :
  field_inputs_ok sample_field_expr /\ (3 <= 3)%nat /\
  exists r,
    big_precise_reduce 3 (field_run sample_field_expr) REF_modulusP = Some r /\
    sval r = field_value sample_field_expr mod p256.
Proof.
  assert (He : field_inputs_ok sample_field_expr).
  { assert (Hn : wf_bigval sample_negative /\ coord_range (sval sample_negative))
      by (split; [exact wf_sample_negative|vm_compute; split; [discriminate|reflexivity]]).
    assert (Hl : wf_bigval sample_large /\ coord_range (sval sample_large))
      by (split; [exact wf_sample_large|vm_compute; split; [discriminate|reflexivity]]).
    assert (H1 : wf_bigval big_one /\ coord_range (sval big_one))
      by (split; [exact wf_big_one|vm_compute; split; [discriminate|reflexivity]]).
    exact (conj Hn (conj (conj Hl H1) Hn)). }
  split; [exact He|]. split; [apply Nat.le_refl|].
  apply (field_operations_compose sample_field_expr 3 He (Nat.le_refl 3)).
Defined.

(** ** The identity of the modulus *)

Lemma while_loop_ext {S : Type} (I : S -> Prop) (fuel : nat) (cond : S -> bool)
    (body1 body2 : S -> option S) :
  (forall s, I s -> body1 s = body2 s) ->
  (forall s s', I s -> body1 s = Some s' -> I s') ->
  forall s, I s -> while_loop fuel cond body1 s = while_loop fuel cond body2 s.
Proof.
  intros Hext Hinv. induction fuel as [|f IH]; intros s Hs; [reflexivity|].
  cbn [while_loop]. destruct (cond s); [|reflexivity].
  rewrite <- (Hext s Hs). destruct (body1 s) as [s'|] eqn:E; [|reflexivity].
  apply IH. now apply (Hinv s).
Qed.

Lemma while_loop_inv {S : Type} (I : S -> Prop) (fuel : nat) (cond : S -> bool)
    (body : S -> option S) :
  (forall s s', I s -> body s = Some s' -> I s') ->
  forall s r, I s -> while_loop fuel cond body s = Some r -> I r.
Proof.
  intros Hinv. induction fuel as [|f IH]; intros s r Hs; [discriminate|].
  cbn [while_loop]. destruct (cond s).
  - destruct (body s) as [s'|] eqn:E; [|discriminate].
    apply IH. now apply (Hinv s).
  - now intros [= <-].
Qed.

Lemma wf_big_1wd_mpy (a : bigval_t) (k : Z) :
  wf_bigval a -> wf_bigval (big_1wd_mpy a (s32 k)).
Proof. intros Ha. apply big_1wd_mpy_uval; [assumption|apply s32_range]. Qed.

Lemma wf_big_halve (a : bigval_t) : wf_bigval a -> wf_bigval (big_halve a).
Proof. intros Ha. now apply big_halve_sval. Qed.

(** The shortcut [big_precise_reduce] takes for [&modulusP] does what the
    general step does with the words of the curve modulus. *)
Lemma precise_reduce_step_copy (src : bigval_t) :
  wf_bigval src ->
  wf_bigval (precise_reduce_step REF_modulusP src) /\
  precise_reduce_step (REF_other modulusP) src
  = precise_reduce_step REF_modulusP src.
Proof.
  intros Hs. unfold precise_reduce_step. cbn [is_modulusP negb deref].
  pose proof (s32_range (word src MSW)) as Hk.
  set (k := s32 (word src MSW)) in *.
  rewrite (s64_small (- k)) by lia.
  destruct (big_adjustP_uval src (- k) Hs ltac:(lia)) as [W1 [c1 E1]].
  destruct (big_1wd_mpy_uval modulusP k wf_modulusP Hk) as [W2 [c2 E2]].
  destruct (big_sub_uval src _ Hs W2) as [W3 [c3 E3]].
  split; [exact W1|].
  apply (uval_wrap_inj _ _ (c3 - c2 - c1)); [assumption|assumption|].
  assert (Hp : uval modulusP = p256) by reflexivity.
  rewrite Hp in E2. lia.
Qed.

Lemma wf_halve_while_even (fuel : nat) (m u x u' x' : bigval_t) :
  wf_bigval m -> wf_bigval u -> wf_bigval x ->
  halve_while_even fuel m (u, x) = Some (u', x') ->
  wf_bigval u' /\ wf_bigval x'.
Proof.
  intros Hm Hu Hx H. unfold halve_while_even in H.
  apply (while_loop_inv (fun '(u, x) => wf_bigval u /\ wf_bigval x))
    in H; [exact H| |now split].
  intros [u0 x0] [u1 x1] [Hu0 Hx0] [= <- <-].
  split; [now apply wf_big_halve|].
  apply wf_big_halve. destruct (big_is_odd x0); [now apply wf_big_add|assumption].
Qed.

Lemma wf_divide_loop (fuel : nat) (num den : bigval_t) (m : modulus_ref)
    (u v x1 x2 : bigval_t) :
  wf_bigval (deref m) -> wf_bigval num -> wf_bigval den ->
  divide_loop fuel num den m = Some (u, v, x1, x2) ->
  wf_bigval x1 /\ wf_bigval x2.
Proof.
  intros Hm Hn Hd H. unfold divide_loop in H.
  apply (while_loop_inv (fun '(u, v, x1, x2) =>
           wf_bigval u /\ wf_bigval v /\ wf_bigval x1 /\ wf_bigval x2))
    in H.
  - now destruct H as (_ & _ & H1 & H2).
  - intros [[[u0 v0] y1] y2] [[[u1 v1] z1] z2] (Hu0 & Hv0 & Hy1 & Hy2).
    unfold divide_body.
    destruct (halve_while_even fuel (deref m) (u0, y1)) as [[ua xa]|] eqn:Ea;
      [|discriminate].
    destruct (halve_while_even fuel (deref m) (v0, y2)) as [[vb xb]|] eqn:Eb;
      [|discriminate].
    destruct (wf_halve_while_even _ _ _ _ _ _ Hm Hu0 Hy1 Ea) as [Wu Wx].
    destruct (wf_halve_while_even _ _ _ _ _ _ Hm Hv0 Hy2 Eb) as [Wv Wy].
    destruct (big_cmp ua vb >=? 0); intros [= <- <- <- <-].
    + split; [now apply wf_big_sub|]. split; [assumption|].
      split; [now apply wf_big_sub|assumption].
    + split; [assumption|]. split; [now apply wf_big_sub|].
      split; [assumption|now apply wf_big_sub].
  - split; [assumption|]. split; [assumption|].
    split; [assumption|exact wf_big_zero].
Qed.

(** The comparison of the modulus pointer with [&modulusP] only selects a
    shortcut: with a copy of the curve modulus at another address,
    [big_precise_reduce] and [big_divide] return exactly what they return
    for [&modulusP], for every input and every amount of fuel. *)
Theorem modulus_pointer_independent (fuel : nat) (a num den : bigval_t) :
  wf_bigval a -> wf_bigval num -> wf_bigval den ->
  big_precise_reduce fuel a (REF_other modulusP)
  = big_precise_reduce fuel a REF_modulusP /\
  big_divide fuel num den (REF_other modulusP)
  = big_divide fuel num den REF_modulusP.
Proof.
  assert (Hred : forall x, wf_bigval x ->
            big_precise_reduce fuel x (REF_other modulusP)
            = big_precise_reduce fuel x REF_modulusP).
  { intros x Hx. unfold big_precise_reduce. cbn [deref].
    rewrite (while_loop_ext wf_bigval fuel _
               (fun src => Some (precise_reduce_step (REF_other modulusP) src))
               (fun src => Some (precise_reduce_step REF_modulusP src)));
      [reflexivity| | |exact Hx].
    - intros s Hs. f_equal. now apply precise_reduce_step_copy.
    - intros s s' Hs [= <-].
      destruct (precise_reduce_step_copy s Hs) as [W E]. now rewrite E. }
  intros Ha Hn Hd. split; [now apply Hred|].
  unfold big_divide.
  change (divide_loop fuel num den (REF_other modulusP))
    with (divide_loop fuel num den REF_modulusP).
  destruct (divide_loop fuel num den REF_modulusP) as [[[[u v] x1] x2]|] eqn:E;
    [|reflexivity].
  destruct (wf_divide_loop fuel num den REF_modulusP u v x1 x2 wf_modulusP
              Hn Hd E) as [W1 W2].
  destruct (big_is_one u); now apply Hred.
Qed.

Lemma modulus_pointer_independent_witness :
  wf_bigval sample_negative /\ wf_bigval big_one /\ wf_bigval sample_large /\
  big_precise_reduce 546 sample_negative (REF_other modulusP)
  = big_precise_reduce 546 sample_negative REF_modulusP /\
  big_divide 546 big_one sample_large (REF_other modulusP)
  = big_divide 546 big_one sample_large REF_modulusP.
Proof.
  split; [exact wf_sample_negative|]. split; [exact wf_big_one|].
  split; [exact wf_sample_large|].
  apply (modulus_pointer_independent 546 _ _ _ wf_sample_negative wf_big_one
           wf_sample_large).
Defined.

(** ** Multiplication: the reduction modulo the order of the curve *)

Lemma mpy_reduce_order_parts (w : list Z) :
  mpy_reduce_order w
  = for_down MSW (2 * BIGLEN - MSW) order_knock_off (order_normalise w).
Proof.
  unfold mpy_reduce_order, order_normalise.
  match goal with |- context [for_range 0 ?n ?body ?s] =>
    destruct (for_range 0 n body s) as [w1 c1]
  end.
  reflexivity.
Qed.

Lemma lval_upd (w : list Z) (i : nat) (x : Z) :
  (i < length w)%nat ->
  lval (upd w i x) = lval w + 2 ^ (32 * Z.of_nat i) * (x - nth i w 0).
Proof.
  revert i; induction w as [|h t IH]; intros [|i] H;
    cbn [upd lval nth length] in *; try lia.
  rewrite IH by lia.
  replace (32 * Z.of_nat (S i)) with (32 + 32 * Z.of_nat i) by lia.
  rewrite Z.pow_add_r by lia. ring.
Qed.

Lemma bounded_nth (B : Z) (l : list Z) (j : nat) :
  0 <= B -> bounded B l -> - B <= nth j l 0 <= B.
Proof.
  intros HB H. revert j. induction H as [|h t Hh Ht IH]; intros [|j];
    cbn [nth]; auto; lia.
Qed.

(** [carry = tmp >> 32; tmp -= carry << 32;] leaves the low 32 bits. *)
Lemma carry_split (t : Z) :
  - 2 ^ 63 <= t < 2 ^ 63 ->
  s64 (t - s64 (Z.shiftl (Z.shiftr t 32) 32)) = u32 t /\
  word_ok (u32 t) /\ u32 t + 2 ^ 32 * Z.shiftr t 32 = t /\
  - 2 ^ 31 <= Z.shiftr t 32 < 2 ^ 31.
Proof.
  intros Ht. destruct (split32 t) as [Hs Hw].
  rewrite Z.shiftl_mul_pow2 by lia.
  set (c := Z.shiftr t 32) in *. unfold word_ok in Hw.
  assert (Hc : - 2 ^ 31 <= c < 2 ^ 31) by lia.
  rewrite (s64_small (c * 2 ^ 32)) by lia.
  rewrite s64_small by lia.
  repeat split; try lia.
Qed.

Lemma pow32_succ (k : nat) :
  2 ^ (32 * Z.of_nat (S k)) = 2 ^ 32 * 2 ^ (32 * Z.of_nat k).
Proof.
  replace (32 * Z.of_nat (S k)) with (32 + 32 * Z.of_nat k) by lia.
  now rewrite Z.pow_add_r by lia.
Qed.

Lemma order_normalise_spec (w : list Z) :
  length w = (2 * BIGLEN)%nat -> bounded (2 ^ 35) w ->
  normal_words (order_normalise w) /\ lval (order_normalise w) = lval w.
Proof.
  intros Hlen Hbd. unfold order_normalise.
  pose (P := fun (k : nat) (st : list Z * Z) =>
    length (fst st) = (2 * BIGLEN)%nat /\
    (forall j, (j < k)%nat -> word_ok (nth j (fst st) 0)) /\
    (forall j, (k <= j)%nat -> nth j (fst st) 0 = nth j w 0) /\
    - 2 ^ 35 <= snd st <= 2 ^ 35 /\
    lval (fst st) + 2 ^ (32 * Z.of_nat k) * snd st = lval w).
  match goal with |- context [for_range 0 ?n ?body ?s] =>
    assert (HP : P (0 + n)%nat (for_range 0 n body s));
    [apply for_range_ind|destruct (for_range 0 n body s) as [w1 c1]]
  end.
  - unfold P. cbn [fst snd]. split; [assumption|].
    split; [intros; lia|]. split; [reflexivity|]. split; [lia|]. lia.
  - intros k [w' c] Hk (Hl & Hlow & Hhigh & Hc & Hv). cbn [fst snd] in *.
    unfold BIGLEN in Hk, Hl.
    pose proof (bounded_nth (2 ^ 35) w k ltac:(lia) Hbd) as Hwk.
    rewrite (Hhigh k (Nat.le_refl k)).
    rewrite (s64_small (nth k w 0 + c)) by lia.
    destruct (carry_split (nth k w 0 + c) ltac:(lia)) as (E & Hw & Hs & _).
    rewrite E. unfold P. cbn [fst snd].
    split; [now rewrite length_upd|]. split; [|split; [|split]].
    + intros j Hj. destruct (Nat.eq_dec j k) as [->|Hne].
      * rewrite nth_upd_same by lia. exact Hw.
      * rewrite nth_upd_other by lia. apply Hlow. lia.
    + intros j Hj. rewrite nth_upd_other by lia. apply Hhigh. lia.
    + rewrite shiftr32 in *. unfold word_ok in Hw. lia.
    + rewrite lval_upd by lia. rewrite (Hhigh k (Nat.le_refl k)).
      rewrite pow32_succ. lia.
  - destruct HP as (Hl & Hlow & Hhigh & Hc & Hv). cbn [fst snd] in *.
    unfold BIGLEN in *. cbn [Nat.mul Nat.add Nat.sub] in *.
    pose proof (bounded_nth (2 ^ 35) w 17%nat ltac:(lia) Hbd) as Hw17.
    rewrite (Hhigh 17%nat (Nat.le_refl _)).
    rewrite s64_small by lia.
    split; [split|].
    + now rewrite length_upd.
    + intros k Hk. unfold BIGLEN in Hk. rewrite nth_upd_other by lia.
      apply Hlow. lia.
    + rewrite lval_upd by lia. rewrite (Hhigh 17%nat (Nat.le_refl _)). lia.
Qed.
Lemma lval_orderDBL : lval orderDBL = n256.
Proof. reflexivity. Qed.

Lemma orderDBL_digit (t : nat) :
  - 1494787453 <= nth t orderDBL 0 <= 1.
Proof.
  do 9 (destruct t as [|t]; [cbv; split; discriminate|]).
  destruct t; cbv; split; discriminate.
Qed.

Lemma pow32_add (a b : nat) :
  2 ^ (32 * Z.of_nat (a + b)) = 2 ^ (32 * Z.of_nat a) * 2 ^ (32 * Z.of_nat b).
Proof.
  replace (32 * Z.of_nat (a + b)) with (32 * Z.of_nat a + 32 * Z.of_nat b) by lia.
  now rewrite Z.pow_add_r by lia.
Qed.

(** One pass for the word [i]: [v] times the order, shifted to end at the
    word [i], is subtracted. *)
Lemma order_pass_spec (i : nat) (w : list Z) :
  (8 <= i <= 17)%nat -> normal_words w ->
  - 2 ^ 31 <= nth 17 w 0 <= 2 ^ 31 ->
  normal_words (order_pass i w) /\
  lval (order_pass i w)
  = lval w - nth i w 0 * n256 * 2 ^ (32 * Z.of_nat (i - 8)).
Proof.
  intros Hi [Hlen Hwords] Htop. unfold order_pass.
  set (v := nth i w 0). set (lo := (i - MSW)%nat).
  assert (Hv : - 2 ^ 31 <= v < 2 ^ 32).
  { subst v. destruct (Nat.eq_dec i 17) as [->|Hne]; [lia|].
    pose proof (Hwords i ltac:(unfold BIGLEN; lia)) as H.
    unfold word_ok in H. lia. }
  pose (d := fun t : nat => nth t orderDBL 0).
  pose (Q := fun (j : nat) (st : list Z * Z) =>
    length (fst st) = (2 * BIGLEN)%nat /\
    (forall k, (k < 17)%nat -> word_ok (nth k (fst st) 0)) /\
    ((j <= 17)%nat -> nth 17 (fst st) 0 = nth 17 w 0) /\
    - 2 ^ 31 <= snd st < 2 ^ 31 /\
    ((17 < j)%nat -> snd st = 0) /\
    lval (fst st) + 2 ^ (32 * Z.of_nat j) * snd st
    = lval w - v * 2 ^ (32 * Z.of_nat lo) * dsum (j - lo) d).
  match goal with |- context [for_range lo ?n ?body ?s] =>
    assert (HQ : Q (lo + n)%nat (for_range lo n body s));
    [apply for_range_ind|destruct (for_range lo n body s) as [w1 c1]]
  end.
  - unfold Q. cbn [fst snd]. split; [assumption|].
    split; [intros k Hk; apply Hwords; unfold BIGLEN; lia|].
    split; [reflexivity|]. split; [lia|]. split; [reflexivity|].
    rewrite Nat.sub_diag. cbn [dsum]. lia.
  - intros j [w' c] Hj (Hl & Hlow & Hkeep & Hc & _ & Hval).
    cbn [fst snd] in *. unfold BIGLEN, MSW in Hj, Hl. subst lo.
    unfold MSW in *.
    set (t := (j - (i - 8))%nat) in *.
    assert (Hjt : (j = (i - 8) + t)%nat) by lia.
    pose proof (orderDBL_digit t) as Hd.
    assert (Hwj : - 2 ^ 31 <= nth j w' 0 < 2 ^ 32).
    { destruct (Nat.eq_dec j 17) as [->|Hne].
      - rewrite Hkeep by lia. lia.
      - pose proof (Hlow j ltac:(lia)) as H. unfold word_ok in H. lia. }
    unfold order_pass_step. unfold MSW, BIGLEN. cbv beta iota zeta.
    (* the value added to the word *)
    assert (Htmp : exists tmp,
      (if (j <=? i)%nat
       then s64 (s64 (nth j w' 0
                      + s64 (- s64 (v * nth (j + 8 - i) orderDBL 0))) + c)
       else s64 (nth j w' 0 + c)) = tmp /\
      tmp = nth j w' 0 - v * d t + c /\ - 2 ^ 63 <= tmp < 2 ^ 63).
    { destruct (Nat.leb_spec j i) as [Hle|Hgt].
      - replace (j + 8 - i)%nat with t by lia. fold (d t).
        assert (Hvd : - 2 ^ 62 - 2 ^ 61 <= v * d t <= 2 ^ 62 + 2 ^ 61)
          by (unfold d; nia).
        rewrite (s64_small (v * d t)) by lia.
        rewrite (s64_small (- (v * d t))) by lia.
        rewrite (s64_small (nth j w' 0 + - (v * d t))) by lia.
        rewrite s64_small by lia.
        eexists; split; [reflexivity|]. lia.
      - assert (Hdt : d t = 0).
        { unfold d. apply nth_overflow. cbn [orderDBL length]. lia. }
        rewrite s64_small by lia.
        eexists; split; [reflexivity|]. rewrite Hdt. lia. }
    destruct Htmp as (tmp & -> & Etmp & Rtmp).
    assert (HS : dsum (S j - (i - 8)) d
                 = dsum t d + 2 ^ (32 * Z.of_nat t) * d t).
    { replace (S j - (i - 8))%nat with (S t) by lia. reflexivity. }
    assert (Hpow : 2 ^ (32 * Z.of_nat j)
                   = 2 ^ (32 * Z.of_nat (i - 8)) * 2 ^ (32 * Z.of_nat t)).
    { rewrite Hjt at 1. apply pow32_add. }
    destruct (Nat.ltb_spec j (2 * 9 - 1)) as [Hlt|Hge].
    + destruct (carry_split tmp Rtmp) as (E & Hw & Hs & Hc').
      rewrite E. unfold Q. cbn [fst snd].
      split; [now rewrite length_upd|]. split; [|split; [|split; [|split]]].
      * intros k Hk. destruct (Nat.eq_dec k j) as [->|Hne].
        -- rewrite nth_upd_same by lia. exact Hw.
        -- rewrite nth_upd_other by lia. now apply Hlow.
      * intros _. rewrite nth_upd_other by lia. apply Hkeep. lia.
      * exact Hc'.
      * intros H. lia.
      * rewrite lval_upd by lia. rewrite pow32_succ, HS.
        rewrite Hpow in *.
        set (A := 2 ^ (32 * Z.of_nat (i - 8))) in *.
        set (B := 2 ^ (32 * Z.of_nat t)) in *.
        set (S0 := dsum t d) in *. set (x := u32 tmp) in *.
        set (c' := Z.shiftr tmp 32) in *.
        clearbody A B S0 x c'. 
        replace (lval w' + A * B * (x - nth j w' 0) + 2 ^ 32 * (A * B) * c')
          with (lval w' + A * B * c + A * B * (x + 2 ^ 32 * c' - nth j w' 0 - c))
          by ring.
        rewrite Hval, Hs, Etmp. ring.
    + assert (Hj17 : j = 17%nat) by lia.
      unfold Q. cbn [fst snd].
      split; [now rewrite length_upd|]. split; [|split; [|split; [|split]]].
      * intros k Hk. rewrite nth_upd_other by lia. now apply Hlow.
      * intros H. lia.
      * lia.
      * reflexivity.
      * rewrite lval_upd by lia. rewrite HS. rewrite Hpow in *.
        set (A := 2 ^ (32 * Z.of_nat (i - 8))) in *.
        set (B := 2 ^ (32 * Z.of_nat t)) in *.
        set (S0 := dsum t d) in *.
        clearbody A B S0.
        rewrite Z.mul_0_r, Z.add_0_r.
        replace (lval w' + A * B * (tmp - nth j w' 0))
          with (lval w' + A * B * c + A * B * (tmp - nth j w' 0 - c))
          by ring.
        rewrite Hval, Etmp. ring.
  - destruct HQ as (Hl & Hlow & _ & _ & Hc0 & Hval). cbn [fst snd] in *.
    subst lo. unfold MSW, BIGLEN in *.
    rewrite Hc0 in Hval by lia.
    split; [split|].
    + assumption.
    + intros k Hk. unfold BIGLEN in Hk. apply Hlow. lia.
    + rewrite Z.mul_0_r, Z.add_0_r in Hval. rewrite Hval.
      replace (dsum (i - 8 + (2 * 9 - (i - 8)) - (i - 8)) d) with n256.
      * ring.
      * unfold d. rewrite dsum_nth, firstn_all2 by (cbn [orderDBL length]; lia).
        symmetry. exact lval_orderDBL.
Qed.
(** The words of a number in normal form are its digits: the word [k] is
    the quotient by [2 ^ (32 * k)] when nothing lies above it. *)
Lemma normal_digit (w : list Z) (k : nat) :
  normal_words w -> (k <= 17)%nat ->
  ((k < 17)%nat -> 0 <= lval w < 2 ^ (32 * Z.of_nat (S k))) ->
  exists L, 0 <= L < 2 ^ (32 * Z.of_nat k) /\
            lval w = L + 2 ^ (32 * Z.of_nat k) * nth k w 0.
Proof.
  intros [Hlen Hwords] Hk Hrange. unfold BIGLEN in *.
  assert (Hfirst : forall m, (m <= 17)%nat ->
            0 <= lval (firstn m w) < 2 ^ (32 * Z.of_nat m)).
  { intros m Hm.
    assert (Hlm : length (firstn m w) = m) by (rewrite length_firstn; lia).
    rewrite <- Hlm at 3.
    apply lval_bound. apply Forall_forall. intros x Hx.
    destruct (In_nth _ _ 0 Hx) as (j & Hj & <-).
    rewrite length_firstn in Hj.
    rewrite nth_firstn.
    destruct (Nat.ltb_spec j m); [|lia].
    apply Hwords. lia. }
  assert (Hsplit : forall m, (m <= 18)%nat ->
            lval w = lval (firstn m w)
                     + 2 ^ (32 * Z.of_nat m) * lval (skipn m w)).
  { intros m Hm. rewrite <- (firstn_skipn m w) at 1.
    rewrite lval_app, length_firstn. now rewrite Nat.min_l by lia. }
  exists (lval (firstn k w)). split; [now apply Hfirst|].
  rewrite (Hsplit k) at 1 by lia. f_equal. f_equal.
  destruct (Nat.eq_dec k 17) as [->|Hne].
  - do 18 (destruct w as [|? w]; [discriminate Hlen|]).
    destruct w; [|discriminate Hlen].
    cbn [skipn lval nth]. lia.
  - specialize (Hrange ltac:(lia)).
    pose proof (Hfirst (S k) ltac:(lia)) as HF.
    pose proof (Hsplit (S k) ltac:(lia)) as HS.
    assert (Hp : 0 < 2 ^ (32 * Z.of_nat (S k)))
      by (apply Z.pow_pos_nonneg; lia).
    assert (HR : lval (skipn (S k) w) = 0) by nia.
    assert (Hcons : skipn k w = nth k w 0 :: skipn (S k) w).
    { clear - Hlen Hk. revert k Hk. 
      assert (H : forall (l : list Z) k, (k < length l)%nat ->
                skipn k l = nth k l 0 :: skipn (S k) l).
      { induction l as [|h t IH]; intros [|k] Hk; cbn [length] in *; try lia.
        - reflexivity.
        - cbn [skipn nth]. rewrite (IH k) by lia. reflexivity. }
      intros k Hk. apply H. lia. }
    rewrite Hcons. cbn [lval]. rewrite HR. lia.
Qed.

(** One turn of the loop on [k]. *)
Lemma order_turn_spec (i : nat) (w : list Z) :
  (8 <= i <= 17)%nat -> normal_words w ->
  - 2 ^ 31 <= nth 17 w 0 <= 2 ^ 31 ->
  let w' := if negb (nth i w 0 =? 0) then order_pass i w else w in
  normal_words w' /\
  lval w' = lval w - nth i w 0 * n256 * 2 ^ (32 * Z.of_nat (i - 8)).
Proof.
  intros Hi Hw Htop. cbv zeta.
  destruct (Z.eqb_spec (nth i w 0) 0) as [E|E]; cbn [negb].
  - split; [assumption|]. rewrite E. lia.
  - now apply order_pass_spec.
Qed.
Lemma normal_top (w : list Z) :
  normal_words w -> - 2 ^ 31 * 2 ^ 544 <= lval w < 2 ^ 31 * 2 ^ 544 ->
  - 2 ^ 31 <= nth 17 w 0 <= 2 ^ 31.
Proof.
  intros Hw Hr.
  destruct (normal_digit w 17 Hw (Nat.le_refl _)) as (L & HL & E); [lia|].
  change (2 ^ (32 * Z.of_nat 17)) with (2 ^ 544) in *. lia.
Qed.

Lemma mul_bounds (T v a b : Z) :
  0 < T -> a <= v <= b -> a * T <= T * v <= b * T.
Proof. intros HT Hv. nia. Qed.

Lemma digit_zero (T L v : Z) :
  0 <= L < T -> 0 <= L + T * v < T -> v = 0.
Proof. intros HL H. nia. Qed.

(** The arithmetic of two turns: [X] is the difference between
    [2 ^ 256] and the order, at the position of the word. *)
Lemma knock_off_arith (T X v0 L0 v1 L1 : Z) :
  0 < X -> 2 ^ 32 * X <= T -> - 2 ^ 30 <= v0 < 2 ^ 32 ->
  0 <= L0 < T -> 0 <= L1 < T -> L0 + v0 * X = L1 + T * v1 ->
  - 1 <= v1 <= 1 /\ 0 <= L1 + v1 * X < T.
Proof.
  intros HX HT Hv0 HL0 HL1 E.
  pose proof (mul_bounds X v0 (- 2 ^ 30) (2 ^ 32 - 1) HX ltac:(lia)) as Hb.
  assert (Hv1 : - 1 <= v1 <= 1) by nia.
  split; [exact Hv1|].
  assert (Hc : v1 = -1 \/ v1 = 0 \/ v1 = 1) by lia.
  destruct Hc as [E1 | [E1 | E1]]; subst v1; lia.
Qed.

(** The loop on [k] knocks off the word [i]. *)
Lemma order_knock_off_spec (i : nat) (w : list Z) :
  (8 <= i <= 17)%nat -> normal_words w ->
  ((i < 17)%nat -> 0 <= lval w < 2 ^ (32 * Z.of_nat (S i))) ->
  (i = 17%nat -> - 2 ^ 30 <= nth 17 w 0 <= 2 ^ 30) ->
  normal_words (order_knock_off i w) /\
  cong n256 (lval (order_knock_off i w)) (lval w) /\
  0 <= lval (order_knock_off i w) < 2 ^ (32 * Z.of_nat i).
Proof.
  intros Hi Hw Hrange Htop17.
  unfold order_knock_off. cbn [for_range].
  set (T := 2 ^ (32 * Z.of_nat i)).
  set (S := 2 ^ (32 * Z.of_nat (i - 8))).
  assert (HS : 0 < S) by (apply Z.pow_pos_nonneg; lia).
  assert (HT : T = 2 ^ 256 * S).
  { unfold T, S. replace i with (8 + (i - 8))%nat at 1 by lia.
    rewrite pow32_add. reflexivity. }
  assert (HT0 : 0 < T) by (apply Z.pow_pos_nonneg; lia).
  assert (HT17 : T <= 2 ^ 544) by (apply Z.pow_le_mono_r; lia).
  assert (HT16 : (i < 17)%nat -> 2 ^ 32 * T <= 2 ^ 544).
  { intros Hlt. change (2 ^ 544) with (2 ^ 32 * 2 ^ 512).
    apply Z.mul_le_mono_nonneg_l; [lia|].
    apply Z.pow_le_mono_r; lia. }
  assert (HTS : 2 ^ (32 * Z.of_nat (Datatypes.S i)) = 2 ^ 32 * T)
    by apply pow32_succ.
  rewrite HTS in Hrange.
  pose (D := 2 ^ 256 - n256).
  assert (HD : 0 < D < 2 ^ 224) by (split; reflexivity).
  assert (Hn : n256 = 2 ^ 256 - D) by (unfold D; lia).
  set (X := D * S).
  assert (HX : 0 < X) by (apply Z.mul_pos_pos; lia).
  assert (HXT : 2 ^ 32 * X <= T).
  { pose proof (mul_bounds S (2 ^ 32 * D) 0 (2 ^ 256) HS ltac:(lia)) as H.
    unfold X. lia. }
  (* the word and the rest *)
  assert (Hdigit : forall u, normal_words u ->
            ((i < 17)%nat -> 0 <= lval u < 2 ^ 32 * T) ->
            exists L, 0 <= L < T /\ lval u = L + T * nth i u 0).
  { intros u Hu Hr. apply normal_digit; [assumption|lia|].
    intros Hlt. rewrite HTS. now apply Hr. }
  assert (Hturn : forall u, normal_words u ->
            - 2 ^ 31 * 2 ^ 544 <= lval u < 2 ^ 31 * 2 ^ 544 ->
            forall L, lval u = L + T * nth i u 0 ->
            let u' := if negb (nth i u 0 =? 0) then order_pass i u else u in
            normal_words u' /\ lval u' = L + nth i u 0 * X).
  { intros u Hu Hr L E.
    destruct (order_turn_spec i u Hi Hu (normal_top u Hu Hr)) as [N V].
    cbv zeta in *. split; [exact N|].
    rewrite V, E, Hn. fold S. unfold X. rewrite HT. ring. }
  (* first turn *)
  destruct (Hdigit w Hw Hrange) as (L0 & HL0 & E0).
  assert (Hv0 : - 2 ^ 30 <= nth i w 0 < 2 ^ 32).
  { destruct (Nat.eq_dec i 17) as [->|Hne].
    - specialize (Htop17 eq_refl). lia.
    - destruct Hw as [_ Hwords].
      pose proof (Hwords i ltac:(unfold BIGLEN; lia)) as H.
      unfold word_ok in H. lia. }
  pose proof (mul_bounds T (nth i w 0) (- 2 ^ 30) (2 ^ 32 - 1) HT0
                ltac:(lia)) as Hp0.
  assert (Hr0 : - 2 ^ 31 * 2 ^ 544 <= lval w < 2 ^ 31 * 2 ^ 544).
  { destruct (Nat.eq_dec i 17) as [Heq|Hne].
    - specialize (Htop17 Heq). rewrite <- Heq in Htop17.
      pose proof (mul_bounds T (nth i w 0) (- 2 ^ 30) (2 ^ 30) HT0
                    ltac:(lia)). lia.
    - specialize (HT16 ltac:(lia)). lia. }
  destruct (Hturn w Hw Hr0 L0 E0) as [N1 V1]. cbv zeta in N1, V1.
  set (w1 := if negb (nth i w 0 =? 0) then order_pass i w else w) in *.
  pose proof (mul_bounds X (nth i w 0) (- 2 ^ 30) (2 ^ 32 - 1) HX
                ltac:(lia)) as Hb.
  assert (Hr1 : - 2 ^ 31 * 2 ^ 544 <= lval w1 < 2 ^ 31 * 2 ^ 544) by lia.
  assert (Hrange1 : (i < 17)%nat -> 0 <= lval w1 < 2 ^ 32 * T).
  { intros Hlt. destruct Hw as [_ Hwords].
    pose proof (Hwords i ltac:(unfold BIGLEN; lia)) as H.
    unfold word_ok in H.
    pose proof (mul_bounds X (nth i w 0) 0 (2 ^ 32 - 1) HX ltac:(lia)).
    lia. }
  (* second turn *)
  destruct (Hdigit w1 N1 Hrange1) as (L1 & HL1 & E1).
  destruct (knock_off_arith T X (nth i w 0) L0 (nth i w1 0) L1
              HX HXT Hv0 HL0 HL1 ltac:(lia)) as [Hv1 Hres].
  destruct (Hturn w1 N1 Hr1 L1 E1) as [N2 V2]. cbv zeta in N2, V2.
  set (w2 := if negb (nth i w1 0 =? 0) then order_pass i w1 else w1) in *.
  (* third turn: nothing is left *)
  assert (Hrange2 : (i < 17)%nat -> 0 <= lval w2 < 2 ^ 32 * T) by lia.
  destruct (Hdigit w2 N2 Hrange2) as (L2 & HL2 & E2).
  assert (Hz : nth i w2 0 = 0)
    by (apply (digit_zero T L2); [exact HL2|lia]).
  rewrite Hz. cbn [Z.eqb negb].
  split; [exact N2|]. split; [|lia].
  unfold cong.
  replace (lval w2)
    with (lval w + (- ((nth i w 0 + nth i w1 0) * S)) * n256).
  - apply Z_mod_plus_full.
  - rewrite V2, E0. 
    assert (EL : L1 = L0 + nth i w 0 * X - T * nth i w1 0) by lia.
    rewrite EL, Hn. unfold X. rewrite HT. ring.
Qed.
Lemma mpy_reduce_order_spec (w : list Z) :
  length w = (2 * BIGLEN)%nat -> bounded (2 ^ 35) w ->
  - 2 ^ 574 <= lval w <= 2 ^ 574 ->
  length (mpy_reduce_order w) = (2 * BIGLEN)%nat /\
  bounded (2 ^ 45) (mpy_reduce_order w) /\
  cong n256 (lval (mpy_reduce_order w)) (lval w) /\
  skipn MSW (mpy_reduce_order w) = repeat 0 (2 * BIGLEN - MSW) /\
  0 <= lval (mpy_reduce_order w) < 2 ^ 256.
Proof.
  intros Hlen Hbd Hrange. rewrite mpy_reduce_order_parts.
  destruct (order_normalise_spec w Hlen Hbd) as [N0 V0].
  set (w0 := order_normalise w) in *. clearbody w0.
  pose (P := fun (k : nat) (u : list Z) =>
    normal_words u /\ cong n256 (lval u) (lval w) /\
    ((k <= 17)%nat -> 0 <= lval u < 2 ^ (32 * Z.of_nat k)) /\
    (k = 18%nat -> - 2 ^ 30 <= nth 17 u 0 <= 2 ^ 30)).
  assert (HP : P MSW (for_down MSW (2 * BIGLEN - MSW) order_knock_off w0)).
  { apply for_down_ind.
    - unfold P. split; [exact N0|]. split; [now rewrite V0|].
      unfold MSW, BIGLEN. cbn [Nat.mul Nat.add Nat.sub].
      split; [intros; lia|]. intros _.
      destruct (normal_digit w0 17 N0 (Nat.le_refl _)) as (L & HL & E); [lia|].
      change (2 ^ (32 * Z.of_nat 17)) with (2 ^ 544) in *.
      change (2 ^ 574) with (2 ^ 30 * 2 ^ 544) in Hrange. lia.
    - intros i u Hi (N & C & R & Htop). unfold MSW, BIGLEN in Hi.
      destruct (order_knock_off_spec i u ltac:(lia) N) as (N' & C' & R').
      + intros Hlt. apply R. lia.
      + intros ->. now apply Htop.
      + unfold P. split; [exact N'|].
        split; [eapply cong_trans; eassumption|].
        split; [intros _; exact R'|]. intros ->. lia. }
  destruct HP as (N & C & R & _).
  set (r := for_down MSW (2 * BIGLEN - MSW) order_knock_off w0) in *.
  clearbody r. specialize (R ltac:(unfold MSW; lia)).
  change (2 ^ (32 * Z.of_nat MSW)) with (2 ^ 256) in R.
  assert (Hz : forall k, (8 <= k <= 17)%nat -> nth k r 0 = 0).
  { intros k Hk.
    assert (Hp : 2 ^ 256 <= 2 ^ (32 * Z.of_nat k))
      by (apply Z.pow_le_mono_r; lia).
    destruct (normal_digit r k N ltac:(lia)) as (L & HL & E).
    - intros _. rewrite pow32_succ. lia.
    - apply (digit_zero (2 ^ (32 * Z.of_nat k)) L); [exact HL|lia]. }
  destruct N as [Hl Hwords].
  split; [exact Hl|].
  assert (Hlow : forall k, (k < 8)%nat -> word_ok (nth k r 0))
    by (intros k Hk; apply Hwords; unfold BIGLEN; lia).
  pose proof (Hlow 0%nat ltac:(lia)) as H0.
  pose proof (Hlow 1%nat ltac:(lia)) as H1.
  pose proof (Hlow 2%nat ltac:(lia)) as H2.
  pose proof (Hlow 3%nat ltac:(lia)) as H3.
  pose proof (Hlow 4%nat ltac:(lia)) as H4.
  pose proof (Hlow 5%nat ltac:(lia)) as H5.
  pose proof (Hlow 6%nat ltac:(lia)) as H6.
  pose proof (Hlow 7%nat ltac:(lia)) as H7.
  pose proof (Hz 8%nat ltac:(lia)) as Z8.
  pose proof (Hz 9%nat ltac:(lia)) as Z9.
  pose proof (Hz 10%nat ltac:(lia)) as Z10.
  pose proof (Hz 11%nat ltac:(lia)) as Z11.
  pose proof (Hz 12%nat ltac:(lia)) as Z12.
  pose proof (Hz 13%nat ltac:(lia)) as Z13.
  pose proof (Hz 14%nat ltac:(lia)) as Z14.
  pose proof (Hz 15%nat ltac:(lia)) as Z15.
  pose proof (Hz 16%nat ltac:(lia)) as Z16.
  pose proof (Hz 17%nat ltac:(lia)) as Z17.
  clear Hz Hlow Hwords.
  explode18 r Hl. cbn [nth] in *. subst. unfold word_ok in *.
  split; [unfold bounded; repeat (constructor; [lia|]); constructor|].
  split; [exact C|]. split; [reflexivity|exact R].
Qed.

(** [big_mpyP] with [MOD_ORDER]: the product modulo the order of the curve,
    between 0 and [2 ^ 256]. *)
Lemma big_mpyP_order_sval (a b : bigval_t) (same : bool) :
  wf_bigval a -> wf_bigval b -> (same = true -> a = b) ->
  wf_bigval (big_mpyP a b same MOD_ORDER) /\
  cong n256 (sval (big_mpyP a b same MOD_ORDER)) (sval a * sval b) /\
  0 <= sval (big_mpyP a b same MOD_ORDER) < 2 ^ 256.
Proof.
  intros Ha Hb Hsame. unfold big_mpyP.
  destruct (big_is_zero a || big_is_zero b) eqn:Ez.
  - change (mkbig (repeat 0 BIGLEN)) with big_zero.
    split; [apply wf_big_zero|]. rewrite sval_big_zero.
    split; [|lia].
    apply orb_true_iff in Ez. destruct Ez as [Ez|Ez];
      apply big_is_zero_sval in Ez; auto; rewrite Ez.
    + now rewrite Z.mul_0_l.
    + now rewrite Z.mul_0_r.
  - destruct (mpy_unsigned_spec a b same Ha Hb Hsame) as (L0 & F0 & V0).
    destruct (mpy_sign_correct_spec a b _ Ha Hb L0 F0 V0) as (L1 & B1 & V1).
    assert (Hprod : - 2 ^ 574 <= sval a * sval b <= 2 ^ 574).
    { pose proof (sval_range a Ha). pose proof (sval_range b Hb).
      change (2 ^ 574) with (2 ^ 287 * 2 ^ 287). nia. }
    rewrite <- V1 in Hprod.
    destruct (mpy_reduce_order_spec _ L1 B1 Hprod) as (L2 & B2 & C2 & Z2 & R2).
    destruct (mpy_copy_out_spec _ L2 B2 Z2) as (Hwf & Hv).
    cbv zeta in Hwf, Hv.
    match type of Hwf with wf_bigval ?t => set (tgt := t) in * end.
    assert (Htop : word tgt MSW = 0).
    { pose proof (sval_split tgt Hwf) as Hs.
      pose proof (lo_range tgt Hwf) as Hlo.
      pose proof (word_range tgt MSW Hwf) as Hw8.
      rewrite Hv in Hs. rewrite s32_word in Hs by exact Hw8.
      destruct (2 ^ 31 <=? word tgt MSW); lia. }
    rewrite Htop. cbn [Z.eqb negb].
    split; [exact Hwf|]. rewrite Hv.
    split; [|exact R2]. rewrite <- V1. exact C2.
Qed.
(** [big_mpyP] with [MOD_ORDER] returns a big number between 0 and [2 ^ 256]
    (never a negative one, whatever the signs of the factors), congruent to
    the product modulo the order of the curve, and [big_precise_reduce] with
    [&orderP] turns it into the remainder of the product modulo the order. *)
Theorem big_mpyP_order_precise_reduce (a b : bigval_t) (same : bool)
    (fuel : nat) :
  wf_bigval a -> wf_bigval b -> (same = true -> a = b) -> (3 <= fuel)%nat ->
  wf_bigval (big_mpyP a b same MOD_ORDER) /\
  0 <= sval (big_mpyP a b same MOD_ORDER) < 2 ^ 256 /\
  cong n256 (sval (big_mpyP a b same MOD_ORDER)) (sval a * sval b) /\
  exists r,
    big_precise_reduce fuel (big_mpyP a b same MOD_ORDER) REF_orderP = Some r /\
    wf_bigval r /\ sval r = (sval a * sval b) mod n256.
Proof.
  intros Ha Hb Hsame Hf.
  destruct (big_mpyP_order_sval a b same Ha Hb Hsame) as (W & C & R).
  split; [exact W|]. split; [exact R|]. split; [exact C|].
  assert (Hm : modulus_ok REF_orderP).
  { split; [exact wf_orderP|]. cbn [deref]. rewrite sval_orderP.
    split; [discriminate|reflexivity]. }
  destruct (big_precise_reduce_ok REF_orderP _ fuel Hm W Hf) as (r & Hr & Wr & Er).
  exists r. split; [exact Hr|]. split; [exact Wr|].
  rewrite Er. cbn [deref]. rewrite sval_orderP. exact C.
Qed.

Lemma big_mpyP_order_precise_reduce_witness :
  wf_bigval sample_negative /\ wf_bigval sample_large /\
  (false = true -> sample_negative = sample_large) /\ (3 <= 3)%nat /\
  exists r,
    big_precise_reduce 3 (big_mpyP sample_negative sample_large false MOD_ORDER)
      REF_orderP = Some r /\
    wf_bigval r /\
    sval r = (sval sample_negative * sval sample_large) mod n256.
Proof.
  split; [exact wf_sample_negative|]. split; [exact wf_sample_large|].
  split; [discriminate|]. split; [apply Nat.le_refl|].
  apply (big_mpyP_order_precise_reduce sample_negative sample_large false 3
           wf_sample_negative wf_sample_large).
  - discriminate.
  - apply Nat.le_refl.
Defined.

(** ** REDP-1: the increment of the digest *)

Lemma be_value_fold (l : list Z) (acc : Z) :
  fold_left (fun acc b => 256 * acc + b) l acc
  = acc * 256 ^ Z.of_nat (length l) + be_value l.
Proof.
  unfold be_value. revert acc.
  induction l as [|h t IH]; intros acc; cbn [fold_left length].
  - change (256 ^ Z.of_nat 0) with 1. lia.
  - rewrite IH, (IH (256 * 0 + h)).
    rewrite Nat2Z.inj_succ, Z.pow_succ_r by lia. ring.
Qed.

Lemma be_value_cons (x : Z) (t : list Z) :
  be_value (x :: t) = x * 256 ^ Z.of_nat (length t) + be_value t.
Proof.
  unfold be_value at 1. cbn [fold_left]. rewrite be_value_fold. lia.
Qed.

Lemma be_value_app (l1 l2 : list Z) :
  be_value (l1 ++ l2)
  = be_value l1 * 256 ^ Z.of_nat (length l2) + be_value l2.
Proof.
  unfold be_value at 1. rewrite fold_left_app.
  fold (be_value l1). apply be_value_fold.
Qed.

Lemma be_value_bound (l : list Z) :
  Forall byte_ok l -> 0 <= be_value l < 256 ^ Z.of_nat (length l).
Proof.
  induction 1 as [|h t Hh Ht IH].
  - cbn. lia.
  - rewrite be_value_cons. cbn [length].
    rewrite Nat2Z.inj_succ, Z.pow_succ_r by lia.
    unfold byte_ok in Hh. nia.
Qed.

Lemma skipn_nth_cons (l : list Z) (k : nat) :
  (k < length l)%nat -> skipn k l = nth k l 0 :: skipn (S k) l.
Proof.
  revert k. induction l as [|h t IH]; intros [|k] Hk; cbn [length] in *;
    try lia.
  - reflexivity.
  - cbn [skipn nth]. rewrite (IH k) by lia. reflexivity.
Qed.

Lemma skipn_upd_lt (l : list Z) (i k : nat) (x : Z) :
  (i < k)%nat -> skipn k (upd l i x) = skipn k l.
Proof.
  revert i k. induction l as [|h t IH]; intros [|i] [|k] H; cbn [upd skipn];
    try lia; try reflexivity.
  apply IH. lia.
Qed.

Lemma u8_byte (x : Z) : byte_ok (u8 x).
Proof. unfold byte_ok, u8. apply Z.mod_pos_bound. lia. Qed.

Lemma byte_ok_nth (l : list Z) (i : nat) : Forall byte_ok l -> byte_ok (nth i l 0).
Proof.
  intros H. revert i. induction H; intros [|i]; cbn [nth]; auto;
    unfold byte_ok; lia.
Qed.

Lemma digest_increment_inv (n : nat) (d : list Z) :
  length d = n -> Forall byte_ok d ->
  let r := digest_increment n d in
  length (fst r) = n /\ Forall byte_ok (fst r) /\
  (snd r = 0 \/ snd r = 1) /\
  (snd r = 1 <-> nth 0 (fst r) 0 = 0) /\
  ((forall x, In x d -> x <> 0) ->
   be_value (fst r) + snd r * 256 ^ Z.of_nat n = be_value d + 1) /\
  ((2 <= n)%nat -> nth 0 d 0 = 0 -> 0 < nth 1 d 0 < 255 -> snd r = 1).
Proof.
  intros Hlen Hd. unfold digest_increment.
  pose (P := fun (k : nat) (st : list Z * Z) =>
    length (fst st) = n /\ Forall byte_ok (fst st) /\
    (snd st = 0 \/ snd st = 1) /\
    (forall i, (i < k)%nat -> nth i (fst st) 0 = nth i d 0) /\
    ((k < n)%nat -> (snd st = 1 <-> nth k (fst st) 0 = 0)) /\
    ((forall x, In x d -> x <> 0) ->
     be_value (skipn k (fst st)) + snd st * 256 ^ Z.of_nat (n - k)
     = be_value (skipn k d) + 1) /\
    ((2 <= n)%nat -> nth 0 d 0 = 0 -> 0 < nth 1 d 0 < 255 ->
     (k = 1%nat -> snd st = 0) /\ (k = 0%nat -> snd st = 1))).
  match goal with |- context [for_down 0 n ?body ?s] =>
    assert (HP : P 0%nat (for_down 0 n body s));
    [apply for_down_ind|destruct (for_down 0 n body s) as [d1 c1]]
  end.
  - unfold P. cbn [fst snd Nat.add]. split; [assumption|].
    split; [assumption|]. split; [now right|]. split; [reflexivity|].
    split; [intros H; lia|]. split.
    + intros _. rewrite Nat.sub_diag.
      rewrite !skipn_all2 by lia. cbn. lia.
    + intros Hn _ _. split; intros H; lia.
  - intros i [d' c] Hi (Hl & Hb & Hc & Hkeep & _ & Hval & Hdev).
    cbn [fst snd] in *.
    assert (Hx : nth i (upd d' i (u8 (nth i d' 0 + c))) 0
                 = u8 (nth i d' 0 + c)) by (apply nth_upd_same; lia).
    rewrite Hx.
    pose proof (byte_ok_nth d' i Hb) as Hbi. unfold byte_ok in Hbi.
    assert (Hu : u8 (nth i d' 0 + c)
                 = if nth i d' 0 + c =? 256 then 0 else nth i d' 0 + c).
    { unfold u8. change (2 ^ 8) with 256.
      destruct (Z.eqb_spec (nth i d' 0 + c) 256) as [E|E].
      - rewrite E. reflexivity.
      - apply Z.mod_small. lia. }
    unfold P. cbn [fst snd].
    split; [now rewrite length_upd|].
    split; [apply Forall_upd; [assumption|apply u8_byte]|].
    split; [destruct (u8 (nth i d' 0 + c) =? 0); [now right|now left]|].
    split; [intros j Hj; rewrite nth_upd_other by lia; apply Hkeep; lia|].
    split; [|split].
    + intros _. rewrite Hx.
      destruct (Z.eqb_spec (u8 (nth i d' 0 + c)) 0) as [E|E];
        split; intros H; try assumption; try reflexivity;
        [discriminate H|contradiction].
    + intros Hnz. specialize (Hval Hnz).
      rewrite (skipn_nth_cons (upd d' i _) i) by (rewrite length_upd; lia).
      rewrite Hx, (skipn_upd_lt d' i (S i)) by lia.
      rewrite (skipn_nth_cons d i) by lia.
      rewrite !be_value_cons, !length_skipn, Hl, Hlen.
      replace (n - i)%nat with (S (n - S i)) by lia.
      rewrite Nat2Z.inj_succ, Z.pow_succ_r by lia.
      set (B := 256 ^ Z.of_nat (n - S i)) in *.
      rewrite (Hkeep i ltac:(lia)) in *.
      assert (Hdi : nth i d 0 <> 0).
      { apply Hnz. apply nth_In. lia. }
      rewrite Hu.
      destruct (Z.eqb_spec (nth i d 0 + c) 256) as [E|E].
      * cbn [Z.eqb]. nia.
      * destruct (Z.eqb_spec (nth i d 0 + c) 0) as [E0|E0]; [lia|]. nia.
    + intros Hn H0 H1. destruct (Hdev Hn H0 H1) as [Hd1 Hd0]. split.
      * intros ->. rewrite (Hkeep 1%nat ltac:(lia)) in *.
        rewrite Hu.
        destruct (Z.eqb_spec (nth 1 d 0 + c) 256) as [E|E]; [lia|].
        destruct (Z.eqb_spec (nth 1 d 0 + c) 0) as [E0|E0]; [lia|reflexivity].
      * intros ->. rewrite (Hkeep 0%nat ltac:(lia)) in *.
        rewrite H0, (Hd1 eq_refl). reflexivity.
  - destruct HP as (Hl & Hb & Hc & _ & Hz & Hval & Hdev). cbn [fst snd] in *.
    split; [assumption|]. split; [assumption|]. split; [assumption|].
    split.
    { destruct n as [|n'].
      - destruct d1; [|discriminate Hl]. cbn [nth].
        destruct Hc as [Hc|Hc]; [|now rewrite Hc].
        specialize (Hval ltac:(destruct d; [intros x []|discriminate Hlen])).
        destruct d; [|discriminate Hlen]. cbn in Hval. lia.
      - apply Hz. lia. }
    split.
    + intros Hnz. specialize (Hval Hnz). cbn [skipn] in Hval.
      rewrite Nat.sub_0_r in Hval. exact Hval.
    + intros Hn H0 H1. now apply (Hdev Hn H0 H1).
Qed.

(** The loop of [ec_REDP1] that increments the digest sets [carry] when the
    byte it has written is zero, not when the byte has wrapped.  On a digest
    without a zero byte this is the increment of the big-endian number, and
    the final [carry] is its overflow.  In general the final [carry] only
    says that the first byte of the new digest is zero: a digest whose first
    byte is 0 and whose second byte is neither 0 nor 255 ends with
    [carry = 1], though the number is far from overflowing. *)
Theorem digest_increment_carry (n : nat) (d : list Z) :
  length d = n -> Forall byte_ok d ->
  (snd (digest_increment n d) = 1 <-> nth 0 (fst (digest_increment n d)) 0 = 0) /\
  ((forall x, In x d -> x <> 0) ->
   be_value (fst (digest_increment n d))
   = (be_value d + 1) mod 256 ^ Z.of_nat n /\
   (snd (digest_increment n d) = 1 <-> be_value d = 256 ^ Z.of_nat n - 1)) /\
  ((2 <= n)%nat -> nth 0 d 0 = 0 -> 0 < nth 1 d 0 < 255 ->
   snd (digest_increment n d) = 1 /\
   be_value d + 1 < 256 ^ Z.of_nat (n - 1)).
Proof.
  intros Hlen Hd.
  destruct (digest_increment_inv n d Hlen Hd) as (Hl & Hb & Hc & Hz & Hval & Hdev).
  cbv zeta in *.
  split; [exact Hz|]. split.
  - intros Hnz. specialize (Hval Hnz).
    pose proof (be_value_bound _ Hb) as B1.
    pose proof (be_value_bound _ Hd) as B0.
    rewrite Hl in B1. rewrite Hlen in B0.
    split.
    + apply Z.mod_unique with (q := snd (digest_increment n d)); [lia|lia].
    + destruct Hc as [Hc|Hc]; rewrite Hc in *; lia.
  - intros Hn H0 H1. split; [now apply Hdev|].
    destruct d as [|x0 [|x1 t]]; cbn [length] in Hlen; [lia|lia|].
    cbn [nth] in H0, H1. subst x0.
    inversion Hd as [|? ? _ Hd']; subst. inversion Hd' as [|? ? _ Ht]; subst.
    pose proof (be_value_bound _ Ht) as Bt.
    rewrite !be_value_cons. cbn [length].
    replace (S (S (length t)) - 1)%nat with (S (length t)) by lia.
    rewrite Nat2Z.inj_succ, Z.pow_succ_r by lia.
    set (B := 256 ^ Z.of_nat (length t)) in *. nia.
Qed.

Lemma digest_increment_carry_witness :
  length sample_digest = 32%nat /\ Forall byte_ok sample_digest /\
  (2 <= 32)%nat /\
  nth 0 sample_digest 0 = 0 /\ 0 < nth 1 sample_digest 0 < 255 /\
  snd (digest_increment 32 sample_digest) = 1 /\
  be_value sample_digest + 1 < 256 ^ Z.of_nat (32 - 1).
Proof.
  assert (Hl : length sample_digest = 32%nat) by reflexivity.
  assert (Hb : Forall byte_ok sample_digest).
  { unfold sample_digest. repeat constructor; discriminate. }
  assert (Hn : (2 <= 32)%nat) by lia.
  assert (H0 : nth 0 sample_digest 0 = 0) by reflexivity.
  assert (H1 : 0 < nth 1 sample_digest 0 < 255) by (split; reflexivity).
  split; [exact Hl|]. split; [exact Hb|]. split; [exact Hn|].
  split; [exact H0|]. split; [exact H1|].
  destruct (digest_increment_carry 32 sample_digest Hl Hb) as (_ & _ & H).
  exact (H Hn H0 H1).
Defined.

(** ** REDP-1: the status *)

Section REDP_status.

Variable ec_t : Type.
Variable DIGEST_SIZE : nat.
Variable sha256 : list Z -> QStatus * list Z.
Variable fpimport_p256 : list Z -> digit256_t.
Variable fpmul_p256 : digit256_t -> digit256_t -> digit256_t.
Variable fpadd_p256 : digit256_t -> digit256_t -> digit256_t.
Variable fpissquare_p256 : digit256_t -> bool.
Variable fpsqrt_p256 : digit256_t -> digit256_t.
Variable fpneg_p256 : digit256_t -> digit256_t.
Variable ecpoint_validation : ecpoint_t -> ec_t -> bool.

Lemma REDP1_loop_result (fuel : nat) (d : list Z) (r : QStatus + ecpoint_t) :
  REDP1_loop DIGEST_SIZE sha256 fpimport_p256 fpmul_p256 fpadd_p256
    fpissquare_p256 fpsqrt_p256 fpneg_p256 fuel d = Some r ->
  match r with
  | inl st => is_ER_OK st = false
  | inr Q => fpissquare_p256 (REDP1_alpha fpmul_p256 fpadd_p256 (px Q)) = true
  end.
Proof.
  revert d. induction fuel as [|f IH]; intros d; [discriminate|].
  cbn [REDP1_loop].
  destruct (sha256 d) as [st O3].
  destruct (is_ER_OK st) eqn:Est; cbn [negb].
  - destruct (fpissquare_p256 (REDP1_alpha fpmul_p256 fpadd_p256 (fpimport_p256 O3)))
      eqn:Esq.
    + intros [= <-]. cbn [px]. exact Esq.
    + destruct (digest_increment DIGEST_SIZE d) as [d' c].
      destruct (c =? 0); cbn [negb].
      * apply IH.
      * intros [= <-]. reflexivity.
  - intros [= <-]. exact Est.
Qed.

(** [ec_REDP1] returns [ER_OK] only with a point that [ecpoint_validation]
    accepts and whose x coordinate passed the square test, and when it fails
    it leaves [Q] as it was unless the failure is that of the validation.
    It gives up with [ER_CRYPTO_ERROR] at the first candidate that is not on
    the curve when the digest starts with a zero byte followed by a byte
    that is neither 0 nor 255: the increment then reports an overflow that
    has not happened. *)
Theorem ec_REDP1_status (fuel : nat) (pi : list Z) (Q : ecpoint_t)
    (curve : ec_t) :
  (forall st Q',
     ec_REDP1 ec_t DIGEST_SIZE sha256 fpimport_p256 fpmul_p256 fpadd_p256
       fpissquare_p256 fpsqrt_p256 fpneg_p256 ecpoint_validation
       fuel pi Q curve
     = Some (st, Q') ->
     (st = ER_OK ->
      ecpoint_validation Q' curve = true /\
      fpissquare_p256 (REDP1_alpha fpmul_p256 fpadd_p256 (px Q')) = true) /\
     (st <> ER_OK ->
      Q' = Q \/ (st = ER_CRYPTO_ERROR /\ ecpoint_validation Q' curve = false))) /\
  (forall d O3,
     sha256 pi = (ER_OK, d) -> length d = DIGEST_SIZE ->
     (2 <= DIGEST_SIZE)%nat -> Forall byte_ok d ->
     sha256 d = (ER_OK, O3) ->
     fpissquare_p256 (REDP1_alpha fpmul_p256 fpadd_p256 (fpimport_p256 O3))
     = false ->
     nth 0 d 0 = 0 -> 0 < nth 1 d 0 < 255 ->
     ec_REDP1 ec_t DIGEST_SIZE sha256 fpimport_p256 fpmul_p256 fpadd_p256
       fpissquare_p256 fpsqrt_p256 fpneg_p256 ecpoint_validation
       (S fuel) pi Q curve
     = Some (ER_CRYPTO_ERROR, Q)).
Proof.
  split.
  - intros st Q'. unfold ec_REDP1.
    destruct (sha256 pi) as [st0 d].
    destruct (is_ER_OK st0) eqn:E0; cbn [negb].
    + destruct (REDP1_loop DIGEST_SIZE sha256 fpimport_p256 fpmul_p256
                  fpadd_p256 fpissquare_p256 fpsqrt_p256 fpneg_p256 fuel d)
        as [[st1|Q1]|] eqn:El; [| |discriminate].
      * pose proof (REDP1_loop_result _ _ _ El) as H. cbn in H.
        intros [= <- <-]. split.
        -- intros ->. discriminate H.
        -- intros _. now left.
      * pose proof (REDP1_loop_result _ _ _ El) as H. cbn beta iota in H.
        destruct (ecpoint_validation Q1 curve) eqn:Ev; cbn [negb];
          intros [= <- <-].
        -- split; [intros _; now split|]. intros Hne. now contradiction Hne.
        -- split; [discriminate|]. intros _. right. now split.
    + intros [= <- <-]. split.
      * intros ->. discriminate E0.
      * intros _. now left.
  - intros d O3 Hpi Hlen Hn Hb Hd Hsq H0 H1.
    unfold ec_REDP1. rewrite Hpi. cbn [is_ER_OK negb REDP1_loop].
    rewrite Hd. cbn [is_ER_OK negb]. rewrite Hsq.
    destruct (digest_increment_inv DIGEST_SIZE d Hlen Hb)
      as (_ & _ & _ & _ & _ & Hdev).
    cbv zeta in Hdev. specialize (Hdev Hn H0 H1).
    destruct (digest_increment DIGEST_SIZE d) as [d' c]. cbn [snd] in Hdev.
    subst c. reflexivity.
Qed.

End REDP_status.

Lemma ec_REDP1_status_witness :
  sample_sha256 [] = (ER_OK, sample_digest) /\
  length sample_digest = 32%nat /\ (2 <= 32)%nat /\
  Forall byte_ok sample_digest /\
  sample_sha256 sample_digest = (ER_OK, sample_digest) /\
  sample_fpissquare
    (REDP1_alpha sample_fpop sample_fpop (sample_fpimport sample_digest))
  = false /\
  nth 0 sample_digest 0 = 0 /\ 0 < nth 1 sample_digest 0 < 255 /\
  ec_REDP1 unit 32 sample_sha256 sample_fpimport sample_fpop sample_fpop
    sample_fpissquare sample_fpmap sample_fpmap sample_validation
    1 [] (mkecpoint P256_A P256_B) tt
  = Some (ER_CRYPTO_ERROR, mkecpoint P256_A P256_B).
Proof.
  assert (Hl : length sample_digest = 32%nat) by reflexivity.
  assert (Hn : (2 <= 32)%nat) by lia.
  assert (Hb : Forall byte_ok sample_digest).
  { unfold sample_digest. repeat constructor; discriminate. }
  assert (H0 : nth 0 sample_digest 0 = 0) by reflexivity.
  assert (H1 : 0 < nth 1 sample_digest 0 < 255) by (split; reflexivity).
  split; [reflexivity|]. split; [exact Hl|]. split; [exact Hn|].
  split; [exact Hb|].
  split; [reflexivity|]. split; [reflexivity|]. split; [exact H0|].
  split; [exact H1|].
  destruct (ec_REDP1_status unit 32 sample_sha256 sample_fpimport sample_fpop
              sample_fpop sample_fpissquare sample_fpmap sample_fpmap
              sample_validation 0 [] (mkecpoint P256_A P256_B) tt) as [_ H].
  exact (H sample_digest sample_digest eq_refl Hl Hn Hb eq_refl eq_refl H0 H1).
Defined.

(** ** The binary encodings as numbers *)

Lemma nsum_split (n m : nat) (f : nat -> Z) :
  nsum (n + m) f = nsum n f + nsum m (fun i => f (n + i)%nat).
Proof.
  induction m as [|m IH].
  - rewrite Nat.add_0_r. cbn [nsum]. lia.
  - replace (n + S m)%nat with (S (n + m)) by lia. cbn [nsum].
    rewrite IH. lia.
Qed.

Lemma nsum_scale (n : nat) (k : Z) (f : nat -> Z) :
  nsum n (fun i => k * f i) = k * nsum n f.
Proof. induction n as [|n IH]; cbn [nsum]; [lia|]. rewrite IH. lia. Qed.

(** The number with the base 256 digits [f 0], [f 1], ..., least
    significant first. *)
Lemma bytes_sum_bound (n : nat) (f : nat -> Z) :
  (forall i, (i < n)%nat -> byte_ok (f i)) ->
  0 <= nsum n (fun i => f i * 256 ^ Z.of_nat i) < 256 ^ Z.of_nat n.
Proof.
  induction n as [|n IH]; intros H; cbn [nsum].
  - change (256 ^ Z.of_nat 0) with 1. lia.
  - specialize (IH ltac:(intros; apply H; lia)).
    pose proof (H n ltac:(lia)) as Hn. unfold byte_ok in Hn.
    rewrite Nat2Z.inj_succ, Z.pow_succ_r by lia.
    assert (0 < 256 ^ Z.of_nat n) by (apply Z.pow_pos_nonneg; lia).
    nia.
Qed.

Lemma bytes_sum_shift (n m : nat) (f : nat -> Z) :
  nsum (n + m) (fun i => f i * 256 ^ Z.of_nat i)
  = nsum n (fun i => f i * 256 ^ Z.of_nat i)
    + 256 ^ Z.of_nat n * nsum m (fun i => f (n + i)%nat * 256 ^ Z.of_nat i).
Proof.
  rewrite nsum_split. f_equal. rewrite <- nsum_scale.
  apply nsum_ext. intros i _.
  rewrite Nat2Z.inj_add, Z.pow_add_r by lia. ring.
Qed.

(** A byte string in network order, read from its end. *)
Lemma be_value_nth (l : list Z) :
  be_value l
  = nsum (length l) (fun i => nth (length l - 1 - i) l 0 * 256 ^ Z.of_nat i).
Proof.
  induction l as [|x t IH]; [reflexivity|].
  rewrite be_value_cons, IH. cbn [length nsum].
  replace (S (length t) - 1 - length t)%nat with 0%nat by lia. cbn [nth].
  rewrite Z.add_comm. f_equal.
  apply nsum_ext. intros i Hi.
  replace (S (length t) - 1 - i)%nat with (S (length t - 1 - i)) by lia.
  reflexivity.
Qed.

Lemma word_bytes (w : Z) :
  0 <= w < 2 ^ 32 ->
  u8 (Z.shiftr w 0) + 256 * u8 (Z.shiftr w 8) + 256 ^ 2 * u8 (Z.shiftr w 16)
  + 256 ^ 3 * u8 (Z.shiftr w 24) = w.
Proof.
  intros Hw. unfold u8. rewrite !Z.shiftr_div_pow2 by lia.
  change (2 ^ 0) with 1. change (2 ^ 8) with 256.
  change (2 ^ 16) with 65536. change (2 ^ 24) with 16777216.
  change (256 ^ 2) with 65536. change (256 ^ 3) with 16777216.
  change (2 ^ 32) with 4294967296 in Hw.
  rewrite Z.div_1_r.
  Z.div_mod_to_equations. lia.
Qed.

(** The 36 bytes of a big number are its base 256 digits. *)
Lemma bigval_bytes_value (x : bigval_t) :
  wf_bigval x ->
  nsum (4 * BIGLEN) (fun i => bigval_byte x i * 256 ^ Z.of_nat i) = uval x.
Proof.
  intros Hx.
  assert (Hw : forall k, (k < 9)%nat ->
    nsum 4 (fun r => bigval_byte x (4 * k + r) * 256 ^ Z.of_nat r) = word x k).
  { intros k Hk. cbn [nsum]. unfold bigval_byte.
    replace ((4 * k + 0) / 4)%nat with k by (apply Nat.div_unique with 0%nat; lia).
    replace ((4 * k + 1) / 4)%nat with k by (apply Nat.div_unique with 1%nat; lia).
    replace ((4 * k + 2) / 4)%nat with k by (apply Nat.div_unique with 2%nat; lia).
    replace ((4 * k + 3) / 4)%nat with k by (apply Nat.div_unique with 3%nat; lia).
    replace ((4 * k + 0) mod 4)%nat with 0%nat by (apply Nat.mod_unique with k; lia).
    replace ((4 * k + 1) mod 4)%nat with 1%nat by (apply Nat.mod_unique with k; lia).
    replace ((4 * k + 2) mod 4)%nat with 2%nat by (apply Nat.mod_unique with k; lia).
    replace ((4 * k + 3) mod 4)%nat with 3%nat by (apply Nat.mod_unique with k; lia).
    pose proof (word_bytes (word x k) (word_range x k Hx)) as H.
    change (8 * Z.of_nat 0) with 0. change (8 * Z.of_nat 1) with 8.
    change (8 * Z.of_nat 2) with 16. change (8 * Z.of_nat 3) with 24.
    change (256 ^ Z.of_nat 0) with 1. change (256 ^ Z.of_nat 1) with 256.
    change (256 ^ Z.of_nat 2) with (256 ^ 2).
    change (256 ^ Z.of_nat 3) with (256 ^ 3). lia. }
  assert (Hgroup : forall m, (m <= 9)%nat ->
    nsum (4 * m) (fun i => bigval_byte x i * 256 ^ Z.of_nat i)
    = lval (firstn m (data x))).
  { induction m as [|m IH]; intros Hm; [reflexivity|].
    replace (4 * S m)%nat with (4 * m + 4)%nat by lia.
    rewrite bytes_sum_shift, IH by lia.
    rewrite (firstn_succ_nth (data x) m)
      by (destruct Hx as [Hl _]; rewrite Hl; unfold BIGLEN; lia).
    rewrite lval_app, length_firstn, Nat.min_l
      by (destruct Hx as [Hl _]; rewrite Hl; unfold BIGLEN; lia).
    cbn [lval]. rewrite (Hw m) by lia. unfold word.
    replace (256 ^ Z.of_nat (4 * m)) with (2 ^ (32 * Z.of_nat m)).
    - ring.
    - change 256 with (2 ^ 8). rewrite <- Z.pow_mul_r by lia. f_equal. lia. }
  unfold BIGLEN. rewrite (Hgroup 9%nat) by lia.
  unfold uval. rewrite firstn_all2; [reflexivity|].
  destruct Hx as [Hl _]. rewrite Hl. unfold BIGLEN. lia.
Qed.
Lemma ones_sum (m : nat) :
  nsum m (fun i => 255 * 256 ^ Z.of_nat i) = 256 ^ Z.of_nat m - 1.
Proof.
  induction m as [|m IH]; [reflexivity|]. cbn [nsum]. rewrite IH.
  rewrite Nat2Z.inj_succ, Z.pow_succ_r by lia. lia.
Qed.

Lemma pow256 (n : nat) : 256 ^ Z.of_nat n = 2 ^ (8 * Z.of_nat n).
Proof. change 256 with (2 ^ 8). now rewrite <- Z.pow_mul_r by lia. Qed.

Lemma bigval_to_binary_mod (src : bigval_t) (tgt : list Z) (n : nat) :
  wf_bigval src -> length tgt = n ->
  length (bigval_to_binary src tgt n) = n /\
  Forall byte_ok (bigval_to_binary src tgt n) /\
  be_value (bigval_to_binary src tgt n) = sval src mod 2 ^ (8 * Z.of_nat n).
Proof.
  intros Hs Hlen.
  destruct (bigval_to_binary_bytes src tgt n Hlen) as [Hl Hb].
  set (out := bigval_to_binary src tgt n) in *. clearbody out.
  set (high := if big_is_negative src then 0xff else 0) in *.
  pose (g := fun i : nat =>
    if (i <? 4 * BIGLEN)%nat then bigval_byte src i else high).
  assert (Hg : forall i, byte_ok (g i)).
  { intros i. unfold g. destruct (i <? 4 * BIGLEN)%nat.
    - apply u8_byte.
    - unfold high, byte_ok. destruct (big_is_negative src); lia. }
  split; [exact Hl|]. split.
  { apply Forall_forall. intros x Hx.
    destruct (In_nth _ _ 0 Hx) as (j & Hj & <-).
    replace j with (n - 1 - (n - 1 - j))%nat by lia.
    rewrite Hb by lia. apply Hg. }
  rewrite be_value_nth, Hl.
  rewrite (nsum_ext n _ (fun i => g i * 256 ^ Z.of_nat i))
    by (intros i Hi; now rewrite Hb).
  pose proof (bigval_bytes_value src Hs) as Hu.
  pose proof (big_is_negative_uval src Hs) as Hsv.
  pose proof (sval_range src Hs) as Hr.
  pose proof (uval_range src Hs) as Hur.
  pose proof (big_is_negative_spec src Hs) as Hneg.
  rewrite <- pow256.
  assert (Hp : 0 < 256 ^ Z.of_nat n) by (apply Z.pow_pos_nonneg; lia).
  destruct (Nat.le_gt_cases n (4 * BIGLEN)) as [Hle|Hgt].
  - (* the high bytes are dropped *)
    rewrite (nsum_ext n _ (fun i => bigval_byte src i * 256 ^ Z.of_nat i)).
    2:{ intros i Hi. unfold g.
        destruct (Nat.ltb_spec i (4 * BIGLEN)); [reflexivity|lia]. }
    replace (4 * BIGLEN)%nat with (n + (4 * BIGLEN - n))%nat in Hu by lia.
    rewrite bytes_sum_shift in Hu.
    pose proof (bytes_sum_bound n (bigval_byte src)
                  ltac:(intros; apply u8_byte)) as Hbound.
    set (S1 := nsum n (fun i => bigval_byte src i * 256 ^ Z.of_nat i)) in *.
    set (S2 := nsum (4 * BIGLEN - n) _) in Hu.
    assert (H288 : 2 ^ 288 = 256 ^ Z.of_nat n * 256 ^ Z.of_nat (4 * BIGLEN - n)).
    { rewrite <- Z.pow_add_r by lia. rewrite <- Nat2Z.inj_add.
      replace (n + (4 * BIGLEN - n))%nat with 36%nat by (unfold BIGLEN in *; lia).
      reflexivity. }
    apply Z.mod_unique
      with (q := S2 - (if big_is_negative src
                       then 256 ^ Z.of_nat (4 * BIGLEN - n) else 0));
      [left; exact Hbound|].
    rewrite Hsv, <- Hu. destruct (big_is_negative src).
    + rewrite H288. ring.
    + ring.
  - (* the sign is extended *)
    replace n with (4 * BIGLEN + (n - 4 * BIGLEN))%nat at 1 by lia.
    rewrite bytes_sum_shift.
    rewrite (nsum_ext (4 * BIGLEN) _
               (fun i => bigval_byte src i * 256 ^ Z.of_nat i)).
    2:{ intros i Hi. unfold g.
        destruct (Nat.ltb_spec i (4 * BIGLEN)); [reflexivity|lia]. }
    rewrite Hu.
    rewrite (nsum_ext (n - 4 * BIGLEN) _
               (fun i => high * 256 ^ Z.of_nat i)).
    2:{ intros i Hi. unfold g.
        destruct (Nat.ltb_spec (4 * BIGLEN + i) (4 * BIGLEN)); [lia|reflexivity]. }
    assert (Hn : 256 ^ Z.of_nat n
                 = 2 ^ 288 * 256 ^ Z.of_nat (n - 4 * BIGLEN)).
    { change (2 ^ 288) with (256 ^ Z.of_nat (4 * BIGLEN)).
      rewrite <- Z.pow_add_r by lia. rewrite <- Nat2Z.inj_add.
      f_equal. f_equal. lia. }
    change (256 ^ Z.of_nat (4 * BIGLEN)) with (2 ^ 288).
    assert (Hm : 1 <= 256 ^ Z.of_nat (n - 4 * BIGLEN))
      by (pose proof (Z.pow_pos_nonneg 256 (Z.of_nat (n - 4 * BIGLEN))); lia).
    unfold high. destruct (big_is_negative src).
    + rewrite ones_sum.
      apply Z.mod_unique with (q := -1); [left|]; rewrite ?Hn; 
        symmetry in Hneg; apply Z.ltb_lt in Hneg; nia.
    + rewrite (nsum_ext _ _ (fun _ => 0)) by (intros; lia).
      assert (Hz : forall m, nsum m (fun _ => 0) = 0)
        by (induction m as [|m IH]; cbn [nsum]; lia).
      rewrite Hz.
      symmetry in Hneg. apply Z.ltb_ge in Hneg.
      apply Z.mod_unique with (q := 0); [left|]; rewrite ?Hn; nia.
Qed.

(** [bigval_to_binary] writes the two's complement of the number in
    [tgtlen] bytes, most significant byte first: read as an unsigned number
    the bytes are the signed value modulo [2 ^ (8 * tgtlen)], whether the
    buffer is shorter than the 36 bytes of a big number (the high bytes are
    dropped) or longer (the sign is extended), and whatever the buffer
    held.  In 36 bytes or more nothing is lost: the bytes read as a two's
    complement number are the signed value. *)
Theorem bigval_to_binary_value (src : bigval_t) (tgt : list Z) (n : nat) :
  wf_bigval src -> length tgt = n ->
  length (bigval_to_binary src tgt n) = n /\
  Forall byte_ok (bigval_to_binary src tgt n) /\
  be_value (bigval_to_binary src tgt n) = sval src mod 2 ^ (8 * Z.of_nat n) /\
  ((4 * BIGLEN <= n)%nat ->
   sval src
   = be_value (bigval_to_binary src tgt n)
     - (if 128 <=? nth 0 (bigval_to_binary src tgt n) 0
        then 2 ^ (8 * Z.of_nat n) else 0)).
Proof.
  intros Hs Hlen.
  destruct (bigval_to_binary_mod src tgt n Hs Hlen) as (Hl & Hb & Hv).
  destruct (bigval_to_binary_bytes src tgt n Hlen) as [_ Hbytes].
  split; [exact Hl|]. split; [exact Hb|]. split; [exact Hv|].
  intros Hn. unfold BIGLEN in Hn.
  pose proof (sval_range src Hs) as Hr.
  pose proof (big_is_negative_spec src Hs) as Hneg.
  assert (Hp : 2 ^ 288 <= 2 ^ (8 * Z.of_nat n))
    by (apply Z.pow_le_mono_r; lia).
  (* the first byte carries the sign *)
  assert (Hfirst : (128 <=? nth 0 (bigval_to_binary src tgt n) 0)
                   = big_is_negative src).
  { replace 0%nat with (n - 1 - (n - 1))%nat at 1 by lia.
    rewrite Hbytes by lia.
    destruct (Nat.ltb_spec (n - 1) (4 * BIGLEN)) as [Hlt|Hge].
    - assert (Hn36 : (n - 1 = 35)%nat) by (unfold BIGLEN in Hlt; lia).
      rewrite Hn36. unfold bigval_byte.
      change (35 / 4)%nat with MSW. change (8 * Z.of_nat (35 mod 4)) with 24.
      pose proof (word_range src MSW Hs) as Hw.
      unfold big_is_negative. rewrite s32_word by exact Hw.
      unfold u8. rewrite Z.shiftr_div_pow2 by lia.
      rewrite Z.mod_small
        by (split; [apply Z.div_pos; lia|apply Z.div_lt_upper_bound; lia]).
      destruct (Z.leb_spec (2 ^ 31) (word src MSW)) as [H31|H31].
      + assert (128 <= word src MSW / 2 ^ 24)
          by (apply Z.div_le_lower_bound; lia).
        rewrite (proj2 (Z.leb_le _ _)) by assumption.
        symmetry. apply Z.ltb_lt. lia.
      + assert (word src MSW / 2 ^ 24 < 128)
          by (apply Z.div_lt_upper_bound; lia).
        rewrite (proj2 (Z.leb_gt _ _)) by assumption.
        symmetry. apply Z.ltb_ge. lia.
    - destruct (big_is_negative src); reflexivity. }
  rewrite Hfirst, Hv, Hneg.
  destruct (Z.ltb_spec (sval src) 0) as [Hlt|Hge].
  - rewrite <- (Z_mod_plus_full (sval src) 1 (2 ^ (8 * Z.of_nat n))).
    rewrite Z.mod_small by lia. lia.
  - rewrite Z.mod_small by lia. lia.
Qed.

Lemma bigval_to_binary_value_witness :
  wf_bigval sample_negative /\ length (repeat 0 40) = 40%nat /\
  be_value (bigval_to_binary sample_negative (repeat 0 40) 40)
  = sval sample_negative mod 2 ^ (8 * Z.of_nat 40).
Proof.
  split; [exact wf_sample_negative|]. split; [reflexivity|].
  destruct (bigval_to_binary_value sample_negative (repeat 0 40) 40
              wf_sample_negative eq_refl) as (_ & _ & H & _).
  exact H.
Defined.
Lemma lor_low_high (w v k : Z) :
  0 <= k -> 0 <= w < 2 ^ k -> 0 <= v -> Z.lor w (v * 2 ^ k) = w + v * 2 ^ k.
Proof.
  intros Hk Hw Hv.
  rewrite <- Z.lxor_lor, <- Z.add_nocarry_lxor by (apply land_low_high; lia).
  reflexivity.
Qed.

Lemma binary_to_bigval_sum (src : list Z) (tgt : bigval_t) (n : nat) :
  Forall byte_ok src -> length (data tgt) = BIGLEN ->
  let m := Nat.min n (4 * BIGLEN) in
  let r := binary_to_bigval src tgt n in
  length (data r) = BIGLEN /\
  (forall k, 0 <= word r k < 2 ^ (8 * bytes_kept m k)) /\
  uval r = nsum m (fun i => nth (n - 1 - i) src 0 * 256 ^ Z.of_nat i).
Proof.
  intros Hsrc Htgt m r. subst r. unfold binary_to_bigval, uval, word.
  cbn [data].
  (* zeroing *)
  assert (H0 : length (for_range 0 BIGLEN (fun i t => upd t i 0) (data tgt))
               = BIGLEN /\
               forall k, (k < BIGLEN)%nat ->
                 nth k (for_range 0 BIGLEN (fun i t => upd t i 0) (data tgt)) 0
                 = 0).
  { change BIGLEN with (0 + BIGLEN)%nat at 2 4.
    apply (for_range_ind (fun j t => length t = BIGLEN /\
             forall k, (k < j)%nat -> nth k t 0 = 0)).
    - split; [assumption|]. intros; lia.
    - intros j t Hj [Hl Hz]. split; [now rewrite length_upd|].
      intros k Hk. destruct (Nat.eq_dec k j) as [->|Hne].
      + apply nth_upd_same. lia.
      + rewrite nth_upd_other by lia. apply Hz. lia. }
  destruct H0 as [Hl0 Hz0].
  set (t0 := for_range 0 BIGLEN (fun i t => upd t i 0) (data tgt)) in *.
  clearbody t0.
  assert (Ht0 : t0 = repeat 0 BIGLEN).
  { apply nth_ext with (d := 0) (d' := 0); [now rewrite repeat_length|].
    intros k Hk. rewrite Hz0 by lia. now rewrite nth_repeat. }
  fold m. change m with (0 + m)%nat at 1 3 5.
  apply (for_range_ind (fun i t => length t = BIGLEN /\
           (forall k, 0 <= nth k t 0 < 2 ^ (8 * bytes_kept i k)) /\
           lval t = nsum i (fun j => nth (n - 1 - j) src 0 * 256 ^ Z.of_nat j))).
  - split; [assumption|]. split; [|now rewrite Ht0].
    intros k. rewrite Ht0.
    replace (nth k (repeat 0 BIGLEN) 0) with 0
      by (destruct (Nat.lt_ge_cases k BIGLEN);
          [now rewrite nth_repeat|now rewrite nth_overflow by (rewrite repeat_length; lia)]).
    split; [lia|]. apply Z.pow_pos_nonneg; [lia|unfold bytes_kept; lia].
  - intros i t Hi (Hl & Hw & Hv).
    assert (Him : (i < n)%nat /\ (i < 4 * BIGLEN)%nat) by (unfold m in Hi; lia).
    assert (Hk0 : (i / 4 < BIGLEN)%nat).
    { apply Nat.Div0.div_lt_upper_bound. unfold BIGLEN in *. lia. }
    pose proof (Nat.div_mod i 4 ltac:(lia)) as Hdm.
    pose proof (Nat.mod_upper_bound i 4 ltac:(lia)) as Hmb.
    pose proof (byte_ok_nth src (n - 1 - i) Hsrc) as Hb. unfold byte_ok in Hb.
    set (v := nth (n - 1 - i) src 0) in *.
    set (sh := 8 * Z.of_nat (i mod 4)) in *.
    assert (Hsh : 0 <= sh <= 24) by (unfold sh; lia).
    assert (Hp : 0 < 2 ^ sh) by (apply Z.pow_pos_nonneg; lia).
    assert (Hp24 : 2 ^ sh <= 2 ^ 24) by (apply Z.pow_le_mono_r; lia).
    pose proof (Hw (i / 4)%nat) as Hwi. rewrite bytes_kept_at in Hwi.
    fold sh in Hwi.
    rewrite Z.shiftl_mul_pow2 by lia.
    rewrite u32_small by nia.
    rewrite lor_low_high by lia.
    split; [now rewrite length_upd|]. split.
    + intros k. rewrite bytes_kept_step.
      destruct (Nat.eqb_spec k (i / 4)) as [->|Hne].
      * rewrite nth_upd_same by lia. rewrite bytes_kept_at. fold sh.
        replace (8 * (Z.of_nat (i mod 4) + 1)) with (sh + 8) by (unfold sh; lia).
        rewrite Z.pow_add_r by lia. nia.
      * rewrite nth_upd_other by lia. apply Hw.
    + rewrite lval_upd by lia. cbn [nsum]. rewrite <- Hv. fold v.
      replace (256 ^ Z.of_nat i) with (2 ^ (32 * Z.of_nat (i / 4)) * 2 ^ sh).
      * ring.
      * rewrite <- Z.pow_add_r by lia. rewrite pow256. f_equal.
        unfold sh. lia.
Qed.

(** [binary_to_bigval] reads the last 36 bytes of the string as a number in
    network order, whatever the target held: bytes before them are ignored.
    A string of fewer than 36 bytes gives its value as a number that is not
    negative; the words [bigval_to_digit256] reads hold it completely when
    the string has at most 32 bytes. *)
Theorem binary_to_bigval_value (src : list Z) (tgt : bigval_t) (n : nat) :
  length src = n -> Forall byte_ok src -> length (data tgt) = BIGLEN ->
  wf_bigval (binary_to_bigval src tgt n) /\
  uval (binary_to_bigval src tgt n) = be_value (skipn (n - 4 * BIGLEN) src) /\
  ((n < 4 * BIGLEN)%nat ->
   sval (binary_to_bigval src tgt n) = be_value src /\
   big_is_negative (binary_to_bigval src tgt n) = false) /\
  ((n <= 32)%nat -> word (binary_to_bigval src tgt n) MSW = 0).
Proof.
  intros Hlen Hsrc Htgt.
  destruct (binary_to_bigval_sum src tgt n Hsrc Htgt) as (Hl & Hw & Hv).
  cbv zeta in *.
  set (r := binary_to_bigval src tgt n) in *. clearbody r.
  set (m := Nat.min n (4 * BIGLEN)) in *.
  assert (Hwf : wf_bigval r).
  { split; [exact Hl|]. apply Forall_forall. intros x Hx.
    destruct (In_nth _ _ 0 Hx) as (k & Hk & <-).
    pose proof (Hw k) as H. unfold word in H.
    assert (2 ^ (8 * bytes_kept m k) <= 2 ^ 32)
      by (apply Z.pow_le_mono_r; unfold bytes_kept; lia).
    lia. }
  assert (Hval : uval r = be_value (skipn (n - 4 * BIGLEN) src)).
  { rewrite Hv, be_value_nth, length_skipn, Hlen.
    replace (n - (n - 4 * BIGLEN))%nat with m by (unfold m; lia).
    apply nsum_ext. intros i Hi. f_equal.
    rewrite nth_skipn. f_equal. unfold m in Hi. lia. }
  split; [exact Hwf|]. split; [exact Hval|]. split.
  - intros Hlt.
    replace (n - 4 * BIGLEN)%nat with 0%nat in Hval by lia.
    cbn [skipn] in Hval.
    pose proof (be_value_bound src Hsrc) as Hb. rewrite Hlen in Hb.
    assert (Hp : 256 ^ Z.of_nat n <= 2 ^ 280).
    { rewrite pow256. apply Z.pow_le_mono_r; unfold BIGLEN in *; lia. }
    assert (Hs : sval r = uval r).
    { apply sval_unique with 0; [exact Hwf|lia|]. rewrite Hval. lia. }
    split; [now rewrite Hs|].
    rewrite (big_is_negative_spec r Hwf), Hs, Hval.
    apply Z.ltb_ge. lia.
  - intros Hle. pose proof (Hw MSW) as H.
    replace (bytes_kept m MSW) with 0 in H
      by (unfold bytes_kept, m, MSW, BIGLEN; lia).
    change (2 ^ (8 * 0)) with 1 in H. lia.
Qed.

Lemma binary_to_bigval_value_witness :
  length sample_digest = 32%nat /\ Forall byte_ok sample_digest /\
  length (data sample_negative) = BIGLEN /\
  sval (binary_to_bigval sample_digest sample_negative 32)
  = be_value sample_digest.
Proof.
  assert (Hb : Forall byte_ok sample_digest).
  { unfold sample_digest. repeat constructor; discriminate. }
  split; [reflexivity|]. split; [exact Hb|]. split; [reflexivity|].
  destruct (binary_to_bigval_value sample_digest sample_negative 32
              eq_refl Hb eq_refl) as (_ & _ & H & _).
  apply H. unfold BIGLEN. lia.
Defined.
(** ** The conversions between [digit256_t] and [bigval_t] as numbers *)

Lemma half_ranges (x : Z) :
  0 <= x < 2 ^ 64 -> 0 <= x mod 2 ^ 32 < 2 ^ 32 /\ 0 <= x / 2 ^ 32 < 2 ^ 32.
Proof.
  intros Hx. split; [apply Z.mod_pos_bound; lia|].
  split; [apply Z.div_pos; lia|].
  apply Z.div_lt_upper_bound; [lia|]. change (2 ^ 32 * 2 ^ 32) with (2 ^ 64). lia.
Qed.

Lemma halves_back (lo hi : Z) :
  0 <= lo < 2 ^ 32 -> 0 <= hi ->
  (lo + 2 ^ 32 * hi) mod 2 ^ 32 = lo /\ (lo + 2 ^ 32 * hi) / 2 ^ 32 = hi.
Proof.
  intros Hlo Hhi. split.
  - symmetry. apply Z.mod_unique with (q := hi); [left; lia|lia].
  - symmetry. apply Z.div_unique with (r := lo); [left; lia|lia].
Qed.

Lemma digit256_to_bigval_sval (e : endian) (d : digit256_t) (dst : bigval_t) :
  wf_digit256 d -> length (data dst) = BIGLEN ->
  wf_bigval (digit256_to_bigval e d dst) /\
  sval (digit256_to_bigval e d dst) = digits_value d /\
  0 <= digits_value d < 2 ^ 256.
Proof.
  intros [Hlen Hd] Hdst. destruct dst as [l]. cbn [data] in Hdst.
  do 4 (destruct d as [|? d]; [discriminate Hlen|]).
  destruct d; [|discriminate Hlen].
  do 9 (destruct l as [|? l]; [discriminate Hdst|]).
  destruct l; [|discriminate Hdst].
  rename z into d0, z0 into d1, z1 into d2, z2 into d3.
  assert (E : digit256_to_bigval e [d0; d1; d2; d3]
                {| data := [z3; z4; z5; z6; z7; z8; z9; z10; z11] |}
              = mkbig [d0 mod 2 ^ 32; d0 / 2 ^ 32; d1 mod 2 ^ 32; d1 / 2 ^ 32;
                       d2 mod 2 ^ 32; d2 / 2 ^ 32; d3 mod 2 ^ 32; d3 / 2 ^ 32;
                       0]).
  { destruct e;
      cbv [digit256_to_bigval memcpy_words swap_adjacent_words digit256_memory
           digit_words flat_map app for_range upd nth data BIGLEN Nat.sub
           Nat.mul Nat.add];
      reflexivity. }
  rewrite E. clear E.
  inversion Hd as [|? ? H0 Hd1]; subst. inversion Hd1 as [|? ? H1 Hd2]; subst.
  inversion Hd2 as [|? ? H2 Hd3]; subst. inversion Hd3 as [|? ? H3 _]; subst.
  pose proof (half_ranges d0 H0) as [R0 R0'].
  pose proof (half_ranges d1 H1) as [R1 R1'].
  pose proof (half_ranges d2 H2) as [R2 R2'].
  pose proof (half_ranges d3 H3) as [R3 R3'].
  pose proof (digit_halves d0) as E0. pose proof (digit_halves d1) as E1.
  pose proof (digit_halves d2) as E2. pose proof (digit_halves d3) as E3.
  set (l0 := d0 mod 2 ^ 32) in *. set (h0 := d0 / 2 ^ 32) in *.
  set (l1 := d1 mod 2 ^ 32) in *. set (h1 := d1 / 2 ^ 32) in *.
  set (l2 := d2 mod 2 ^ 32) in *. set (h2 := d2 / 2 ^ 32) in *.
  set (l3 := d3 mod 2 ^ 32) in *. set (h3 := d3 / 2 ^ 32) in *.
  clearbody l0 h0 l1 h1 l2 h2 l3 h3.
  split; [|split].
  - split; [reflexivity|]. repeat (constructor; [lia|]). constructor.
  - unfold sval, uval, word, MSW. cbn [data nth lval digits_value].
    change (2 ^ 31 <=? 0) with false. cbv beta iota. lia.
  - cbn [digits_value]. lia.
Qed.
Lemma bigval_to_digit256_value (e : endian) (src : bigval_t) :
  wf_bigval src -> 0 <= sval src ->
  exists d,
    bigval_to_digit256 e src = Some d /\ wf_digit256 d /\
    digits_value d = sval src mod 2 ^ 256 /\
    (sval src < 2 ^ 256 -> forall dst, length (data dst) = BIGLEN ->
       digit256_to_bigval e d dst = src).
Proof.
  intros Hs Hpos.
  pose proof (big_is_negative_spec src Hs) as Hneg.
  assert (Hn : big_is_negative src = false)
    by (rewrite Hneg; apply Z.ltb_ge; lia).
  pose proof (big_is_negative_uval src Hs) as Hu. rewrite Hn in Hu.
  unfold bigval_to_digit256. rewrite Hn.
  explode src.
  assert (E : (match e with
               | QCC_LITTLE_ENDIAN =>
                   Some (memory_digit256 e
                     (memcpy_words (repeat 0 8)
                        (data (mkbig [a0; a1; a2; a3; a4; a5; a6; a7; a8]))))
               | QCC_BIG_ENDIAN =>
                   Some (memory_digit256 e (swap_adjacent_words
                     (memcpy_words (repeat 0 8)
                        (data (mkbig [a0; a1; a2; a3; a4; a5; a6; a7; a8])))))
               end)
              = Some [a0 + 2 ^ 32 * a1; a2 + 2 ^ 32 * a3; a4 + 2 ^ 32 * a5;
                      a6 + 2 ^ 32 * a7]).
  { destruct e; reflexivity. }
  rewrite E. clear E. eexists. split; [reflexivity|].
  unfold uval in Hu. cbn [data lval] in Hu.
  split; [|split].
  - split; [reflexivity|]. repeat (constructor; [lia|]). constructor.
  - cbn [digits_value].
    apply Z.mod_unique with (q := a8); [left; lia|lia].
  - intros Hlt dst Hdst. destruct dst as [l]. cbn [data] in Hdst.
    do 9 (destruct l as [|? l]; [discriminate Hdst|]).
    destruct l; [|discriminate Hdst].
    assert (a8 = 0) by lia. subst a8.
    destruct (halves_back a0 a1 ltac:(lia) ltac:(lia)) as [M0 D0].
    destruct (halves_back a2 a3 ltac:(lia) ltac:(lia)) as [M1 D1].
    destruct (halves_back a4 a5 ltac:(lia) ltac:(lia)) as [M2 D2].
    destruct (halves_back a6 a7 ltac:(lia) ltac:(lia)) as [M3 D3].
    destruct e;
      cbv [digit256_to_bigval memcpy_words swap_adjacent_words digit256_memory
           digit_words flat_map app for_range upd nth data BIGLEN Nat.sub
           Nat.mul Nat.add];
      rewrite M0, D0, M1, D1, M2, D2, M3, D3; reflexivity.
Qed.

(** The conversions between the two representations keep the number, on
    little-endian and on big-endian targets alike.  [digit256_to_bigval]
    returns the number of the four digits, between 0 and [2 ^ 256], whatever
    the target held.  [bigval_to_digit256] accepts every number that is not
    negative, also one of [2 ^ 256] or more, and returns it modulo
    [2 ^ 256]: the ninth word is dropped without a failure.  Below
    [2 ^ 256], converting back gives the same big number. *)
Theorem digit256_conversions_value (e : endian) (d : digit256_t)
    (dst src : bigval_t) :
  wf_digit256 d -> length (data dst) = BIGLEN -> wf_bigval src ->
  wf_bigval (digit256_to_bigval e d dst) /\
  sval (digit256_to_bigval e d dst) = digits_value d /\
  0 <= digits_value d < 2 ^ 256 /\
  (0 <= sval src ->
   exists d',
     bigval_to_digit256 e src = Some d' /\ wf_digit256 d' /\
     digits_value d' = sval src mod 2 ^ 256 /\
     (sval src < 2 ^ 256 -> digit256_to_bigval e d' dst = src)).
Proof.
  intros Hd Hdst Hs.
  destruct (digit256_to_bigval_sval e d dst Hd Hdst) as (W & V & R).
  split; [exact W|]. split; [exact V|]. split; [exact R|].
  intros Hpos.
  destruct (bigval_to_digit256_value e src Hs Hpos) as (d' & E & Wd & Vd & Hback).
  exists d'. split; [exact E|]. split; [exact Wd|]. split; [exact Vd|].
  intros Hlt. now apply Hback.
Qed.

Lemma digit256_conversions_value_witness :
  wf_digit256 sample_digits /\ length (data sample_negative) = BIGLEN /\
  wf_bigval sample_large /\ 0 <= sval sample_large /\
  sval (digit256_to_bigval QCC_BIG_ENDIAN sample_digits sample_negative)
  = digits_value sample_digits /\
  exists d',
    bigval_to_digit256 QCC_BIG_ENDIAN sample_large = Some d' /\
    digits_value d' = sval sample_large mod 2 ^ 256.
Proof.
  assert (Hd : wf_digit256 sample_digits).
  { split; [reflexivity|]. repeat constructor; discriminate. }
  assert (Hpos : 0 <= sval sample_large) by discriminate.
  split; [exact Hd|]. split; [reflexivity|]. split; [exact wf_sample_large|].
  split; [exact Hpos|].
  destruct (digit256_conversions_value QCC_BIG_ENDIAN sample_digits
              sample_negative sample_large Hd eq_refl wf_sample_large)
    as (_ & V & _ & H).
  split; [exact V|].
  destruct (H Hpos) as (d' & E & _ & Vd & _).
  exists d'. split; [exact E|exact Vd].
Defined.

(** ** A key written and read back *)

(** The path of a key through [Crypto_ECC_GenerateSPEKEKeyPair] and
    [Crypto_ECC_GenerateSharedSecret]: a field element converted by
    [digit256_to_bigval] and written by [bigval_to_binary] in at least 32
    bytes is the number of its digits in network order, with zero bytes (and
    never the sign extension [0xff]) in front; [binary_to_bigval] followed by
    [bigval_to_digit256] reads the same digits back, whatever the buffers
    held.  In fewer than 32 bytes the number is written modulo
    [2 ^ (8 * n)]. *)
Theorem key_bytes_roundtrip (e : endian) (d : digit256_t) (dst tgt : bigval_t)
    (buf : list Z) (n : nat) :
  wf_digit256 d -> length (data dst) = BIGLEN ->
  length (data tgt) = BIGLEN -> length buf = n ->
  let bytes := bigval_to_binary (digit256_to_bigval e d dst) buf n in
  be_value bytes = digits_value d mod 2 ^ (8 * Z.of_nat n) /\
  ((32 <= n)%nat ->
   be_value bytes = digits_value d /\
   (forall i, (32 <= i < n)%nat -> nth (n - 1 - i) bytes 0 = 0) /\
   bigval_to_digit256 e (binary_to_bigval bytes tgt n) = Some d).
Proof.
  intros Hd Hdst Htgt Hbuf bytes.
  destruct (digit256_to_bigval_sval e d dst Hd Hdst) as (W & V & R).
  pose proof (digit256_to_bigval_top e d dst Hd Hdst) as Htop.
  set (k := digit256_to_bigval e d dst) in *.
  destruct (bigval_to_binary_mod k buf n W Hbuf) as (Hl & Hb & Hv).
  destruct (bigval_to_binary_bytes k buf n Hbuf) as [_ Hbytes].
  fold bytes in Hl, Hb, Hv, Hbytes.
  rewrite V in Hv. split; [exact Hv|].
  intros Hn.
  assert (Hneg : big_is_negative k = false).
  { unfold big_is_negative. now rewrite Htop. }
  split; [|split].
  - rewrite Hv. apply Z.mod_small.
    assert (2 ^ 256 <= 2 ^ (8 * Z.of_nat n)) by (apply Z.pow_le_mono_r; lia).
    lia.
  - intros i Hi. rewrite Hbytes by lia.
    destruct (Nat.ltb_spec i (4 * BIGLEN)) as [Hlt|Hge].
    + unfold bigval_byte.
      assert (Hi8 : (i / 4 = 8)%nat).
      { symmetry. apply Nat.div_unique with (i - 32)%nat;
          unfold BIGLEN in *; lia. }
      rewrite Hi8. fold MSW. rewrite Htop. rewrite Z.shiftr_0_l. reflexivity.
    + now rewrite Hneg.
  - clearbody bytes.
    destruct (binary_to_bigval_words k bytes tgt n W Htgt) as [Hl' Hw].
    { intros i Hi Hi'. rewrite Hbytes by lia.
      destruct (Nat.ltb_spec i (4 * BIGLEN)); [reflexivity|lia]. }
    assert (Ek : binary_to_bigval bytes tgt n = k).
    { apply bigval_ext; [exact Hl'|apply W|].
      intros j Hj. rewrite Hw by assumption.
      destruct (Nat.eq_dec j MSW) as [->|Hne].
      - rewrite Htop. apply Z.mod_0_l.
        apply Z.pow_nonzero; [lia|unfold bytes_kept; lia].
      - replace (bytes_kept (Nat.min n (4 * BIGLEN)) j) with 4
          by (unfold bytes_kept, BIGLEN, MSW in *; lia).
        apply Z.mod_small. now apply word_range. }
    rewrite Ek. now apply digit256_roundtrip.
Qed.

Lemma key_bytes_roundtrip_witness :
  wf_digit256 sample_digits /\ length (data sample_negative) = BIGLEN /\
  length (data sample_large) = BIGLEN /\ length (repeat 7 32) = 32%nat /\
  (32 <= 32)%nat /\
  bigval_to_digit256 QCC_LITTLE_ENDIAN
    (binary_to_bigval
       (bigval_to_binary
          (digit256_to_bigval QCC_LITTLE_ENDIAN sample_digits sample_negative)
          (repeat 7 32) 32)
       sample_large 32)
  = Some sample_digits.
Proof.
  assert (Hd : wf_digit256 sample_digits).
  { split; [reflexivity|]. repeat constructor; discriminate. }
  split; [exact Hd|]. split; [reflexivity|]. split; [reflexivity|].
  split; [reflexivity|]. split; [apply Nat.le_refl|].
  destruct (key_bytes_roundtrip QCC_LITTLE_ENDIAN sample_digits sample_negative
              sample_large (repeat 7 32) 32 Hd eq_refl eq_refl eq_refl)
    as [_ H].
  destruct (H (Nat.le_refl 32)) as (_ & _ & E). exact E.
Defined.

(** ** Arrays of words as arrays of bytes *)

Lemma word_byte_ok (x : Z) (j : nat) : byte_ok (word_byte x j).
Proof. apply u8_byte. Qed.

Lemma memory_word_memory (e : endian) (x : Z) :
  word_ok x -> memory_word e (word_memory e x) = x.
Proof.
  intros Hx. pose proof (word_bytes x Hx) as H.
  destruct e; cbv [memory_word word_memory nth word_byte];
    change (8 * Z.of_nat 0) with 0; change (8 * Z.of_nat 1) with 8;
    change (8 * Z.of_nat 2) with 16; change (8 * Z.of_nat 3) with 24;
    change (256 ^ 2) with (2 ^ 16) in H; change (256 ^ 3) with (2 ^ 24) in H;
    change 256 with (2 ^ 8) in H; lia.
Qed.

Lemma store_word_spec (e : endian) (bytes : list Z) (cnt : nat) (v : Z) :
  (4 * cnt + 4 <= length bytes)%nat ->
  length (store_word e bytes cnt v) = length bytes /\
  (forall j, (j < 4)%nat ->
     nth (4 * cnt + j) (store_word e bytes cnt v) 0 = nth j (word_memory e v) 0) /\
  (forall i, (i < 4 * cnt \/ 4 * cnt + 4 <= i)%nat ->
     nth i (store_word e bytes cnt v) 0 = nth i bytes 0).
Proof.
  intros Hlen. unfold store_word. cbn [for_range].
  rewrite !length_upd. split; [reflexivity|]. split.
  - intros j Hj.
    destruct j as [|[|[|[|j]]]]; [| | | |lia];
      repeat first [rewrite nth_upd_same by (rewrite ?length_upd; lia)
                   |rewrite nth_upd_other by lia]; reflexivity.
  - intros i Hi. now rewrite !nth_upd_other by lia.
Qed.

Lemma load_store_word (e : endian) (bytes : list Z) (cnt : nat) (v : Z) :
  (4 * cnt + 4 <= length bytes)%nat -> word_ok v ->
  load_word e (store_word e bytes cnt v) cnt = v.
Proof.
  intros Hlen Hv.
  destruct (store_word_spec e bytes cnt v Hlen) as (_ & Hw & _).
  unfold load_word. cbn [seq map].
  rewrite !Hw by lia.
  rewrite <- (memory_word_memory e v Hv) at 5.
  f_equal. destruct e; reflexivity.
Qed.
Section ByteArrays_roundtrip.

Variable htobe32 : Z -> Z.
Variable betoh32 : Z -> Z.
Hypothesis htobe32_word : forall x, word_ok x -> word_ok (htobe32 x).
Hypothesis betoh32_htobe32 : forall x, word_ok x -> betoh32 (htobe32 x) = x.

Lemma U32ArrayToU8BeArray_spec (e : endian) (src : list Z) (len : nat)
    (dest : list Z) :
  (4 * len <= length dest)%nat ->
  length (U32ArrayToU8BeArray htobe32 e src len dest) = length dest /\
  (forall cnt j, (cnt < len)%nat -> (j < 4)%nat ->
     nth (4 * cnt + j) (U32ArrayToU8BeArray htobe32 e src len dest) 0
     = nth j (word_memory e (htobe32 (nth cnt src 0))) 0) /\
  (forall i, (4 * len <= i)%nat ->
     nth i (U32ArrayToU8BeArray htobe32 e src len dest) 0 = nth i dest 0).
Proof.
  intros Hlen. unfold U32ArrayToU8BeArray.
  pose (P := fun (k : nat) (out : list Z) =>
    length out = length dest /\
    (forall cnt j, (cnt < k)%nat -> (j < 4)%nat ->
       nth (4 * cnt + j) out 0
       = nth j (word_memory e (htobe32 (nth cnt src 0))) 0) /\
    (forall i, (4 * k <= i)%nat -> nth i out 0 = nth i dest 0)).
  match goal with |- context [for_range 0 len ?body dest] =>
    assert (HP : P (0 + len)%nat (for_range 0 len body dest));
    [apply for_range_ind|exact HP]
  end.
  - split; [reflexivity|]. split; [intros; lia|reflexivity].
  - intros k out Hk (Hl & Hw & Hrest).
    destruct (store_word_spec e out k (htobe32 (nth k src 0)) ltac:(lia))
      as (Hl' & Hw' & Hother).
    split; [congruence|]. split.
    + intros cnt j Hc Hj. destruct (Nat.eq_dec cnt k) as [->|Hne].
      * now apply Hw'.
      * rewrite Hother by lia. apply Hw; lia.
    + intros i Hi. rewrite Hother by lia. apply Hrest. lia.
Qed.

(** [U32ArrayToU8BeArray] writes the first [4 * len] bytes of [dest] and
    nothing else, and [U8BeArrayToU32Array] reads the words back provided
    [betoh32] undoes [htobe32]; it reads whole words only, so up to three
    bytes at the end of its input are ignored, and it leaves the words of
    its target after the first [len / 4] as they were. *)
Theorem byte_array_roundtrip (e : endian) (src dest dst : list Z)
    (len extra : nat) :
  Forall word_ok src -> (len <= length src)%nat ->
  (4 * len <= length dest)%nat -> (len <= length dst)%nat ->
  (extra < 4)%nat ->
  length (U32ArrayToU8BeArray htobe32 e src len dest) = length dest /\
  (forall i, (4 * len <= i)%nat ->
     nth i (U32ArrayToU8BeArray htobe32 e src len dest) 0 = nth i dest 0) /\
  length (U8BeArrayToU32Array betoh32 e
            (U32ArrayToU8BeArray htobe32 e src len dest) (4 * len + extra) dst)
  = length dst /\
  (forall cnt, (cnt < len)%nat ->
     nth cnt (U8BeArrayToU32Array betoh32 e
                (U32ArrayToU8BeArray htobe32 e src len dest)
                (4 * len + extra) dst) 0
     = nth cnt src 0) /\
  (forall cnt, (len <= cnt)%nat ->
     nth cnt (U8BeArrayToU32Array betoh32 e
                (U32ArrayToU8BeArray htobe32 e src len dest)
                (4 * len + extra) dst) 0
     = nth cnt dst 0).
Proof.
  intros Hsrc Hls Hld Hlt Hextra.
  destruct (U32ArrayToU8BeArray_spec e src len dest Hld) as (Hl & Hw & Hrest).
  set (bytes := U32ArrayToU8BeArray htobe32 e src len dest) in *.
  clearbody bytes.
  split; [exact Hl|]. split; [exact Hrest|].
  unfold U8BeArrayToU32Array.
  replace ((4 * len + extra) / 4)%nat with len
    by (apply Nat.div_unique with extra; lia).
  assert (Hload : forall cnt, (cnt < len)%nat ->
            betoh32 (load_word e bytes cnt) = nth cnt src 0).
  { intros cnt Hc.
    assert (Hx : word_ok (nth cnt src 0)) by (now apply nth_range).
    unfold load_word. cbn [seq map].
    rewrite !Hw by lia.
    replace (memory_word e _) with (htobe32 (nth cnt src 0)).
    - now apply betoh32_htobe32.
    - rewrite <- (memory_word_memory e (htobe32 (nth cnt src 0)))
        at 1 by now apply htobe32_word.
      f_equal. destruct e; reflexivity. }
  pose (P := fun (k : nat) (words : list Z) =>
    length words = length dst /\
    (forall cnt, (cnt < k)%nat -> nth cnt words 0 = nth cnt src 0) /\
    (forall cnt, (k <= cnt)%nat -> nth cnt words 0 = nth cnt dst 0)).
  match goal with |- context [for_range 0 len ?body dst] =>
    assert (HP : P (0 + len)%nat (for_range 0 len body dst));
    [apply for_range_ind|exact HP]
  end.
  - split; [reflexivity|]. split; [intros; lia|reflexivity].
  - intros k words Hk (Hlw & Hdone & Hkeep).
    split; [now rewrite length_upd|]. split.
    + intros cnt Hck. destruct (Nat.eq_dec cnt k) as [->|Hne].
      * rewrite nth_upd_same by lia. apply Hload. lia.
      * rewrite nth_upd_other by lia. apply Hdone; lia.
    + intros cnt Hc. rewrite nth_upd_other by lia. apply Hkeep. lia.
Qed.

End ByteArrays_roundtrip.
(** ** The shared secret *)

Lemma binary_to_bigval_small (src : list Z) (tgt : bigval_t) (n : nat) :
  length src = n -> Forall byte_ok src -> length (data tgt) = BIGLEN ->
  (n <= 32)%nat ->
  wf_bigval (binary_to_bigval src tgt n) /\
  sval (binary_to_bigval src tgt n) = be_value src /\
  0 <= be_value src < 2 ^ 256.
Proof.
  intros Hlen Hsrc Htgt Hn.
  destruct (binary_to_bigval_sum src tgt n Hsrc Htgt) as (Hl & Hw & Hv).
  cbv zeta in *.
  set (r := binary_to_bigval src tgt n) in *. clearbody r.
  replace (Nat.min n (4 * BIGLEN)) with n in * by (unfold BIGLEN; lia).
  assert (Hwf : wf_bigval r).
  { split; [exact Hl|]. apply Forall_forall. intros x Hx.
    destruct (In_nth _ _ 0 Hx) as (k & Hk & <-).
    pose proof (Hw k) as H. unfold word in H.
    assert (2 ^ (8 * bytes_kept n k) <= 2 ^ 32)
      by (apply Z.pow_le_mono_r; unfold bytes_kept; lia).
    lia. }
  assert (Hval : uval r = be_value src).
  { rewrite Hv, be_value_nth, Hlen. reflexivity. }
  pose proof (be_value_bound src Hsrc) as Hb. rewrite Hlen in Hb.
  assert (Hp : 256 ^ Z.of_nat n <= 2 ^ 256).
  { rewrite pow256. apply Z.pow_le_mono_r; lia. }
  split; [exact Hwf|]. split; [|lia].
  apply sval_unique with 0; [exact Hwf|lia|lia].
Qed.

Section SharedSecret_conversions.

Variable ec_t : Type.
Variable ec_getcurve : option ec_t.
Variable ecpoint_validation : ecpoint_t -> ec_t -> bool.
Variable ec_scalarmul : ecpoint_t -> digit256_t -> ec_t -> bool * ecpoint_t.
Variable ec_oncurve : ecpoint_t -> ec_t -> bool.
Variable ec_is_infinity : ecpoint_t -> ec_t -> bool.
Variable htobe32 : Z -> Z.
Variable U32_AFFINEPOINT_SZ : nat.

(** [Crypto_ECC_GenerateSharedSecret] returns [ER_OK] or [ER_FAIL], and with
    [ER_FAIL] it has not written [secret]: this holds on every path, and when
    [ec_getcurve] fails the result is [ER_FAIL].  When [ec_getcurve] gives a
    curve and the key material has at most 32 bytes, the conversions never
    fail and lose nothing, whatever the locals held: the point that
    [ecpoint_validation] and [ec_scalarmul] receive and the scalar are the
    numbers that the bytes of the public and of the private key spell in
    network order, and the status only depends on the curve library. *)
Theorem shared_secret_conversions (e : endian) (X Y D : list Z)
    (coordinateSize dSize : nat) (localSecret pub : affine_point_t)
    (pk : bigval_t) (secret : list Z) :
  let result :=
    Crypto_ECC_GenerateSharedSecret ec_t ec_getcurve ecpoint_validation
      ec_scalarmul ec_oncurve ec_is_infinity htobe32 U32_AFFINEPOINT_SZ
      e X Y coordinateSize D dSize localSecret pub pk secret in
  (fst result = ER_OK \/ result = (ER_FAIL, secret)) /\
  (ec_getcurve = None -> result = (ER_FAIL, secret)) /\
  forall curve : ec_t,
    ec_getcurve = Some curve ->
    length X = coordinateSize -> length Y = coordinateSize ->
    length D = dSize -> (coordinateSize <= 32)%nat -> (dSize <= 32)%nat ->
    Forall byte_ok X -> Forall byte_ok Y -> Forall byte_ok D ->
    length (data (ax pub)) = BIGLEN -> length (data (ay pub)) = BIGLEN ->
    length (data pk) = BIGLEN ->
    exists k qx qy,
      wf_digit256 k /\ wf_digit256 qx /\ wf_digit256 qy /\
      digits_value k = be_value D /\
      digits_value qx = be_value X /\ digits_value qy = be_value Y /\
      result
      = if negb (ecpoint_validation (mkecpoint qx qy) curve) then (ER_FAIL, secret)
        else
          let S := ec_scalarmul (mkecpoint qx qy) k curve in
          if ec_oncurve (snd S) curve && fst S then
            (ER_OK,
             U32ArrayToU8BeArray htobe32 e
               (affine_words
                  (mkaffine (digit256_to_bigval e (px (snd S)) (ax localSecret))
                            (digit256_to_bigval e (py (snd S)) (ay localSecret))
                            (ec_is_infinity (snd S) curve)))
               U32_AFFINEPOINT_SZ secret)
          else (ER_FAIL, secret).
Proof.
  intros result.
  split.
  { subst result. unfold Crypto_ECC_GenerateSharedSecret.
    destruct (ECDH_derive_pt _ _ _ _ _ _ _ _ _ _) as [[|] ls]; cbn [negb fst];
      [now left|now right]. }
  split.
  { intros Hnone. subst result.
    unfold Crypto_ECC_GenerateSharedSecret, ECDH_derive_pt.
    rewrite Hnone. reflexivity. }
  intros curve Hcurve HX HY HD Hc Hd BX BY BD Lx Ly Lk.
  destruct (binary_to_bigval_small X (ax pub) coordinateSize HX BX Lx Hc)
    as (Wx & Vx & Rx).
  destruct (binary_to_bigval_small Y (ay pub) coordinateSize HY BY Ly Hc)
    as (Wy & Vy & Ry).
  destruct (binary_to_bigval_small D pk dSize HD BD Lk Hd) as (Wk & Vk & Rk).
  destruct (bigval_to_digit256_value e _ Wk ltac:(lia)) as (k & Ek & Dk & Nk & _).
  destruct (bigval_to_digit256_value e _ Wx ltac:(lia)) as (qx & Ex & Dx & Nx & _).
  destruct (bigval_to_digit256_value e _ Wy ltac:(lia)) as (qy & Ey & Dy & Ny & _).
  exists k, qx, qy.
  split; [exact Dk|]. split; [exact Dx|]. split; [exact Dy|].
  split; [rewrite Nk, Vk; apply Z.mod_small; exact Rk|].
  split; [rewrite Nx, Vx; apply Z.mod_small; exact Rx|].
  split; [rewrite Ny, Vy; apply Z.mod_small; exact Ry|].
  subst result. unfold Crypto_ECC_GenerateSharedSecret, ECDH_derive_pt.
  rewrite Hcurve. cbn [ax ay]. rewrite Ek, Ex, Ey.
  destruct (ecpoint_validation (mkecpoint qx qy) curve); cbn [negb];
    [|reflexivity].
  destruct (ec_scalarmul (mkecpoint qx qy) k curve) as [aj S].
  cbn [fst snd]. cbv zeta.
  destruct (ec_oncurve S curve && aj); reflexivity.
Qed.

End SharedSecret_conversions.
Lemma byte_array_roundtrip_witness :
  (forall x, word_ok x -> word_ok (host_order x)) /\
  (forall x, word_ok x -> host_order (host_order x) = x) /\
  Forall word_ok (data sample_large) /\
  (9 <= length (data sample_large))%nat /\
  (4 * 9 <= length (repeat 0 40))%nat /\
  (9 <= length (data big_zero))%nat /\ (3 < 4)%nat /\
  forall cnt, (cnt < 9)%nat ->
    nth cnt (U8BeArrayToU32Array host_order QCC_BIG_ENDIAN
               (U32ArrayToU8BeArray host_order QCC_BIG_ENDIAN
                  (data sample_large) 9 (repeat 0 40))
               (4 * 9 + 3) (data big_zero)) 0
    = nth cnt (data sample_large) 0.
Proof.
  assert (H1 : forall x, word_ok x -> word_ok (host_order x))
    by (intros x Hx; exact Hx).
  assert (H2 : forall x, word_ok x -> host_order (host_order x) = x)
    by (intros x Hx; reflexivity).
  assert (H3 : Forall word_ok (data sample_large))
    by (apply wf_sample_large).
  assert (H4 : (9 <= length (data sample_large))%nat) by (cbn; lia).
  assert (H5 : (4 * 9 <= length (repeat 0 40))%nat) by (cbn; lia).
  assert (H6 : (9 <= length (data big_zero))%nat) by (cbn; lia).
  assert (H7 : (3 < 4)%nat) by lia.
  split; [exact H1|]. split; [exact H2|]. split; [exact H3|].
  split; [exact H4|]. split; [exact H5|]. split; [exact H6|].
  split; [exact H7|].
  destruct (byte_array_roundtrip host_order host_order H1 H2 QCC_BIG_ENDIAN
              (data sample_large) (repeat 0 40) (data big_zero) 9 3
              H3 H4 H5 H6 H7) as (_ & _ & _ & H & _).
  exact H.
Defined.

Lemma shared_secret_conversions_witness :
  Some tt = Some tt /\
  length sample_digest = 32%nat /\ length sample_digest = 32%nat /\
  length sample_digest = 32%nat /\ (32 <= 32)%nat /\ (32 <= 32)%nat /\
  Forall byte_ok sample_digest /\ Forall byte_ok sample_digest /\
  Forall byte_ok sample_digest /\
  length (data (ax affine_infinity)) = BIGLEN /\
  length (data (ay affine_infinity)) = BIGLEN /\
  length (data sample_negative) = BIGLEN /\
  fst (Crypto_ECC_GenerateSharedSecret unit (Some tt) sample_validation
         sample_scalarmul sample_validation sample_is_infinity host_order 19
         QCC_LITTLE_ENDIAN sample_digest sample_digest 32 sample_digest 32
         affine_infinity affine_infinity sample_negative (repeat 0 76))
  = ER_OK.
Proof.
  assert (Hb : Forall byte_ok sample_digest).
  { unfold sample_digest. repeat constructor; discriminate. }
  split; [reflexivity|]. split; [reflexivity|]. split; [reflexivity|].
  split; [reflexivity|]. split; [apply Nat.le_refl|].
  split; [apply Nat.le_refl|]. split; [exact Hb|]. split; [exact Hb|].
  split; [exact Hb|]. split; [reflexivity|]. split; [reflexivity|].
  split; [reflexivity|].
  destruct (shared_secret_conversions unit (Some tt) sample_validation
              sample_scalarmul sample_validation sample_is_infinity host_order
              19 QCC_LITTLE_ENDIAN sample_digest sample_digest sample_digest
              32 32 affine_infinity affine_infinity sample_negative
              (repeat 0 76)) as (_ & _ & H).
  destruct (H tt eq_refl eq_refl eq_refl eq_refl
              (Nat.le_refl 32) (Nat.le_refl 32) Hb Hb Hb eq_refl eq_refl
              eq_refl) as (k & qx & qy & _ & _ & _ & _ & _ & _ & E).
  rewrite E. reflexivity.
Defined.
